(** * voronoicell_2d: a shallow embedding of src/src/cell_2d.cc

    The cell is a convex polygon held in two parallel flat arenas, [pts]
    (coordinates, stored doubled) and [ed] (successor / predecessor indices),
    plus a scratch delete stack [ds].  C++ [double] is IEEE binary64, which is
    what Rocq's primitive [float] is; C++ [int] values are carried as [Z].
    The arithmetic on them is [2*k], [k+1], [k-1] and the doubling of a
    capacity with [<<=1], and it is exact in [Z]: the model follows the
    source while the results fit an [int].  For add_memory_vertices, which
    computes the array length [2*current_vertices] after the doubling, that
    is a capacity below 2^29, and for add_memory_ds a capacity below 2^30;
    past these the [int] arithmetic of the source wraps around and the
    model, which does not wrap, no longer follows it.  Raw pointers into an
    arena are offsets from its base. *)

From Stdlib Require Import Floats ZArith Lia String Ascii Bool.
From stdpp Require Import base list.

Open Scope Z_scope.

(** ** Outcomes of running a routine *)

Inductive outcome (A : Type) : Type :=
| Done (a : A)            (* the routine ran to completion *)
| Fatal (msg : string)    (* voropp_fatal_error: the process exits *)
| Undefined               (* an access outside an array: undefined behaviour *)
| Timeout.                (* the loop budget of the model ran out *)

Arguments Done {A} a.
Arguments Fatal {A} msg.
Arguments Undefined {A}.
Arguments Timeout {A}.

Definition bind {A B : Type} (m : outcome A) (k : A -> outcome B) : outcome B :=
  match m with
  | Done a => k a
  | Fatal msg => Fatal msg
  | Undefined => Undefined
  | Timeout => Timeout
  end.

Notation "'let!' x ':=' e 'in' k" := (bind e (fun x => k))
  (at level 10, x name, e at level 100, k at level 200).
Notation "'let!' ' pat ':=' e 'in' k" :=
  (bind e (fun x => match x with pat => k end))
  (at level 10, pat pattern, e at level 100, k at level 200).

(** ** Arrays *)

Definition rd {A : Type} (a : list A) (i : Z) : outcome A :=
  if 0 <=? i then
    match a !! Z.to_nat i with
    | Some v => Done v
    | None => Undefined
    end
  else Undefined.

Definition wr {A : Type} (a : list A) (i : Z) (v : A) : outcome (list A) :=
  if (0 <=? i) && (i <? Z.of_nat (length a))
  then Done (<[Z.to_nat i := v]> a)
  else Undefined.

(** [new T[n]]: storage whose initial contents are indeterminate; the
    contents are whatever the oracle [heap] holds. *)
Definition new_array {A : Type} (heap : nat -> A) (n : Z) : list A :=
  map heap (seq 0 (Z.to_nat n)).

(** [while(pp<ppe) *(npp++)=*(pp++);] with [ppe = src + n]. *)
Definition copy_prefix {A : Type} (src : list A) (n : Z) (dst : list A)
  : outcome (list A) :=
  if n <=? 0 then Done dst
  else if (n <=? Z.of_nat (length src)) && (n <=? Z.of_nat (length dst))
       then Done (take (Z.to_nat n) src ++ drop (Z.to_nat n) dst)
       else Undefined.

(** ** The cell *)

Record voronoicell_2d : Type := mk_cell {
  current_vertices : Z;
  current_delete_size : Z;
  p : Z;
  ed : list Z;
  pts : list float;
  ds : list Z;
  stacke : Z   (* offset of the end-of-stack pointer from [ds] *)
}.

Definition set_p (c : voronoicell_2d) (v : Z) : voronoicell_2d :=
  mk_cell (current_vertices c) (current_delete_size c) v (ed c) (pts c)
          (ds c) (stacke c).
Definition set_ed (c : voronoicell_2d) (v : list Z) : voronoicell_2d :=
  mk_cell (current_vertices c) (current_delete_size c) (p c) v (pts c)
          (ds c) (stacke c).
Definition set_pts (c : voronoicell_2d) (v : list float) : voronoicell_2d :=
  mk_cell (current_vertices c) (current_delete_size c) (p c) (ed c) v
          (ds c) (stacke c).
Definition set_ds (c : voronoicell_2d) (v : list Z) : voronoicell_2d :=
  mk_cell (current_vertices c) (current_delete_size c) (p c) (ed c) (pts c)
          v (stacke c).

(** Successor and predecessor of a vertex, read straight from the arena
    with a default outside it; used to state properties of a cell. *)
Definition succ_of (e : list Z) (v : Z) : Z := nth (Z.to_nat (2 * v)) e (-1).
Definition pred_of (e : list Z) (v : Z) : Z := nth (Z.to_nat (2 * v + 1)) e (-1).

Section Cell.

(** Modelled from the spec: the configuration constants live in a header
    that is not part of the sources at hand (tolerance, the initial and the
    absolute maximum capacities of the arenas and of the delete stack). *)
Variable tolerance : float.
Variable init_vertices : Z.
Variable init_delete_size : Z.
Variable max_vertices : Z.
Variable max_delete_size : Z.

(** Contents of freshly allocated storage. *)
Variable heap_int : nat -> Z.
Variable heap_double : nat -> float.

(** voronoicell_2d::voronoicell_2d(); [p] is not initialised by the
    constructor, so it starts with whatever [uninit_p] is. *)
Definition new_cell (uninit_p : Z) : voronoicell_2d :=
  mk_cell init_vertices init_delete_size uninit_p
          (new_array heap_int (2 * init_vertices))
          (new_array heap_double (2 * init_vertices))
          (new_array heap_int init_delete_size)
          init_delete_size.

(** voronoicell_2d::add_memory_vertices; the sizes are exact in [Z], which
    is what the source computes for a capacity below 2^29. *)
Definition add_memory_vertices (c : voronoicell_2d) : outcome voronoicell_2d :=
  let ppe := 2 * current_vertices c in
  let ede := 2 * current_vertices c in
  let cv := Z.shiftl (current_vertices c) 1 in
  if max_vertices <? cv
  then Fatal "Vertex memory allocation exceeded absolute maximum"
  else
    let! npts := copy_prefix (pts c) ppe (new_array heap_double (2 * cv)) in
    let! ned := copy_prefix (ed c) ede (new_array heap_int (2 * cv)) in
    Done (mk_cell cv (current_delete_size c) (p c) ned npts (ds c) (stacke c)).

(** voronoicell_2d::add_memory_ds; the caller's stack pointer keeps its
    offset in the new buffer.  The sizes are exact in [Z], which is what
    the source computes for a capacity below 2^30. *)
Definition add_memory_ds (c : voronoicell_2d) (stackp : Z)
  : outcome voronoicell_2d :=
  let cds := Z.shiftl (current_delete_size c) 1 in
  if max_delete_size <? cds
  then Fatal "Delete stack 1 memory allocation exceeded absolute maximum"
  else
    let! dsn := copy_prefix (ds c) stackp (new_array heap_int cds) in
    Done (mk_cell (current_vertices c) cds (p c) (ed c) (pts c) dsn cds).

(** voronoicell_2d::init *)
Definition init (c : voronoicell_2d) (xmin xmax ymin ymax : float)
  : outcome voronoicell_2d :=
  let c := set_p c 4 in
  let xmin := (xmin * 2)%float in
  let xmax := (xmax * 2)%float in
  let ymin := (ymin * 2)%float in
  let ymax := (ymax * 2)%float in
  let! a := wr (pts c) 0 xmin in let! a := wr a 1 ymin in
  let! a := wr a 2 xmax in let! a := wr a 3 ymin in
  let! a := wr a 4 xmax in let! a := wr a 5 ymax in
  let! a := wr a 6 xmin in let! a := wr a 7 ymax in
  let c := set_pts c a in
  let! q := wr (ed c) 0 1 in let! q := wr q 1 3 in
  let! q := wr q 2 2 in let! q := wr q 3 0 in
  let! q := wr q 4 3 in let! q := wr q 5 1 in
  let! q := wr q 6 0 in let! q := wr q 7 2 in
  Done (set_ed c q).

(** ** Queries *)

Fixpoint max_radius_squared_loop (fuel : nat) (a : list float)
    (ptsp ptse : Z) (r : float) : outcome float :=
  if ptsp <? ptse then
    match fuel with
    | O => Timeout
    | S fuel =>
        let! v := rd a ptsp in
        let s := (v * v)%float in
        let ptsp := ptsp + 1 in
        let! w := rd a ptsp in
        let s := (s + w * w)%float in
        let ptsp := ptsp + 1 in
        let r := if (r <? s)%float then s else r in
        max_radius_squared_loop fuel a ptsp ptse r
    end
  else Done r.

(** voronoicell_2d::max_radius_squared *)
Definition max_radius_squared (fuel : nat) (c : voronoicell_2d)
  : outcome float :=
  let ptsp := 2 in
  let ptse := 2 * p c in
  let! x0 := rd (pts c) 0 in
  let! y0 := rd (pts c) 1 in
  let r := (x0 * x0 + y0 * y0)%float in
  max_radius_squared_loop fuel (pts c) ptsp ptse r.

(** The do-while loop of perimeter, entered with the body still to run. *)
Fixpoint perimeter_loop (fuel : nat) (c : voronoicell_2d) (k : Z)
    (perim : float) : outcome float :=
  match fuel with
  | O => Timeout
  | S fuel =>
      let! l := rd (ed c) (2 * k) in
      let! xk := rd (pts c) (2 * k) in
      let! xl := rd (pts c) (2 * l) in
      let dx := (xk - xl)%float in
      let! yk := rd (pts c) (2 * k + 1) in
      let! yl := rd (pts c) (2 * l + 1) in
      let dy := (yk - yl)%float in
      let perim := (perim + PrimFloat.sqrt (dx * dx + dy * dy))%float in
      let k := l in
      if negb (k =? 0) then perimeter_loop fuel c k perim else Done perim
  end.

(** voronoicell_2d::perimeter *)
Definition perimeter (fuel : nat) (c : voronoicell_2d) : outcome float :=
  if p c =? 0 then Done 0%float
  else
    let! perim := perimeter_loop fuel c 0 0%float in
    Done (0.5 * perim)%float.

Fixpoint area_loop (fuel : nat) (c : voronoicell_2d) (k : Z)
    (area x y dx1 dy1 : float) : outcome float :=
  if negb (k =? 0) then
    match fuel with
    | O => Timeout
    | S fuel =>
        let! xk := rd (pts c) (2 * k) in
        let dx2 := (xk - x)%float in
        let! yk := rd (pts c) (2 * k + 1) in
        let dy2 := (yk - y)%float in
        let area := (area + (dx1 * dy2 - dx2 * dy1))%float in
        let! k := rd (ed c) (2 * k) in
        area_loop fuel c k area x y dx2 dy2
    end
  else Done area.

(** voronoicell_2d::area *)
Definition area (fuel : nat) (c : voronoicell_2d) : outcome float :=
  if p c =? 0 then Done 0%float
  else
    let! k := rd (ed c) 0 in
    let! x := rd (pts c) 0 in
    let! y := rd (pts c) 1 in
    let! xk := rd (pts c) (2 * k) in
    let dx1 := (xk - x)%float in
    let! yk := rd (pts c) (2 * k + 1) in
    let dy1 := (yk - y)%float in
    let! k := rd (ed c) (2 * k) in
    let! a := area_loop fuel c k 0%float x y dx1 dy1 in
    Done (0.125 * a)%float.

(** The while loop of centroid; yields the accumulators (tarea, cx, cy). *)
Fixpoint centroid_loop (fuel : nat) (c : voronoicell_2d) (k : Z)
    (tarea cx cy x y dx1 dy1 : float) : outcome (float * float * float) :=
  if negb (k =? 0) then
    match fuel with
    | O => Timeout
    | S fuel =>
        let! xk := rd (pts c) (2 * k) in
        let dx2 := (xk - x)%float in
        let! yk := rd (pts c) (2 * k + 1) in
        let dy2 := (yk - y)%float in
        let area := (dx1 * dy2 - dx2 * dy1)%float in
        let tarea := (tarea + area)%float in
        let cx := (cx + area * (dx1 + dx2))%float in
        let cy := (cy + area * (dy1 + dy2))%float in
        let! k := rd (ed c) (2 * k) in
        centroid_loop fuel c k tarea cx cy x y dx2 dy2
    end
  else Done (tarea, cx, cy).

(** The accumulators of the triangle fan anchored at vertex 0, as centroid
    computes them before its final division. *)
Definition centroid_fan (fuel : nat) (c : voronoicell_2d)
  : outcome (float * float * float * float * float) :=
  let! k := rd (ed c) 0 in
  let! x := rd (pts c) 0 in
  let! y := rd (pts c) 1 in
  let! xk := rd (pts c) (2 * k) in
  let dx1 := (xk - x)%float in
  let! yk := rd (pts c) (2 * k + 1) in
  let dy1 := (yk - y)%float in
  let! k := rd (ed c) (2 * k) in
  let! ' (tarea, cx, cy) := centroid_loop fuel c k 0%float 0%float 0%float
                                      x y dx1 dy1 in
  Done (tarea, cx, cy, x, y).

(** voronoicell_2d::centroid; the two reference arguments are the result. *)
Definition centroid (fuel : nat) (c : voronoicell_2d)
  : outcome (float * float) :=
  let cx := 0%float in
  let cy := 0%float in
  let third := (1 / 3)%float in
  if p c =? 0 then Done (cx, cy)
  else
    let! ' (tarea, cx, cy, x, y) := centroid_fan fuel c in
    let tarea := (third / tarea)%float in
    let cx := (0.5 * (x + cx * tarea))%float in
    let cy := (0.5 * (y + cy * tarea))%float in
    Done (cx, cy).

(** ** Custom output *)

(** What reaches the file handle, one entry per library call. *)
Inductive sink_event : Type :=
| Putc (ch : ascii)               (* putc(ch,fp) *)
| Printf_d (n : Z)                (* fprintf(fp,"%d",n) *)
| Printf_g (v : float)            (* fprintf(fp,"%g",v) *)
| Printf_g_g (v w : float)        (* fprintf(fp,"%g %g",v,w) *)
| Fputs (s : string).             (* fputs(s,fp) *)

Definition newline : string := String (ascii_of_nat 10) EmptyString.

(** The switch on the character after a percent sign, the end-of-string
    case apart. *)
Definition control_sequence (fuel : nat) (c : voronoicell_2d) (ctl : ascii)
    (i : Z) (x y r : float) (fp : list sink_event)
  : outcome (list sink_event) :=
  if (ctl =? "i")%char then Done (fp ++ [Printf_d i])
  else if (ctl =? "x")%char then Done (fp ++ [Printf_g x])
  else if (ctl =? "y")%char then Done (fp ++ [Printf_g y])
  else if (ctl =? "q")%char then Done (fp ++ [Printf_g_g x y])
  else if (ctl =? "r")%char then Done (fp ++ [Printf_g r])
  else if (ctl =? "w")%char then Done (fp ++ [Printf_d (p c)])
  else if (ctl =? "m")%char then
    let! m := max_radius_squared fuel c in
    Done (fp ++ [Printf_g (0.25 * m)%float])
  else if (ctl =? "p")%char then
    let! v := perimeter fuel c in Done (fp ++ [Printf_g v])
  else if (ctl =? "a")%char then
    let! v := area fuel c in Done (fp ++ [Printf_g v])
  else if (ctl =? "c")%char then
    let! ' (cx, cy) := centroid fuel c in Done (fp ++ [Printf_g_g cx cy])
  else if (ctl =? "C")%char then
    let! ' (cx, cy) := centroid fuel c in
    Done (fp ++ [Printf_g_g (x + cx)%float (y + cy)%float])
  else Done (fp ++ [Putc "%"%char; Putc ctl]).

(** The scan of the format.  [fmp] is what is left of the C string from
    the read pointer on, the terminating zero not included; a zero
    character inside ends the string as well.  A percent sign that is the
    last character steps back and forth over itself and the scan ends. *)
Fixpoint output_custom_loop (fuel : nat) (c : voronoicell_2d) (fmp : string)
    (i : Z) (x y r : float) (fp : list sink_event)
  : outcome (list sink_event) :=
  match fmp with
  | EmptyString => Done fp
  | String ch rest =>
      if (ch =? zero)%char then Done fp
      else if (ch =? "%")%char then
        match rest with
        | EmptyString => Done fp
        | String ctl rest' =>
            if (ctl =? zero)%char then Done fp
            else
              let! fp := control_sequence fuel c ctl i x y r fp in
              output_custom_loop fuel c rest' i x y r fp
        end
      else output_custom_loop fuel c rest i x y r (fp ++ [Putc ch])
  end.

(** voronoicell_2d::output_custom *)
Definition output_custom (fuel : nat) (c : voronoicell_2d) (format : string)
    (i : Z) (x y r : float) (fp : list sink_event)
  : outcome (list sink_event) :=
  let! fp := output_custom_loop fuel c format i x y r fp in
  Done (fp ++ [Fputs newline]).

(** ** The clipping kernel *)

(** Modelled from the spec: pos is declared inline in the header, which is
    not part of the sources at hand; the spec gives it as
    [x*X(v) + y*Y(v) - rsq] over the stored coordinates. *)
Definition pos (c : voronoicell_2d) (x y rsq : float) (qp : Z)
  : outcome float :=
  let! vx := rd (pts c) (2 * qp) in
  let! vy := rd (pts c) (2 * qp + 1) in
  Done (x * vx + y * vy - rsq)%float.

(** The two searches for a vertex to delete; [None] stands for the
    [return true] inside the loop. *)
Fixpoint find_succ (fuel : nat) (c : voronoicell_2d) (x y rsq : float)
    (up2 : Z) (u2 : float) (up3 : Z) : outcome (option (Z * float)) :=
  if (u2 <? tolerance)%float then
    match fuel with
    | O => Timeout
    | S fuel =>
        let! up2 := rd (ed c) (2 * up2) in
        let! u2 := pos c x y rsq up2 in
        if up2 =? up3 then Done None
        else find_succ fuel c x y rsq up2 u2 up3
    end
  else Done (Some (up2, u2)).

Fixpoint find_pred (fuel : nat) (c : voronoicell_2d) (x y rsq : float)
    (up2 : Z) (up3 : Z) (u3 : float) : outcome (option (Z * float)) :=
  if (u3 <? tolerance)%float then
    match fuel with
    | O => Timeout
    | S fuel =>
        let! up3 := rd (ed c) (2 * up3 + 1) in
        let! u3 := pos c x y rsq up3 in
        if up2 =? up3 then Done None
        else find_pred fuel c x y rsq up2 up3 u3
    end
  else Done (Some (up3, u3)).

(** Lines 133-152: the vertex [up] the deletion starts from, with its
    [pos] value. *)
Definition find_outside (fuel : nat) (c : voronoicell_2d) (x y rsq : float)
  : outcome (option (Z * float)) :=
  let up := 0 in
  let! u := pos c x y rsq up in
  if (u <? tolerance)%float then
    let! up2 := rd (ed c) (2 * up) in
    let! u2 := pos c x y rsq up2 in
    let! up3 := rd (ed c) (2 * up + 1) in
    let! u3 := pos c x y rsq up3 in
    if (u3 <? u2)%float
    then find_succ fuel c x y rsq up2 u2 up3
    else find_pred fuel c x y rsq up2 up3 u3
  else Done (Some (up, u)).

(** [*(stackp++)=v], after growing the stack when it is full. *)
Definition push (c : voronoicell_2d) (stackp : Z) (v : Z)
  : outcome (voronoicell_2d * Z) :=
  let! c := (if stackp =? stacke c then add_memory_ds c stackp else Done c) in
  let! d := wr (ds c) stackp v in
  Done (set_ds c d, stackp + 1).

(** Lines 159-166; [None] stands for the [return false]. *)
Fixpoint sweep_succ (fuel : nat) (c : voronoicell_2d) (x y rsq : float)
    (up : Z) (stackp : Z) (up2 : Z) (l u2 : float)
  : outcome (voronoicell_2d * option (Z * Z * float * float)) :=
  if (tolerance <? u2)%float then
    match fuel with
    | O => Timeout
    | S fuel =>
        let! ' (c, stackp) := push c stackp up2 in
        let! up2 := rd (ed c) (2 * up2) in
        let l := u2 in
        let! u2 := pos c x y rsq up2 in
        if up2 =? up then Done (c, None)
        else sweep_succ fuel c x y rsq up stackp up2 l u2
    end
  else Done (c, Some (stackp, up2, l, u2)).

(** Lines 187-194; the [break] leaves the loop with the state at hand. *)
Fixpoint sweep_pred (fuel : nat) (c : voronoicell_2d) (x y rsq : float)
    (up2 : Z) (stackp : Z) (up3 : Z) (l u3 : float)
  : outcome (voronoicell_2d * (Z * Z * float * float)) :=
  if (tolerance <? u3)%float then
    match fuel with
    | O => Timeout
    | S fuel =>
        let! ' (c, stackp) := push c stackp up3 in
        let! up3 := rd (ed c) (2 * up3 + 1) in
        let l := u3 in
        let! u3 := pos c x y rsq up3 in
        if up3 =? up2 then Done (c, (stackp, up3, l, u3))
        else sweep_pred fuel c x y rsq up2 stackp up3 l u3
    end
  else Done (c, (stackp, up3, l, u3)).

(** The new vertex on the edge between [up] and its neighbour [lp] on the
    deleted side, written to slot [p]. *)
Definition new_vertex (c : voronoicell_2d) (lp up : Z) (l u : float)
  : outcome voronoicell_2d :=
  let fac := (1 / (u - l))%float in
  let! xl := rd (pts c) (2 * lp) in
  let! xu := rd (pts c) (2 * up) in
  let! a := wr (pts c) (2 * p c) ((xl * u - xu * l) * fac)%float in
  let c := set_pts c a in
  let! yl := rd (pts c) (2 * lp + 1) in
  let! yu := rd (pts c) (2 * up + 1) in
  let! a := wr (pts c) (2 * p c + 1) ((yl * u - yu * l) * fac)%float in
  Done (set_pts c a).

(** Lines 171-182; yields the cell and [cp]. *)
Definition cut_succ (c : voronoicell_2d) (up2 : Z) (l u2 : float)
  : outcome (voronoicell_2d * Z) :=
  if (- tolerance <? u2)%float then Done (c, up2)
  else
    let! c := (if p c =? current_vertices c
               then add_memory_vertices c else Done c) in
    let! lp := rd (ed c) (2 * up2 + 1) in
    let! c := new_vertex c lp up2 l u2 in
    let! e := wr (ed c) (2 * p c) up2 in
    let! e := wr e (2 * up2 + 1) (p c) in
    let c := set_ed c e in
    let cp := p c in
    Done (set_p c (p c + 1), cp).

(** Lines 199-212. *)
Definition cut_pred (c : voronoicell_2d) (cp up3 : Z) (l u3 : float)
  : outcome voronoicell_2d :=
  if (tolerance <? u3)%float then
    let! e := wr (ed c) (2 * cp + 1) up3 in
    let! e := wr e (2 * up3) cp in
    Done (set_ed c e)
  else
    let! c := (if p c =? current_vertices c
               then add_memory_vertices c else Done c) in
    let! lp := rd (ed c) (2 * up3) in
    let! c := new_vertex c lp up3 l u3 in
    let! e := wr (ed c) (2 * p c) cp in
    let! e := wr e (2 * cp + 1) (p c) in
    let! e := wr e (2 * p c + 1) up3 in
    let! e := wr e (2 * up3) (p c) in
    Done (set_p (set_ed c e) (p c + 1)).

(** Line 215: [for(int *sp=ds;sp<stackp;sp++) ed[*sp*2]=-1;] *)
Fixpoint mark_deleted (fuel : nat) (c : voronoicell_2d) (sp stackp : Z)
  : outcome voronoicell_2d :=
  if sp <? stackp then
    match fuel with
    | O => Timeout
    | S fuel =>
        let! v := rd (ds c) sp in
        let! e := wr (ed c) (v * 2) (-1) in
        mark_deleted fuel (set_ed c e) (sp + 1) stackp
    end
  else Done c.

(** Line 219: [while(ed[2*--p]==-1);], yielding the new [p]. *)
Fixpoint skip_deleted (fuel : nat) (e : list Z) (q : Z) : outcome Z :=
  match fuel with
  | O => Timeout
  | S fuel =>
      let q := q - 1 in
      let! s := rd e (2 * q) in
      if s =? -1 then skip_deleted fuel e q else Done q
  end.

(** Lines 221-228: the last live vertex, at [p], takes the place of the
    deleted vertex [up]. *)
Definition relocate (c : voronoicell_2d) (up : Z) : outcome voronoicell_2d :=
  if up <? p c then
    let! s := rd (ed c) (2 * p c) in
    let! e := wr (ed c) (2 * s + 1) up in
    let! q := rd e (2 * p c + 1) in
    let! e := wr e (2 * q) up in
    let! vx := rd (pts c) (2 * p c) in
    let! a := wr (pts c) (2 * up) vx in
    let! vy := rd a (2 * p c + 1) in
    let! a := wr a (2 * up + 1) vy in
    let! s := rd e (2 * p c) in
    let! e := wr e (2 * up) s in
    let! q := rd e (2 * p c + 1) in
    let! e := wr e (2 * up + 1) q in
    Done (set_pts (set_ed c e) a)
  else Done (set_p c (p c + 1)).

(** Lines 218-229. *)
Fixpoint compact (fuel : nat) (c : voronoicell_2d) (stackp : Z)
  : outcome voronoicell_2d :=
  if 0 <? stackp then
    match fuel with
    | O => Timeout
    | S fuel =>
        let! q := skip_deleted fuel (ed c) (p c) in
        let c := set_p c q in
        let stackp := stackp - 1 in
        let! up := rd (ds c) stackp in
        let! c := relocate c up in
        compact fuel c stackp
    end
  else Done c.

(** voronoicell_2d::plane *)
Definition plane (fuel : nat) (c : voronoicell_2d) (x y rsq : float)
  : outcome (bool * voronoicell_2d) :=
  let stackp := 0 in
  let! found := find_outside fuel c x y rsq in
  match found with
  | None => Done (true, c)
  | Some (up, u) =>
      let! d := wr (ds c) stackp up in
      let c := set_ds c d in
      let stackp := stackp + 1 in
      let l := u in
      let! up2 := rd (ed c) (2 * up) in
      let! u2 := pos c x y rsq up2 in
      let! ' (c, swept) := sweep_succ fuel c x y rsq up stackp up2 l u2 in
      match swept with
      | None => Done (false, c)
      | Some (stackp, up2, l, u2) =>
          let! ' (c, cp) := cut_succ c up2 l u2 in
          let l := u in
          let! up3 := rd (ed c) (2 * up + 1) in
          let! u3 := pos c x y rsq up3 in
          let! ' (c, (stackp, up3, l, u3)) :=
            sweep_pred fuel c x y rsq up2 stackp up3 l u3 in
          let! c := cut_pred c cp up3 l u3 in
          let! c := mark_deleted fuel c 0 stackp in
          let! c := compact fuel c stackp in
          Done (true, c)
      end
  end.

End Cell.

(** ** A sample configuration

    The values voro++ ships in its configuration header; they only serve
    to run the model on concrete cells. *)
Module Sample.
Definition tolerance : float := 0x1.b7cdfd9d7bdbbp-34%float.  (* 1e-10 *)
Definition init_vertices : Z := 256.
Definition init_delete_size : Z := 256.
Definition max_vertices : Z := 16777216.
Definition max_delete_size : Z := 16777216.

(** A freshly constructed cell over zeroed storage, with [p] zero. *)
Definition fresh : voronoicell_2d :=
  new_cell init_vertices init_delete_size (fun _ => 0) (fun _ => 0%float) 0.

(** A freshly constructed cell whose storage holds ones. *)
Definition fresh_ones : voronoicell_2d :=
  new_cell init_vertices init_delete_size (fun _ => 1) (fun _ => 1%float) 0.

(** The seed square [init(-1,1,-1,1)] written out. *)
Definition square : voronoicell_2d :=
  mk_cell init_vertices init_delete_size 4
    ([1; 3; 2; 0; 3; 1; 0; 2] ++ drop 8 (ed fresh))
    ([-2; -2; 2; -2; 2; 2; -2; 2]%float ++ drop 8 (pts fresh))
    (ds fresh) init_delete_size.

Definition plane := plane tolerance max_vertices max_delete_size
                          (fun _ => 0) (fun _ => 0%float).
End Sample.


(** ** Drawing the cell *)

(** What the drawing routines send to the file handle: one entry per
    [fprintf(fp,format,args...)], with the values of its arguments. *)
Inductive draw_event : Type :=
| Fprintf (format : string) (args : list float).

(** The format strings of the drawing routines. *)
Definition gnuplot_point : string := ("%g %g" ++ newline)%string.
Definition gnuplot_close : string :=
  ("%g %g" ++ newline ++ newline)%string.
Definition pov_sphere_cylinder : string :=
  ("sphere{<%g,%g,%g>,r}" ++ newline ++ "cylinder{<%g,%g,%g>,<")%string.
Definition pov_cylinder_end : string := ("%g,%g,%g>,r}" ++ newline)%string.

(** The do-while loop of draw_gnuplot, entered with the body still to
    run. *)
Fixpoint draw_gnuplot_loop (fuel : nat) (c : voronoicell_2d) (x y : float)
    (k : Z) (fp : list draw_event) : outcome (list draw_event) :=
  match fuel with
  | O => Timeout
  | S fuel =>
      let! xk := rd (pts c) (2 * k) in
      let! yk := rd (pts c) (2 * k + 1) in
      let fp := fp ++ [Fprintf gnuplot_point
                         [x + 0.5 * xk; y + 0.5 * yk]%float] in
      let! k := rd (ed c) (2 * k) in
      if negb (k =? 0) then draw_gnuplot_loop fuel c x y k fp else Done fp
  end.

(** voronoicell_2d::draw_gnuplot *)
Definition draw_gnuplot (fuel : nat) (c : voronoicell_2d) (x y : float)
    (fp : list draw_event) : outcome (list draw_event) :=
  if p c =? 0 then Done fp
  else
    let! fp := draw_gnuplot_loop fuel c x y 0 fp in
    let! x0 := rd (pts c) 0 in
    let! y0 := rd (pts c) 1 in
    Done (fp ++ [Fprintf gnuplot_close [x + 0.5 * x0; y + 0.5 * y0]%float]).

(** The do-while loop of draw_pov. *)
Fixpoint draw_pov_loop (fuel : nat) (c : voronoicell_2d) (x y z : float)
    (k : Z) (fp : list draw_event) : outcome (list draw_event) :=
  match fuel with
  | O => Timeout
  | S fuel =>
      let! xk := rd (pts c) (2 * k) in
      let! yk := rd (pts c) (2 * k + 1) in
      let fp := fp ++ [Fprintf pov_sphere_cylinder
                         [x + 0.5 * xk; y + 0.5 * yk; z;
                          x + 0.5 * xk; y + 0.5 * yk; z]%float] in
      let! k := rd (ed c) (2 * k) in
      let! xk := rd (pts c) (2 * k) in
      let! yk := rd (pts c) (2 * k + 1) in
      let fp := fp ++ [Fprintf pov_cylinder_end
                         [x + 0.5 * xk; y + 0.5 * yk; z]%float] in
      if negb (k =? 0) then draw_pov_loop fuel c x y z k fp else Done fp
  end.

(** voronoicell_2d::draw_pov *)
Definition draw_pov (fuel : nat) (c : voronoicell_2d) (x y z : float)
    (fp : list draw_event) : outcome (list draw_event) :=
  if p c =? 0 then Done fp else draw_pov_loop fuel c x y z 0 fp.
(** * Vocabulary of the properties *)

(** Not a number, or an infinity. *)
Definition sf_non_finite (s : spec_float) : bool :=
  match s with
  | S754_nan | S754_infinity _ => true
  | _ => false
  end.

Definition non_finite (v : float) : bool := sf_non_finite (Prim2SF v).

(** The flat strip [init(0,1,0,0)]: four collinear vertices. *)
Definition flat_strip : voronoicell_2d :=
  mk_cell Sample.init_vertices Sample.init_delete_size 4
    ([1; 3; 2; 0; 3; 1; 0; 2] ++ drop 8 (ed Sample.fresh))
    ([0; 0; 2; 0; 2; 0; 0; 0]%float ++ drop 8 (pts Sample.fresh))
    (ds Sample.fresh) Sample.init_delete_size.

(** The line feed character. *)
Definition line_feed : ascii := ascii_of_nat 10.

(** Calls of fputs among the sink's entries. *)
Definition is_fputs (e : sink_event) : bool :=
  match e with
  | Fputs _ => true
  | _ => false
  end.

Definition no_fputs (out : list sink_event) : bool :=
  forallb (fun e => negb (is_fputs e)) out.

Fixpoint count_line_feeds (s : string) : nat :=
  match s with
  | EmptyString => O
  | String ch rest =>
      ((if (ch =? line_feed)%char then 1 else 0) + count_line_feeds rest)%nat
  end.

(** Line feeds an entry puts on the stream; the conversions %d and %g
    print none. *)
Definition line_feeds_of (e : sink_event) : nat :=
  match e with
  | Putc ch => if (ch =? line_feed)%char then 1%nat else 0%nat
  | Fputs s => count_line_feeds s
  | _ => 0%nat
  end.

Definition line_feeds (out : list sink_event) : nat :=
  list_sum (map line_feeds_of out).

(** The four queries a control sequence may call all run to completion. *)
Definition queries_return (fuel : nat) (c : voronoicell_2d) : Prop :=
  (exists v, max_radius_squared fuel c = Done v) /\
  (exists v, perimeter fuel c = Done v) /\
  (exists v, area fuel c = Done v) /\
  (exists v, centroid fuel c = Done v).

(** A format made of plain characters only: no percent sign and no zero
    character. *)
Fixpoint plain_text (s : string) : bool :=
  match s with
  | EmptyString => true
  | String ch rest =>
      negb (ch =? zero)%char && negb (ch =? "%")%char && plain_text rest
  end.

(** The scan of the format reads it to its end and stops between two
    items: no zero character cuts it short and its last percent sign, if
    any, has its control character. *)
Fixpoint scans_whole (s : string) : bool :=
  match s with
  | EmptyString => true
  | String ch rest =>
      if (ch =? zero)%char then false
      else if (ch =? "%")%char then
        match rest with
        | EmptyString => false
        | String ctl rest' =>
            if (ctl =? zero)%char then false else scans_whole rest'
        end
      else scans_whole rest
  end.

Definition putc_all (s : string) : list sink_event :=
  map Putc (list_ascii_of_string s).

(** ** Invariants of a cell *)

(** [n] steps along [f] from [v]. *)
Definition walk (f : Z -> Z) (n : nat) (v : Z) : Z := Nat.iter n f v.

(** P1: successor and predecessor are inverse to each other on the live
    vertices. *)
Definition cyclic_adjacency (c : voronoicell_2d) : Prop :=
  forall v, 0 <= v < p c ->
    succ_of (ed c) (pred_of (ed c) v) = v /\
    pred_of (ed c) (succ_of (ed c) v) = v.

(** P3: every adjacency entry of a live vertex is a live vertex. *)
Definition no_stale_indices (c : voronoicell_2d) : Prop :=
  forall v, 0 <= v < p c ->
    0 <= succ_of (ed c) v < p c /\ 0 <= pred_of (ed c) v < p c.

(** P2: following succ from vertex 0 reaches every live vertex within p
    steps and is back at 0 after p steps. *)
Definition single_cycle (c : voronoicell_2d) : Prop :=
  0 < p c /\
  (forall v, 0 <= v < p c ->
     exists i, (i < Z.to_nat (p c))%nat /\ walk (succ_of (ed c)) i 0 = v) /\
  walk (succ_of (ed c)) (Z.to_nat (p c)) 0 = 0.

(** The adjacency invariants of a cell that holds a polygon. *)
Definition adjacency_ok (c : voronoicell_2d) : Prop :=
  cyclic_adjacency c /\ single_cycle c /\ no_stale_indices c.

(** The arenas and the delete stack have the sizes the capacities say,
    and the live vertices fit. *)
Definition storage_ok (c : voronoicell_2d) : Prop :=
  0 <= p c <= current_vertices c /\
  Z.of_nat (length (pts c)) = 2 * current_vertices c /\
  Z.of_nat (length (ed c)) = 2 * current_vertices c /\
  Z.of_nat (length (ds c)) = current_delete_size c /\
  stacke c = current_delete_size c /\
  1 <= current_delete_size c.

(** The polygon state of two cells is the same: vertex count, capacity
    and both arenas. *)
Definition same_polygon (c c' : voronoicell_2d) : Prop :=
  p c' = p c /\ current_vertices c' = current_vertices c /\
  pts c' = pts c /\ ed c' = ed c.

(** Every live vertex has a [pos] value that passes [test]. *)
Definition every_vertex (c : voronoicell_2d) (x y rsq : float)
    (test : float -> bool) : Prop :=
  forall v, 0 <= v < p c ->
    exists u, pos c x y rsq v = Done u /\ test u = true.

(** The delete stack can take [n] more entries above [stackp], growing if
    it has to, without passing the absolute maximum [mds]. *)
Definition stack_room (mds : Z) (c : voronoicell_2d) (stackp n : Z) : Prop :=
  Z.of_nat (length (ds c)) = current_delete_size c /\
  stacke c = current_delete_size c /\
  1 <= current_delete_size c /\
  0 <= stackp <= current_delete_size c /\
  (stackp + n <= current_delete_size c \/ 2 * (stackp + n) <= mds).

(** ** The arc of vertices a cut deletes *)

(** The vertices around [up], numbered by integers: [z] steps along the
    successor map [S] for positive [z], [-z] steps along the predecessor
    map [P] for negative [z]. *)
Definition arc_vertex (S P : Z -> Z) (up z : Z) : Z :=
  if 0 <=? z then walk S (Z.to_nat z) up else walk P (Z.to_nat (- z)) up.

(** The vertices numbered [-R .. K-1]. *)
Definition in_arc (S P : Z -> Z) (up K R v : Z) : Prop :=
  exists z, - R <= z < K /\ v = arc_vertex S P up z.

(** The coordinates of the first [m] vertices read the same in both
    cells. *)
Definition pts_agree (m : Z) (c c' : voronoicell_2d) : Prop :=
  forall i, 0 <= i < 2 * m -> rd (pts c') i = rd (pts c) i.

(** ** Compaction *)

(** [v] is among the first [m] entries of the delete stack. *)
Definition on_stack (c : voronoicell_2d) (m v : Z) : Prop :=
  exists i, 0 <= i < m /\ ds c !! Z.to_nat i = Some v.

Definition stack_distinct (c : voronoicell_2d) (m : Z) : Prop :=
  forall i j v, 0 <= i < m -> 0 <= j < m ->
    ds c !! Z.to_nat i = Some v -> ds c !! Z.to_nat j = Some v -> i = j.

(** A live vertex [v] of a cell with [q] slots in use: its neighbours are
    live vertices below [q] that point back at it, and it is not its own
    successor. *)
Definition live_closed (e : list Z) (q v : Z) : Prop :=
  0 <= succ_of e v < q /\ 0 <= pred_of e v < q /\
  succ_of e (succ_of e v) <> -1 /\
  pred_of e (succ_of e v) = v /\ succ_of e (pred_of e v) = v /\
  succ_of e v <> v.

(** The state of the cell between two rounds of the compaction loop, with
    [m] entries left on the delete stack: the entries are distinct marked
    vertices, every marked vertex below p is one of them, and the unmarked
    vertices below p are closed under the adjacency. *)
Definition compacting (c : voronoicell_2d) (m : Z) : Prop :=
  stack_distinct c m /\
  (forall v, on_stack c m v -> 0 <= v /\ succ_of (ed c) v = -1) /\
  (forall v, 0 <= v < p c -> succ_of (ed c) v = -1 -> on_stack c m v) /\
  (forall v, 0 <= v < p c -> succ_of (ed c) v <> -1 ->
     live_closed (ed c) (p c) v).

(** ** Doubles that carry no value *)

Definition sf_nan_or_zero (s : spec_float) : bool :=
  match s with
  | S754_nan | S754_zero _ => true
  | _ => false
  end.


(** ** Reading a polygon *)

(** The stored (doubled) coordinates of vertex [v]. *)
Definition vertex_x (c : voronoicell_2d) (v : Z) : float :=
  nth (Z.to_nat (2 * v)) (pts c) 0%float.
Definition vertex_y (c : voronoicell_2d) (v : Z) : float :=
  nth (Z.to_nat (2 * v + 1)) (pts c) 0%float.

(** The [i]-th vertex on the way round from vertex 0 along succ. *)
Definition nth_vertex (c : voronoicell_2d) (i : nat) : Z :=
  walk (succ_of (ed c)) i 0.

(** The live vertices in the order succ visits them from vertex 0. *)
Definition boundary (c : voronoicell_2d) : list Z :=
  map (nth_vertex c) (seq 0 (Z.to_nat (p c))).

(** The length of the edge from [v] to its successor, in stored units. *)
Definition edge_length (c : voronoicell_2d) (v : Z) : float :=
  let w := succ_of (ed c) v in
  let dx := (vertex_x c v - vertex_x c w)%float in
  let dy := (vertex_y c v - vertex_y c w)%float in
  PrimFloat.sqrt (dx * dx + dy * dy).

(** Twice the signed area of the triangle on vertex 0 and the vertices
    number [i-1] and [i] of the boundary, in stored units. *)
Definition fan_area (c : voronoicell_2d) (i : nat) : float :=
  let dx1 := (vertex_x c (nth_vertex c (i - 1)) - vertex_x c 0)%float in
  let dy1 := (vertex_y c (nth_vertex c (i - 1)) - vertex_y c 0)%float in
  let dx2 := (vertex_x c (nth_vertex c i) - vertex_x c 0)%float in
  let dy2 := (vertex_y c (nth_vertex c i) - vertex_y c 0)%float in
  (dx1 * dy2 - dx2 * dy1)%float.

(** The squared distance of vertex [v] from the origin, in stored units. *)
Definition norm2 (c : voronoicell_2d) (v : Z) : float :=
  (vertex_x c v * vertex_x c v + vertex_y c v * vertex_y c v)%float.

(** What draw_gnuplot prints for vertex [v]. *)
Definition gnuplot_line (c : voronoicell_2d) (x y : float) (format : string)
    (v : Z) : draw_event :=
  Fprintf format [x + 0.5 * vertex_x c v; y + 0.5 * vertex_y c v]%float.

(** What draw_pov prints for the edge that leaves vertex [v]. *)
Definition pov_edge (c : voronoicell_2d) (x y z : float) (v : Z)
  : list draw_event :=
  let w := succ_of (ed c) v in
  [Fprintf pov_sphere_cylinder
     [x + 0.5 * vertex_x c v; y + 0.5 * vertex_y c v; z;
      x + 0.5 * vertex_x c v; y + 0.5 * vertex_y c v; z]%float;
   Fprintf pov_cylinder_end
     [x + 0.5 * vertex_x c w; y + 0.5 * vertex_y c w; z]%float].

(** ** Formats *)

(** The characters the switch of output_custom has a case for. *)
Definition is_control (ch : ascii) : bool :=
  existsb (Ascii.eqb ch)
    ["i"; "x"; "y"; "q"; "r"; "w"; "m"; "p"; "a"; "c"; "C"]%char.

(** The control characters that print a value of the particle or the
    vertex count, without running a query on the polygon. *)
Definition is_particle_control (ch : ascii) : bool :=
  existsb (Ascii.eqb ch) ["i"; "x"; "y"; "q"; "r"; "w"]%char.

(** A format without control sequences: no zero character, and every
    percent sign is followed by a character that is neither a control
    character nor the end of the string. *)
Fixpoint literal_format (s : string) : bool :=
  match s with
  | EmptyString => true
  | String ch rest =>
      if (ch =? zero)%char then false
      else if (ch =? "%")%char then
        match rest with
        | EmptyString => false
        | String ctl rest' =>
            negb (ctl =? zero)%char && negb (is_control ctl) &&
            literal_format rest'
        end
      else literal_format rest
  end.

(** A format that reads to its end and whose control sequences are all
    particle-related or the vertex count. *)
Fixpoint particle_format (s : string) : bool :=
  match s with
  | EmptyString => true
  | String ch rest =>
      if (ch =? zero)%char then false
      else if (ch =? "%")%char then
        match rest with
        | EmptyString => false
        | String ctl rest' =>
            negb (ctl =? zero)%char &&
            (is_particle_control ctl || negb (is_control ctl)) &&
            particle_format rest'
        end
      else particle_format rest
  end.

(** ** Sample cells *)

(** A digon: two vertices linked to each other, with coordinates that
    are not all finite. *)
Definition digon : voronoicell_2d :=
  mk_cell Sample.init_vertices Sample.init_delete_size 2
    ([1; 1; 0; 0] ++ drop 4 (ed Sample.fresh))
    ([nan; 1; infinity; 3]%float ++ drop 4 (pts Sample.fresh))
    (ds Sample.fresh) Sample.init_delete_size.

(** ** The boundary as a list *)

(** [L] lists the live vertices of [c] (the vertices below p that carry
    no deletion mark), each once, in the order succ visits them: succ
    takes every entry to the next one and the last entry to the first. *)
Definition cycle_listing (c : voronoicell_2d) (L : list Z) : Prop :=
  NoDup L /\
  (forall v, v ∈ L <-> 0 <= v < p c /\ succ_of (ed c) v <> -1) /\
  (forall i v w, L !! i = Some v -> L !! S i = Some w ->
     succ_of (ed c) v = w) /\
  (forall v w, L !! (length L - 1)%nat = Some v -> L !! 0%nat = Some w ->
     succ_of (ed c) v = w).

(** The vertices a cut keeps when its succ sweep deletes [K] vertices from
    [up] on and its pred sweep [R] more: the way along succ from the stop
    of the succ sweep to the stop of the pred sweep. *)
Definition kept_vertices (c : voronoicell_2d) (up : Z) (K R : nat) : list Z :=
  (fun j => walk (succ_of (ed c)) j up) <$> seq K (Z.to_nat (p c) - K - R).

(** ** Outcomes *)


(** As [ran], with the fatal error among the outcomes only where
    [may_abort] holds. *)
Definition ran_or (may_abort : Prop) {A : Type} (o : outcome A) : Prop :=
  (exists a, o = Done a) \/ (may_abort /\ exists msg, o = Fatal msg).

(** The largest value of a C++ [int]; the capacities, and the array
    lengths the growth routines compute from them, are [int]s in the
    source. *)
Definition int_max : Z := 2 ^ 31 - 1.

(** The stored coordinates of vertex [v], as a pair. *)
Definition coords (c : voronoicell_2d) (v : Z) : float * float :=
  (vertex_x c v, vertex_y c v).
(** * Properties *)

(** ** Outcomes and arrays *)

Lemma bind_Done {A B : Type} (m : outcome A) (k : A -> outcome B) (b : B) :
  bind m k = Done b -> exists a, m = Done a /\ k a = Done b.
Proof. destruct m; simpl; intros H; try discriminate. eauto. Qed.

Lemma rd_Done {A : Type} (a : list A) (i : Z) (v : A) :
  rd a i = Done v <-> 0 <= i /\ a !! Z.to_nat i = Some v.
Proof.
  unfold rd. destruct (Z.leb_spec 0 i).
  - destruct (a !! Z.to_nat i) eqn:E; split.
    + intros [= ->]. auto.
    + intros [_ [= ->]]. reflexivity.
    + discriminate.
    + intros [_ ?]. discriminate.
  - split; [discriminate | lia].
Qed.

Lemma rd_in_range {A : Type} (a : list A) (i : Z) :
  0 <= i < Z.of_nat (length a) -> exists v, rd a i = Done v.
Proof.
  intros Hi. destruct (lookup_lt_is_Some_2 a (Z.to_nat i)) as [v Hv]; [lia|].
  exists v. apply rd_Done. split; [lia | exact Hv].
Qed.

Lemma wr_Done {A : Type} (a : list A) (i : Z) (v : A) (a' : list A) :
  wr a i v = Done a' <->
  0 <= i < Z.of_nat (length a) /\ a' = <[Z.to_nat i := v]> a.
Proof.
  unfold wr. destruct (Z.leb_spec 0 i), (Z.ltb_spec i (Z.of_nat (length a)));
    simpl; split; try discriminate; try lia.
  - intros [= <-]. auto with lia.
  - intros [_ ->]. reflexivity.
Qed.

Lemma wr_in_range {A : Type} (a : list A) (i : Z) (v : A) :
  0 <= i < Z.of_nat (length a) -> wr a i v = Done (<[Z.to_nat i := v]> a).
Proof. intros Hi. apply wr_Done. auto. Qed.

(** ** Initialisation *)

Ltac expose_head l H :=
  let x := fresh "v" in
  destruct l as [|x l]; [simpl in H; lia|].

Lemma init_shape (c : voronoicell_2d) (xmin xmax ymin ymax : float) :
  (8 <= length (pts c))%nat -> (8 <= length (ed c))%nat ->
  init c xmin xmax ymin ymax =
  Done (mk_cell (current_vertices c) (current_delete_size c) 4
          ([1; 3; 2; 0; 3; 1; 0; 2] ++ drop 8 (ed c))
          ([xmin * 2; ymin * 2; xmax * 2; ymin * 2;
            xmax * 2; ymax * 2; xmin * 2; ymax * 2]%float ++ drop 8 (pts c))
          (ds c) (stacke c)).
Proof.
  intros Hp He. destruct c as [cv cds n e a d se]. simpl in *.
  do 8 expose_head a Hp. do 8 expose_head e He.
  unfold init, set_p, set_pts, set_ed. simpl pts. simpl ed.
  repeat (rewrite wr_in_range by (simpl; lia); simpl bind).
  reflexivity.
Qed.

(** C7: on a cell whose arenas hold at least four vertices, init sets p to
    4, stores the corners (xmin,ymin), (xmax,ymin), (xmax,ymax),
    (xmin,ymax) in that order with every coordinate doubled, and makes the
    adjacency the 4-cycle succ = (1,2,3,0), pred = (3,0,1,2). *)
Theorem init_seeds_rectangle (c : voronoicell_2d) (xmin xmax ymin ymax : float) :
  (8 <= length (pts c))%nat -> (8 <= length (ed c))%nat ->
  exists c', init c xmin xmax ymin ymax = Done c' /\
    p c' = 4 /\
    take 8 (pts c') = [xmin * 2; ymin * 2; xmax * 2; ymin * 2;
                       xmax * 2; ymax * 2; xmin * 2; ymax * 2]%float /\
    map (succ_of (ed c')) [0; 1; 2; 3] = [1; 2; 3; 0] /\
    map (pred_of (ed c')) [0; 1; 2; 3] = [3; 0; 1; 2].
Proof.
  intros Hp He. eexists. split; [apply init_shape; assumption|].
  simpl. repeat split; reflexivity.
Qed.

Lemma init_seeds_rectangle_witness :
  exists c', init Sample.fresh 3 5 7 11 = Done c' /\
    p c' = 4 /\
    take 8 (pts c') = [6; 14; 10; 14; 10; 22; 6; 22]%float /\
    map (succ_of (ed c')) [0; 1; 2; 3] = [1; 2; 3; 0] /\
    map (pred_of (ed c')) [0; 1; 2; 3] = [3; 0; 1; 2].
Proof.
  apply (init_seeds_rectangle Sample.fresh 3 5 7 11); vm_compute; lia.
Defined.

(** ** The seed square *)

(** C8: after init(-1,1,-1,1) on a cell whose arenas hold at least four
    vertices, p is 4, area is exactly 4, perimeter exactly 8, the centroid
    (0,0) and max_radius_squared 8; four loop rounds are all it takes. *)
Theorem seed_rectangle_queries (c : voronoicell_2d) (fuel : nat) :
  (8 <= length (pts c))%nat -> (8 <= length (ed c))%nat -> (4 <= fuel)%nat ->
  exists c', init c (-1) 1 (-1) 1 = Done c' /\
    p c' = 4 /\
    area fuel c' = Done 4%float /\
    perimeter fuel c' = Done 8%float /\
    centroid fuel c' = Done (0%float, 0%float) /\
    max_radius_squared fuel c' = Done 8%float /\
    (8 / 4 = 2)%float.
Proof.
  intros Hp He Hf. eexists. split; [apply init_shape; assumption|].
  do 4 (destruct fuel as [|fuel]; [lia|]).
  repeat split; vm_compute; reflexivity.
Qed.

Lemma seed_rectangle_queries_witness :
  exists c', init Sample.fresh (-1) 1 (-1) 1 = Done c' /\
    p c' = 4 /\
    area 4 c' = Done 4%float /\
    perimeter 4 c' = Done 8%float /\
    centroid 4 c' = Done (0%float, 0%float) /\
    max_radius_squared 4 c' = Done 8%float /\
    (8 / 4 = 2)%float.
Proof.
  apply (seed_rectangle_queries Sample.fresh 4); vm_compute; lia.
Defined.

(** ** Queries on an empty cell *)

(** The three guarded queries return their default on an empty cell. *)
Lemma guarded_queries_empty (fuel : nat) (c : voronoicell_2d) :
  p c = 0 ->
  perimeter fuel c = Done 0%float /\
  area fuel c = Done 0%float /\
  centroid fuel c = Done (0%float, 0%float).
Proof.
  intros H. unfold perimeter, area, centroid. rewrite H. simpl. auto.
Qed.

(** On an empty cell max_radius_squared runs its loop zero times and
    returns the squared radius of whatever slot 0 holds. *)
Lemma max_radius_squared_empty (fuel : nat) (c : voronoicell_2d) (x0 y0 : float) :
  p c = 0 -> rd (pts c) 0 = Done x0 -> rd (pts c) 1 = Done y0 ->
  max_radius_squared fuel c = Done (x0 * x0 + y0 * y0)%float.
Proof.
  intros H H0 H1. unfold max_radius_squared. rewrite H, H0, H1. simpl.
  destruct fuel; reflexivity.
Qed.

(** C2: a freshly constructed cell with p = 0 over storage that holds
    ones answers 2 to max_radius_squared, not 0, while perimeter, area and
    centroid, which test p first, give their defaults. *)
Theorem max_radius_squared_unguarded (fuel : nat) :
  p Sample.fresh_ones = 0 /\
  max_radius_squared fuel Sample.fresh_ones = Done 2%float /\
  perimeter fuel Sample.fresh_ones = Done 0%float /\
  area fuel Sample.fresh_ones = Done 0%float /\
  centroid fuel Sample.fresh_ones = Done (0%float, 0%float).
Proof.
  split; [reflexivity|]. split.
  - apply (max_radius_squared_empty fuel Sample.fresh_ones 1 1); reflexivity.
  - apply guarded_queries_empty. reflexivity.
Qed.

(** ** The centroid of a cell of zero area *)

Lemma non_finite_is_finite (v : float) :
  non_finite v = true -> is_finite v = false.
Proof.
  unfold non_finite, is_finite, is_nan, is_infinity.
  rewrite !FloatAxioms.eqb_spec, abs_spec.
  change (Prim2SF infinity) with (S754_infinity false).
  destruct (Prim2SF v) as [|s| |]; simpl; try discriminate; try reflexivity.
  destruct s; reflexivity.
Qed.

Lemma non_finite_not_zero (v : float) :
  non_finite v = true -> (v =? 0)%float = false.
Proof.
  unfold non_finite. rewrite FloatAxioms.eqb_spec.
  destruct (Prim2SF v); simpl; try discriminate; try reflexivity.
  destruct s; reflexivity.
Qed.

Lemma div_third_zero (t : float) :
  (t =? 0)%float = true ->
  exists s, Prim2SF ((1 / 3) / t)%float = S754_infinity s.
Proof.
  rewrite FloatAxioms.eqb_spec, div_spec.
  change (Prim2SF 0) with (S754_zero false).
  destruct (Prim2SF t) as [s| | |s m e]; simpl; try discriminate.
  - intros _. vm_compute. eauto.
  - destruct s; discriminate.
  - destruct s; discriminate.
Qed.

Lemma mul_infinity_non_finite (a b : float) (s : bool) :
  Prim2SF b = S754_infinity s -> non_finite (a * b) = true.
Proof.
  unfold non_finite. rewrite mul_spec. intros ->.
  destruct (Prim2SF a); reflexivity.
Qed.

Lemma add_non_finite (a b : float) :
  non_finite b = true -> non_finite (a + b) = true.
Proof.
  unfold non_finite. rewrite add_spec.
  destruct (Prim2SF b); try discriminate; intros _.
  - destruct (Prim2SF a) as [| [|] | |]; destruct s; reflexivity.
  - destruct (Prim2SF a); reflexivity.
Qed.

Lemma half_non_finite (b : float) :
  non_finite b = true -> non_finite (0.5 * b) = true.
Proof.
  unfold non_finite. rewrite mul_spec.
  destruct (Prim2SF b); try discriminate; intros _; reflexivity.
Qed.

(** C3, as the code has it: with p > 0 and an accumulated fan area equal
    to zero, centroid divides by that zero; the two coordinates it returns
    are infinite or not a number, so neither compares equal to 0. *)
Theorem centroid_zero_area (fuel : nat) (c : voronoicell_2d)
    (tarea cx cy x y : float) :
  p c <> 0 ->
  centroid_fan fuel c = Done (tarea, cx, cy, x, y) ->
  (tarea =? 0)%float = true ->
  exists rx ry, centroid fuel c = Done (rx, ry) /\
    is_finite rx = false /\ is_finite ry = false /\
    (rx =? 0)%float = false /\ (ry =? 0)%float = false.
Proof.
  intros Hp Hfan Hz. unfold centroid.
  destruct (Z.eqb_spec (p c) 0) as [E|_]; [contradiction|].
  rewrite Hfan. simpl bind.
  destruct (div_third_zero tarea Hz) as [s Hs].
  assert (Hx : non_finite (0.5 * (x + cx * (1 / 3 / tarea)))%float = true).
  { apply half_non_finite, add_non_finite.
    apply mul_infinity_non_finite with s. exact Hs. }
  assert (Hy : non_finite (0.5 * (y + cy * (1 / 3 / tarea)))%float = true).
  { apply half_non_finite, add_non_finite.
    apply mul_infinity_non_finite with s. exact Hs. }
  do 2 eexists. split; [reflexivity|].
  auto using non_finite_is_finite, non_finite_not_zero.
Qed.

Lemma flat_strip_init : init Sample.fresh 0 1 0 0 = Done flat_strip.
Proof. vm_compute. reflexivity. Qed.

Lemma centroid_zero_area_witness :
  exists rx ry, centroid 4 flat_strip = Done (rx, ry) /\
    is_finite rx = false /\ is_finite ry = false /\
    (rx =? 0)%float = false /\ (ry =? 0)%float = false.
Proof.
  apply (centroid_zero_area 4 flat_strip 0 0 0 0 0);
    [discriminate | reflexivity | reflexivity].
Defined.

(** C3 fails on the flat strip: p is 4, the fan area is 0, and centroid
    returns (nan, nan), which is not (0, 0). *)
Lemma centroid_flat_strip_nan :
  init Sample.fresh 0 1 0 0 = Done flat_strip /\
  p flat_strip = 4 /\
  area 4 flat_strip = Done 0%float /\
  centroid 4 flat_strip = Done (nan, nan) /\
  centroid 4 flat_strip <> Done (0%float, 0%float).
Proof.
  split; [exact flat_strip_init|].
  repeat split; try (vm_compute; reflexivity).
  intros H. assert (E : centroid 4 flat_strip = Done (nan, nan))
    by (vm_compute; reflexivity).
  rewrite E in H.
  apply (f_equal (fun o => match o with
                           | Done (a, _) => is_nan a
                           | _ => false
                           end)) in H.
  vm_compute in H. discriminate.
Qed.

(** ** Custom output *)

Lemma string_pair_ind (P : string -> Prop) :
  P EmptyString ->
  (forall ch, P (String ch EmptyString)) ->
  (forall ch ctl rest, P rest -> P (String ctl rest) ->
                       P (String ch (String ctl rest))) ->
  forall s, P s.
Proof.
  intros H0 H1 H2.
  assert (H : forall s, P s /\ forall ch, P (String ch s)).
  { induction s as [|ctl rest [IH1 IH2]].
    - split; auto.
    - split; [apply IH2|]. intros ch. apply H2; auto. }
  intros s. apply H.
Qed.

Lemma scan_step (fuel : nat) (c : voronoicell_2d) (ch ctl : ascii)
    (rest : string) (i : Z) (x y r : float) (fp : list sink_event) :
  output_custom_loop fuel c (String ch (String ctl rest)) i x y r fp =
  if (ch =? zero)%char then Done fp
  else if (ch =? "%")%char then
    if (ctl =? zero)%char then Done fp
    else bind (control_sequence fuel c ctl i x y r fp)
              (fun fp => output_custom_loop fuel c rest i x y r fp)
  else output_custom_loop fuel c (String ctl rest) i x y r (fp ++ [Putc ch]).
Proof. reflexivity. Qed.

Lemma scan_trailing_percent (fuel : nat) (c : voronoicell_2d) (s : string)
    (i : Z) (x y r : float) (fp : list sink_event) :
  scans_whole s = true ->
  output_custom_loop fuel c (s ++ "%") i x y r fp =
  output_custom_loop fuel c s i x y r fp.
Proof.
  revert fp. induction s as [| ch | ch ctl rest IH1 IH2] using string_pair_ind;
    intros fp H.
  - reflexivity.
  - simpl in *. destruct (ch =? zero)%char; [discriminate|].
    destruct (ch =? "%")%char; [discriminate|]. reflexivity.
  - change (String ch (String ctl rest) ++ "%")%string
      with (String ch (String ctl (rest ++ "%"))).
    cbn [output_custom_loop]. cbn [scans_whole] in H.
    destruct (ch =? zero)%char; [discriminate|].
    destruct (ch =? "%")%char.
    + destruct (ctl =? zero)%char; [discriminate|].
      destruct (control_sequence fuel c ctl i x y r fp); simpl; auto.
    + apply (IH2 (fp ++ [Putc ch]) H).
Qed.

Lemma scan_plain_text (fuel : nat) (c : voronoicell_2d) (s : string)
    (i : Z) (x y r : float) (fp : list sink_event) :
  plain_text s = true ->
  scans_whole s = true /\
  output_custom_loop fuel c s i x y r fp = Done (fp ++ putc_all s).
Proof.
  revert fp. induction s as [|ch rest IH]; intros fp H.
  - split; [reflexivity|]. unfold putc_all. simpl. rewrite app_nil_r.
    reflexivity.
  - simpl in H. apply andb_prop in H as [H Hr]. apply andb_prop in H as [Hz Hp].
    apply negb_true_iff in Hz, Hp.
    destruct (IH (fp ++ [Putc ch]) Hr) as [IHs IHo].
    simpl. rewrite Hz, Hp. split; [exact IHs|].
    rewrite IHo. unfold putc_all. simpl. rewrite <- app_assoc. reflexivity.
Qed.

(** C4, as the code has it: a percent sign that ends the format, with the
    scan standing between two items when it meets it, puts nothing on the
    stream, so the output is that of the format without it; for a format
    of plain characters followed by that percent sign the output is those
    characters unchanged and the closing line feed. *)
Theorem trailing_percent_discarded (fuel : nat) (c : voronoicell_2d)
    (s : string) (i : Z) (x y r : float) (fp : list sink_event) :
  (scans_whole s = true ->
   output_custom fuel c (s ++ "%") i x y r fp =
   output_custom fuel c s i x y r fp) /\
  (plain_text s = true ->
   output_custom fuel c (s ++ "%") i x y r fp =
   Done (fp ++ putc_all s ++ [Fputs newline])).
Proof.
  split; intros H; unfold output_custom.
  - rewrite scan_trailing_percent by exact H. reflexivity.
  - destruct (scan_plain_text fuel c s i x y r fp H) as [Hs Ho].
    rewrite scan_trailing_percent, Ho by exact Hs. simpl.
    rewrite <- app_assoc. reflexivity.
Qed.

Lemma trailing_percent_discarded_witness :
  scans_whole "a%w" = true /\
  output_custom 0 Sample.square ("a%w" ++ "%") 7 0 0 0 [] =
  output_custom 0 Sample.square "a%w" 7 0 0 0 [] /\
  plain_text "id=" = true /\
  output_custom 0 Sample.square ("id=" ++ "%") 7 0 0 0 [] =
  Done ([] ++ putc_all "id=" ++ [Fputs newline]).
Proof.
  split; [reflexivity|]. split.
  - apply (proj1 (trailing_percent_discarded 0 Sample.square "a%w" 7 0 0 0 [])).
    reflexivity.
  - split; [reflexivity|].
    apply (proj2 (trailing_percent_discarded 0 Sample.square "id=" 7 0 0 0 [])).
    reflexivity.
Defined.

(** C4 fails on the format "a%": the stream gets the a and the closing
    line feed, and no percent sign. *)
Lemma trailing_percent_not_emitted :
  output_custom 0 Sample.square "a%" 7 0 0 0 [] =
    Done [Putc "a"%char; Fputs newline] /\
  ~ In (Putc "%"%char) [Putc "a"%char; Fputs newline].
Proof.
  split; [reflexivity|]. simpl. intros [H|[H|[]]]; discriminate.
Qed.

Lemma control_sequence_events (fuel : nat) (c : voronoicell_2d) (ctl : ascii)
    (i : Z) (x y r : float) (fp : list sink_event) :
  queries_return fuel c ->
  exists evs, control_sequence fuel c ctl i x y r fp = Done (fp ++ evs) /\
    no_fputs evs = true /\
    line_feeds evs = if (ctl =? line_feed)%char then 1%nat else 0%nat.
Proof.
  intros [[vm Hm] [[vp Hp] [[va Ha] [[cx cy] Hc]]]].
  unfold control_sequence. rewrite Hm, Hp, Ha, Hc. simpl bind.
  repeat match goal with
  | |- context [(ctl =? Ascii ?b0 ?b1 ?b2 ?b3 ?b4 ?b5 ?b6 ?b7)%char] =>
      destruct (Ascii.eqb_spec ctl (Ascii b0 b1 b2 b3 b4 b5 b6 b7)) as [->|?];
        [eexists; split; [reflexivity|]; split; reflexivity|]
  end.
  eexists; split; [reflexivity|]; split; [reflexivity|].
  unfold line_feeds. simpl. destruct (ctl =? line_feed)%char; reflexivity.
Qed.

Lemma line_feeds_app (a b : list sink_event) :
  line_feeds (a ++ b) = (line_feeds a + line_feeds b)%nat.
Proof. unfold line_feeds. rewrite map_app. apply list_sum_app. Qed.

Lemma no_fputs_app (a b : list sink_event) :
  no_fputs (a ++ b) = no_fputs a && no_fputs b.
Proof. apply forallb_app. Qed.

Lemma scan_events (fuel : nat) (c : voronoicell_2d) (s : string)
    (i : Z) (x y r : float) :
  queries_return fuel c ->
  forall fp, exists body,
    output_custom_loop fuel c s i x y r fp = Done (fp ++ body) /\
    no_fputs body = true /\
    (count_line_feeds s = 0%nat -> line_feeds body = 0%nat).
Proof.
  intros Hq.
  induction s as [| ch | ch ctl rest IH1 IH2] using string_pair_ind; intros fp.
  - exists []. rewrite app_nil_r. auto.
  - simpl. destruct (ch =? zero)%char.
    { exists []. rewrite app_nil_r. auto. }
    destruct (ch =? "%")%char.
    { exists []. rewrite app_nil_r. auto. }
    exists [Putc ch]. repeat split.
    unfold line_feeds. simpl. destruct (ch =? line_feed)%char; [discriminate|].
    reflexivity.
  - rewrite scan_step. cbn [count_line_feeds].
    destruct (ch =? zero)%char.
    { exists []. rewrite app_nil_r. auto. }
    destruct (ch =? "%")%char.
    + destruct (ctl =? zero)%char.
      { exists []. rewrite app_nil_r. auto. }
      destruct (control_sequence_events fuel c ctl i x y r fp Hq)
        as [evs [Hc [Hn Hl]]].
      rewrite Hc. simpl bind.
      destruct (IH1 (fp ++ evs)) as [body [Hb [Hbn Hbl]]].
      exists (evs ++ body). rewrite Hb, app_assoc. split; [reflexivity|].
      rewrite no_fputs_app, Hn, Hbn. split; [reflexivity|].
      intros H0. rewrite line_feeds_app, Hl.
      destruct (ctl =? line_feed)%char; [lia|]. rewrite Hbl; lia.
    + destruct (IH2 (fp ++ [Putc ch])) as [body [Hb [Hbn Hbl]]].
      exists (Putc ch :: body). rewrite Hb, <- app_assoc.
      split; [reflexivity|]. split; [exact Hbn|].
      intros H0. change (Putc ch :: body) with ([Putc ch] ++ body).
      rewrite line_feeds_app. unfold line_feeds at 1. simpl.
      destruct (ch =? line_feed)%char; [lia|].
      rewrite Hbl; [reflexivity|]. cbn [count_line_feeds]. lia.
Qed.

(** C10, as the code has it: whatever the format, the empty one included,
    and on every cell on which the queries run to completion,
    output_custom processes the whole format and then writes one line feed
    with fputs: the stream grows by the entries of the format followed by
    that single fputs, and when the format holds no line feed of its own
    the call emits exactly one line. *)
Theorem output_custom_one_newline (fuel : nat) (c : voronoicell_2d)
    (format : string) (i : Z) (x y r : float) (fp : list sink_event) :
  queries_return fuel c ->
  exists body,
    output_custom_loop fuel c format i x y r fp = Done (fp ++ body) /\
    output_custom fuel c format i x y r fp =
      Done (fp ++ body ++ [Fputs newline]) /\
    no_fputs body = true /\
    (count_line_feeds format = 0%nat ->
     line_feeds (body ++ [Fputs newline]) = 1%nat).
Proof.
  intros Hq.
  destruct (scan_events fuel c format i x y r Hq fp) as [body [Hb [Hn Hl]]].
  exists body. unfold output_custom. rewrite Hb. simpl.
  rewrite app_assoc. repeat split; auto.
  intros H0. rewrite line_feeds_app, Hl by exact H0. reflexivity.
Qed.

Lemma queries_return_square : queries_return 4 Sample.square.
Proof. repeat split; eexists; vm_compute; reflexivity. Qed.

Lemma output_custom_one_newline_witness :
  exists body,
    output_custom_loop 4 Sample.square "%i %a" 7 0 0 0 [] = Done ([] ++ body) /\
    output_custom 4 Sample.square "%i %a" 7 0 0 0 [] =
      Done ([] ++ body ++ [Fputs newline]) /\
    no_fputs body = true /\
    (count_line_feeds "%i %a" = 0%nat ->
     line_feeds (body ++ [Fputs newline]) = 1%nat).
Proof.
  apply (output_custom_one_newline 4 Sample.square "%i %a" 7 0 0 0 []).
  exact queries_return_square.
Defined.

(** C10 fails on a format that holds a line feed, here an a, a line feed
    and a b: putc passes the line feed of the format on, the closing fputs
    adds its own, and the call emits two lines. *)
Lemma output_custom_two_lines :
  output_custom 0 Sample.square
    (String "a" (String line_feed (String "b" EmptyString))) 7 0 0 0 [] =
    Done [Putc "a"%char; Putc line_feed; Putc "b"%char; Fputs newline] /\
  line_feeds [Putc "a"%char; Putc line_feed; Putc "b"%char; Fputs newline]
    = 2%nat.
Proof. split; reflexivity. Qed.


(** ** The clipping kernel: what a cut that deletes the cell leaves *)

Lemma same_polygon_refl (c : voronoicell_2d) : same_polygon c c.
Proof. repeat split. Qed.

Lemma same_polygon_trans (c1 c2 c3 : voronoicell_2d) :
  same_polygon c1 c2 -> same_polygon c2 c3 -> same_polygon c1 c3.
Proof.
  unfold same_polygon. intros [? [? [? ?]]] [? [? [? ?]]].
  repeat split; congruence.
Qed.

Lemma add_memory_ds_polygon (mds : Z) (hi : nat -> Z) (c c' : voronoicell_2d)
    (stackp : Z) :
  add_memory_ds mds hi c stackp = Done c' -> same_polygon c c'.
Proof.
  unfold add_memory_ds. destruct (mds <? _); [discriminate|].
  intros H. apply bind_Done in H as [dsn [_ H]]. injection H as <-.
  repeat split.
Qed.

Lemma push_polygon (mds : Z) (hi : nat -> Z) (c c' : voronoicell_2d)
    (stackp v stackp' : Z) :
  push mds hi c stackp v = Done (c', stackp') -> same_polygon c c'.
Proof.
  unfold push. intros H.
  apply bind_Done in H as [c1 [H1 H]]. apply bind_Done in H as [d [_ H]].
  injection H as <- _.
  apply same_polygon_trans with c1; [|repeat split].
  destruct (stackp =? stacke c).
  - eapply add_memory_ds_polygon; eassumption.
  - injection H1 as <-. apply same_polygon_refl.
Qed.

Lemma pos_same_polygon (c c' : voronoicell_2d) (x y rsq : float) (v : Z) :
  same_polygon c c' -> pos c' x y rsq v = pos c x y rsq v.
Proof. intros [_ [_ [E _]]]. unfold pos. rewrite E. reflexivity. Qed.

Lemma sweep_succ_polygon (tol : float) (mds : Z) (hi : nat -> Z) (fuel : nat) :
  forall (c c' : voronoicell_2d) (x y rsq : float) (up stackp up2 : Z)
         (l u2 : float) r,
  sweep_succ tol mds hi fuel c x y rsq up stackp up2 l u2 = Done (c', r) ->
  same_polygon c c'.
Proof.
  induction fuel as [|fuel IH]; intros c c' x y rsq up stackp up2 l u2 r;
    simpl; destruct (tol <? u2)%float; try discriminate;
    try (intros [= <- _]; apply same_polygon_refl).
  intros H.
  apply bind_Done in H as [[c1 sp1] [Hpush H]].
  apply bind_Done in H as [up2' [_ H]].
  apply bind_Done in H as [u2' [_ H]].
  apply push_polygon in Hpush.
  destruct (up2' =? up).
  - injection H as <- _. exact Hpush.
  - apply IH in H. eapply same_polygon_trans; eassumption.
Qed.

(** C9: whenever plane returns false, the vertex count, the capacity and
    both arenas are exactly what they were before the call; only the
    delete stack may differ. *)
Theorem plane_false_leaves_polygon (tol : float) (mv mds : Z)
    (hi : nat -> Z) (hd : nat -> float) (fuel : nat)
    (c c' : voronoicell_2d) (x y rsq : float) :
  plane tol mv mds hi hd fuel c x y rsq = Done (false, c') ->
  p c' = p c /\ pts c' = pts c /\ ed c' = ed c /\
  current_vertices c' = current_vertices c.
Proof.
  unfold plane. intros H.
  apply bind_Done in H as [found [_ H]].
  destruct found as [[up u]|]; [|discriminate].
  apply bind_Done in H as [d [_ H]].
  apply bind_Done in H as [up2 [_ H]].
  apply bind_Done in H as [u2 [_ H]].
  apply bind_Done in H as [[c1 swept] [Hs H]].
  apply sweep_succ_polygon in Hs.
  destruct swept as [[[[sp up2'] l] u2']|].
  - apply bind_Done in H as [[c2 cp] [_ H]].
    apply bind_Done in H as [up3 [_ H]].
    apply bind_Done in H as [u3 [_ H]].
    apply bind_Done in H as [[c3 [[[sp3 up3'] l3] u3']] [_ H]].
    apply bind_Done in H as [c4 [_ H]].
    apply bind_Done in H as [c5 [_ H]].
    apply bind_Done in H as [c6 [_ H]].
    discriminate.
  - injection H as <-. destruct Hs as [Hp [Hv [Hpts Hed]]].
    simpl in *. auto.
Qed.

Lemma plane_false_leaves_polygon_witness :
  Sample.plane 4 Sample.square 1 0 (-3) =
    Done (false, set_ds Sample.square
                   ([0; 1; 2; 3] ++ drop 4 (ds Sample.square))) /\
  p (set_ds Sample.square ([0; 1; 2; 3] ++ drop 4 (ds Sample.square))) =
    p Sample.square /\
  pts (set_ds Sample.square ([0; 1; 2; 3] ++ drop 4 (ds Sample.square))) =
    pts Sample.square /\
  ed (set_ds Sample.square ([0; 1; 2; 3] ++ drop 4 (ds Sample.square))) =
    ed Sample.square /\
  current_vertices
    (set_ds Sample.square ([0; 1; 2; 3] ++ drop 4 (ds Sample.square))) =
    current_vertices Sample.square.
Proof.
  assert (H : Sample.plane 4 Sample.square 1 0 (-3) =
    Done (false, set_ds Sample.square
                   ([0; 1; 2; 3] ++ drop 4 (ds Sample.square))))
    by (vm_compute; reflexivity).
  split; [exact H|].
  exact (plane_false_leaves_polygon _ _ _ _ _ _ _ _ _ _ _ H).
Defined.

(** ** Comparisons of doubles *)

Lemma SFcompare_antisym (a b : spec_float) :
  SFcompare b a = option_map CompOpp (SFcompare a b).
Proof.
  destruct a as [sa|sa| |sa ma ea], b as [sb|sb| |sb mb eb]; simpl;
    try reflexivity;
    try (destruct sa; reflexivity); try (destruct sb; reflexivity);
    try (destruct sa, sb; reflexivity).
  destruct sa, sb; simpl; try reflexivity;
    rewrite (Z.compare_antisym ea eb);
    destruct (ea ?= eb); simpl; try reflexivity;
    change Eq with (CompOpp Eq) at 1;
    rewrite <- (Pos.compare_cont_antisym ma mb Eq);
    try rewrite CompOpp_involutive; reflexivity.
Qed.

Lemma ltb_asym (x y : float) : (x <? y)%float = true -> (y <? x)%float = false.
Proof.
  rewrite !ltb_spec. unfold SFltb. rewrite (SFcompare_antisym (Prim2SF x)).
  destruct (SFcompare (Prim2SF x) (Prim2SF y)) as [[]|]; simpl; congruence.
Qed.

Lemma ltb_irrefl (x : float) : (x <? x)%float = false.
Proof.
  destruct (x <? x)%float eqn:E; [|reflexivity].
  rewrite (ltb_asym _ _ E) in E. discriminate.
Qed.

(** ** Walks along the boundary *)

Lemma walk_succ_r (f : Z -> Z) (n : nat) (v : Z) :
  walk f (S n) v = walk f n (f v).
Proof. apply Nat.iter_succ_r. Qed.

Lemma walk_add (f : Z -> Z) (a b : nat) (v : Z) :
  walk f (a + b) v = walk f a (walk f b v).
Proof. apply Nat.iter_add. Qed.

Lemma walk_range (f : Z -> Z) (n : Z) :
  (forall v, 0 <= v < n -> 0 <= f v < n) ->
  forall k v, 0 <= v < n -> 0 <= walk f k v < n.
Proof.
  intros Hf k. induction k as [|k IH]; intros v Hv; [exact Hv|].
  apply Hf, IH, Hv.
Qed.

Lemma walk_back (f g : Z -> Z) (n : Z) :
  (forall v, 0 <= v < n -> 0 <= f v < n) ->
  (forall v, 0 <= v < n -> g (f v) = v) ->
  forall k v, 0 <= v < n -> walk g k (walk f k v) = v.
Proof.
  intros Hf Hgf k. induction k as [|k IH]; intros v Hv; [reflexivity|].
  rewrite walk_succ_r. simpl. rewrite Hgf by (apply walk_range; auto).
  apply IH, Hv.
Qed.

Lemma walk_period (f : Z -> Z) (n : nat) (v : Z) :
  walk f n v = v -> forall t, walk f (t * n) v = v.
Proof.
  intros H t. induction t as [|t IH]; [reflexivity|].
  simpl. rewrite walk_add, IH. exact H.
Qed.

(** ** Reading the adjacency arena *)

Lemma rd_nth (e : list Z) (i v : Z) :
  rd e i = Done v -> 0 <= i < Z.of_nat (length e) /\ nth (Z.to_nat i) e (-1) = v.
Proof.
  intros H. apply rd_Done in H as [Hi Hl].
  pose proof (lookup_lt_Some _ _ _ Hl).
  split; [lia|]. rewrite nth_lookup, Hl. reflexivity.
Qed.

Lemma nth_rd (e : list Z) (i : Z) :
  0 <= i -> nth (Z.to_nat i) e (-1) <> -1 -> rd e i = Done (nth (Z.to_nat i) e (-1)).
Proof.
  intros Hi Hn. apply rd_Done. split; [exact Hi|].
  rewrite nth_lookup in Hn |- *.
  destruct (e !! Z.to_nat i); [reflexivity | contradiction].
Qed.

Lemma rd_succ_of (e : list Z) (v : Z) :
  0 <= v -> 0 <= succ_of e v -> rd e (2 * v) = Done (succ_of e v).
Proof. intros Hv Hs. apply nth_rd; unfold succ_of in *; lia. Qed.

Lemma rd_pred_of (e : list Z) (v : Z) :
  0 <= v -> 0 <= pred_of e v -> rd e (2 * v + 1) = Done (pred_of e v).
Proof. intros Hv Hs. apply nth_rd; unfold pred_of in *; lia. Qed.

Lemma succ_of_rd (e : list Z) (v s : Z) :
  rd e (2 * v) = Done s -> succ_of e v = s /\ 0 <= v.
Proof. intros H. apply rd_nth in H as [Hi H]. split; [exact H | lia]. Qed.

Lemma pred_of_rd (e : list Z) (v s : Z) :
  rd e (2 * v + 1) = Done s -> pred_of e v = s /\ 0 <= v.
Proof. intros H. apply rd_nth in H as [Hi H]. split; [exact H | lia]. Qed.

(** ** A plane that does not cut the cell *)

Section NoCut.

Variable tol : float.
Variable c : voronoicell_2d.
Variables x y rsq : float.

Hypothesis stale : no_stale_indices c.
Hypothesis inside : every_vertex c x y rsq (fun u => (u <? tol)%float).

Lemma find_succ_inside (up3 : Z) :
  forall (k fuel : nat) (up2 : Z) (u2 : float),
  (S k <= fuel)%nat -> 0 <= up2 < p c -> (u2 <? tol)%float = true ->
  walk (succ_of (ed c)) (S k) up2 = up3 ->
  find_succ tol fuel c x y rsq up2 u2 up3 = Done None.
Proof.
  induction k as [|k IH]; intros fuel up2 u2 Hf Hr Hu Hw;
    (destruct fuel as [|fuel]; [lia|]); simpl; rewrite Hu;
    destruct (stale up2 Hr) as [Hs _];
    rewrite rd_succ_of by lia; simpl bind;
    destruct (inside _ Hs) as [u [-> Hlt]]; simpl bind.
  - simpl in Hw. rewrite Hw, Z.eqb_refl. reflexivity.
  - destruct (_ =? up3); [reflexivity|].
    apply IH; [lia | exact Hs | exact Hlt |].
    rewrite <- walk_succ_r. exact Hw.
Qed.

Lemma find_pred_inside (up2 : Z) :
  forall (k fuel : nat) (up3 : Z) (u3 : float),
  (S k <= fuel)%nat -> 0 <= up3 < p c -> (u3 <? tol)%float = true ->
  walk (pred_of (ed c)) (S k) up3 = up2 ->
  find_pred tol fuel c x y rsq up2 up3 u3 = Done None.
Proof.
  induction k as [|k IH]; intros fuel up3 u3 Hf Hr Hu Hw;
    (destruct fuel as [|fuel]; [lia|]); simpl; rewrite Hu;
    destruct (stale up3 Hr) as [_ Hs];
    rewrite rd_pred_of by lia; simpl bind;
    destruct (inside _ Hs) as [u [-> Hlt]]; simpl bind.
  - simpl in Hw. rewrite Hw, Z.eqb_refl. reflexivity.
  - destruct (up2 =? _); [reflexivity|].
    apply IH; [lia | exact Hs | exact Hlt |].
    rewrite <- walk_succ_r. exact Hw.
Qed.

End NoCut.

(** C5, as the code has it: on a cell that satisfies the adjacency
    invariants, a plane with pos(v) < tolerance at every live vertex v
    makes plane return true and leaves the whole cell as it was; 3p loop
    rounds are enough. *)
Theorem plane_no_cut (tol : float) (mv mds : Z) (hi : nat -> Z)
    (hd : nat -> float) (fuel : nat) (c : voronoicell_2d) (x y rsq : float) :
  adjacency_ok c ->
  every_vertex c x y rsq (fun u => (u <? tol)%float) ->
  3 * p c <= Z.of_nat fuel ->
  plane tol mv mds hi hd fuel c x y rsq = Done (true, c).
Proof.
  intros [Hcyc [[Hpos [Hreach Hback]] Hst]] Hin Hfuel.
  set (s := succ_of (ed c)) in *. set (q := pred_of (ed c)) in *.
  set (n := Z.to_nat (p c)) in *.
  assert (H0 : 0 <= 0 < p c) by lia.
  destruct (Hst 0 H0) as [Hs0 Hq0]. fold s in Hs0. fold q in Hq0.
  assert (Hsr : forall v, 0 <= v < p c -> 0 <= s v < p c)
    by (intros v Hv; apply Hst, Hv).
  assert (Hqr : forall v, 0 <= v < p c -> 0 <= q v < p c)
    by (intros v Hv; apply Hst, Hv).
  unfold plane, find_outside.
  destruct (Hin 0 H0) as [u [-> Hu]]. simpl bind. rewrite Hu.
  rewrite (rd_succ_of (ed c) 0) by (fold s; lia). simpl bind. fold s.
  destruct (Hin _ Hs0) as [u2 [-> Hu2]]. simpl bind.
  rewrite (rd_pred_of (ed c) 0) by (fold q; lia). simpl bind. fold q.
  destruct (Hin _ Hq0) as [u3 [-> Hu3]]. simpl bind.
  assert (H2n : walk s (2 * n) 0 = 0) by exact (walk_period s n 0 Hback 2).
  destruct (u3 <? u2)%float.
  - destruct (Hreach _ Hq0) as [i [Hi Hw]]. fold s q in Hw.
    rewrite (find_succ_inside tol c x y rsq Hst Hin (q 0) (i + 2 * n - 2));
      [reflexivity | lia | exact Hs0 | exact Hu2 |].
    fold s. rewrite <- walk_succ_r.
    replace (S (S (i + 2 * n - 2))) with (i + 2 * n)%nat by lia.
    rewrite walk_add, H2n. exact Hw.
  - assert (Hqs : forall k v, 0 <= v < p c -> walk q k (walk s k v) = v).
    { apply (walk_back s q (p c)); [exact Hsr|].
      intros v Hv. apply Hcyc, Hv. }
    assert (Hqn : walk q n 0 = 0).
    { rewrite <- Hback at 1. fold n. apply Hqs, H0. }
    assert (Hq1 : walk q (n - 1) 0 = s 0).
    { rewrite <- Hback at 1. fold n.
      replace n with (S (n - 1)) at 2 by lia.
      rewrite walk_succ_r. apply Hqs, Hs0. }
    rewrite (find_pred_inside tol c x y rsq Hst Hin (s 0) (3 * n - 3));
      [reflexivity | lia | exact Hq0 | exact Hu3 |].
    fold q. rewrite <- walk_succ_r.
    replace (S (S (3 * n - 3))) with ((n - 1) + 2 * n)%nat by lia.
    rewrite walk_add, (walk_period q n 0 Hqn 2). exact Hq1.
Qed.

Lemma adjacency_ok_square : adjacency_ok Sample.square.
Proof.
  assert (E : forall v, 0 <= v < 4 -> v = 0 \/ v = 1 \/ v = 2 \/ v = 3)
    by (intros; lia).
  split; [|split].
  - intros v Hv. apply E in Hv as [->|[->|[->| ->]]]; split; reflexivity.
  - split; [reflexivity|]. split; [|reflexivity].
    intros v Hv. apply E in Hv as [->|[->|[->| ->]]];
      [exists 0%nat | exists 1%nat | exists 2%nat | exists 3%nat];
      (split; [simpl; lia | reflexivity]).
  - intros v Hv. apply E in Hv as [->|[->|[->| ->]]]; vm_compute;
      repeat split; discriminate.
Qed.

Lemma plane_no_cut_witness :
  adjacency_ok Sample.square /\
  every_vertex Sample.square 1 0 3 (fun u => (u <? Sample.tolerance)%float) /\
  3 * p Sample.square <= Z.of_nat 12 /\
  Sample.plane 12 Sample.square 1 0 3 = Done (true, Sample.square).
Proof.
  assert (Hin : every_vertex Sample.square 1 0 3
                  (fun u => (u <? Sample.tolerance)%float)).
  { intros v Hv.
    assert (E : v = 0 \/ v = 1 \/ v = 2 \/ v = 3) by (simpl in Hv; lia).
    destruct E as [->|[->|[->| ->]]]; eexists; split; reflexivity. }
  assert (Hf : 3 * p Sample.square <= Z.of_nat 12) by (simpl; lia).
  split; [exact adjacency_ok_square|]. split; [exact Hin|]. split; [exact Hf|].
  exact (plane_no_cut Sample.tolerance Sample.max_vertices
           Sample.max_delete_size (fun _ => 0) (fun _ => 0%float) 12
           Sample.square 1 0 3 adjacency_ok_square Hin Hf).
Defined.

(** C5 fails where pos equals tolerance: on the seed square the plane
    (-tolerance/4, -tolerance/4, 0) has pos = tolerance, 0, -tolerance, 0
    at the four vertices, all of them at most tolerance, and plane
    replaces vertex 0 by a copy of vertex 3, halving the area. *)
Lemma plane_cuts_at_tolerance :
  adjacency_ok Sample.square /\
  every_vertex Sample.square (- Sample.tolerance / 4) (- Sample.tolerance / 4)
    0 (fun u => (u <=? Sample.tolerance)%float) /\
  exists c', Sample.plane 4 Sample.square (- Sample.tolerance / 4)
               (- Sample.tolerance / 4) 0 = Done (true, c') /\
    take 2 (pts Sample.square) = [-2; -2]%float /\
    take 2 (pts c') = [-2; 2]%float /\
    area 4 Sample.square = Done 4%float /\
    area 4 c' = Done 2%float.
Proof.
  split; [exact adjacency_ok_square|]. split.
  - intros v Hv.
    assert (E : v = 0 \/ v = 1 \/ v = 2 \/ v = 3) by (simpl in Hv; lia).
    destruct E as [->|[->|[->| ->]]]; eexists; split; vm_compute; reflexivity.
  - eexists. split; [vm_compute; reflexivity|].
    repeat split; vm_compute; reflexivity.
Qed.

(** ** A plane that deletes the cell *)

Lemma length_new_array {A : Type} (heap : nat -> A) (n : Z) :
  length (new_array heap n) = Z.to_nat n.
Proof. unfold new_array. rewrite length_map, length_seq. reflexivity. Qed.

Lemma push_room (mds : Z) (hi : nat -> Z) (c : voronoicell_2d)
    (stackp v n : Z) :
  stack_room mds c stackp (n + 1) -> 0 <= n ->
  exists c', push mds hi c stackp v = Done (c', stackp + 1) /\
    stack_room mds c' (stackp + 1) n /\ same_polygon c c'.
Proof.
  intros [Hlen [Hse [Hcds [Hsp Hroom]]]] Hn. unfold push.
  destruct (Z.eqb_spec stackp (stacke c)) as [E|E].
  - unfold add_memory_ds. rewrite Z.shiftl_mul_pow2 by lia.
    change (2 ^ 1) with 2.
    destruct (Z.ltb_spec mds (current_delete_size c * 2)) as [F|F]; [lia|].
    unfold copy_prefix.
    destruct (Z.leb_spec stackp 0) as [G|G]; [lia|].
    rewrite length_new_array.
    destruct (Z.leb_spec stackp (Z.of_nat (length (ds c)))) as [G1|G1]; [|lia].
    destruct (Z.leb_spec stackp
                (Z.of_nat (Z.to_nat (current_delete_size c * 2)))) as [G2|G2];
      [|lia].
    simpl bind. cbn [ds].
    set (dsn := take (Z.to_nat stackp) (ds c) ++ _).
    assert (Hdsn : Z.of_nat (length dsn) = current_delete_size c * 2).
    { unfold dsn. rewrite length_app, length_take, length_drop,
        length_new_array. lia. }
    rewrite wr_in_range by lia. simpl bind.
    eexists. split; [reflexivity|]. split.
    + unfold stack_room, set_ds; cbn. rewrite length_insert. lia.
    + repeat split.
  - simpl bind. rewrite wr_in_range by lia. simpl bind.
    eexists. split; [reflexivity|]. split.
    + unfold stack_room, set_ds; cbn. rewrite length_insert. lia.
    + repeat split.
Qed.

Section TotalClip.

Variable tol : float.
Variable mds : Z.
Variable hi : nat -> Z.
Variable c0 : voronoicell_2d.
Variables x y rsq : float.

Hypothesis stale : no_stale_indices c0.
Hypothesis outside : every_vertex c0 x y rsq (fun u => (tol <? u)%float).

Lemma sweep_succ_outside (up : Z) :
  forall (k fuel : nat) (c : voronoicell_2d) (stackp up2 : Z) (l u2 : float),
  (S k <= fuel)%nat -> same_polygon c0 c -> 0 <= up2 < p c0 ->
  (tol <? u2)%float = true ->
  walk (succ_of (ed c0)) (S k) up2 = up ->
  stack_room mds c stackp (Z.of_nat (S k)) ->
  exists c', sweep_succ tol mds hi fuel c x y rsq up stackp up2 l u2
             = Done (c', None).
Proof.
  induction k as [|k IH]; intros fuel c stackp up2 l u2 Hf Hc Hr Hu Hw Hroom;
    (destruct fuel as [|fuel]; [lia|]); simpl; rewrite Hu;
    destruct (stale up2 Hr) as [Hs _].
  - destruct (push_room mds hi c stackp up2 0) as [c1 [-> [_ Hc1]]];
      [exact Hroom | lia|]. simpl bind.
    assert (Hc01 : same_polygon c0 c1)
      by (eapply same_polygon_trans; eassumption).
    pose proof Hc01 as [_ [_ [_ Hed]]]. rewrite Hed.
    rewrite rd_succ_of by lia. simpl bind.
    rewrite (pos_same_polygon c0 c1) by assumption.
    destruct (outside _ Hs) as [u [-> Hlt]]. simpl bind.
    simpl in Hw. rewrite Hw, Z.eqb_refl. eauto.
  - destruct (push_room mds hi c stackp up2 (Z.of_nat (S k)))
      as [c1 [-> [Hroom1 Hc1]]]; [|lia|].
    { replace (Z.of_nat (S k) + 1) with (Z.of_nat (S (S k))) by lia.
      exact Hroom. }
    simpl bind.
    assert (Hc01 : same_polygon c0 c1)
      by (eapply same_polygon_trans; eassumption).
    pose proof Hc01 as [_ [_ [_ Hed]]]. rewrite Hed.
    rewrite rd_succ_of by lia. simpl bind.
    rewrite (pos_same_polygon c0 c1) by assumption.
    destruct (outside _ Hs) as [u [-> Hlt]]. simpl bind.
    destruct (_ =? up); [eauto|].
    apply IH; [lia | assumption | exact Hs | exact Hlt | | exact Hroom1].
    rewrite <- walk_succ_r. exact Hw.
Qed.

End TotalClip.

(** C1, as the code has it: on a cell that satisfies the adjacency
    invariants, with pos(v) > tolerance at every live vertex v and room
    for p + 1 entries on the delete stack, plane returns false and leaves
    the vertex count p as it was (it is not set to 0); p loop rounds are
    enough. *)
Theorem plane_total_clip (tol : float) (mv mds : Z) (hi : nat -> Z)
    (hd : nat -> float) (fuel : nat) (c : voronoicell_2d) (x y rsq : float) :
  adjacency_ok c ->
  every_vertex c x y rsq (fun u => (tol <? u)%float) ->
  stack_room mds c 0 (p c + 1) ->
  p c <= Z.of_nat fuel ->
  exists c', plane tol mv mds hi hd fuel c x y rsq = Done (false, c') /\
    p c' = p c.
Proof.
  intros [Hcyc [[Hpos [Hreach Hback]] Hst]] Hout Hroom Hfuel.
  set (s := succ_of (ed c)) in *. set (n := Z.to_nat (p c)) in *.
  assert (H0 : 0 <= 0 < p c) by lia.
  destruct (Hst 0 H0) as [Hs0 _]. fold s in Hs0.
  unfold plane, find_outside.
  destruct (Hout 0 H0) as [u [-> Hu]]. simpl bind.
  rewrite (ltb_asym _ _ Hu). simpl bind.
  destruct Hroom as [Hlen [Hse [Hcds [Hsp Hroom]]]].
  rewrite wr_in_range by lia. simpl bind. cbn [ed set_ds].
  rewrite (rd_succ_of (ed c) 0) by (fold s; lia). simpl bind. fold s.
  set (c1 := set_ds c _).
  assert (Hc1 : same_polygon c c1) by (repeat split).
  rewrite (pos_same_polygon c c1) by exact Hc1.
  destruct (Hout _ Hs0) as [u2 [-> Hu2]]. simpl bind.
  set (k := if (n =? 1)%nat then 0%nat else (n - 2)%nat).
  assert (Hk : walk s (S k) (s 0) = 0).
  { rewrite <- walk_succ_r. unfold k.
    destruct (Nat.eqb_spec n 1) as [E|E].
    - rewrite E in Hback. simpl in *. rewrite Hback. exact Hback.
    - replace (S (S (n - 2))) with n by lia. exact Hback. }
  destruct (sweep_succ_outside tol mds hi c x y rsq Hst Hout 0 k fuel c1
              (0 + 1) (s 0) u u2) as [c' Hsw];
    [unfold k; destruct (Nat.eqb_spec n 1); lia | exact Hc1 | exact Hs0
    | exact Hu2 | exact Hk | |].
  { unfold stack_room, c1, set_ds; cbn. rewrite length_insert.
    unfold k; destruct (Nat.eqb_spec n 1); lia. }
  rewrite Hsw. simpl bind. exists c'. split; [reflexivity|].
  apply sweep_succ_polygon in Hsw. destruct Hsw as [Hp _].
  rewrite Hp. reflexivity.
Qed.

Lemma every_vertex_outside_square :
  every_vertex Sample.square 1 0 (-3) (fun u => (Sample.tolerance <? u)%float).
Proof.
  intros v Hv.
  assert (E : v = 0 \/ v = 1 \/ v = 2 \/ v = 3) by (simpl in Hv; lia).
  destruct E as [->|[->|[->| ->]]]; eexists; split; reflexivity.
Qed.

Lemma plane_total_clip_witness :
  adjacency_ok Sample.square /\
  every_vertex Sample.square 1 0 (-3)
    (fun u => (Sample.tolerance <? u)%float) /\
  stack_room Sample.max_delete_size Sample.square 0 (p Sample.square + 1) /\
  p Sample.square <= Z.of_nat 4 /\
  exists c', Sample.plane 4 Sample.square 1 0 (-3) = Done (false, c') /\
    p c' = p Sample.square.
Proof.
  assert (Hroom : stack_room Sample.max_delete_size Sample.square 0
                    (p Sample.square + 1))
    by (vm_compute; repeat split; try discriminate; left; discriminate).
  assert (Hf : p Sample.square <= Z.of_nat 4) by (simpl; lia).
  split; [exact adjacency_ok_square|].
  split; [exact every_vertex_outside_square|].
  split; [exact Hroom|]. split; [exact Hf|].
  exact (plane_total_clip Sample.tolerance Sample.max_vertices
           Sample.max_delete_size (fun _ => 0) (fun _ => 0%float) 4
           Sample.square 1 0 (-3) adjacency_ok_square
           every_vertex_outside_square Hroom Hf).
Defined.

(** C1 fails on the seed square cut by plane(1,0,-3): every vertex has
    pos > tolerance and plane returns false, but p is still 4, not 0. *)
Lemma plane_total_clip_keeps_p :
  adjacency_ok Sample.square /\
  every_vertex Sample.square 1 0 (-3)
    (fun u => (Sample.tolerance <? u)%float) /\
  exists c', Sample.plane 4 Sample.square 1 0 (-3) = Done (false, c') /\
    p c' = 4 /\ p c' <> 0.
Proof.
  split; [exact adjacency_ok_square|].
  split; [exact every_vertex_outside_square|].
  eexists. split; [vm_compute; reflexivity|]. split; [reflexivity|].
  discriminate.
Qed.

(** ** The arc of vertices a cut deletes

    [S] and [P] stand for the successor and predecessor maps of a cell
    with [n] vertices, [up] for the vertex the deletion starts from.  The
    vertices around [up] are numbered by integers: [arc_vertex z] is [z]
    steps along [S] from [up] for positive [z] and [-z] steps along [P] for
    negative [z]. *)

Section Arc.

Variables S P : Z -> Z.
Variable n : Z.
Hypothesis S_range : forall v, 0 <= v < n -> 0 <= S v < n.
Hypothesis P_range : forall v, 0 <= v < n -> 0 <= P v < n.
Hypothesis P_S : forall v, 0 <= v < n -> P (S v) = v.
Hypothesis S_P : forall v, 0 <= v < n -> S (P v) = v.

Variable up : Z.
Hypothesis up_range : 0 <= up < n.

Local Abbreviation arc_vertex := (arc_vertex S P up).

Lemma arc_vertex_range (z : Z) : 0 <= arc_vertex z < n.
Proof.
  unfold arc_vertex. destruct (0 <=? z); apply walk_range; auto.
Qed.

Lemma arc_vertex_succ (z : Z) : arc_vertex (z + 1) = S (arc_vertex z).
Proof.
  unfold arc_vertex.
  destruct (Z.leb_spec 0 z) as [Hz|Hz].
  - destruct (Z.leb_spec 0 (z + 1)); [|lia].
    replace (Z.to_nat (z + 1)) with (Datatypes.S (Z.to_nat z)) by lia.
    reflexivity.
  - replace (Z.to_nat (- z)) with (Datatypes.S (Z.to_nat (- (z + 1)))) by lia.
    simpl. rewrite S_P by (apply walk_range; auto).
    destruct (Z.leb_spec 0 (z + 1)) as [H1|H1]; [|reflexivity].
    replace (z + 1) with 0 by lia. reflexivity.
Qed.

Lemma arc_vertex_pred (z : Z) : arc_vertex (z - 1) = P (arc_vertex z).
Proof.
  rewrite <- (P_S (arc_vertex (z - 1))) by apply arc_vertex_range.
  rewrite <- arc_vertex_succ. f_equal. f_equal. lia.
Qed.

Lemma arc_vertex_shift (a b : Z) :
  arc_vertex a = arc_vertex b ->
  forall d, arc_vertex (a + d) = arc_vertex (b + d).
Proof.
  intros H d.
  assert (Hup : forall k : nat, arc_vertex (a + Z.of_nat k) =
                                arc_vertex (b + Z.of_nat k)).
  { induction k as [|k IH]; [rewrite !Z.add_0_r; exact H|].
    replace (a + Z.of_nat (Datatypes.S k)) with (a + Z.of_nat k + 1) by lia.
    replace (b + Z.of_nat (Datatypes.S k)) with (b + Z.of_nat k + 1) by lia.
    rewrite !arc_vertex_succ, IH. reflexivity. }
  assert (Hdn : forall k : nat, arc_vertex (a - Z.of_nat k) =
                                arc_vertex (b - Z.of_nat k)).
  { induction k as [|k IH]; [rewrite !Z.sub_0_r; exact H|].
    replace (a - Z.of_nat (Datatypes.S k)) with (a - Z.of_nat k - 1) by lia.
    replace (b - Z.of_nat (Datatypes.S k)) with (b - Z.of_nat k - 1) by lia.
    rewrite !arc_vertex_pred, IH. reflexivity. }
  destruct (Z.leb_spec 0 d).
  - specialize (Hup (Z.to_nat d)). rewrite Z2Nat.id in Hup by lia. exact Hup.
  - specialize (Hdn (Z.to_nat (- d))). rewrite Z2Nat.id in Hdn by lia.
    replace (a + d) with (a - - d) by lia.
    replace (b + d) with (b - - d) by lia. exact Hdn.
Qed.

(** The succ sweep deleted [arc_vertex 0 .. arc_vertex (K-1)] and stopped
    at [arc_vertex K]; the pred sweep deleted [arc_vertex (-1) ..
    arc_vertex (-R)] and stopped at [arc_vertex (-R-1)]. *)
Variables K R : Z.
Hypothesis K_pos : 1 <= K.
Hypothesis R_nonneg : 0 <= R.
Hypothesis succ_side : forall t, 0 < t <= K -> arc_vertex t <> arc_vertex 0.
Hypothesis pred_side : forall j, 1 <= j <= R -> arc_vertex (- j) <> arc_vertex K.

Local Abbreviation in_arc := (in_arc S P up K R).

Lemma arc_misses_stop (w : Z) : - R <= w < K -> arc_vertex w <> arc_vertex K.
Proof.
  intros Hw E. destruct (Z.leb_spec 0 w) as [H0|H0].
  - pose proof (arc_vertex_shift _ _ E (- w)) as E'.
    replace (w + - w) with 0 in E' by lia.
    apply (succ_side (K + - w)); [lia | congruence].
  - apply (pred_side (- w)); [lia|]. rewrite Z.opp_involutive. exact E.
Qed.

Lemma arc_injective (z1 z2 : Z) :
  - R <= z1 < K -> - R <= z2 < K -> arc_vertex z1 = arc_vertex z2 -> z1 = z2.
Proof.
  assert (Hlt : forall a b, - R <= a -> a < b -> b < K ->
                            arc_vertex a <> arc_vertex b).
  { intros a b Ha Hab Hb E.
    pose proof (arc_vertex_shift _ _ E (K - b)) as E'.
    replace (b + (K - b)) with K in E' by lia.
    apply (arc_misses_stop (a + (K - b))); [lia | exact E']. }
  intros H1 H2 E. destruct (Z.lt_trichotomy z1 z2) as [H|[H|H]];
    [exfalso | exact H | exfalso].
  - apply (Hlt z1 z2); auto; lia.
  - apply (Hlt z2 z1); auto; lia.
Qed.

Lemma stop_succ_not_in_arc : ~ in_arc (arc_vertex K).
Proof.
  intros [z [Hz E]]. apply (arc_misses_stop z Hz). congruence.
Qed.

Lemma stop_pred_not_in_arc : ~ in_arc (arc_vertex (- R - 1)).
Proof.
  intros [z [Hz E]].
  pose proof (arc_vertex_shift _ _ E (K - z)) as E'.
  replace (z + (K - z)) with K in E' by lia.
  apply (arc_misses_stop (- R - 1 + (K - z))); [lia | exact E'].
Qed.

Lemma in_arc_range (v : Z) : in_arc v -> 0 <= v < n.
Proof. intros [z [_ ->]]. apply arc_vertex_range. Qed.

Lemma succ_into_arc (v : Z) :
  0 <= v < n -> ~ in_arc v -> in_arc (S v) -> v = arc_vertex (- R - 1).
Proof.
  intros Hv Hn [z [Hz E]].
  assert (Ev : v = arc_vertex (z - 1)).
  { rewrite arc_vertex_pred, <- E, P_S by exact Hv. reflexivity. }
  destruct (Z.eq_dec z (- R)) as [->|Hne]; [exact Ev|].
  exfalso. apply Hn. exists (z - 1). split; [lia | exact Ev].
Qed.

Lemma pred_into_arc (v : Z) :
  0 <= v < n -> ~ in_arc v -> in_arc (P v) -> v = arc_vertex K.
Proof.
  intros Hv Hn [z [Hz E]].
  assert (Ev : v = arc_vertex (z + 1)).
  { rewrite arc_vertex_succ, <- E, S_P by exact Hv. reflexivity. }
  destruct (Z.eq_dec z (K - 1)) as [->|Hne].
  - rewrite Ev. f_equal. lia.
  - exfalso. apply Hn. exists (z + 1). split; [lia | exact Ev].
Qed.

Lemma succ_of_stop_pred : in_arc (S (arc_vertex (- R - 1))).
Proof.
  exists (- R). split; [lia|]. rewrite <- arc_vertex_succ. f_equal. lia.
Qed.

Lemma pred_of_stop_succ : in_arc (P (arc_vertex K)).
Proof.
  exists (K - 1). split; [lia|]. rewrite <- arc_vertex_pred. reflexivity.
Qed.

End Arc.

(** ** Writes to the adjacency arena *)

Arguments succ_of : simpl never.
Arguments pred_of : simpl never.
Arguments pos : simpl never.
Arguments walk : simpl never.

Lemma nth_insert_Z (e : list Z) (i j x : Z) :
  0 <= i < Z.of_nat (length e) -> 0 <= j ->
  nth (Z.to_nat j) (<[Z.to_nat i := x]> e) (-1) =
  if j =? i then x else nth (Z.to_nat j) e (-1).
Proof.
  intros Hi Hj. rewrite !nth_lookup.
  destruct (Z.eqb_spec j i) as [->|Hne].
  - rewrite list_lookup_insert_eq by lia. reflexivity.
  - rewrite list_lookup_insert_ne by lia. reflexivity.
Qed.

Lemma wr_succ (e e' : list Z) (a x : Z) :
  wr e (2 * a) x = Done e' ->
  forall v, 0 <= v ->
    succ_of e' v = (if v =? a then x else succ_of e v) /\
    pred_of e' v = pred_of e v.
Proof.
  intros H v Hv. apply wr_Done in H as [Hr ->]. unfold succ_of, pred_of.
  rewrite !nth_insert_Z by lia.
  destruct (Z.eqb_spec (2 * v) (2 * a)), (Z.eqb_spec v a),
    (Z.eqb_spec (2 * v + 1) (2 * a)); try lia; auto.
Qed.

Lemma wr_pred (e e' : list Z) (a x : Z) :
  wr e (2 * a + 1) x = Done e' ->
  forall v, 0 <= v ->
    pred_of e' v = (if v =? a then x else pred_of e v) /\
    succ_of e' v = succ_of e v.
Proof.
  intros H v Hv. apply wr_Done in H as [Hr ->]. unfold succ_of, pred_of.
  rewrite !nth_insert_Z by lia.
  destruct (Z.eqb_spec (2 * v + 1) (2 * a + 1)), (Z.eqb_spec v a),
    (Z.eqb_spec (2 * v) (2 * a + 1)); try lia; auto.
Qed.

Lemma wr_rd_other {A : Type} (a a' : list A) (i j : Z) (x : A) :
  wr a i x = Done a' -> j <> i -> rd a' j = rd a j.
Proof.
  intros H Hne. apply wr_Done in H as [Hr ->]. unfold rd.
  destruct (Z.leb_spec 0 j); [|reflexivity].
  rewrite list_lookup_insert_ne by lia. reflexivity.
Qed.

(** ** Growing the arenas *)

Lemma copy_prefix_lookup {A : Type} (src dst out : list A) (m : Z) :
  copy_prefix src m dst = Done out ->
  forall i, 0 <= i < m -> out !! Z.to_nat i = src !! Z.to_nat i.
Proof.
  unfold copy_prefix. intros H i Hi.
  destruct (Z.leb_spec m 0); [lia|].
  destruct (Z.leb_spec m (Z.of_nat (length src))); [|discriminate].
  destruct (Z.leb_spec m (Z.of_nat (length dst))); [|discriminate].
  injection H as <-.
  rewrite lookup_app_l by (rewrite length_take; lia).
  apply lookup_take_lt. lia.
Qed.

Lemma add_memory_vertices_frame (mv : Z) (hi : nat -> Z) (hd : nat -> float)
    (c c' : voronoicell_2d) :
  add_memory_vertices mv hi hd c = Done c' ->
  p c' = p c /\ ds c' = ds c /\
  pts_agree (current_vertices c) c c' /\
  forall v, 0 <= v < current_vertices c ->
    succ_of (ed c') v = succ_of (ed c) v /\
    pred_of (ed c') v = pred_of (ed c) v.
Proof.
  unfold add_memory_vertices. destruct (mv <? _); [discriminate|].
  intros H. apply bind_Done in H as [npts [Hp H]].
  apply bind_Done in H as [ned [He H]]. injection H as <-. cbn.
  split; [reflexivity|]. split; [reflexivity|]. split.
  - intros i Hi. unfold rd. destruct (0 <=? i); [|reflexivity].
    rewrite (copy_prefix_lookup _ _ _ _ Hp) by lia. reflexivity.
  - intros v Hv. unfold succ_of, pred_of. rewrite !nth_lookup.
    rewrite !(copy_prefix_lookup _ _ _ _ He) by lia. auto.
Qed.

Lemma grow_if_full_frame (mv : Z) (hi : nat -> Z) (hd : nat -> float)
    (c c' : voronoicell_2d) :
  (if p c =? current_vertices c
   then add_memory_vertices mv hi hd c else Done c) = Done c' ->
  p c' = p c /\ ds c' = ds c /\
  pts_agree (p c) c c' /\
  forall v, 0 <= v < p c ->
    succ_of (ed c') v = succ_of (ed c) v /\
    pred_of (ed c') v = pred_of (ed c) v.
Proof.
  destruct (Z.eqb_spec (p c) (current_vertices c)) as [E|E]; intros H.
  - apply add_memory_vertices_frame in H. rewrite <- E in H. exact H.
  - injection H as <-. repeat split.
Qed.

Lemma new_vertex_frame (c c' : voronoicell_2d) (lp up : Z) (l u : float) :
  new_vertex c lp up l u = Done c' ->
  p c' = p c /\ ds c' = ds c /\ ed c' = ed c /\ pts_agree (p c) c c'.
Proof.
  unfold new_vertex. intros H.
  apply bind_Done in H as [xl [_ H]]. apply bind_Done in H as [xu [_ H]].
  apply bind_Done in H as [a [Ha H]]. cbn in H.
  apply bind_Done in H as [yl [_ H]]. apply bind_Done in H as [yu [_ H]].
  apply bind_Done in H as [a' [Ha' H]]. injection H as <-. cbn.
  repeat split. intros i Hi.
  rewrite (wr_rd_other _ _ _ _ _ Ha') by lia.
  apply (wr_rd_other _ _ _ _ _ Ha). lia.
Qed.

Lemma pts_agree_trans (m : Z) (c1 c2 c3 : voronoicell_2d) :
  pts_agree m c1 c2 -> pts_agree m c2 c3 -> pts_agree m c1 c3.
Proof. intros H1 H2 i Hi. rewrite H2, H1 by exact Hi. reflexivity. Qed.

Lemma pts_agree_pos (m : Z) (c c' : voronoicell_2d) (x y rsq : float) (v : Z) :
  pts_agree m c c' -> 0 <= v < m -> pos c' x y rsq v = pos c x y rsq v.
Proof.
  intros H Hv. unfold pos. rewrite !H by lia. reflexivity.
Qed.

Lemma same_polygon_pts_agree (m : Z) (c c' : voronoicell_2d) :
  same_polygon c c' -> pts_agree m c c'.
Proof. intros [_ [_ [E _]]] i _. rewrite E. reflexivity. Qed.

(** ** The phases of a cut, one by one *)

Lemma add_memory_ds_lookup (mds : Z) (hi : nat -> Z) (c c' : voronoicell_2d)
    (stackp : Z) :
  add_memory_ds mds hi c stackp = Done c' ->
  forall i, (i < Z.to_nat stackp)%nat -> ds c' !! i = ds c !! i.
Proof.
  unfold add_memory_ds. destruct (mds <? _); [discriminate|].
  intros H i Hi. apply bind_Done in H as [dsn [Hc H]]. injection H as <-. cbn.
  rewrite <- (Nat2Z.id i).
  apply (copy_prefix_lookup _ _ _ _ Hc). lia.
Qed.

Lemma push_spec (mds : Z) (hi : nat -> Z) (c c' : voronoicell_2d)
    (stackp v stackp' : Z) :
  push mds hi c stackp v = Done (c', stackp') ->
  stackp' = stackp + 1 /\ 0 <= stackp /\ same_polygon c c' /\
  ds c' !! Z.to_nat stackp = Some v /\
  forall i, (i < Z.to_nat stackp)%nat -> ds c' !! i = ds c !! i.
Proof.
  intros H. pose proof (push_polygon _ _ _ _ _ _ _ H) as Hpoly.
  unfold push in H.
  apply bind_Done in H as [c1 [H1 H]]. apply bind_Done in H as [d [Hd H]].
  injection H as <- <-. apply wr_Done in Hd as [Hr ->]. cbn.
  split; [reflexivity|]. split; [lia|]. split; [exact Hpoly|]. split.
  - apply list_lookup_insert_eq. lia.
  - intros i Hi. rewrite list_lookup_insert_ne by lia.
    destruct (stackp =? stacke c).
    + eapply add_memory_ds_lookup; eassumption.
    + injection H1 as <-. reflexivity.
Qed.

Lemma find_succ_range (tol : float) (c : voronoicell_2d) (x y rsq : float)
    (up3 : Z) :
  no_stale_indices c ->
  forall (fuel : nat) (up2 : Z) (u2 : float) (up : Z) (u : float),
  0 <= up2 < p c ->
  find_succ tol fuel c x y rsq up2 u2 up3 = Done (Some (up, u)) ->
  0 <= up < p c.
Proof.
  intros Hst. induction fuel as [|fuel IH]; intros up2 u2 up u Hr; simpl;
    destruct (u2 <? tol)%float; try discriminate;
    try (intros [= <- _]; exact Hr).
  intros H. apply bind_Done in H as [up2' [Hrd H]].
  apply bind_Done in H as [u2' [_ H]].
  destruct (up2' =? up3); [discriminate|].
  apply succ_of_rd in Hrd as [<- _].
  apply IH in H; [exact H|]. apply Hst, Hr.
Qed.

Lemma find_pred_range (tol : float) (c : voronoicell_2d) (x y rsq : float)
    (up2 : Z) :
  no_stale_indices c ->
  forall (fuel : nat) (up3 : Z) (u3 : float) (up : Z) (u : float),
  0 <= up3 < p c ->
  find_pred tol fuel c x y rsq up2 up3 u3 = Done (Some (up, u)) ->
  0 <= up < p c.
Proof.
  intros Hst. induction fuel as [|fuel IH]; intros up3 u3 up u Hr; simpl;
    destruct (u3 <? tol)%float; try discriminate;
    try (intros [= <- _]; exact Hr).
  intros H. apply bind_Done in H as [up3' [Hrd H]].
  apply bind_Done in H as [u3' [_ H]].
  destruct (up2 =? up3'); [discriminate|].
  apply pred_of_rd in Hrd as [<- _].
  apply IH in H; [exact H|]. apply Hst, Hr.
Qed.

Lemma find_outside_range (tol : float) (c : voronoicell_2d) (x y rsq : float)
    (fuel : nat) (up : Z) (u : float) :
  no_stale_indices c -> 0 < p c ->
  find_outside tol fuel c x y rsq = Done (Some (up, u)) ->
  0 <= up < p c.
Proof.
  intros Hst Hp. unfold find_outside. intros H.
  apply bind_Done in H as [u0 [_ H]].
  destruct (u0 <? tol)%float; [|injection H as <- _; lia].
  apply bind_Done in H as [up2 [H2 H]]. apply bind_Done in H as [u2 [_ H]].
  apply bind_Done in H as [up3 [H3 H]]. apply bind_Done in H as [u3 [_ H]].
  apply succ_of_rd in H2 as [<- _]. apply pred_of_rd in H3 as [<- _].
  assert (H0 : 0 <= 0 < p c) by lia.
  destruct (u3 <? u2)%float.
  - eapply find_succ_range; [exact Hst | | exact H]. apply Hst, H0.
  - eapply find_pred_range; [exact Hst | | exact H]. apply Hst, H0.
Qed.

(** Lines 171-182: either the vertex [up2] on the plane is the end of the
    cut, or a new vertex in slot p is linked in front of it. *)
Lemma cut_succ_spec (tol : float) (mv : Z) (hi : nat -> Z) (hd : nat -> float)
    (c c' : voronoicell_2d) (up2 cp : Z) (l u2 : float) :
  cut_succ tol mv hi hd c up2 l u2 = Done (c', cp) ->
  (cp = up2 /\ c' = c) \/
  (cp = p c /\ p c' = p c + 1 /\ ds c' = ds c /\ pts_agree (p c) c c' /\
   (forall v, 0 <= v <= p c ->
      succ_of (ed c') v = if v =? p c then up2 else succ_of (ed c) v) /\
   (forall v, 0 <= v < p c ->
      pred_of (ed c') v = if v =? up2 then p c else pred_of (ed c) v)).
Proof.
  unfold cut_succ. destruct (- tol <? u2)%float.
  - intros [= <- <-]. left. auto.
  - intros H. right.
    apply bind_Done in H as [c1 [Hg H]]. apply bind_Done in H as [lp [_ H]].
    apply bind_Done in H as [c2 [Hn H]]. apply bind_Done in H as [e1 [He1 H]].
    apply bind_Done in H as [e2 [He2 H]]. injection H as <- <-. cbn.
    apply grow_if_full_frame in Hg as [Hp1 [Hd1 [Ha1 He]]].
    apply new_vertex_frame in Hn as [Hp2 [Hd2 [Hed2 Ha2]]].
    rewrite Hp2, Hp1 in *. rewrite Hed2 in He1.
    pose proof (wr_succ _ _ _ _ He1) as W1.
    pose proof (wr_pred _ _ _ _ He2) as W2.
    split; [reflexivity|]. split; [reflexivity|].
    split; [congruence|]. split.
    { eapply pts_agree_trans; [exact Ha1|]. exact Ha2. }
    split.
    + intros v Hv. destruct (W2 v) as [_ ->]; [lia|].
      destruct (W1 v) as [-> _]; [lia|].
      destruct (Z.eqb_spec v (p c)); [reflexivity|]. apply He. lia.
    + intros v Hv. destruct (W2 v) as [-> _]; [lia|].
      destruct (Z.eqb_spec v up2); [reflexivity|].
      destruct (W1 v) as [_ ->]; [lia|]. apply He. lia.
Qed.

(** Lines 202-212, the branch taken when [u3] is not above the
    tolerance: a new vertex in slot p is linked between [up3] and [cp]. *)
Lemma cut_pred_spec (tol : float) (mv : Z) (hi : nat -> Z) (hd : nat -> float)
    (c c' : voronoicell_2d) (cp up3 : Z) (l u3 : float) :
  (tol <? u3)%float = false ->
  cut_pred tol mv hi hd c cp up3 l u3 = Done c' ->
  p c' = p c + 1 /\ ds c' = ds c /\
  (forall v, 0 <= v <= p c ->
     succ_of (ed c') v =
     if v =? up3 then p c else if v =? p c then cp else succ_of (ed c) v) /\
  (forall v, 0 <= v <= p c ->
     pred_of (ed c') v =
     if v =? p c then up3 else if v =? cp then p c else pred_of (ed c) v).
Proof.
  unfold cut_pred. intros -> H.
  apply bind_Done in H as [c1 [Hg H]]. apply bind_Done in H as [lp [_ H]].
  apply bind_Done in H as [c2 [Hn H]]. apply bind_Done in H as [e1 [He1 H]].
  apply bind_Done in H as [e2 [He2 H]]. apply bind_Done in H as [e3 [He3 H]].
  apply bind_Done in H as [e4 [He4 H]]. injection H as <-. cbn.
  apply grow_if_full_frame in Hg as [Hp1 [Hd1 [Ha1 He]]].
  apply new_vertex_frame in Hn as [Hp2 [Hd2 [Hed2 Ha2]]].
  rewrite Hp2, Hp1 in *. rewrite Hed2 in He1.
  pose proof (wr_succ _ _ _ _ He1) as W1.
  pose proof (wr_pred _ _ _ _ He2) as W2.
  pose proof (wr_pred _ _ _ _ He3) as W3.
  pose proof (wr_succ _ _ _ _ He4) as W4.
  split; [reflexivity|]. split; [congruence|]. split.
  - intros v Hv. destruct (W4 v) as [-> _]; [lia|].
    destruct (Z.eqb_spec v up3); [reflexivity|].
    destruct (W3 v) as [_ ->]; [lia|]. destruct (W2 v) as [_ ->]; [lia|].
    destruct (W1 v) as [-> _]; [lia|].
    destruct (Z.eqb_spec v (p c)); [reflexivity|]. apply He. lia.
  - intros v Hv. destruct (W4 v) as [_ ->]; [lia|].
    destruct (W3 v) as [-> _]; [lia|].
    destruct (Z.eqb_spec v (p c)); [reflexivity|].
    destruct (W2 v) as [-> _]; [lia|].
    destruct (Z.eqb_spec v cp); [reflexivity|].
    destruct (W1 v) as [_ ->]; [lia|]. apply He. lia.
Qed.

(** ** The two sweeps *)

Section Sweeps.

Variable tol : float.
Variable mds : Z.
Variable hi : nat -> Z.
Variable c : voronoicell_2d.
Variables x y rsq : float.
Variable up : Z.

Hypothesis stale : no_stale_indices c.
Hypothesis up_range : 0 <= up < p c.

Local Abbreviation S := (succ_of (ed c)).
Local Abbreviation P := (pred_of (ed c)).

Lemma S_in_range (v : Z) : 0 <= v < p c -> 0 <= S v < p c.
Proof. intros Hv. apply stale, Hv. Qed.

Lemma P_in_range (v : Z) : 0 <= v < p c -> 0 <= P v < p c.
Proof. intros Hv. apply stale, Hv. Qed.

(** The succ sweep: the stack holds [up], [S up], ... and the sweep stops
    at the next vertex along [S], which is not above the tolerance. *)
Lemma sweep_succ_arc :
  forall (fuel : nat) (cc : voronoicell_2d) (k : nat) (l u2 : float)
         (c' : voronoicell_2d) r,
  same_polygon c cc -> (1 <= k)%nat ->
  (forall i, (i < k)%nat -> ds cc !! i = Some (walk S i up)) ->
  (forall t, (0 < t < k)%nat -> walk S t up <> up) ->
  ((2 <= k)%nat -> walk S k up <> up) ->
  pos cc x y rsq (walk S k up) = Done u2 ->
  sweep_succ tol mds hi fuel cc x y rsq up (Z.of_nat k) (walk S k up) l u2
    = Done (c', Some r) ->
  exists (K : nat) (l' u2' : float),
    r = (Z.of_nat K, walk S K up, l', u2') /\ (k <= K)%nat /\
    (forall i, (i < K)%nat -> ds c' !! i = Some (walk S i up)) /\
    (forall t, (0 < t < K)%nat -> walk S t up <> up) /\
    ((2 <= K)%nat -> walk S K up <> up) /\
    pos c' x y rsq (walk S K up) = Done u2' /\
    (tol <? u2')%float = false /\
    same_polygon c c'.
Proof.
  induction fuel as [|fuel IH]; intros cc k l u2 c' r Hcc Hk Hds Hne Hne2 Hpos;
    simpl; destruct (tol <? u2)%float eqn:Hu; try discriminate;
    try (intros [= <- <-]; exists k, l, u2; split; [reflexivity|];
         split; [lia|]; auto 10; fail).
  intros H.
  apply bind_Done in H as [[c1 sp1] [Hpush H]].
  apply bind_Done in H as [up2' [Hrd H]].
  apply bind_Done in H as [u2' [Hpos' H]].
  apply push_spec in Hpush as [-> [_ [Hc1 [Htop Hbelow]]]].
  rewrite Nat2Z.id in Htop, Hbelow.
  assert (Hc01 : same_polygon c c1)
    by (eapply same_polygon_trans; eassumption).
  pose proof Hc01 as [_ [_ [_ Hed]]]. rewrite Hed in Hrd.
  apply succ_of_rd in Hrd as [<- _].
  change (S (walk S k up)) with (walk S (Datatypes.S k) up) in *.
  destruct (Z.eqb_spec (walk S (Datatypes.S k) up) up) as [E|E];
    [discriminate|].
  replace (Z.of_nat k + 1) with (Z.of_nat (Datatypes.S k)) in H by lia.
  apply IH in H; auto with lia.
  - destruct H as [K [l' [u2'' [-> [HK H]]]]].
    exists K, l', u2''. split; [reflexivity|]. split; [lia | exact H].
  - intros i Hi. destruct (Nat.eq_dec i k) as [->|Hik]; [exact Htop|].
    rewrite Hbelow by lia. apply Hds. lia.
  - intros t Ht. destruct (Nat.eq_dec t k) as [->|Htk]; [|apply Hne; lia].
    destruct (Nat.eq_dec k 1%nat) as [->|Hk1]; [|apply Hne2; lia].
    intros E1. apply E. unfold walk in *. simpl in *. rewrite E1. exact E1.
Qed.

(** The state the pred sweep starts from: the cell [c2] left by the first
    half of the cut reads like [c] below p, the predecessor of the stop
    vertex [up2] apart. *)
Variable c2 : voronoicell_2d.
Variable up2 : Z.
Variable u2 : float.
Variable K : nat.

Hypothesis c2_pred : forall v, 0 <= v < p c -> v <> up2 ->
  pred_of (ed c2) v = P v.
Hypothesis c2_pts : pts_agree (p c) c c2.
Hypothesis up2_pos : pos c2 x y rsq up2 = Done u2.
Hypothesis up2_low : (tol <? u2)%float = false.

Lemma sweep_pred_arc :
  forall (fuel : nat) (cc : voronoicell_2d) (j : nat) (l u3 : float)
         (c' : voronoicell_2d) r,
  same_polygon c2 cc ->
  (forall i, (i < K)%nat -> ds cc !! i = Some (walk S i up)) ->
  (forall i, (1 <= i <= j)%nat ->
     ds cc !! (K + i - 1)%nat = Some (walk P i up)) ->
  (forall i, (1 <= i <= j)%nat -> walk P i up <> up2) ->
  pos cc x y rsq (walk P (Datatypes.S j) up) = Done u3 ->
  sweep_pred tol mds hi fuel cc x y rsq up2 (Z.of_nat (K + j))
    (walk P (Datatypes.S j) up) l u3 = Done (c', r) ->
  exists (R : nat) (l' u3' : float),
    r = (Z.of_nat (K + R), walk P (Datatypes.S R) up, l', u3') /\
    (j <= R)%nat /\
    (forall i, (i < K)%nat -> ds c' !! i = Some (walk S i up)) /\
    (forall i, (1 <= i <= R)%nat ->
       ds c' !! (K + i - 1)%nat = Some (walk P i up)) /\
    (forall i, (1 <= i <= R)%nat -> walk P i up <> up2) /\
    (tol <? u3')%float = false /\
    same_polygon c2 c'.
Proof.
  induction fuel as [|fuel IH]; intros cc j l u3 c' r Hcc Hds Hdp Hne Hpos;
    simpl; destruct (tol <? u3)%float eqn:Hu; try discriminate;
    try (intros [= <- <-]; exists j, l, u3; split; [reflexivity|];
         split; [lia|]; auto 10; fail).
  intros H.
  assert (Hr3 : 0 <= walk P (Datatypes.S j) up < p c)
    by (apply walk_range; [exact P_in_range | exact up_range]).
  assert (Hne3 : walk P (Datatypes.S j) up <> up2).
  { intros E. rewrite E, (pos_same_polygon c2 cc), up2_pos in Hpos
      by exact Hcc.
    assert (u2 = u3) by congruence. congruence. }
  apply bind_Done in H as [[c1 sp1] [Hpush H]].
  apply bind_Done in H as [up3' [Hrd H]].
  apply bind_Done in H as [u3' [Hpos' H]].
  apply push_spec in Hpush as [-> [_ [Hc1 [Htop Hbelow]]]].
  rewrite Nat2Z.id in Htop, Hbelow.
  assert (Hc21 : same_polygon c2 c1)
    by (eapply same_polygon_trans; eassumption).
  pose proof Hc21 as [_ [_ [_ Hed]]]. rewrite Hed in Hrd.
  apply pred_of_rd in Hrd as [<- _].
  rewrite c2_pred in * by assumption.
  change (P (walk P (Datatypes.S j) up))
    with (walk P (Datatypes.S (Datatypes.S j)) up) in *.
  assert (Hds1 : forall i, (i < K)%nat -> ds c1 !! i = Some (walk S i up)).
  { intros i Hi. rewrite Hbelow by lia. apply Hds, Hi. }
  assert (Hdp1 : forall i, (1 <= i <= Datatypes.S j)%nat ->
                   ds c1 !! (K + i - 1)%nat = Some (walk P i up)).
  { intros i Hi. destruct (Nat.eq_dec i (Datatypes.S j)) as [->|Hij].
    - replace (K + Datatypes.S j - 1)%nat with (K + j)%nat by lia. exact Htop.
    - rewrite Hbelow by lia. apply Hdp. lia. }
  assert (Hne1 : forall i, (1 <= i <= Datatypes.S j)%nat ->
                   walk P i up <> up2).
  { intros i Hi. destruct (Nat.eq_dec i (Datatypes.S j)) as [->|Hij];
      [exact Hne3 | apply Hne; lia]. }
  replace (Z.of_nat (K + j) + 1) with (Z.of_nat (K + Datatypes.S j)) in H
    by lia.
  destruct (Z.eqb_spec (walk P (Datatypes.S (Datatypes.S j)) up) up2)
    as [E|E].
  - injection H as <- <-. exists (Datatypes.S j), u3, u3'.
    split; [reflexivity|]. split; [lia|].
    split; [exact Hds1|]. split; [exact Hdp1|]. split; [exact Hne1|].
    split; [|exact Hc21].
    rewrite E, (pos_same_polygon c2 c1), up2_pos in Hpos' by exact Hc21.
    assert (u2 = u3') as <- by congruence. exact up2_low.
  - apply IH in H; auto.
    destruct H as [R [l' [u3'' [-> [HR H]]]]].
    exists R, l', u3''. split; [reflexivity|]. split; [lia | exact H].
Qed.

End Sweeps.

(** ** Marking and compaction *)

Lemma mark_deleted_spec (m : Z) :
  forall (fuel : nat) (c : voronoicell_2d) (sp : Z) (c' : voronoicell_2d),
  0 <= sp ->
  mark_deleted fuel c sp m = Done c' ->
  p c' = p c /\ ds c' = ds c /\
  (forall v, 0 <= v -> pred_of (ed c') v = pred_of (ed c) v) /\
  (forall v, 0 <= v -> succ_of (ed c) v = -1 -> succ_of (ed c') v = -1) /\
  (forall i v, sp <= i < m -> ds c !! Z.to_nat i = Some v ->
     0 <= v /\ succ_of (ed c') v = -1) /\
  (forall v, 0 <= v ->
     (forall i, sp <= i < m -> ds c !! Z.to_nat i <> Some v) ->
     succ_of (ed c') v = succ_of (ed c) v).
Proof.
  induction fuel as [|fuel IH]; intros c sp c' Hsp; simpl;
    destruct (Z.ltb_spec sp m) as [Hlt|Hge]; try discriminate;
    try (intros [= <-]; repeat split; auto; intros; lia).
  intros H. apply bind_Done in H as [v0 [Hv0 H]].
  apply bind_Done in H as [e1 [He1 H]].
  apply rd_Done in Hv0 as [_ Hv0].
  rewrite Z.mul_comm in He1.
  pose proof (wr_succ _ _ _ _ He1) as W.
  assert (Hv0' : 0 <= v0) by (apply wr_Done in He1; lia).
  apply IH in H as [Hp [Hd [Hpr [Hkeep [Hmark Hrest]]]]]; [|lia].
  cbn in *. split; [exact Hp|]. split; [exact Hd|].
  split; [|split; [|split]].
  - intros v Hv. rewrite Hpr by exact Hv. apply W, Hv.
  - intros v Hv Hs. apply Hkeep; [exact Hv|].
    destruct (W v Hv) as [-> _]. destruct (v =? v0); [reflexivity | exact Hs].
  - intros i v Hi Hl. destruct (Z.eq_dec i sp) as [->|Hne].
    + assert (v = v0) as -> by congruence. split; [exact Hv0'|].
      apply Hkeep; [exact Hv0'|]. destruct (W v0 Hv0') as [-> _].
      rewrite Z.eqb_refl. reflexivity.
    + apply (Hmark i); [lia | exact Hl].
  - intros v Hv Hn. rewrite Hrest.
    + destruct (W v Hv) as [-> _]. destruct (Z.eqb_spec v v0) as [->|]; auto.
      exfalso. apply (Hn sp); [lia | exact Hv0].
    + exact Hv.
    + intros i Hi. apply Hn. lia.
Qed.

Lemma skip_deleted_spec (e : list Z) :
  forall (fuel : nat) (q q' : Z),
  skip_deleted fuel e q = Done q' ->
  0 <= q' < q /\ succ_of e q' <> -1 /\
  forall v, q' < v < q -> succ_of e v = -1.
Proof.
  induction fuel as [|fuel IH]; intros q q'; simpl; [discriminate|].
  intros H. apply bind_Done in H as [s [Hs H]].
  apply succ_of_rd in Hs as [Hs Hq].
  destruct (Z.eqb_spec s (-1)) as [E|E].
  - apply IH in H as [Hr [Hl Hbetween]].
    split; [lia|]. split; [exact Hl|].
    intros v Hv. destruct (Z.eq_dec v (q - 1)) as [->|Hne]; [congruence|].
    apply Hbetween. lia.
  - injection H as <-. split; [lia|]. split; [congruence|].
    intros v Hv. lia.
Qed.

(** Lines 221-228. *)
Lemma relocate_spec (c c' : voronoicell_2d) (up : Z) :
  relocate c up = Done c' ->
  (p c <= up /\ c' = set_p c (p c + 1)) \/
  (up < p c /\ p c' = p c /\ ds c' = ds c /\
   (0 <= up -> succ_of (ed c) (p c) <> p c -> pred_of (ed c) (p c) <> p c ->
    forall v, 0 <= v ->
      succ_of (ed c') v =
        (if v =? up then succ_of (ed c) (p c)
         else if v =? pred_of (ed c) (p c) then up
         else succ_of (ed c) v) /\
      pred_of (ed c') v =
        (if v =? up then pred_of (ed c) (p c)
         else if v =? succ_of (ed c) (p c) then up
         else pred_of (ed c) v))).
Proof.
  unfold relocate. destruct (Z.ltb_spec up (p c)) as [Hlt|Hge].
  2: { intros [= <-]. left. auto. }
  intros H. right.
  apply bind_Done in H as [s [Hs H]]. apply bind_Done in H as [e1 [He1 H]].
  apply bind_Done in H as [q [Hq H]]. apply bind_Done in H as [e2 [He2 H]].
  apply bind_Done in H as [vx [_ H]]. apply bind_Done in H as [a1 [_ H]].
  apply bind_Done in H as [vy [_ H]]. apply bind_Done in H as [a2 [_ H]].
  apply bind_Done in H as [s' [Hs' H]]. apply bind_Done in H as [e3 [He3 H]].
  apply bind_Done in H as [q' [Hq' H]]. apply bind_Done in H as [e4 [He4 H]].
  injection H as <-. cbn.
  split; [exact Hlt|]. split; [reflexivity|]. split; [reflexivity|].
  intros Hup Hsne Hqne v Hv.
  apply succ_of_rd in Hs as [Hs Hp0]. subst s.
  pose proof (wr_pred _ _ _ _ He1) as W1.
  apply pred_of_rd in Hq as [Hq _].
  destruct (W1 (p c) Hp0) as [Hq1 Hs1]. rewrite Hq1 in Hq.
  destruct (Z.eqb_spec (p c) (succ_of (ed c) (p c))) as [E|_];
    [congruence|]. subst q.
  pose proof (wr_succ _ _ _ _ He2) as W2.
  apply succ_of_rd in Hs' as [Hs' _].
  destruct (W2 (p c) Hp0) as [Hs2 Hq2]. rewrite Hs2, Hs1 in Hs'.
  destruct (Z.eqb_spec (p c) (pred_of (ed c) (p c))) as [E|_];
    [congruence|]. subst s'.
  pose proof (wr_succ _ _ _ _ He3) as W3.
  apply pred_of_rd in Hq' as [Hq' _].
  destruct (W3 (p c) Hp0) as [_ Hq3]. rewrite Hq3, Hq2, Hq1 in Hq'.
  subst q'.
  pose proof (wr_pred _ _ _ _ He4) as W4.
  split.
  - destruct (W4 v Hv) as [_ ->]. destruct (W3 v Hv) as [-> _].
    destruct (v =? up); [reflexivity|].
    destruct (W2 v Hv) as [-> _].
    destruct (v =? pred_of (ed c) (p c)); [reflexivity|].
    apply W1, Hv.
  - destruct (W4 v Hv) as [-> _]. destruct (v =? up); [reflexivity|].
    destruct (W3 v Hv) as [_ ->]. destruct (W2 v Hv) as [_ ->].
    apply W1, Hv.
Qed.

Lemma on_stack_pop (c c' : voronoicell_2d) (m v : Z) :
  ds c' = ds c -> on_stack c' (m - 1) v -> on_stack c m v.
Proof.
  intros Hd [i [Hi Hl]]. exists i. rewrite <- Hd. split; [lia | exact Hl].
Qed.

Lemma stack_distinct_pop (c c' : voronoicell_2d) (m : Z) :
  ds c' = ds c -> stack_distinct c m -> stack_distinct c' (m - 1).
Proof.
  intros Hd H i j v Hi Hj. rewrite Hd. apply H; lia.
Qed.

(** One round of the compaction loop keeps the invariant. *)
Lemma compacting_step (c c2 : voronoicell_2d) (m q up : Z) :
  compacting c m -> 0 < m ->
  0 <= q < p c -> succ_of (ed c) q <> -1 ->
  (forall v, q < v < p c -> succ_of (ed c) v = -1) ->
  ds c !! Z.to_nat (m - 1) = Some up ->
  relocate (set_p c q) up = Done c2 ->
  compacting c2 (m - 1).
Proof.
  intros [Hdist [Htomb [Hall Hlive]]] Hm Hq Hql Htail Hup Hrel.
  assert (Hup_on : on_stack c m up) by (exists (m - 1); split; [lia | exact Hup]).
  destruct (Htomb up Hup_on) as [Hup0 Hup1].
  assert (Hupq : up <> q) by congruence.
  assert (Hlow : forall w, 0 <= w < p c -> succ_of (ed c) w <> -1 -> w <= q).
  { intros w Hw Hs. destruct (Z.le_gt_cases w q) as [|Hgt]; [assumption|].
    exfalso. apply Hs, Htail. lia. }
  assert (Hother : forall v, on_stack c m v -> v <> up ->
                             forall d, ds d = ds c -> on_stack d (m - 1) v).
  { intros v [i [Hi Hl]] Hne d Hd. exists i. rewrite Hd. split; [|exact Hl].
    destruct (Z.eq_dec i (m - 1)) as [->|]; [congruence | lia]. }
  assert (Hnot_up : forall v d, ds d = ds c -> on_stack d (m - 1) v -> v <> up).
  { intros v d Hd [i [Hi Hl]] ->. rewrite Hd in Hl.
    assert (i = m - 1) by (apply (Hdist i (m - 1) up); auto; lia). lia. }
  apply relocate_spec in Hrel as [[Hge ->]|[Hlt [Hp2 [Hd2 Heq]]]]; cbn in *.
  - (* the popped vertex lies in the tail already *)
    split; [|split; [|split]]; cbn.
    + apply (stack_distinct_pop c); [reflexivity | exact Hdist].
    + intros v Hv. apply Htomb. eapply on_stack_pop; [|exact Hv]. reflexivity.
    + intros v Hv Hs. assert (v <> q) by congruence.
      apply Hother; [apply Hall; [lia | exact Hs] | lia | reflexivity].
    + intros v Hv Hs.
      destruct (Hlive v) as [Hs1 [Hp1 [Hss [Hps [Hsp Hfix]]]]]; [lia | exact Hs|].
      repeat split; auto; try lia.
      * apply Z.lt_succ_r, Hlow; [lia | exact Hss].
      * apply Z.lt_succ_r, Hlow; [lia|]. rewrite Hsp. lia.
  - (* the last live vertex q moves into the freed slot *)
    destruct (Hlive q) as [Ha [Hb [Hsa [Hpa [Hsb Hfix]]]]]; [lia | exact Hql|].
    remember (succ_of (ed c) q) as a eqn:Ea.
    remember (pred_of (ed c) q) as b eqn:Eb.
    assert (Hbq : b <> q) by congruence.
    specialize (Heq Hup0 Hfix Hbq).
    assert (Haq : a < q) by (pose proof (Hlow a Ha Hsa); lia).
    assert (Hbq' : b < q).
    { assert (b <= q); [apply Hlow; [exact Hb|]; rewrite Hsb; lia | lia]. }
    assert (Hau : a <> up) by congruence.
    assert (Hbu : b <> up) by (intros E; rewrite E in Hsb; lia).
    assert (Sup : succ_of (ed c2) up = a).
    { destruct (Heq up Hup0) as [-> _]. rewrite Z.eqb_refl. reflexivity. }
    assert (Pup : pred_of (ed c2) up = b).
    { destruct (Heq up Hup0) as [_ ->]. rewrite Z.eqb_refl. reflexivity. }
    assert (Sb : succ_of (ed c2) b = up).
    { destruct (Heq b) as [-> _]; [lia|].
      destruct (Z.eqb_spec b up); [congruence|]. rewrite Z.eqb_refl.
      reflexivity. }
    assert (Pa : pred_of (ed c2) a = up).
    { destruct (Heq a) as [_ ->]; [lia|].
      destruct (Z.eqb_spec a up); [congruence|]. rewrite Z.eqb_refl.
      reflexivity. }
    assert (Sother : forall v, 0 <= v -> v <> up -> v <> b ->
                     succ_of (ed c2) v = succ_of (ed c) v).
    { intros v Hv H1 H2. destruct (Heq v Hv) as [-> _].
      destruct (Z.eqb_spec v up); [congruence|].
      destruct (Z.eqb_spec v b); [congruence | reflexivity]. }
    assert (Pother : forall v, 0 <= v -> v <> up -> v <> a ->
                     pred_of (ed c2) v = pred_of (ed c) v).
    { intros v Hv H1 H2. destruct (Heq v Hv) as [_ ->].
      destruct (Z.eqb_spec v up); [congruence|].
      destruct (Z.eqb_spec v a); [congruence | reflexivity]. }
    assert (Slive : forall v, 0 <= v -> v <> up ->
                    succ_of (ed c) v <> -1 -> succ_of (ed c2) v <> -1).
    { intros v Hv H1 H2. destruct (Z.eq_dec v b) as [->|H3].
      - rewrite Sb. lia.
      - rewrite Sother; auto. }
    split; [|split; [|split]].
    + apply (stack_distinct_pop c); assumption.
    + intros v Hv. pose proof (Hnot_up v c2 Hd2 Hv) as Hne.
      apply (on_stack_pop c) in Hv; [|exact Hd2].
      destruct (Htomb v Hv) as [Hv0 Hv1]. split; [exact Hv0|].
      rewrite Sother;
        [exact Hv1 | exact Hv0 | exact Hne | intros ->; rewrite Hsb in Hv1; lia].
    + rewrite Hp2. intros v Hv Hs.
      assert (v <> up) by (intros ->; rewrite Sup in Hs; lia).
      assert (v <> b) by (intros ->; rewrite Sb in Hs; lia).
      rewrite Sother in Hs by (auto; lia).
      apply Hother; [apply Hall; [lia | exact Hs] | assumption | exact Hd2].
    + rewrite Hp2. intros v Hv Hs. unfold live_closed.
      destruct (Z.eq_dec v up) as [->|Hvu].
      * rewrite Sup, Pup, Pa, Sb.
        repeat split; try lia; try congruence.
        apply Slive; [lia | exact Hau | exact Hsa].
      * assert (Hvl : succ_of (ed c) v <> -1).
        { destruct (Z.eq_dec v b) as [->|H3]; [rewrite Hsb; lia|].
          rewrite Sother in Hs; auto; lia. }
        destruct (Hlive v) as [Hs1 [Hp1 [Hss [Hps [Hsp Hfx]]]]];
          [lia | exact Hvl|].
        assert (Hsu : succ_of (ed c) v <> up) by congruence.
        assert (Hpu : pred_of (ed c) v <> up)
          by (intros E; rewrite E in Hsp; lia).
        assert (Hsq : v <> b -> succ_of (ed c) v < q).
        { intros H3.
          assert (succ_of (ed c) v <= q) by (apply Hlow; assumption).
          assert (succ_of (ed c) v <> q); [|lia].
          intros E. apply H3. rewrite Eb, <- E. congruence. }
        assert (Hpq : v <> a -> pred_of (ed c) v < q).
        { intros H3.
          assert (pred_of (ed c) v <= q)
            by (apply Hlow; [assumption | rewrite Hsp; lia]).
          assert (pred_of (ed c) v <> q); [|lia].
          intros E. apply H3. rewrite Ea, <- E. congruence. }
        assert (Hsa' : succ_of (ed c) v <> a).
        { intros E. assert (Hvq : v = q); [|clear - Hvq Hv; lia].
          rewrite <- Hps, E. exact Hpa. }
        assert (Hpb' : pred_of (ed c) v <> b).
        { intros E. assert (Hvq : v = q); [|clear - Hvq Hv; lia].
          rewrite <- Hsp, E. exact Hsb. }
        destruct (Z.eq_dec v b) as [Evb|Hvb];
          destruct (Z.eq_dec v a) as [Eva|Hva].
        -- assert (Sv : succ_of (ed c2) v = up) by (rewrite Evb; exact Sb).
           assert (Pv : pred_of (ed c2) v = up) by (rewrite Eva; exact Pa).
           rewrite Sv, Pv, Sup, Pup.
           repeat split;
             first [assumption | congruence
                   | apply Slive; [clear - Hs1; lia | exact Hsu | exact Hss]
                   | clear - Hup0 Hlt Ha Hb; lia].
        -- assert (Sv : succ_of (ed c2) v = up) by (rewrite Evb; exact Sb).
           assert (Pv : pred_of (ed c2) v = pred_of (ed c) v)
             by (apply Pother; [lia | exact Hvu | exact Hva]).
           rewrite Sv, Pv, Sup, Pup.
           rewrite Sother by (auto; lia).
           repeat split;
             first [assumption | congruence
                   | apply Slive; [clear - Hs1; lia | exact Hsu | exact Hss]
                   | clear - Hup0 Hlt Ha Hb Hs1 Hp1 Hsq Hpq Hva Hv; lia].
        -- assert (Sv : succ_of (ed c2) v = succ_of (ed c) v)
             by (apply Sother; [lia | exact Hvu | exact Hvb]).
           assert (Pv : pred_of (ed c2) v = up) by (rewrite Eva; exact Pa).
           rewrite Sv, Pv, Sup.
           rewrite Pother by (auto; lia).
           repeat split;
             first [assumption | congruence
                   | apply Slive; [clear - Hs1; lia | exact Hsu | exact Hss]
                   | clear - Hup0 Hlt Ha Hb Hs1 Hp1 Hsq Hpq Hvb Hv; lia].
        -- assert (Sv : succ_of (ed c2) v = succ_of (ed c) v)
             by (apply Sother; [lia | exact Hvu | exact Hvb]).
           assert (Pv : pred_of (ed c2) v = pred_of (ed c) v)
             by (apply Pother; [lia | exact Hvu | exact Hva]).
           rewrite Sv, Pv.
           rewrite (Pother (succ_of (ed c) v)) by (auto; lia).
           rewrite (Sother (pred_of (ed c) v)) by (auto; lia).
           repeat split;
             first [assumption | congruence
                   | apply Slive; [clear - Hs1; lia | exact Hsu | exact Hss]
                   | clear - Hup0 Hlt Ha Hb Hs1 Hp1 Hsq Hpq Hvb Hva Hv; lia].
Qed.

Lemma compacting_done (c : voronoicell_2d) (m : Z) :
  compacting c m -> m <= 0 -> cyclic_adjacency c /\ no_stale_indices c.
Proof.
  intros [_ [_ [Hall Hlive]]] Hm.
  assert (H : forall v, 0 <= v < p c -> live_closed (ed c) (p c) v).
  { intros v Hv. apply Hlive; [exact Hv|]. intros Hs.
    destruct (Hall v Hv Hs) as [i [Hi _]]. lia. }
  split; intros v Hv; destruct (H v Hv) as [? [? [? [? [? ?]]]]]; auto.
Qed.

(** Lines 218-229: the loop empties the delete stack and leaves a cell
    whose adjacency is closed on the vertices below p. *)
Lemma compact_spec :
  forall (fuel : nat) (c : voronoicell_2d) (m : Z) (c' : voronoicell_2d),
  compacting c m -> compact fuel c m = Done c' ->
  cyclic_adjacency c' /\ no_stale_indices c'.
Proof.
  induction fuel as [|fuel IH]; intros c m c' Hc; simpl;
    destruct (Z.ltb_spec 0 m) as [Hm|Hm]; try discriminate;
    try (intros [= <-]; apply (compacting_done c m); assumption).
  intros H. apply bind_Done in H as [q [Hq H]].
  apply bind_Done in H as [up [Hup H]].
  apply bind_Done in H as [c2 [Hrel H]].
  apply skip_deleted_spec in Hq as [Hq [Hql Htail]].
  apply rd_Done in Hup as [_ Hup]. cbn in Hup.
  apply (IH c2 (m - 1) c'); [|exact H].
  apply (compacting_step c c2 m q up); assumption.
Qed.

(** ** The cell between the cut and the compaction *)

Lemma single_cycle_no_fixpoint (c : voronoicell_2d) :
  single_cycle c -> 2 <= p c ->
  forall v, 0 <= v < p c -> succ_of (ed c) v <> v.
Proof.
  intros [Hp [Hreach Hback]] H2 v Hv Hfix.
  assert (Hstay : forall k, walk (succ_of (ed c)) k v = v).
  { induction k as [|k IH]; [reflexivity|].
    unfold walk in *. simpl. rewrite IH. exact Hfix. }
  destruct (Hreach v Hv) as [i [Hi Hw]].
  assert (Hv0 : v = 0).
  { rewrite <- Hback.
    replace (Z.to_nat (p c)) with ((Z.to_nat (p c) - i) + i)%nat by lia.
    rewrite walk_add, Hw, Hstay. reflexivity. }
  rewrite Hv0 in Hstay. destruct (Hreach 1) as [j [_ Hj]]; [lia|].
  rewrite Hstay in Hj. discriminate.
Qed.

Lemma on_stack_dec (c : voronoicell_2d) (v : Z) (m : nat) :
  on_stack c (Z.of_nat m) v \/ ~ on_stack c (Z.of_nat m) v.
Proof.
  induction m as [|m [IH|IH]].
  - right. intros [i [Hi _]]. lia.
  - left. destruct IH as [i [Hi Hl]]. exists i. split; [lia | exact Hl].
  - destruct (decide (ds c !! m = Some v)) as [E|E].
    + left. exists (Z.of_nat m). rewrite Nat2Z.id. split; [lia | exact E].
    + right. intros [i [Hi Hl]]. destruct (Z.eq_dec i (Z.of_nat m)) as [->|Hne].
      * rewrite Nat2Z.id in Hl. contradiction.
      * apply IH. exists i. split; [lia | exact Hl].
Qed.

Section MidState.

(** The cell the cut started from. *)
Variable c : voronoicell_2d.
Hypothesis cyc : cyclic_adjacency c.
Hypothesis stale : no_stale_indices c.
Hypothesis no_fix : forall v, 0 <= v < p c -> succ_of (ed c) v <> v.

Variable up : Z.
Hypothesis up_range : 0 <= up < p c.

Local Abbreviation S := (succ_of (ed c)).
Local Abbreviation P := (pred_of (ed c)).
Local Abbreviation np := (p c).
Local Abbreviation g := (arc_vertex S P up).

(** What the two sweeps found. *)
Variables K R : nat.
Hypothesis K_pos : (1 <= K)%nat.
Hypothesis succ_side : forall t, (0 < t <= K)%nat -> walk S t up <> up.
Hypothesis pred_side : forall j, (1 <= j <= R)%nat -> walk P j up <> walk S K up.

Local Abbreviation up2 := (walk S K up).
Local Abbreviation up3 := (walk P (Datatypes.S R) up).
Local Abbreviation arc := (in_arc S P up (Z.of_nat K) (Z.of_nat R)).

Lemma S_range' (v : Z) : 0 <= v < np -> 0 <= S v < np.
Proof. intros Hv. apply stale, Hv. Qed.

Lemma P_range' (v : Z) : 0 <= v < np -> 0 <= P v < np.
Proof. intros Hv. apply stale, Hv. Qed.

Lemma P_S' (v : Z) : 0 <= v < np -> P (S v) = v.
Proof. intros Hv. apply cyc, Hv. Qed.

Lemma S_P' (v : Z) : 0 <= v < np -> S (P v) = v.
Proof. intros Hv. apply cyc, Hv. Qed.

Lemma g_nonneg (i : nat) : g (Z.of_nat i) = walk S i up.
Proof.
  unfold arc_vertex. destruct (Z.leb_spec 0 (Z.of_nat i)); [|lia].
  rewrite Nat2Z.id. reflexivity.
Qed.

Lemma g_nonpos (j : nat) : g (- Z.of_nat j) = walk P j up.
Proof.
  unfold arc_vertex. destruct (Z.leb_spec 0 (- Z.of_nat j)) as [H|H].
  - assert (j = 0%nat) as -> by lia. reflexivity.
  - rewrite Z.opp_involutive, Nat2Z.id. reflexivity.
Qed.

Lemma g_up2 : g (Z.of_nat K) = up2.
Proof. apply g_nonneg. Qed.

Lemma g_up3 : g (- Z.of_nat R - 1) = up3.
Proof.
  replace (- Z.of_nat R - 1) with (- Z.of_nat (Datatypes.S R)) by lia.
  apply g_nonpos.
Qed.

Lemma succ_side_g (t : Z) : 0 < t <= Z.of_nat K -> g t <> g 0.
Proof.
  intros Ht. rewrite <- (Z2Nat.id t) by lia.
  rewrite g_nonneg. change (g 0) with up. apply succ_side. lia.
Qed.

Lemma pred_side_g (j : Z) :
  1 <= j <= Z.of_nat R -> g (- j) <> g (Z.of_nat K).
Proof.
  intros Hj. rewrite <- (Z2Nat.id j) by lia.
  rewrite g_nonpos, g_up2. apply pred_side. lia.
Qed.

Lemma up2_range : 0 <= up2 < np.
Proof. apply walk_range; [exact S_range' | exact up_range]. Qed.

Lemma up3_range : 0 <= up3 < np.
Proof. apply walk_range; [exact P_range' | exact up_range]. Qed.

Lemma arc_range (v : Z) : arc v -> 0 <= v < np.
Proof.
  intros Harc.
  exact (in_arc_range S P np S_range' P_range' up up_range _ _ _ Harc).
Qed.

Lemma up2_not_arc : ~ arc up2.
Proof.
  rewrite <- g_up2. eapply stop_succ_not_in_arc;
    first [exact S_range' | exact P_range' | exact P_S' | exact S_P'
          | exact up_range | exact succ_side_g | exact pred_side_g | lia
          | eassumption].
Qed.

Lemma up3_not_arc : ~ arc up3.
Proof.
  rewrite <- g_up3. eapply stop_pred_not_in_arc;
    first [exact S_range' | exact P_range' | exact P_S' | exact S_P'
          | exact up_range | exact succ_side_g | exact pred_side_g | lia
          | eassumption].
Qed.

Lemma S_into_arc (v : Z) : 0 <= v < np -> ~ arc v -> arc (S v) -> v = up3.
Proof.
  rewrite <- g_up3. intros Hv Hn Ha. eapply succ_into_arc;
    first [exact S_range' | exact P_range' | exact P_S' | exact S_P'
          | exact up_range | exact succ_side_g | exact pred_side_g | lia
          | eassumption].
Qed.

Lemma P_into_arc (v : Z) : 0 <= v < np -> ~ arc v -> arc (P v) -> v = up2.
Proof.
  rewrite <- g_up2. intros Hv Hn Ha. eapply pred_into_arc;
    first [exact S_range' | exact P_range' | exact P_S' | exact S_P'
          | exact up_range | exact succ_side_g | exact pred_side_g | lia
          | eassumption].
Qed.

Lemma S_up3_arc : arc (S up3).
Proof.
  rewrite <- g_up3. eapply succ_of_stop_pred;
    first [exact S_range' | exact P_range' | exact P_S' | exact S_P'
          | exact up_range | exact succ_side_g | exact pred_side_g | lia
          | eassumption].
Qed.

Lemma P_up2_arc : arc (P up2).
Proof.
  rewrite <- g_up2. eapply pred_of_stop_succ;
    first [exact S_range' | exact P_range' | exact P_S' | exact S_P'
          | exact up_range | exact succ_side_g | exact pred_side_g | lia
          | eassumption].
Qed.

(** The cell after the marking loop: its delete stack holds the arc. *)
Variable c6 : voronoicell_2d.
Hypothesis stack_succ :
  forall i, (i < K)%nat -> ds c6 !! i = Some (walk S i up).
Hypothesis stack_pred :
  forall j, (1 <= j <= R)%nat -> ds c6 !! (K + j - 1)%nat = Some (walk P j up).

Lemma stack_entry (i : Z) :
  0 <= i < Z.of_nat (K + R) ->
  ds c6 !! Z.to_nat i =
  Some (g (if i <? Z.of_nat K then i else - (i - Z.of_nat K + 1))).
Proof.
  intros Hi. destruct (Z.ltb_spec i (Z.of_nat K)) as [H|H].
  - rewrite stack_succ by lia. rewrite <- (Z2Nat.id i) at 2 by lia.
    rewrite g_nonneg. reflexivity.
  - replace (Z.to_nat i) with (K + Z.to_nat (i - Z.of_nat K + 1) - 1)%nat
      by lia.
    rewrite stack_pred by lia.
    rewrite <- (Z2Nat.id (i - Z.of_nat K + 1)) at 2 by lia.
    rewrite g_nonpos. reflexivity.
Qed.

Lemma on_stack_arc (v : Z) : on_stack c6 (Z.of_nat (K + R)) v <-> arc v.
Proof.
  split.
  - intros [i [Hi Hl]]. rewrite stack_entry in Hl by exact Hi.
    injection Hl as <-. eexists. split; [|reflexivity].
    destruct (Z.ltb_spec i (Z.of_nat K)); lia.
  - intros [z [Hz ->]].
    exists (if 0 <=? z then z else Z.of_nat K + - z - 1).
    destruct (Z.leb_spec 0 z) as [H|H].
    + split; [lia|]. rewrite stack_entry by lia.
      destruct (Z.ltb_spec z (Z.of_nat K)); [reflexivity | lia].
    + split; [lia|]. rewrite stack_entry by lia.
      destruct (Z.ltb_spec (Z.of_nat K + - z - 1) (Z.of_nat K)); [lia|].
      do 2 f_equal. lia.
Qed.

Lemma arc_stack_distinct : stack_distinct c6 (Z.of_nat (K + R)).
Proof.
  intros i j v Hi Hj Hli Hlj.
  rewrite stack_entry in Hli, Hlj by assumption.
  assert (E : g (if i <? Z.of_nat K then i else - (i - Z.of_nat K + 1)) =
              g (if j <? Z.of_nat K then j else - (j - Z.of_nat K + 1)))
    by congruence.
  eapply arc_injective in E;
    first [exact S_range' | exact P_range' | exact P_S' | exact S_P'
          | exact up_range | exact succ_side_g | exact pred_side_g | idtac].
  - destruct (Z.ltb_spec i (Z.of_nat K)), (Z.ltb_spec j (Z.of_nat K)); lia.
  - destruct (Z.ltb_spec i (Z.of_nat K)); lia.
  - destruct (Z.ltb_spec j (Z.of_nat K)); lia.
Qed.

Lemma arc_dec (v : Z) : arc v \/ ~ arc v.
Proof.
  destruct (on_stack_dec c6 v (K + R)) as [H|H].
  - left. apply on_stack_arc, H.
  - right. intros Ha. apply H, on_stack_arc, Ha.
Qed.

Hypothesis marked : forall v, on_stack c6 (Z.of_nat (K + R)) v ->
  0 <= v /\ succ_of (ed c6) v = -1.

(** Facts about the vertices the cut keeps. *)
Lemma kept_succ (w : Z) : 0 <= w < np -> 0 <= S w < np /\ S w <> w.
Proof. intros Hw. split; [apply S_range', Hw | apply no_fix, Hw]. Qed.

Lemma kept_pred (w : Z) : 0 <= w < np -> 0 <= P w < np /\ P w <> w.
Proof.
  intros Hw. split; [apply P_range', Hw|].
  intros E. apply (no_fix w Hw). rewrite <- E at 1. apply S_P', Hw.
Qed.

Lemma kept_succ_kept (w : Z) :
  0 <= w < np -> ~ arc w -> w <> up3 -> ~ arc (S w).
Proof. intros Hw Hn H3 Ha. apply H3, S_into_arc; assumption. Qed.

Lemma kept_pred_kept (w : Z) :
  0 <= w < np -> ~ arc w -> w <> up2 -> ~ arc (P w).
Proof. intros Hw Hn H2 Ha. apply H2, P_into_arc; assumption. Qed.

Lemma kept_succ_not_up2 (w : Z) : 0 <= w < np -> ~ arc w -> S w <> up2.
Proof.
  intros Hw Hn E. apply Hn. rewrite <- (P_S' w Hw), E. exact P_up2_arc.
Qed.

Lemma kept_pred_not_up3 (w : Z) : 0 <= w < np -> ~ arc w -> P w <> up3.
Proof.
  intros Hw Hn E. apply Hn. rewrite <- (S_P' w Hw), E. exact S_up3_arc.
Qed.

Lemma live_not_arc (v : Z) : succ_of (ed c6) v <> -1 -> ~ arc v.
Proof. intros Hs Ha. apply Hs, marked, on_stack_arc, Ha. Qed.

(** The cut ended on a vertex on the plane: one new vertex, in slot np,
    between [up3] and [up2]. *)
Lemma compacting_after_cut_on_plane :
  p c6 = np + 1 ->
  (forall v, 0 <= v <= np -> ~ arc v ->
     succ_of (ed c6) v =
     if v =? up3 then np else if v =? np then up2 else S v) ->
  (forall v, 0 <= v <= np ->
     pred_of (ed c6) v =
     if v =? np then up3 else if v =? up2 then np else P v) ->
  compacting c6 (Z.of_nat (K + R)).
Proof.
  intros Hp6 HS HP.
  pose proof up2_range as Hu2. pose proof up3_range as Hu3.
  pose proof up2_not_arc as Na2. pose proof up3_not_arc as Na3.
  assert (Nan : ~ arc np) by (intros Ha; apply arc_range in Ha; lia).
  assert (Sn : succ_of (ed c6) np = up2).
  { rewrite HS by (auto; lia). destruct (Z.eqb_spec np up3); [lia|].
    rewrite Z.eqb_refl. reflexivity. }
  assert (Pn : pred_of (ed c6) np = up3).
  { rewrite HP by lia. rewrite Z.eqb_refl. reflexivity. }
  assert (S3 : succ_of (ed c6) up3 = np).
  { rewrite HS by (auto; lia). rewrite Z.eqb_refl. reflexivity. }
  assert (P2 : pred_of (ed c6) up2 = np).
  { rewrite HP by lia. destruct (Z.eqb_spec up2 np); [lia|].
    rewrite Z.eqb_refl. reflexivity. }
  assert (Sold : forall w, 0 <= w < np -> ~ arc w -> w <> up3 ->
                           succ_of (ed c6) w = S w).
  { intros w Hw Hn H3. rewrite HS by (auto; lia).
    destruct (Z.eqb_spec w up3); [contradiction|].
    destruct (Z.eqb_spec w np); [lia | reflexivity]. }
  assert (Pold : forall w, 0 <= w < np -> w <> up2 ->
                           pred_of (ed c6) w = P w).
  { intros w Hw H2. rewrite HP by lia.
    destruct (Z.eqb_spec w np); [lia|].
    destruct (Z.eqb_spec w up2); [contradiction | reflexivity]. }
  assert (Slive : forall w, 0 <= w <= np -> ~ arc w ->
                            0 <= succ_of (ed c6) w <= np).
  { intros w Hw Hn. rewrite HS by (auto; lia).
    destruct (w =? up3); [lia|]. destruct (Z.eqb_spec w np); [lia|].
    pose proof (S_range' w). lia. }
  split; [exact arc_stack_distinct|]. split; [exact marked|]. split.
  - intros v Hv Hs. destruct (arc_dec v) as [Ha|Ha]; [apply on_stack_arc, Ha|].
    pose proof (Slive v ltac:(lia) Ha). lia.
  - rewrite Hp6. intros v Hv Hs. pose proof (live_not_arc v Hs) as Hn.
    unfold live_closed.
    destruct (Z.eq_dec v np) as [->|Hvn].
    { rewrite Sn, Pn, P2, S3.
      pose proof (Slive up2 ltac:(lia) Na2). repeat split; lia. }
    assert (Hv' : 0 <= v < np) by lia.
    destruct (kept_succ v Hv') as [HSr HSf].
    destruct (kept_pred v Hv') as [HPr HPf].
    destruct (Z.eq_dec v up3) as [E3|H3]; destruct (Z.eq_dec v up2) as [E2|H2].
    + assert (Sv : succ_of (ed c6) v = np) by (rewrite E3; exact S3).
      assert (Pv : pred_of (ed c6) v = np) by (rewrite E2; exact P2).
      rewrite Sv, Pv, Sn, Pn. repeat split; try lia; congruence.
    + assert (Sv : succ_of (ed c6) v = np) by (rewrite E3; exact S3).
      rewrite Sv, Sn, Pn, (Pold v) by assumption.
      rewrite Sold; [| exact HPr | apply kept_pred_kept; assumption
                     | apply kept_pred_not_up3; assumption].
      rewrite S_P' by exact Hv'. repeat split; try lia; congruence.
    + assert (Pv : pred_of (ed c6) v = np) by (rewrite E2; exact P2).
      rewrite Pv, Sn, (Sold v) by assumption.
      rewrite Pold; [| exact HSr | apply kept_succ_not_up2; assumption].
      rewrite P_S' by exact Hv'.
      assert (Hk : ~ arc (S v)) by (apply kept_succ_kept; assumption).
      pose proof (Slive (S v) ltac:(lia) Hk) as Hl.
      repeat split; first [lia | congruence].
    + rewrite (Sold v), (Pold v) by assumption.
      rewrite Pold; [| exact HSr | apply kept_succ_not_up2; assumption].
      rewrite (Sold (P v)); [| exact HPr | apply kept_pred_kept; assumption
                             | apply kept_pred_not_up3; assumption].
      rewrite P_S', S_P' by exact Hv'.
      assert (Hk : ~ arc (S v)) by (apply kept_succ_kept; assumption).
      pose proof (Slive (S v) ltac:(lia) Hk) as Hl.
      repeat split; first [lia | congruence].
Qed.

(** The cut ended inside the cell: two new vertices, in slot n next to
    [up2] and in slot n + 1 next to [up3]. *)
Lemma compacting_after_cut_inside :
  p c6 = np + 2 ->
  (forall v, 0 <= v <= np + 1 -> ~ arc v ->
     succ_of (ed c6) v =
     if v =? up3 then np + 1 else if v =? np + 1 then np
     else if v =? np then up2 else S v) ->
  (forall v, 0 <= v <= np + 1 ->
     pred_of (ed c6) v =
     if v =? np + 1 then up3 else if v =? np then np + 1
     else if v =? up2 then np else P v) ->
  compacting c6 (Z.of_nat (K + R)).
Proof.
  intros Hp6 HS HP.
  pose proof up2_range as Hu2. pose proof up3_range as Hu3.
  pose proof up2_not_arc as Na2. pose proof up3_not_arc as Na3.
  assert (Nan : ~ arc np) by (intros Ha; apply arc_range in Ha; lia).
  assert (Nam : ~ arc (np + 1)) by (intros Ha; apply arc_range in Ha; lia).
  assert (Sm : succ_of (ed c6) (np + 1) = np).
  { rewrite HS by (auto; lia). destruct (Z.eqb_spec (np + 1) up3); [lia|].
    rewrite Z.eqb_refl. reflexivity. }
  assert (Pm : pred_of (ed c6) (np + 1) = up3).
  { rewrite HP by lia. rewrite Z.eqb_refl. reflexivity. }
  assert (Sn : succ_of (ed c6) np = up2).
  { rewrite HS by (auto; lia). destruct (Z.eqb_spec np up3); [lia|].
    destruct (Z.eqb_spec np (np + 1)); [lia|].
    rewrite Z.eqb_refl. reflexivity. }
  assert (Pn : pred_of (ed c6) np = np + 1).
  { rewrite HP by lia. destruct (Z.eqb_spec np (np + 1)); [lia|].
    rewrite Z.eqb_refl. reflexivity. }
  assert (S3 : succ_of (ed c6) up3 = np + 1).
  { rewrite HS by (auto; lia). rewrite Z.eqb_refl. reflexivity. }
  assert (P2 : pred_of (ed c6) up2 = np).
  { rewrite HP by lia. destruct (Z.eqb_spec up2 (np + 1)); [lia|].
    destruct (Z.eqb_spec up2 np); [lia|].
    rewrite Z.eqb_refl. reflexivity. }
  assert (Sold : forall w, 0 <= w < np -> ~ arc w -> w <> up3 ->
                           succ_of (ed c6) w = S w).
  { intros w Hw Hn H3. rewrite HS by (auto; lia).
    destruct (Z.eqb_spec w up3); [contradiction|].
    destruct (Z.eqb_spec w (np + 1)); [lia|].
    destruct (Z.eqb_spec w np); [lia | reflexivity]. }
  assert (Pold : forall w, 0 <= w < np -> w <> up2 ->
                           pred_of (ed c6) w = P w).
  { intros w Hw H2. rewrite HP by lia.
    destruct (Z.eqb_spec w (np + 1)); [lia|].
    destruct (Z.eqb_spec w np); [lia|].
    destruct (Z.eqb_spec w up2); [contradiction | reflexivity]. }
  assert (Slive : forall w, 0 <= w <= np + 1 -> ~ arc w ->
                            0 <= succ_of (ed c6) w <= np + 1).
  { intros w Hw Hn. rewrite HS by (auto; lia).
    destruct (w =? up3); [lia|]. destruct (Z.eqb_spec w (np + 1)); [lia|].
    destruct (Z.eqb_spec w np); [lia|].
    pose proof (S_range' w). lia. }
  split; [exact arc_stack_distinct|]. split; [exact marked|]. split.
  - intros v Hv Hs. destruct (arc_dec v) as [Ha|Ha]; [apply on_stack_arc, Ha|].
    pose proof (Slive v ltac:(lia) Ha). lia.
  - rewrite Hp6. intros v Hv Hs. pose proof (live_not_arc v Hs) as Hn.
    unfold live_closed.
    destruct (Z.eq_dec v (np + 1)) as [->|Hvm].
    { rewrite Sm, Pm, Pn, S3, Sn. repeat split; lia. }
    destruct (Z.eq_dec v np) as [->|Hvn].
    { rewrite Sn, Pn, P2, Sm.
      pose proof (Slive up2 ltac:(lia) Na2). repeat split; lia. }
    assert (Hv' : 0 <= v < np) by lia.
    destruct (kept_succ v Hv') as [HSr HSf].
    destruct (kept_pred v Hv') as [HPr HPf].
    destruct (Z.eq_dec v up3) as [E3|H3]; destruct (Z.eq_dec v up2) as [E2|H2].
    + assert (Sv : succ_of (ed c6) v = np + 1) by (rewrite E3; exact S3).
      assert (Pv : pred_of (ed c6) v = np) by (rewrite E2; exact P2).
      rewrite Sv, Pv, Sm, Pm, Sn. repeat split; try lia; congruence.
    + assert (Sv : succ_of (ed c6) v = np + 1) by (rewrite E3; exact S3).
      rewrite Sv, Sm, Pm, (Pold v) by assumption.
      rewrite Sold; [| exact HPr | apply kept_pred_kept; assumption
                     | apply kept_pred_not_up3; assumption].
      rewrite S_P' by exact Hv'. repeat split; try lia; congruence.
    + assert (Pv : pred_of (ed c6) v = np) by (rewrite E2; exact P2).
      rewrite Pv, Sn, (Sold v) by assumption.
      rewrite Pold; [| exact HSr | apply kept_succ_not_up2; assumption].
      rewrite P_S' by exact Hv'.
      assert (Hk : ~ arc (S v)) by (apply kept_succ_kept; assumption).
      pose proof (Slive (S v) ltac:(lia) Hk) as Hl.
      repeat split; first [lia | congruence].
    + rewrite (Sold v), (Pold v) by assumption.
      rewrite Pold; [| exact HSr | apply kept_succ_not_up2; assumption].
      rewrite (Sold (P v)); [| exact HPr | apply kept_pred_kept; assumption
                             | apply kept_pred_not_up3; assumption].
      rewrite P_S', S_P' by exact Hv'.
      assert (Hk : ~ arc (S v)) by (apply kept_succ_kept; assumption).
      pose proof (Slive (S v) ltac:(lia) Hk) as Hl.
      repeat split; first [lia | congruence].
Qed.

End MidState.

(** ** The cut as a whole *)

Lemma mark_deleted_stack (fuel : nat) (c c' : voronoicell_2d) (m : Z) :
  mark_deleted fuel c 0 m = Done c' ->
  p c' = p c /\ ds c' = ds c /\
  (forall v, on_stack c' m v -> 0 <= v /\ succ_of (ed c') v = -1) /\
  (forall v, 0 <= v -> ~ on_stack c' m v ->
     succ_of (ed c') v = succ_of (ed c) v) /\
  (forall v, 0 <= v -> pred_of (ed c') v = pred_of (ed c) v).
Proof.
  intros H. apply mark_deleted_spec in H as [Hp [Hd [Hpr [_ [Hmark Hrest]]]]];
    [|lia].
  split; [exact Hp|]. split; [exact Hd|]. split; [|split; [|exact Hpr]].
  - intros v [i [Hi Hl]]. rewrite Hd in Hl. apply (Hmark i); assumption.
  - intros v Hv Hn. apply Hrest; [exact Hv|].
    intros i Hi Hl. apply Hn. exists i. rewrite Hd. auto.
Qed.

Section Cut.

Variable tol : float.
Variables mv mds : Z.
Variable hi : nat -> Z.
Variable hd : nat -> float.
Variable c : voronoicell_2d.
Variables x y rsq : float.

Hypothesis cyc : cyclic_adjacency c.
Hypothesis stale : no_stale_indices c.
Hypothesis no_fix : forall v, 0 <= v < p c -> succ_of (ed c) v <> v.

Variable up : Z.
Hypothesis up_range : 0 <= up < p c.

Local Abbreviation S := (succ_of (ed c)).
Local Abbreviation P := (pred_of (ed c)).

(** From the end of the succ sweep to the end of the marking loop. *)
Lemma cut_leaves_compacting (fuel : nat) (K : nat) (c2 c3 c4 c5 c6 : voronoicell_2d)
    (l2 u2 l3 u3 l4 u4 : float) (cp up3' sp4 up3 : Z) :
  same_polygon c c2 -> (1 <= K)%nat ->
  (forall i, (i < K)%nat -> ds c2 !! i = Some (walk S i up)) ->
  (forall t, (0 < t <= K)%nat -> walk S t up <> up) ->
  pos c2 x y rsq (walk S K up) = Done u2 ->
  (tol <? u2)%float = false ->
  cut_succ tol mv hi hd c2 (walk S K up) l2 u2 = Done (c3, cp) ->
  rd (ed c3) (2 * up + 1) = Done up3' ->
  pos c3 x y rsq up3' = Done u3 ->
  sweep_pred tol mds hi fuel c3 x y rsq (walk S K up) (Z.of_nat K) up3' l3 u3
    = Done (c4, (sp4, up3, l4, u4)) ->
  cut_pred tol mv hi hd c4 cp up3 l4 u4 = Done c5 ->
  mark_deleted fuel c5 0 sp4 = Done c6 ->
  compacting c6 sp4.
Proof.
  intros Hc2 HK Hds Hside Hpos2 Hlow Hcs Hrd Hpos3 Hsp Hcp Hmk.
  pose proof Hc2 as [Hp2 [_ [_ Hed2]]].
  assert (Hu2r : 0 <= walk S K up < p c)
    by (apply walk_range; [intros v Hv; apply stale, Hv | exact up_range]).
  assert (Hupne : up <> walk S K up)
    by (intros E; apply (Hside K); [lia | congruence]).
  assert (Hc3 : p c <= p c3 /\ ds c3 = ds c2 /\
                (forall v, 0 <= v < p c -> v <> walk S K up ->
                           pred_of (ed c3) v = P v) /\
                pos c3 x y rsq (walk S K up) = Done u2).
  { apply cut_succ_spec in Hcs as [[_ ->]|[_ [Hp3 [Hd3 [Ha3 [_ HP3]]]]]].
    - rewrite Hp2, Hed2. repeat split; auto. lia.
    - rewrite Hp2 in *. split; [lia|]. split; [exact Hd3|]. split.
      + intros v Hv Hne. rewrite HP3 by exact Hv.
        destruct (Z.eqb_spec v (walk S K up)); [contradiction|].
        rewrite Hed2. reflexivity.
      + rewrite (pts_agree_pos _ _ _ _ _ _ _ Ha3) by exact Hu2r.
        exact Hpos2. }
  destruct Hc3 as [Hp3 [Hd3 [HP3 Hpos2']]].
  apply pred_of_rd in Hrd as [Hrd _].
  rewrite HP3 in Hrd by (auto; lia). subst up3'.
  change (P up) with (walk P 1 up) in *.
  replace (Z.of_nat K) with (Z.of_nat (K + 0)) in Hsp by lia.
  apply (sweep_pred_arc tol mds hi c x y rsq up stale up_range c3
           (walk S K up) u2 K HP3 Hpos2' Hlow) in Hsp;
    [| apply same_polygon_refl
     | intros i Hi; rewrite Hd3; apply Hds, Hi
     | intros i Hi; lia | intros i Hi; lia | exact Hpos3].
  destruct Hsp as [R [l' [u3' [Hr [_ [Hds4 [Hdp4 [Hpside [Hlow3 Hc4]]]]]]]]].
  injection Hr as -> -> _ Hu4. 
  pose proof Hc4 as [Hp4 [_ [_ Hed4]]].
  assert (Hl4 : (tol <? u4)%float = false) by congruence.
  apply (cut_pred_spec _ _ _ _ _ _ _ _ _ _ Hl4) in Hcp
    as [Hp5 [Hd5 [HS5 HP5]]].
  apply mark_deleted_stack in Hmk as [Hp6 [Hd6 [Hmarked [HS6 HP6]]]].
  assert (Hds6 : forall i, (i < K)%nat -> ds c6 !! i = Some (walk S i up))
    by (intros i Hi; rewrite Hd6, Hd5; apply Hds4, Hi).
  assert (Hdp6 : forall j, (1 <= j <= R)%nat ->
                   ds c6 !! (K + j - 1)%nat = Some (walk P j up))
    by (intros j Hj; rewrite Hd6, Hd5; apply Hdp4, Hj).
  assert (Harc : forall v, ~ in_arc S P up (Z.of_nat K) (Z.of_nat R) v ->
                           ~ on_stack c6 (Z.of_nat (K + R)) v).
  { intros v Hn Hon. apply Hn.
    apply (on_stack_arc c up K R HK c6 Hds6 Hdp6 v). exact Hon. }
  rewrite Hp4, Hed4 in *.
  apply cut_succ_spec in Hcs as [[-> ->]|[-> [Hq3 [_ [_ [HS3 HP3']]]]]].
  - (* the succ sweep stopped on the plane *)
    rewrite Hp2, Hed2 in *.
    apply (compacting_after_cut_on_plane c cyc stale no_fix up up_range K R HK
             Hside Hpside c6 Hds6 Hdp6 Hmarked); [lia| |].
    + intros v Hv Hn. rewrite HS6 by (auto; lia). apply HS5. lia.
    + intros v Hv. rewrite HP6 by lia. apply HP5. lia.
  - (* a new vertex was made on the succ side *)
    rewrite Hp2, Hed2 in *. rewrite Hq3 in *.
    apply (compacting_after_cut_inside c cyc stale no_fix up up_range K R HK
             Hside Hpside c6 Hds6 Hdp6 Hmarked); [lia| |].
    + intros v Hv Hn. rewrite HS6 by (auto; lia). rewrite HS5 by lia.
      destruct (v =? walk P (Datatypes.S R) up); [reflexivity|].
      destruct (Z.eqb_spec v (p c + 1)); [reflexivity|].
      apply HS3. lia.
    + intros v Hv. rewrite HP6 by lia. rewrite HP5 by lia.
      destruct (Z.eqb_spec v (p c + 1)); [reflexivity|].
      destruct (Z.eqb_spec v (p c)); [reflexivity|].
      apply HP3'. lia.
Qed.

End Cut.

(** The invariants P1 and P3 survive a cut of a cell with at least two
    vertices. *)
Lemma plane_keeps_adjacency_polygon (tol : float) (mv mds : Z)
    (hi : nat -> Z) (hd : nat -> float) (fuel : nat)
    (c c' : voronoicell_2d) (x y rsq : float) :
  adjacency_ok c -> 2 <= p c ->
  plane tol mv mds hi hd fuel c x y rsq = Done (true, c') ->
  cyclic_adjacency c' /\ no_stale_indices c'.
Proof.
  intros [Hcyc [Hsingle Hst]] H2 H.
  pose proof (single_cycle_no_fixpoint c Hsingle H2) as Hnf.
  unfold plane in H.
  apply bind_Done in H as [found [Hfind H]].
  destruct found as [[up u]|]; [|injection H as <-; auto].
  apply find_outside_range in Hfind as Hup; [| exact Hst | lia].
  apply bind_Done in H as [d [Hd H]].
  apply bind_Done in H as [up2' [Hup2 H]].
  apply bind_Done in H as [u2 [Hu2 H]].
  apply bind_Done in H as [[c2 swept] [Hsw H]].
  destruct swept as [[[[sp2 up2] l2] u2']|]; [|discriminate].
  apply bind_Done in H as [[c3 cp] [Hcs H]].
  apply bind_Done in H as [up3' [Hup3 H]].
  apply bind_Done in H as [u3 [Hu3 H]].
  apply bind_Done in H as [[c4 [[[sp4 up3] l4] u4]] [Hsp H]].
  apply bind_Done in H as [c5 [Hcp H]].
  apply bind_Done in H as [c6 [Hmk H]].
  apply bind_Done in H as [c7 [Hcm H]].
  injection H as <-.
  apply wr_Done in Hd as [Hd0 ->].
  set (c1 := set_ds c (<[Z.to_nat 0 := up]> (ds c))) in *.
  assert (Hc1 : same_polygon c c1) by (repeat split).
  cbn [ed] in Hup2. apply succ_of_rd in Hup2 as [<- _].
  change (succ_of (ed c) up) with (walk (succ_of (ed c)) 1 up) in *.
  change (0 + 1) with (Z.of_nat 1) in Hsw.
  apply (sweep_succ_arc tol mds hi c x y rsq up) in Hsw;
    [| exact Hc1 | lia
     | intros i Hi; assert (i = 0%nat) as -> by lia;
       unfold c1; cbn; apply list_lookup_insert_eq; lia
     | intros t Ht; lia | intros Ht; lia | exact Hu2].
  destruct Hsw as [K [l' [u2'' [Hr [HK [Hds [Hne [Hne2 [Hpos2 [Hlow Hc2]]]]]]]]]].
  injection Hr as -> -> _ Hu.
  assert (Hside : forall t, (0 < t <= K)%nat ->
                            walk (succ_of (ed c)) t up <> up).
  { intros t Ht. destruct (Nat.eq_dec t K) as [->|Hne']; [|apply Hne; lia].
    destruct (Nat.eq_dec K 1%nat) as [->|HK1]; [|apply Hne2; lia].
    apply Hnf, Hup. }
  apply (compact_spec fuel c6 sp4); [|exact Hcm].
  apply (cut_leaves_compacting tol mv mds hi hd c x y rsq Hcyc Hst Hnf up Hup
           fuel K c2 c3 c4 c5 c6 l2 u2' u u3 l4 u4 cp up3' sp4 up3);
    try assumption.
  - congruence.
  - congruence.
Qed.

(** ** A cell of one vertex

    With a single vertex, which is its own neighbour on both sides, a cut
    that does not return at once takes the vertex as both ends of the
    edge it intersects.  The new vertex then has not-a-number coordinates,
    which never compare above the tolerance. *)

Lemma sub_self (z : float) : sf_nan_or_zero (Prim2SF (z - z)) = true.
Proof.
  rewrite sub_spec. unfold SF64sub, SFsub.
  destruct (Prim2SF z) as [s|s| |s m e]; try reflexivity;
    try (destruct s; reflexivity).
  rewrite Z.sub_diag. reflexivity.
Qed.

Lemma lost_edge_nan (a u : float) :
  Prim2SF ((a * u - a * u) * (1 / (u - u))) = S754_nan.
Proof.
  rewrite mul_spec, div_spec.
  pose proof (sub_self (a * u)) as H1. pose proof (sub_self u) as H2.
  destruct (Prim2SF (a * u - a * u)) as [s1|s1| |s1 m1 e1];
    try discriminate; [|reflexivity].
  destruct (Prim2SF (u - u)) as [s2|s2| |s2 m2 e2]; try discriminate.
  - destruct s1, s2; reflexivity.
  - destruct s1; reflexivity.
Qed.

Lemma pos_of_nan (tol x y rsq vx vy : float) :
  Prim2SF vx = S754_nan -> Prim2SF vy = S754_nan ->
  (tol <? x * vx + y * vy - rsq)%float = false.
Proof.
  intros Hx Hy. rewrite ltb_spec, sub_spec, add_spec, !mul_spec, Hx, Hy.
  assert (E : forall s, SF64mul s S754_nan = S754_nan)
    by (intros []; reflexivity).
  rewrite !E. simpl. destruct (Prim2SF tol); reflexivity.
Qed.

Lemma new_vertex_value (c c' : voronoicell_2d) (lp up : Z) (l u : float) :
  new_vertex c lp up l u = Done c' -> lp <> p c -> up <> p c ->
  exists xl xu yl yu,
    rd (pts c) (2 * lp) = Done xl /\ rd (pts c) (2 * up) = Done xu /\
    rd (pts c) (2 * lp + 1) = Done yl /\ rd (pts c) (2 * up + 1) = Done yu /\
    rd (pts c') (2 * p c) = Done ((xl * u - xu * l) * (1 / (u - l)))%float /\
    rd (pts c') (2 * p c + 1) = Done ((yl * u - yu * l) * (1 / (u - l)))%float.
Proof.
  unfold new_vertex. intros H Hlp Hup.
  apply bind_Done in H as [xl [Hxl H]]. apply bind_Done in H as [xu [Hxu H]].
  apply bind_Done in H as [a [Ha H]]. cbn in H.
  apply bind_Done in H as [yl [Hyl H]]. apply bind_Done in H as [yu [Hyu H]].
  apply bind_Done in H as [a' [Ha' H]]. injection H as <-. cbn.
  rewrite (wr_rd_other _ _ _ _ _ Ha) in Hyl by lia.
  rewrite (wr_rd_other _ _ _ _ _ Ha) in Hyu by lia.
  exists xl, xu, yl, yu. repeat split; try assumption.
  - rewrite (wr_rd_other _ _ _ _ _ Ha') by lia.
    apply wr_Done in Ha as [Hr ->]. apply rd_Done. split; [lia|].
    apply list_lookup_insert_eq. lia.
  - apply wr_Done in Ha' as [Hr ->]. apply rd_Done. split; [lia|].
    apply list_lookup_insert_eq. lia.
Qed.

Lemma cut_succ_self (tol : float) (mv : Z) (hi : nat -> Z) (hd : nat -> float)
    (c c' : voronoicell_2d) (up2 cp : Z) (u : float) :
  cut_succ tol mv hi hd c up2 u u = Done (c', cp) ->
  0 <= up2 < p c -> pred_of (ed c) up2 = up2 -> cp = p c ->
  forall (t x y rsq u3 : float),
    pos c' x y rsq (p c) = Done u3 -> (t <? u3)%float = false.
Proof.
  unfold cut_succ. destruct (- tol <? u)%float.
  { intros [= <- <-] Hr _ E. lia. }
  intros H Hr Hself _ t x y rsq u3 Hpos.
  apply bind_Done in H as [c1 [Hg H]]. apply bind_Done in H as [lp [Hlp H]].
  apply bind_Done in H as [c2 [Hn H]]. apply bind_Done in H as [e1 [_ H]].
  apply bind_Done in H as [e2 [_ H]]. injection H as <- _.
  apply grow_if_full_frame in Hg as [Hp1 [_ [_ He]]].
  apply pred_of_rd in Hlp as [Hlp _].
  rewrite (proj2 (He up2 Hr)), Hself in Hlp. subst lp.
  apply new_vertex_value in Hn
    as [xl [xu [yl [yu [Hxl [Hxu [Hyl [Hyu [Hx Hy]]]]]]]]]; [|lia|lia].
  assert (xu = xl) as -> by congruence.
  assert (yu = yl) as -> by congruence.
  unfold pos in Hpos. cbn in Hpos. rewrite Hp1 in Hx, Hy.
  rewrite Hx, Hy in Hpos. cbn in Hpos. injection Hpos as <-.
  apply pos_of_nan; apply lost_edge_nan.
Qed.

Lemma sweep_succ_stop (tol : float) (mds : Z) (hi : nat -> Z) (fuel : nat)
    (c : voronoicell_2d) (x y rsq : float) (up stackp up2 : Z) (l u2 : float) :
  (tol <? u2)%float = false ->
  sweep_succ tol mds hi fuel c x y rsq up stackp up2 l u2 =
  Done (c, Some (stackp, up2, l, u2)).
Proof. intros H. destruct fuel; simpl; rewrite H; reflexivity. Qed.

Lemma sweep_pred_stop (tol : float) (mds : Z) (hi : nat -> Z) (fuel : nat)
    (c : voronoicell_2d) (x y rsq : float) (up2 stackp up3 : Z) (l u3 : float) :
  (tol <? u3)%float = false ->
  sweep_pred tol mds hi fuel c x y rsq up2 stackp up3 l u3 =
  Done (c, (stackp, up3, l, u3)).
Proof. intros H. destruct fuel; simpl; rewrite H; reflexivity. Qed.

Lemma compact_nil (fuel : nat) (c : voronoicell_2d) : compact fuel c 0 = Done c.
Proof. destruct fuel; reflexivity. Qed.

(** The compaction of a stack that holds vertex 0 alone, the last slot in
    use being a live vertex. *)
Lemma compact_single_stack (fuel : nat) (c c' : voronoicell_2d) (q : Z) :
  compact fuel c 1 = Done c' ->
  ds c !! 0%nat = Some 0 -> succ_of (ed c) 0 = -1 ->
  p c = q + 1 -> 1 <= q ->
  succ_of (ed c) q <> -1 -> succ_of (ed c) q <> q -> pred_of (ed c) q <> q ->
  p c' = q /\
  forall v, 0 <= v ->
    succ_of (ed c') v =
      (if v =? 0 then succ_of (ed c) q
       else if v =? pred_of (ed c) q then 0 else succ_of (ed c) v) /\
    pred_of (ed c') v =
      (if v =? 0 then pred_of (ed c) q
       else if v =? succ_of (ed c) q then 0 else pred_of (ed c) v).
Proof.
  intros H Hds Hs0 Hp Hq Hlive Hsq Hpq.
  destruct fuel as [|fuel]; [discriminate|]. simpl in H.
  apply bind_Done in H as [q' [Hskip H]].
  apply bind_Done in H as [up [Hup H]].
  apply bind_Done in H as [c2 [Hrel H]].
  rewrite compact_nil in H. injection H as <-.
  apply skip_deleted_spec in Hskip as [Hq' [Hl' Htail]].
  assert (q' = q) as ->.
  { destruct (Z.eq_dec q' q) as [|Hne]; [assumption|].
    exfalso. apply Hlive, Htail. lia. }
  apply rd_Done in Hup as [_ Hup].
  change (ds c !! 0%nat = Some up) in Hup.
  assert (up = 0) as -> by congruence.
  apply relocate_spec in Hrel as [[Hge _]|[_ [Hp2 [_ Heq]]]]; cbn in *; [lia|].
  split; [exact Hp2|]. apply Heq; auto. lia.
Qed.

Lemma on_stack_single (c : voronoicell_2d) (v : Z) :
  ds c !! 0%nat = Some 0 -> (on_stack c 1 v <-> v = 0).
Proof.
  intros Hd. split.
  - intros [i [Hi Hl]]. assert (i = 0) as -> by lia.
    change (ds c !! 0%nat = Some v) in Hl. congruence.
  - intros ->. exists 0. split; [lia | exact Hd].
Qed.

(** The invariants P1 and P3 survive a cut of a cell of one vertex. *)
Lemma plane_keeps_adjacency_single (tol : float) (mv mds : Z)
    (hi : nat -> Z) (hd : nat -> float) (fuel : nat)
    (c c' : voronoicell_2d) (x y rsq : float) :
  adjacency_ok c -> p c = 1 ->
  plane tol mv mds hi hd fuel c x y rsq = Done (true, c') ->
  cyclic_adjacency c' /\ no_stale_indices c'.
Proof.
  intros [Hcyc [Hsingle Hst]] H1 H.
  assert (S0 : succ_of (ed c) 0 = 0) by (pose proof (Hst 0); lia).
  assert (P0 : pred_of (ed c) 0 = 0) by (pose proof (Hst 0); lia).
  unfold plane, find_outside in H.
  apply bind_Done in H as [found [Hfind H]].
  apply bind_Done in Hfind as [u [Hu Hfind]].
  destruct (u <? tol)%float eqn:Hlt.
  - (* vertex 0 is not above the tolerance: the search returns at once *)
    apply bind_Done in Hfind as [up2 [Hr2 Hfind]].
    apply succ_of_rd in Hr2 as [Hr2 _]. rewrite S0 in Hr2. subst up2.
    apply bind_Done in Hfind as [u2 [Hu2 Hfind]].
    assert (u2 = u) as -> by congruence.
    apply bind_Done in Hfind as [up3 [Hr3 Hfind]].
    apply pred_of_rd in Hr3 as [Hr3 _]. rewrite P0 in Hr3. subst up3.
    apply bind_Done in Hfind as [u3 [Hu3 Hfind]].
    assert (u3 = u) as -> by congruence.
    rewrite ltb_irrefl in Hfind.
    destruct fuel as [|fuel]; simpl in Hfind; rewrite Hlt in Hfind;
      [discriminate|].
    apply bind_Done in Hfind as [up3 [Hr3 Hfind]].
    apply pred_of_rd in Hr3 as [Hr3 _]. rewrite P0 in Hr3. subst up3.
    apply bind_Done in Hfind as [u3 [_ Hfind]].
    simpl in Hfind. injection Hfind as <-. injection H as <-. auto.
  - (* the deletion starts from vertex 0 *)
    injection Hfind as <-.
    apply bind_Done in H as [d [Hd H]]. apply wr_Done in Hd as [Hd0 ->].
    set (c1 := set_ds c (<[Z.to_nat 0 := 0]> (ds c))) in *.
    assert (Hp1 : p c1 = 1) by exact H1.
    assert (Hds1 : ds c1 !! 0%nat = Some 0)
      by (unfold c1; cbn; apply list_lookup_insert_eq; lia).
    apply bind_Done in H as [up2 [Hr2 H]].
    change (ed c1) with (ed c) in Hr2.
    apply succ_of_rd in Hr2 as [Hr2 _]. rewrite S0 in Hr2. subst up2.
    apply bind_Done in H as [u2 [Hu2 H]].
    change (pos c x y rsq 0 = Done u2) in Hu2.
    assert (u2 = u) as -> by congruence.
    apply bind_Done in H as [[c2 swept] [Hsw H]].
    destruct (tol <? u)%float eqn:Hgt.
    + (* the succ sweep comes back to vertex 0: the call returns false *)
      destruct fuel as [|fuel]; simpl in Hsw; rewrite Hgt in Hsw;
        [discriminate|].
      apply bind_Done in Hsw as [[c1' sp] [Hpush Hsw]].
      apply push_spec in Hpush as [_ [_ [[_ [_ [_ Hed]]] _]]].
      apply bind_Done in Hsw as [up2 [Hr2 Hsw]].
      rewrite Hed in Hr2. change (ed c1) with (ed c) in Hr2.
      apply succ_of_rd in Hr2 as [Hr2 _]. rewrite S0 in Hr2. subst up2.
      apply bind_Done in Hsw as [u2 [_ Hsw]]. simpl in Hsw.
      injection Hsw as <- <-. discriminate.
    + rewrite sweep_succ_stop in Hsw by exact Hgt. injection Hsw as <- <-.
      apply bind_Done in H as [[c3 cp] [Hcs H]].
      apply bind_Done in H as [up3 [Hr3 H]].
      apply bind_Done in H as [u3 [Hu3 H]].
      apply bind_Done in H as [[c4 [[[sp4 up3'] l4] u4]] [Hsp H]].
      apply bind_Done in H as [c5 [Hcp H]].
      apply bind_Done in H as [c6 [Hmk H]].
      apply bind_Done in H as [c7 [Hcm H]].
      injection H as <-.
      apply pred_of_rd in Hr3 as [Hr3 _].
      pose proof Hcs as Hcs'.
      apply cut_succ_spec in Hcs'
        as [[-> ->]|[-> [Hp3 [Hd3 [Ha3 [HS3 HP3]]]]]].
      * (* vertex 0 lies on the plane *)
        change (ed c1) with (ed c) in Hr3. rewrite P0 in Hr3. subst up3.
        change (pos c x y rsq 0 = Done u3) in Hu3.
        assert (u3 = u) as -> by congruence.
        rewrite sweep_pred_stop in Hsp by exact Hgt.
        injection Hsp as <- <- <- _ <-.
        apply (cut_pred_spec _ _ _ _ _ _ _ _ _ _ Hgt) in Hcp
          as [Hp5 [Hd5 [HS5 HP5]]].
        apply mark_deleted_stack in Hmk as [Hp6 [Hd6 [Hmarked [HS6 HP6]]]].
        rewrite Hp1 in *.
        assert (Hds6 : ds c6 !! 0%nat = Some 0) by (rewrite Hd6, Hd5; exact Hds1).
        assert (E0 : succ_of (ed c6) 0 = -1).
        { apply Hmarked, on_stack_single; [exact Hds6 | reflexivity]. }
        assert (E1 : succ_of (ed c6) 1 = 0).
        { rewrite HS6; [apply HS5; lia | lia |].
          intros Hon. apply on_stack_single in Hon; [lia | exact Hds6]. }
        assert (F1 : pred_of (ed c6) 1 = 0).
        { rewrite HP6 by lia. apply HP5. lia. }
        apply (compact_single_stack _ _ _ 1) in Hcm as [Hp7 Heq];
          [| exact Hds6 | exact E0 | lia | lia | lia | lia | lia].
        rewrite E1, F1 in Heq.
        assert (G0 := Heq 0 ltac:(lia)). simpl in G0. destruct G0 as [G0 G0'].
        split; intros v Hv; rewrite Hp7 in Hv; assert (v = 0) as -> by lia;
          rewrite ?G0, ?G0', ?Hp7; rewrite ?G0, ?G0'; lia.
      * (* a vertex is made on the edge from vertex 0 to itself *)
        rewrite Hp1 in *.
        rewrite HP3 in Hr3 by lia. simpl in Hr3. subst up3.
        assert (Hlow : (tol <? u3)%float = false).
        { apply (cut_succ_self _ _ _ _ _ _ _ _ _ Hcs) with (x := x) (y := y)
            (rsq := rsq); [lia | exact P0 | symmetry; exact Hp1 |].
          rewrite Hp1. exact Hu3. }
        rewrite sweep_pred_stop in Hsp by exact Hlow.
        injection Hsp as <- <- <- _ <-.
        apply (cut_pred_spec _ _ _ _ _ _ _ _ _ _ Hlow) in Hcp
          as [Hp5 [Hd5 [HS5 HP5]]].
        apply mark_deleted_stack in Hmk as [Hp6 [Hd6 [Hmarked [HS6 HP6]]]].
        rewrite Hp3 in *.
        assert (Hds6 : ds c6 !! 0%nat = Some 0)
          by (rewrite Hd6, Hd5, Hd3; exact Hds1).
        assert (E0 : succ_of (ed c6) 0 = -1).
        { apply Hmarked, on_stack_single; [exact Hds6 | reflexivity]. }
        assert (E2 : succ_of (ed c6) 2 = 1).
        { rewrite HS6; [apply HS5; lia | lia |].
          intros Hon. apply on_stack_single in Hon; [lia | exact Hds6]. }
        assert (E1 : succ_of (ed c6) 1 = 2).
        { rewrite HS6; [apply HS5; lia | lia |].
          intros Hon. apply on_stack_single in Hon; [lia | exact Hds6]. }
        assert (F2 : pred_of (ed c6) 2 = 1).
        { rewrite HP6 by lia. apply HP5. lia. }
        assert (F1 : pred_of (ed c6) 1 = 2).
        { rewrite HP6 by lia. apply HP5. lia. }
        apply (compact_single_stack _ _ _ 2) in Hcm as [Hp7 Heq];
          [| exact Hds6 | exact E0 | lia | lia | lia | lia | lia].
        rewrite E2, F2 in Heq.
        assert (G0 := Heq 0 ltac:(lia)). assert (G1 := Heq 1 ltac:(lia)).
        simpl in G0, G1. destruct G0 as [G0 G0']. destruct G1 as [G1 G1'].
        split; intros v Hv; rewrite Hp7 in Hv;
          assert (Ev : v = 0 \/ v = 1) by lia;
          destruct Ev as [-> | ->];
          rewrite ?G0, ?G0', ?G1, ?G1', ?Hp7;
          rewrite ?G0, ?G0', ?G1, ?G1'; lia.
Qed.

(** C6: after a plane call that returns true on a cell that satisfies the
    adjacency invariants (P1, P2 and P3, so at least one vertex), every
    vertex v below the new p has succ(v) and pred(v) in [0, p), so that no
    stale index and no deletion mark is left, and succ(pred(v)) = v and
    pred(succ(v)) = v. *)
Theorem plane_keeps_adjacency (tol : float) (mv mds : Z) (hi : nat -> Z)
    (hd : nat -> float) (fuel : nat) (c c' : voronoicell_2d)
    (x y rsq : float) :
  adjacency_ok c ->
  plane tol mv mds hi hd fuel c x y rsq = Done (true, c') ->
  forall v, 0 <= v < p c' ->
    0 <= succ_of (ed c') v < p c' /\ 0 <= pred_of (ed c') v < p c' /\
    succ_of (ed c') (pred_of (ed c') v) = v /\
    pred_of (ed c') (succ_of (ed c') v) = v.
Proof.
  intros Hok H.
  assert (Hp : 0 < p c) by (destruct Hok as [_ [[Hp _] _]]; exact Hp).
  assert (Hres : cyclic_adjacency c' /\ no_stale_indices c').
  { destruct (Z.eq_dec (p c) 1) as [H1|H1].
    - eapply plane_keeps_adjacency_single; eassumption.
    - eapply plane_keeps_adjacency_polygon; [exact Hok | lia | exact H]. }
  destruct Hres as [Hcyc Hst]. intros v Hv.
  destruct (Hst v Hv) as [Hs Hq]. destruct (Hcyc v Hv) as [Hsp Hps]. auto.
Qed.

Lemma plane_keeps_adjacency_witness :
  adjacency_ok Sample.square /\
  exists c', Sample.plane 8 Sample.square 1 0 1 = Done (true, c') /\
    p c' = 4 /\
    forall v, 0 <= v < p c' ->
      0 <= succ_of (ed c') v < p c' /\ 0 <= pred_of (ed c') v < p c' /\
      succ_of (ed c') (pred_of (ed c') v) = v /\
      pred_of (ed c') (succ_of (ed c') v) = v.
Proof.
  split; [exact adjacency_ok_square|].
  unfold Sample.plane.
  destruct (plane Sample.tolerance Sample.max_vertices Sample.max_delete_size
              (fun _ => 0) (fun _ => 0%float) 8 Sample.square 1 0 1)
    as [[[|] c']| | |] eqn:E;
    try (vm_compute in E; discriminate).
  exists c'. split; [reflexivity|]. split.
  - vm_compute in E.
    apply (f_equal (fun o => match o with Done (_, d) => p d | _ => 0 end)) in E.
    simpl in E. symmetry. exact E.
  - exact (plane_keeps_adjacency Sample.tolerance Sample.max_vertices
             Sample.max_delete_size (fun _ => 0) (fun _ => 0%float) 8
             Sample.square c' 1 0 1 adjacency_ok_square E).
Defined.

(** * Further properties of the routines *)

(** ** Growing the storage *)

Lemma shiftl_one (n : Z) : Z.shiftl n 1 = 2 * n.
Proof. rewrite Z.shiftl_mul_pow2 by lia. lia. Qed.

Lemma copy_prefix_whole {A : Type} (src dst : list A) :
  (length src <= length dst)%nat ->
  copy_prefix src (Z.of_nat (length src)) dst = Done (src ++ drop (length src) dst).
Proof.
  intros H. unfold copy_prefix.
  destruct (Z.leb_spec (Z.of_nat (length src)) 0) as [H0|H0].
  - destruct src; [|simpl in H0; lia]. reflexivity.
  - rewrite Nat2Z.id.
    destruct (Z.leb_spec (Z.of_nat (length src)) (Z.of_nat (length src)));
      [|lia].
    destruct (Z.leb_spec (Z.of_nat (length src)) (Z.of_nat (length dst)));
      [|lia].
    simpl. rewrite firstn_all. reflexivity.
Qed.

(** add_memory_vertices, on a cell whose two arenas have the size the
    capacity says and whose capacity is small enough for the lengths of
    the new arenas, four times the capacity, to fit an [int] (a capacity
    below 2^29): the routine stops with the fatal error exactly when the
    doubled capacity passes max_vertices; otherwise the capacity is doubled,
    each new arena starts with the whole old arena and goes on with fresh
    storage, and p and the delete stack are left alone. *)
Theorem add_memory_vertices_grows (mv : Z) (hi : nat -> Z) (hd : nat -> float)
    (c : voronoicell_2d) :
  Z.of_nat (length (pts c)) = 2 * current_vertices c ->
  Z.of_nat (length (ed c)) = 2 * current_vertices c ->
  4 * current_vertices c <= int_max ->
  add_memory_vertices mv hi hd c =
  if mv <? 2 * current_vertices c
  then Fatal "Vertex memory allocation exceeded absolute maximum"
  else Done (mk_cell (2 * current_vertices c) (current_delete_size c) (p c)
               (ed c ++ drop (length (ed c))
                             (new_array hi (4 * current_vertices c)))
               (pts c ++ drop (length (pts c))
                              (new_array hd (4 * current_vertices c)))
               (ds c) (stacke c)).
Proof.
  intros Hp He _. unfold add_memory_vertices. rewrite shiftl_one.
  destruct (mv <? 2 * current_vertices c); [reflexivity|].
  replace (2 * (2 * current_vertices c)) with (4 * current_vertices c) by lia.
  rewrite <- Hp at 1. rewrite copy_prefix_whole
    by (rewrite length_new_array; lia).
  simpl. rewrite <- He at 1. rewrite copy_prefix_whole
    by (rewrite length_new_array; lia).
  reflexivity.
Qed.

Lemma add_memory_vertices_grows_witness :
  4 * current_vertices Sample.square <= int_max /\
  add_memory_vertices 1024 (fun _ => 7) (fun _ => 1%float) Sample.square =
  Done (mk_cell 512 256 4
          (ed Sample.square ++ repeat 7 512)
          (pts Sample.square ++ repeat 1%float 512)
          (ds Sample.square) 256) /\
  add_memory_vertices 511 (fun _ => 7) (fun _ => 1%float) Sample.square =
  Fatal "Vertex memory allocation exceeded absolute maximum".
Proof.
  split; [vm_compute; discriminate|]. split.
  - rewrite (add_memory_vertices_grows 1024 (fun _ => 7) (fun _ => 1%float)
               Sample.square);
      [reflexivity | reflexivity | reflexivity | vm_compute; discriminate].
  - rewrite (add_memory_vertices_grows 511 (fun _ => 7) (fun _ => 1%float)
               Sample.square);
      [reflexivity | reflexivity | reflexivity | vm_compute; discriminate].
Defined.

(** add_memory_ds, on a cell whose delete stack has the size its capacity
    says, with the stack pointer inside it and a capacity whose double
    fits an [int] (a capacity below 2^30): the routine stops with the
    fatal error exactly when the doubled capacity passes max_delete_size;
    otherwise the capacity is doubled, the new stack holds the entries
    below the stack pointer followed by fresh storage, the end pointer
    moves to the new capacity and the polygon is left alone. *)
Theorem add_memory_ds_grows (mds : Z) (hi : nat -> Z) (c : voronoicell_2d)
    (stackp : Z) :
  Z.of_nat (length (ds c)) = current_delete_size c ->
  0 <= stackp <= current_delete_size c ->
  2 * current_delete_size c <= int_max ->
  add_memory_ds mds hi c stackp =
  if mds <? 2 * current_delete_size c
  then Fatal "Delete stack 1 memory allocation exceeded absolute maximum"
  else Done (mk_cell (current_vertices c) (2 * current_delete_size c) (p c)
               (ed c) (pts c)
               (take (Z.to_nat stackp) (ds c) ++
                drop (Z.to_nat stackp)
                     (new_array hi (2 * current_delete_size c)))
               (2 * current_delete_size c)).
Proof.
  intros Hd Hs _. unfold add_memory_ds. rewrite shiftl_one.
  destruct (mds <? 2 * current_delete_size c); [reflexivity|].
  unfold copy_prefix. rewrite length_new_array.
  destruct (Z.leb_spec stackp 0) as [H0|H0].
  - replace stackp with 0 by lia. reflexivity.
  - destruct (Z.leb_spec stackp (Z.of_nat (length (ds c)))); [|lia].
    destruct (Z.leb_spec stackp
                (Z.of_nat (Z.to_nat (2 * current_delete_size c)))); [|lia].
    reflexivity.
Qed.

Lemma add_memory_ds_grows_witness :
  2 * current_delete_size Sample.square <= int_max /\
  add_memory_ds 1024 (fun _ => 7)
    (set_ds Sample.square ([3; 2] ++ drop 2 (ds Sample.square))) 2 =
  Done (mk_cell 256 512 4 (ed Sample.square) (pts Sample.square)
          ([3; 2] ++ repeat 7 510) 512) /\
  add_memory_ds 511 (fun _ => 7)
    (set_ds Sample.square ([3; 2] ++ drop 2 (ds Sample.square))) 2 =
  Fatal "Delete stack 1 memory allocation exceeded absolute maximum".
Proof.
  split; [vm_compute; discriminate|]. split.
  - rewrite (add_memory_ds_grows 1024 (fun _ => 7)
               (set_ds Sample.square ([3; 2] ++ drop 2 (ds Sample.square))) 2);
      [reflexivity | reflexivity | vm_compute; split; discriminate
      | vm_compute; discriminate].
  - rewrite (add_memory_ds_grows 511 (fun _ => 7)
               (set_ds Sample.square ([3; 2] ++ drop 2 (ds Sample.square))) 2);
      [reflexivity | reflexivity | vm_compute; split; discriminate
      | vm_compute; discriminate].
Defined.

(** ** The seed rectangle as a polygon *)

Lemma adjacency_ok_seed (c : voronoicell_2d) (rest : list Z) :
  p c = 4 -> ed c = [1; 3; 2; 0; 3; 1; 0; 2] ++ rest -> adjacency_ok c.
Proof.
  intros Hp He.
  assert (E : forall v, 0 <= v < 4 -> v = 0 \/ v = 1 \/ v = 2 \/ v = 3)
    by (intros; lia).
  unfold adjacency_ok, cyclic_adjacency, single_cycle, no_stale_indices.
  rewrite Hp, He.
  split; [|split].
  - intros v Hv. apply E in Hv as [->|[->|[->| ->]]]; split; reflexivity.
  - split; [reflexivity|]. split; [|reflexivity].
    intros v Hv. apply E in Hv as [->|[->|[->| ->]]];
      [exists 0%nat | exists 1%nat | exists 2%nat | exists 3%nat];
      (split; [simpl; lia | reflexivity]).
  - intros v Hv. apply E in Hv as [->|[->|[->| ->]]]; vm_compute;
      repeat split; discriminate.
Qed.

(** The constructor followed by init, for capacities of at least four
    vertices and one stack entry: whatever the fresh storage holds and
    whatever value the uninitialised p has, init returns a cell that
    satisfies the adjacency invariants and whose arenas and delete stack
    have the sizes the capacities say. *)
Theorem init_makes_polygon (iv ids : Z) (hi : nat -> Z) (hd : nat -> float)
    (uninit_p : Z) (xmin xmax ymin ymax : float) :
  4 <= iv -> 1 <= ids ->
  exists c', init (new_cell iv ids hi hd uninit_p) xmin xmax ymin ymax
             = Done c' /\
    p c' = 4 /\ adjacency_ok c' /\ storage_ok c'.
Proof.
  intros Hv Hs. eexists. split.
  - apply init_shape; cbn [new_cell pts ed]; rewrite length_new_array; lia.
  - split; [reflexivity|]. split.
    + eapply adjacency_ok_seed; reflexivity.
    + unfold storage_ok. cbn [p pts ed ds stacke current_vertices
                              current_delete_size new_cell].
      rewrite !length_app, !length_drop, !length_new_array. simpl length.
      repeat split; lia.
Qed.

Lemma init_makes_polygon_witness :
  exists c', init (new_cell 4 1 (fun _ => -1) (fun _ => nan) 1000)
                  0 3 0 5 = Done c' /\
    p c' = 4 /\ adjacency_ok c' /\ storage_ok c'.
Proof.
  apply (init_makes_polygon 4 1 (fun _ => -1) (fun _ => nan) 1000 0 3 0 5);
    lia.
Defined.

(** init checks no bound: it runs off the end of an arena exactly when
    the coordinate arena or the adjacency arena holds fewer than four
    vertices (eight entries), and succeeds otherwise. *)
Theorem init_out_of_bounds (c : voronoicell_2d) (xmin xmax ymin ymax : float) :
  (init c xmin xmax ymin ymax = Undefined <->
   (length (pts c) < 8)%nat \/ (length (ed c) < 8)%nat) /\
  ((exists c', init c xmin xmax ymin ymax = Done c') <->
   (8 <= length (pts c))%nat /\ (8 <= length (ed c))%nat).
Proof.
  assert (Hshort : (length (pts c) < 8)%nat \/ (length (ed c) < 8)%nat ->
                   init c xmin xmax ymin ymax = Undefined).
  { destruct c as [cv cds n e a d se]. cbn [pts ed]. intros H.
    destruct (le_lt_dec 8 (length a)) as [Ha|Ha].
    - destruct H as [H|H]; [lia|].
      do 8 expose_head a Ha.
      unfold init, set_p, set_pts, set_ed. cbn [pts ed].
      repeat (rewrite wr_in_range by (simpl; lia); simpl bind).
      do 8 (destruct e as [|? e]; [reflexivity|]). simpl in H. lia.
    - do 8 (destruct a as [|? a]; [reflexivity|]). simpl in Ha. lia. }
  split; split.
  - intros H.
    destruct (le_lt_dec 8 (length (pts c))) as [Hp|Hp]; [|left; exact Hp].
    destruct (le_lt_dec 8 (length (ed c))) as [He|He]; [|right; exact He].
    rewrite init_shape in H by assumption. discriminate.
  - exact Hshort.
  - intros [c' H].
    destruct (le_lt_dec 8 (length (pts c))) as [Hp|Hp];
      [|rewrite Hshort in H by (left; exact Hp); discriminate].
    destruct (le_lt_dec 8 (length (ed c))) as [He|He];
      [|rewrite Hshort in H by (right; exact He); discriminate].
    split; assumption.
  - intros [Hp He]. eexists. apply init_shape; assumption.
Qed.

(** ** The order of doubles *)

Lemma SFcompare_lt_trans (a b c : spec_float) :
  SFcompare a b = Some Lt -> SFcompare b c = Some Lt ->
  SFcompare a c = Some Lt.
Proof.
  destruct a as [sa|sa| |sa ma ea], b as [sb|sb| |sb mb eb],
           c as [sc|sc| |sc mc ec]; simpl; try discriminate;
    repeat match goal with s : bool |- _ => destruct s end;
    simpl; try discriminate; try reflexivity;
    fold (Pos.compare ma mb); fold (Pos.compare mb mc);
    fold (Pos.compare ma mc);
    destruct (Z.compare_spec ea eb), (Z.compare_spec eb ec),
             (Z.compare_spec ea ec);
    try discriminate; try reflexivity; try lia;
    destruct (Pos.compare_spec ma mb), (Pos.compare_spec mb mc),
             (Pos.compare_spec ma mc);
    simpl; try discriminate; try reflexivity; lia.
Qed.

Lemma ltb_trans (x y z : float) :
  (x <? y)%float = true -> (y <? z)%float = true -> (x <? z)%float = true.
Proof.
  rewrite !ltb_spec. unfold SFltb.
  destruct (SFcompare (Prim2SF x) (Prim2SF y)) as [[]|] eqn:E1;
    try discriminate.
  destruct (SFcompare (Prim2SF y) (Prim2SF z)) as [[]|] eqn:E2;
    try discriminate.
  rewrite (SFcompare_lt_trans _ _ _ E1 E2). reflexivity.
Qed.

(** ** Going round the boundary *)

Lemma walk_S (f : Z -> Z) (n : nat) (v : Z) : walk f (S n) v = f (walk f n v).
Proof. reflexivity. Qed.

Lemma walk_mod (f : Z -> Z) (n : nat) (v : Z) :
  (0 < n)%nat -> walk f n v = v -> forall k, walk f k v = walk f (k mod n) v.
Proof.
  intros Hn H k. rewrite (Nat.div_mod_eq k n) at 1.
  rewrite Nat.add_comm, walk_add, Nat.mul_comm, walk_period by exact H.
  reflexivity.
Qed.

(** On a single cycle of p vertices the way round from vertex 0 is not
    back at vertex 0 before p steps are done. *)
Lemma cycle_first_return (c : voronoicell_2d) :
  single_cycle c ->
  forall i, (0 < i < Z.to_nat (p c))%nat -> nth_vertex c i <> 0.
Proof.
  intros [Hp [Hreach Hback]] i Hi E. unfold nth_vertex in E.
  set (f := succ_of (ed c)) in *.
  assert (Hincl : incl (map Z.of_nat (seq 0 (Z.to_nat (p c))))
                       (map (fun j => walk f j 0) (seq 0 i))).
  { intros v Hv. apply in_map_iff in Hv as [k [<- Hk]].
    apply in_seq in Hk. destruct (Hreach (Z.of_nat k)) as [j [Hj Hw]]; [lia|].
    rewrite <- Hw, (walk_mod f i 0 ltac:(lia) E j).
    apply in_map_iff. exists (j mod i)%nat. split; [reflexivity|].
    apply in_seq. pose proof (Nat.mod_upper_bound j i). lia. }
  apply NoDup_incl_length in Hincl.
  - rewrite !length_map, !length_seq in Hincl. lia.
  - apply Finite.Injective_map_NoDup; [|apply seq_NoDup].
    intros a b Hab. lia.
Qed.

Section Boundary.

Variable c : voronoicell_2d.
Hypothesis adjacent : adjacency_ok c.
Hypothesis stored : storage_ok c.

Lemma boundary_range (i : nat) : 0 <= nth_vertex c i < p c.
Proof.
  destruct adjacent as [_ [[Hp _] Hst]].
  apply walk_range; [|lia]. intros v Hv. apply Hst, Hv.
Qed.

Lemma boundary_back : nth_vertex c (Z.to_nat (p c)) = 0.
Proof. destruct adjacent as [_ [[_ [_ H]] _]]. exact H. Qed.

Lemma boundary_not_back (i : nat) :
  (0 < i < Z.to_nat (p c))%nat -> (nth_vertex c i =? 0) = false.
Proof.
  intros Hi. apply Z.eqb_neq, cycle_first_return; [|exact Hi].
  destruct adjacent as [_ [H _]]. exact H.
Qed.

Lemma p_positive : 0 < p c.
Proof. destruct adjacent as [_ [[Hp _] _]]. exact Hp. Qed.

Lemma rd_succ (v : Z) :
  0 <= v < p c -> rd (ed c) (2 * v) = Done (succ_of (ed c) v).
Proof.
  intros Hv. destruct adjacent as [_ [_ Hst]].
  apply rd_succ_of; [lia|]. apply Hst, Hv.
Qed.

Lemma rd_boundary (i : nat) :
  rd (ed c) (2 * nth_vertex c i) = Done (nth_vertex c (S i)).
Proof. apply rd_succ, boundary_range. Qed.

Lemma rd_vertex_x (v : Z) :
  0 <= v < p c -> rd (pts c) (2 * v) = Done (vertex_x c v).
Proof.
  intros Hv. destruct stored as [Hp [Hl _]]. unfold rd, vertex_x.
  destruct (Z.leb_spec 0 (2 * v)); [|lia]. rewrite nth_lookup.
  destruct (lookup_lt_is_Some_2 (pts c) (Z.to_nat (2 * v))) as [a ->];
    [lia | reflexivity].
Qed.

Lemma rd_vertex_y (v : Z) :
  0 <= v < p c -> rd (pts c) (2 * v + 1) = Done (vertex_y c v).
Proof.
  intros Hv. destruct stored as [Hp [Hl _]]. unfold rd, vertex_y.
  destruct (Z.leb_spec 0 (2 * v + 1)); [|lia]. rewrite nth_lookup.
  destruct (lookup_lt_is_Some_2 (pts c) (Z.to_nat (2 * v + 1))) as [a ->];
    [lia | reflexivity].
Qed.

(** *** perimeter *)

Lemma perimeter_loop_round (n : nat) :
  forall (i fuel : nat) (perim : float),
  (i + S n = Z.to_nat (p c))%nat -> (S n <= fuel)%nat ->
  perimeter_loop fuel c (nth_vertex c i) perim =
  Done (fold_left (fun acc v => (acc + edge_length c v)%float)
                  (map (nth_vertex c) (seq i (S n))) perim).
Proof.
  induction n as [|n IH]; intros i fuel perim Hi Hf;
    (destruct fuel as [|fuel]; [lia|]); cbn [perimeter_loop];
    pose proof (boundary_range i) as Hr;
    pose proof (boundary_range (S i)) as Hr';
    rewrite rd_boundary; cbn [bind];
    rewrite (rd_vertex_x _ Hr), (rd_vertex_x _ Hr'),
            (rd_vertex_y _ Hr), (rd_vertex_y _ Hr'); cbn [bind].
  - assert (E : nth_vertex c (S i) = 0)
      by (replace (S i) with (Z.to_nat (p c)) by lia; apply boundary_back).
    cbn [seq map fold_left]. unfold edge_length.
    change (succ_of (ed c) (nth_vertex c i)) with (nth_vertex c (S i)).
    rewrite E. reflexivity.
  - rewrite boundary_not_back by lia. cbn [negb].
    rewrite (IH (S i) fuel) by lia.
    cbn [seq map fold_left]. unfold edge_length at 3.
    reflexivity.
Qed.

(** *** area *)

Lemma area_loop_round (n : nat) :
  forall (i fuel : nat) (a : float),
  (1 <= i)%nat -> (i + n = Z.to_nat (p c))%nat -> (n <= fuel)%nat ->
  area_loop fuel c (nth_vertex c i) a (vertex_x c 0) (vertex_y c 0)
    (vertex_x c (nth_vertex c (i - 1)) - vertex_x c 0)
    (vertex_y c (nth_vertex c (i - 1)) - vertex_y c 0) =
  Done (fold_left (fun acc j => (acc + fan_area c j)%float) (seq i n) a).
Proof.
  induction n as [|n IH]; intros i fuel a H1 Hi Hf.
  - replace i with (Z.to_nat (p c)) by lia. rewrite boundary_back.
    destruct fuel; reflexivity.
  - destruct fuel as [|fuel]; [lia|]. cbn [area_loop].
    rewrite boundary_not_back by lia. cbn [negb].
    pose proof (boundary_range i) as Hr.
    rewrite (rd_vertex_x _ Hr), (rd_vertex_y _ Hr), rd_boundary. cbn [bind].
    pose proof (IH (S i) fuel) as IH'.
    replace (S i - 1)%nat with i in IH' by lia.
    rewrite IH' by lia. reflexivity.
Qed.

(** *** centroid *)

Lemma centroid_loop_round (n : nat) :
  forall (i fuel : nat) (tarea cx cy dx1 dy1 : float),
  (1 <= i)%nat -> (i + n = Z.to_nat (p c))%nat -> (n <= fuel)%nat ->
  exists r,
    centroid_loop fuel c (nth_vertex c i) tarea cx cy
      (vertex_x c 0) (vertex_y c 0) dx1 dy1 = Done r.
Proof.
  induction n as [|n IH]; intros i fuel tarea cx cy dx1 dy1 H1 Hi Hf.
  - replace i with (Z.to_nat (p c)) by lia. rewrite boundary_back.
    destruct fuel; eexists; reflexivity.
  - destruct fuel as [|fuel]; [lia|]. cbn [centroid_loop].
    rewrite boundary_not_back by lia. cbn [negb].
    pose proof (boundary_range i) as Hr.
    rewrite (rd_vertex_x _ Hr), (rd_vertex_y _ Hr), rd_boundary. cbn [bind].
    apply IH; lia.
Qed.

(** *** max_radius_squared *)

Lemma max_radius_squared_loop_round (n : nat) :
  forall (v : Z) (fuel : nat) (r : float),
  1 <= v -> v + Z.of_nat n = Z.max 1 (p c) -> (n <= fuel)%nat ->
  (exists w, 0 <= w < v /\ r = norm2 c w) ->
  (forall w, 0 <= w < v -> (r <? norm2 c w)%float = false) ->
  exists r',
    max_radius_squared_loop fuel (pts c) (2 * v) (2 * p c) r = Done r' /\
    (exists w, 0 <= w < Z.max 1 (p c) /\ r' = norm2 c w) /\
    (forall w, 0 <= w < Z.max 1 (p c) -> (r' <? norm2 c w)%float = false).
Proof.
  induction n as [|n IH]; intros v fuel r H1 Hv Hf Hat Hub.
  - exists r. replace (Z.max 1 (p c)) with v by lia.
    split; [|split; assumption].
    destruct fuel; simpl; destruct (Z.ltb_spec (2 * v) (2 * p c));
      try lia; reflexivity.
  - destruct fuel as [|fuel]; [lia|]. cbn [max_radius_squared_loop].
    destruct (Z.ltb_spec (2 * v) (2 * p c)); [|lia].
    assert (Hr : 0 <= v < p c) by lia.
    rewrite (rd_vertex_x _ Hr). cbn [bind].
    replace (2 * v + 1 + 1) with (2 * (v + 1)) by lia.
    rewrite (rd_vertex_y _ Hr). cbn [bind].
    change (vertex_x c v * vertex_x c v + vertex_y c v * vertex_y c v)%float
      with (norm2 c v).
    apply IH; try lia.
    + destruct (r <? norm2 c v)%float.
      * exists v. split; [lia | reflexivity].
      * destruct Hat as [w [Hw Ew]]. exists w. split; [lia | exact Ew].
    + intros w Hw. destruct (r <? norm2 c v)%float eqn:E.
      * destruct (Z.eq_dec w v) as [->|Hne]; [apply ltb_irrefl|].
        destruct (norm2 c v <? norm2 c w)%float eqn:E2; [|reflexivity].
        rewrite <- (Hub w ltac:(lia)). symmetry.
        apply (ltb_trans _ _ _ E E2).
      * destruct (Z.eq_dec w v) as [->|Hne]; [exact E|]. apply Hub. lia.
Qed.

(** *** draw_gnuplot and draw_pov *)

Lemma draw_gnuplot_loop_round (x y : float) (n : nat) :
  forall (i fuel : nat) (fp : list draw_event),
  (i + S n = Z.to_nat (p c))%nat -> (S n <= fuel)%nat ->
  draw_gnuplot_loop fuel c x y (nth_vertex c i) fp =
  Done (fp ++ map (gnuplot_line c x y gnuplot_point)
                  (map (nth_vertex c) (seq i (S n)))).
Proof.
  induction n as [|n IH]; intros i fuel fp Hi Hf;
    (destruct fuel as [|fuel]; [lia|]); cbn [draw_gnuplot_loop];
    pose proof (boundary_range i) as Hr;
    rewrite (rd_vertex_x _ Hr), (rd_vertex_y _ Hr), rd_boundary; cbn [bind].
  - replace (S i) with (Z.to_nat (p c)) by lia.
    rewrite boundary_back. reflexivity.
  - rewrite boundary_not_back by lia. cbn [negb].
    rewrite (IH (S i) fuel) by lia.
    rewrite <- app_assoc. reflexivity.
Qed.

Lemma draw_pov_loop_round (x y z : float) (n : nat) :
  forall (i fuel : nat) (fp : list draw_event),
  (i + S n = Z.to_nat (p c))%nat -> (S n <= fuel)%nat ->
  draw_pov_loop fuel c x y z (nth_vertex c i) fp =
  Done (fp ++ concat (map (pov_edge c x y z)
                          (map (nth_vertex c) (seq i (S n))))).
Proof.
  induction n as [|n IH]; intros i fuel fp Hi Hf;
    (destruct fuel as [|fuel]; [lia|]); cbn [draw_pov_loop];
    pose proof (boundary_range i) as Hr;
    pose proof (boundary_range (S i)) as Hr';
    rewrite (rd_vertex_x _ Hr), (rd_vertex_y _ Hr), rd_boundary; cbn [bind];
    rewrite (rd_vertex_x _ Hr'), (rd_vertex_y _ Hr'); cbn [bind].
  - assert (E : nth_vertex c (S i) = 0)
      by (replace (S i) with (Z.to_nat (p c)) by lia; apply boundary_back).
    destruct (Z.eqb_spec (nth_vertex c (S i)) 0) as [_|Hne];
      [|contradiction].
    cbn [negb seq map concat]. rewrite app_nil_r, <- app_assoc.
    reflexivity.
  - rewrite boundary_not_back by lia. cbn [negb].
    rewrite (IH (S i) fuel) by lia.
    cbn [seq map concat]. rewrite <- !app_assoc. reflexivity.
Qed.

End Boundary.

(** ** The queries on a polygon *)

Lemma storage_ok_square : storage_ok Sample.square.
Proof. unfold storage_ok. vm_compute. repeat split; discriminate. Qed.

Lemma nth_vertex_0 (c : voronoicell_2d) : nth_vertex c 0 = 0.
Proof. reflexivity. Qed.

Lemma rd_vertex_0 (c : voronoicell_2d) :
  adjacency_ok c -> storage_ok c ->
  rd (ed c) 0 = Done (nth_vertex c 1) /\
  rd (pts c) 0 = Done (vertex_x c 0) /\ rd (pts c) 1 = Done (vertex_y c 0).
Proof.
  intros Ha Hs. pose proof (p_positive c Ha) as Hp.
  pose proof (rd_boundary c Ha 0) as R0. rewrite nth_vertex_0 in R0.
  pose proof (rd_vertex_x c Hs 0 ltac:(lia)) as X0.
  pose proof (rd_vertex_y c Hs 0 ltac:(lia)) as Y0.
  auto.
Qed.

Lemma nth_vertex_single (c : voronoicell_2d) :
  adjacency_ok c -> p c = 1 -> nth_vertex c 1 = 0 /\ nth_vertex c 2 = 0.
Proof.
  intros Ha E1.
  assert (B1 : nth_vertex c 1 = 0).
  { pose proof (boundary_back c Ha) as B. rewrite E1 in B. exact B. }
  split; [exact B1|].
  change (nth_vertex c 2) with (succ_of (ed c) (nth_vertex c 1)).
  rewrite B1. exact B1.
Qed.

Lemma area_loop_fan (fuel : nat) (c : voronoicell_2d) :
  adjacency_ok c -> storage_ok c -> (Z.to_nat (p c) - 2 <= fuel)%nat ->
  area_loop fuel c (nth_vertex c 2) 0 (vertex_x c 0) (vertex_y c 0)
    (vertex_x c (nth_vertex c 1) - vertex_x c 0)
    (vertex_y c (nth_vertex c 1) - vertex_y c 0) =
  Done (fold_left (fun acc j => (acc + fan_area c j)%float)
                  (seq 2 (Z.to_nat (p c) - 2)) 0%float).
Proof.
  intros Ha Hs Hf. pose proof (p_positive c Ha) as Hp.
  destruct (Z.eq_dec (p c) 1) as [E1|E1].
  - destruct (nth_vertex_single c Ha E1) as [_ B2].
    rewrite B2, E1. destruct fuel; reflexivity.
  - pose proof (area_loop_round c Ha Hs (Z.to_nat (p c) - 2) 2 fuel 0%float)
      as L.
    change (2 - 1)%nat with 1%nat in L. apply L; lia.
Qed.

(** perimeter, on a cell that satisfies the adjacency invariants and has
    its arenas sized by its capacity: the loop goes once round the
    boundary and returns half the sum of the lengths of the p edges, each
    edge counted once, in the order succ visits them from vertex 0. *)
Theorem perimeter_sums_edges (fuel : nat) (c : voronoicell_2d) :
  adjacency_ok c -> storage_ok c -> (Z.to_nat (p c) <= fuel)%nat ->
  perimeter fuel c =
  Done (0.5 * fold_left (fun acc v => (acc + edge_length c v)%float)
                        (boundary c) 0)%float.
Proof.
  intros Ha Hs Hf. pose proof (p_positive c Ha) as Hp. unfold perimeter.
  destruct (Z.eqb_spec (p c) 0); [lia|].
  rewrite <- (nth_vertex_0 c) at 1.
  rewrite (perimeter_loop_round c Ha Hs (Z.to_nat (p c) - 1) 0 fuel) by lia.
  unfold boundary. replace (S (Z.to_nat (p c) - 1)) with (Z.to_nat (p c))
    by lia.
  reflexivity.
Qed.

Lemma perimeter_sums_edges_witness :
  boundary Sample.square = [0; 1; 2; 3] /\
  perimeter 4 Sample.square =
  Done (0.5 * fold_left (fun acc v => (acc + edge_length Sample.square v)%float)
                        (boundary Sample.square) 0)%float.
Proof.
  split; [reflexivity|].
  apply (perimeter_sums_edges 4 Sample.square);
    [exact adjacency_ok_square | exact storage_ok_square | vm_compute; lia].
Defined.

(** area, on a cell that satisfies the adjacency invariants and has its
    arenas sized by its capacity: the result is one eighth of the sum of
    the cross products of the fan of triangles anchored at vertex 0, one
    triangle for each of the boundary vertices number 2 to p-1. *)
Theorem area_sums_fan (fuel : nat) (c : voronoicell_2d) :
  adjacency_ok c -> storage_ok c -> (Z.to_nat (p c) - 2 <= fuel)%nat ->
  area fuel c =
  Done (0.125 * fold_left (fun acc j => (acc + fan_area c j)%float)
                          (seq 2 (Z.to_nat (p c) - 2)) 0)%float.
Proof.
  intros Ha Hs Hf. pose proof (p_positive c Ha) as Hp. unfold area.
  destruct (Z.eqb_spec (p c) 0); [lia|].
  destruct (rd_vertex_0 c Ha Hs) as [R0 [X0 Y0]]. rewrite R0, X0, Y0.
  cbn [bind]. pose proof (boundary_range c Ha 1) as Hr.
  rewrite (rd_vertex_x c Hs _ Hr), (rd_vertex_y c Hs _ Hr), rd_boundary
    by assumption.
  cbn [bind]. rewrite area_loop_fan by assumption. reflexivity.
Qed.

Lemma area_sums_fan_witness :
  area 2 Sample.square =
  Done (0.125 * fold_left (fun acc j => (acc + fan_area Sample.square j)%float)
                          (seq 2 (Z.to_nat (p Sample.square) - 2)) 0)%float.
Proof.
  apply (area_sums_fan 2 Sample.square);
    [exact adjacency_ok_square | exact storage_ok_square | vm_compute; lia].
Defined.

(** area of a polygon of one or two vertices is exactly zero, whatever
    the coordinates (infinities and NaN included) and without a single
    round of the loop. *)
Theorem area_degenerate_zero (fuel : nat) (c : voronoicell_2d) :
  adjacency_ok c -> storage_ok c -> p c <= 2 ->
  area fuel c = Done 0%float.
Proof.
  intros Ha Hs Hp. pose proof (p_positive c Ha) as Hp0. unfold area.
  destruct (Z.eqb_spec (p c) 0); [lia|].
  destruct (rd_vertex_0 c Ha Hs) as [R0 [X0 Y0]]. rewrite R0, X0, Y0.
  cbn [bind]. pose proof (boundary_range c Ha 1) as Hr.
  rewrite (rd_vertex_x c Hs _ Hr), (rd_vertex_y c Hs _ Hr), rd_boundary
    by assumption.
  cbn [bind]. rewrite area_loop_fan by (assumption || lia).
  replace (Z.to_nat (p c) - 2)%nat with 0%nat by lia. reflexivity.
Qed.

Lemma adjacency_ok_digon : adjacency_ok digon.
Proof.
  assert (E : forall v, 0 <= v < 2 -> v = 0 \/ v = 1) by (intros; lia).
  split; [|split].
  - intros v Hv. apply E in Hv as [->| ->]; split; reflexivity.
  - split; [reflexivity|]. split; [|reflexivity].
    intros v Hv. apply E in Hv as [->| ->];
      [exists 0%nat | exists 1%nat]; (split; [simpl; lia | reflexivity]).
  - intros v Hv. apply E in Hv as [->| ->]; vm_compute;
      repeat split; discriminate.
Qed.

Lemma storage_ok_digon : storage_ok digon.
Proof. unfold storage_ok. vm_compute. repeat split; discriminate. Qed.

Lemma area_degenerate_zero_witness : area 0 digon = Done 0%float.
Proof.
  apply (area_degenerate_zero 0 digon);
    [exact adjacency_ok_digon | exact storage_ok_digon | vm_compute; discriminate].
Defined.

(** The four queries return on every cell that satisfies the adjacency
    invariants and has its arenas sized by its capacity: p rounds are
    enough for each of their loops, and no read leaves an arena. *)
Theorem queries_return_on_polygon (fuel : nat) (c : voronoicell_2d) :
  adjacency_ok c -> storage_ok c -> (Z.to_nat (p c) <= fuel)%nat ->
  queries_return fuel c.
Proof.
  intros Ha Hs Hf. pose proof (p_positive c Ha) as Hp.
  destruct (rd_vertex_0 c Ha Hs) as [R0 [X0 Y0]].
  pose proof (boundary_range c Ha 1) as Hr.
  split; [|split; [|split]].
  - unfold max_radius_squared. rewrite X0, Y0. cbn [bind].
    destruct (max_radius_squared_loop_round c Hs (Z.to_nat (p c) - 1) 1 fuel
                (vertex_x c 0 * vertex_x c 0 + vertex_y c 0 * vertex_y c 0))
      as [r [Hr' _]]; try lia.
    + exists 0. split; [lia | reflexivity].
    + intros w Hw. replace w with 0 by lia. apply ltb_irrefl.
    + exists r. exact Hr'.
  - unfold perimeter. destruct (Z.eqb_spec (p c) 0); [lia|].
    change (perimeter_loop fuel c 0) with (perimeter_loop fuel c (nth_vertex c 0)).
    rewrite (perimeter_loop_round c Ha Hs (Z.to_nat (p c) - 1) 0 fuel) by lia.
    eexists. reflexivity.
  - unfold area. destruct (Z.eqb_spec (p c) 0); [lia|].
    rewrite R0, X0, Y0. cbn [bind].
    rewrite (rd_vertex_x c Hs _ Hr), (rd_vertex_y c Hs _ Hr), rd_boundary
      by assumption.
    cbn [bind]. rewrite area_loop_fan by (assumption || lia).
    eexists. reflexivity.
  - unfold centroid, centroid_fan.
    destruct (Z.eqb_spec (p c) 0); [lia|].
    rewrite R0, X0, Y0. cbn [bind].
    rewrite (rd_vertex_x c Hs _ Hr), (rd_vertex_y c Hs _ Hr), rd_boundary
      by assumption.
    cbn [bind].
    destruct (Z.eq_dec (p c) 1) as [E1|E1].
    + destruct (nth_vertex_single c Ha E1) as [_ B2].
      rewrite B2. destruct fuel; eexists; reflexivity.
    + destruct (centroid_loop_round c Ha Hs (Z.to_nat (p c) - 2) 2 fuel
                  0 0 0
                  (vertex_x c (nth_vertex c 1) - vertex_x c 0)
                  (vertex_y c (nth_vertex c 1) - vertex_y c 0))
        as [[[tarea cx] cy] Hl]; try lia.
      rewrite Hl. cbn [bind]. eexists. reflexivity.
Qed.

Lemma queries_return_on_polygon_witness : queries_return 4 Sample.square.
Proof.
  apply (queries_return_on_polygon 4 Sample.square);
    [exact adjacency_ok_square | exact storage_ok_square | vm_compute; lia].
Defined.

(** max_radius_squared, on a cell whose coordinate arena is sized by a
    capacity of at least one vertex: the value returned is the squared
    norm of one of the vertices it has read (vertex 0 on an empty cell),
    and no vertex it has read has a squared norm that compares greater;
    NaN coordinates do not break this, and p - 1 rounds are enough. *)
Theorem max_radius_squared_is_maximum (fuel : nat) (c : voronoicell_2d) :
  storage_ok c -> 1 <= current_vertices c ->
  (Z.to_nat (p c) - 1 <= fuel)%nat ->
  exists r, max_radius_squared fuel c = Done r /\
    (exists w, 0 <= w < Z.max 1 (p c) /\ r = norm2 c w) /\
    (forall w, 0 <= w < Z.max 1 (p c) -> (r <? norm2 c w)%float = false).
Proof.
  intros Hs Hc Hf. unfold max_radius_squared.
  assert (X0 : rd (pts c) 0 = Done (vertex_x c 0) /\
               rd (pts c) 1 = Done (vertex_y c 0)).
  { destruct Hs as [_ [Hl _]]. unfold rd, vertex_x, vertex_y.
    change (Z.to_nat (2 * 0)) with 0%nat.
    change (Z.to_nat (2 * 0 + 1)) with 1%nat.
    change (Z.to_nat 0) with 0%nat. change (Z.to_nat 1) with 1%nat.
    cbn [Z.leb Z.compare]. rewrite !nth_lookup.
    destruct (lookup_lt_is_Some_2 (pts c) 0) as [a ->]; [lia|].
    destruct (lookup_lt_is_Some_2 (pts c) 1) as [b ->]; [lia|].
    split; reflexivity. }
  destruct X0 as [X0 Y0]. rewrite X0, Y0. cbn [bind].
  apply (max_radius_squared_loop_round c Hs (Z.to_nat (Z.max 1 (p c) - 1)) 1);
    try lia.
  - exists 0. split; [lia | reflexivity].
  - intros w Hw. replace w with 0 by lia. apply ltb_irrefl.
Qed.

Lemma max_radius_squared_is_maximum_witness :
  exists r, max_radius_squared 3 flat_strip = Done r /\
    (exists w, 0 <= w < Z.max 1 (p flat_strip) /\ r = norm2 flat_strip w) /\
    (forall w, 0 <= w < Z.max 1 (p flat_strip) ->
       (r <? norm2 flat_strip w)%float = false).
Proof.
  apply (max_radius_squared_is_maximum 3 flat_strip);
    [unfold storage_ok; vm_compute; repeat split; discriminate
    | vm_compute; discriminate | vm_compute; lia].
Defined.

(** ** Drawing a polygon *)

(** draw_gnuplot, on a cell that satisfies the adjacency invariants and
    has its arenas sized by its capacity: it prints one line for each of
    the p vertices, in the order succ visits them from vertex 0, each
    displaced by (x,y) with the stored coordinates halved, and then the
    line of vertex 0 once more, followed by an empty line: a closed
    polyline of p + 1 points. *)
Theorem draw_gnuplot_closed_polyline (fuel : nat) (c : voronoicell_2d)
    (x y : float) (fp : list draw_event) :
  adjacency_ok c -> storage_ok c -> (Z.to_nat (p c) <= fuel)%nat ->
  draw_gnuplot fuel c x y fp =
  Done (fp ++ map (gnuplot_line c x y gnuplot_point) (boundary c)
           ++ [gnuplot_line c x y gnuplot_close 0]).
Proof.
  intros Ha Hs Hf. pose proof (p_positive c Ha) as Hp. unfold draw_gnuplot.
  destruct (Z.eqb_spec (p c) 0); [lia|].
  rewrite <- (nth_vertex_0 c) at 1.
  rewrite (draw_gnuplot_loop_round c Ha Hs x y (Z.to_nat (p c) - 1) 0 fuel)
    by lia.
  cbn [bind].
  pose proof (rd_vertex_x c Hs 0 ltac:(lia)) as X0.
  pose proof (rd_vertex_y c Hs 0 ltac:(lia)) as Y0.
  change (2 * 0) with 0 in X0. change (2 * 0 + 1) with 1 in Y0.
  rewrite X0, Y0. cbn [bind]. unfold boundary.
  replace (S (Z.to_nat (p c) - 1)) with (Z.to_nat (p c)) by lia.
  rewrite <- app_assoc. reflexivity.
Qed.

Lemma draw_gnuplot_closed_polyline_witness :
  draw_gnuplot 4 Sample.square 10 20 [] =
  Done ([] ++ map (gnuplot_line Sample.square 10 20 gnuplot_point)
                  (boundary Sample.square)
           ++ [gnuplot_line Sample.square 10 20 gnuplot_close 0]) /\
  map (gnuplot_line Sample.square 10 20 gnuplot_point)
      (boundary Sample.square) =
  [Fprintf gnuplot_point [9; 19]; Fprintf gnuplot_point [11; 19];
   Fprintf gnuplot_point [11; 21]; Fprintf gnuplot_point [9; 21]]%float.
Proof.
  split; [|vm_compute; reflexivity].
  apply (draw_gnuplot_closed_polyline 4 Sample.square 10 20 []);
    [exact adjacency_ok_square | exact storage_ok_square | vm_compute; lia].
Defined.

(** draw_pov, on a cell that satisfies the adjacency invariants and has
    its arenas sized by its capacity: it prints, for each of the p
    vertices in the order succ visits them from vertex 0, a sphere on the
    vertex and a cylinder from the vertex to its successor, so the last
    cylinder ends on vertex 0; nothing follows. *)
Theorem draw_pov_edges (fuel : nat) (c : voronoicell_2d) (x y z : float)
    (fp : list draw_event) :
  adjacency_ok c -> storage_ok c -> (Z.to_nat (p c) <= fuel)%nat ->
  draw_pov fuel c x y z fp =
  Done (fp ++ concat (map (pov_edge c x y z) (boundary c))).
Proof.
  intros Ha Hs Hf. pose proof (p_positive c Ha) as Hp. unfold draw_pov.
  destruct (Z.eqb_spec (p c) 0); [lia|].
  rewrite <- (nth_vertex_0 c) at 1.
  rewrite (draw_pov_loop_round c Ha Hs x y z (Z.to_nat (p c) - 1) 0 fuel)
    by lia.
  unfold boundary.
  replace (S (Z.to_nat (p c) - 1)) with (Z.to_nat (p c)) by lia.
  reflexivity.
Qed.

Lemma draw_pov_edges_witness :
  draw_pov 4 Sample.square 10 20 30 [] =
  Done ([] ++ concat (map (pov_edge Sample.square 10 20 30)
                          (boundary Sample.square))) /\
  length (concat (map (pov_edge Sample.square 10 20 30)
                      (boundary Sample.square))) = 8%nat.
Proof.
  split; [|reflexivity].
  apply (draw_pov_edges 4 Sample.square 10 20 30 []);
    [exact adjacency_ok_square | exact storage_ok_square | vm_compute; lia].
Defined.

(** ** More on custom output *)

Lemma control_sequence_default (fuel : nat) (c : voronoicell_2d) (ctl : ascii)
    (i : Z) (x y r : float) (fp : list sink_event) :
  is_control ctl = false ->
  control_sequence fuel c ctl i x y r fp = Done (fp ++ [Putc "%"; Putc ctl]).
Proof.
  unfold is_control. cbn [existsb]. intros H.
  repeat (apply orb_false_iff in H as [? H]).
  unfold control_sequence.
  repeat match goal with
  | E : Ascii.eqb ctl _ = false |- _ => rewrite E; clear E
  end.
  reflexivity.
Qed.

Lemma control_sequence_particle (ctl : ascii) (i : Z) (x y r : float) :
  is_particle_control ctl = true ->
  exists ev : Z -> sink_event,
    forall (fuel : nat) (c : voronoicell_2d) (fp : list sink_event),
      control_sequence fuel c ctl i x y r fp = Done (fp ++ [ev (p c)]).
Proof.
  unfold is_particle_control. cbn [existsb]. intros H.
  repeat (apply orb_true_iff in H as [H|H];
          [apply Ascii.eqb_eq in H as ->;
           first [exists (fun _ => Printf_d i); intros; reflexivity
                 |exists (fun _ => Printf_g x); intros; reflexivity
                 |exists (fun _ => Printf_g y); intros; reflexivity
                 |exists (fun _ => Printf_g_g x y); intros; reflexivity
                 |exists (fun _ => Printf_g r); intros; reflexivity
                 |exists (fun n => Printf_d n); intros; reflexivity]|]).
  discriminate.
Qed.

Lemma scan_literal (fuel : nat) (c : voronoicell_2d) (s : string)
    (i : Z) (x y r : float) :
  literal_format s = true ->
  forall fp, output_custom_loop fuel c s i x y r fp = Done (fp ++ putc_all s).
Proof.
  induction s as [| ch | ch ctl rest IH1 IH2] using string_pair_ind;
    intros H fp.
  - unfold putc_all. simpl. rewrite app_nil_r. reflexivity.
  - simpl in *. destruct (ch =? zero)%char; [discriminate|].
    destruct (ch =? "%")%char; [discriminate|]. reflexivity.
  - rewrite scan_step. cbn [literal_format] in H.
    destruct (ch =? zero)%char; [discriminate|].
    destruct (Ascii.eqb_spec ch "%") as [->|Hne].
    + apply andb_prop in H as [H Hr]. apply andb_prop in H as [Hz Hc].
      apply negb_true_iff in Hz, Hc. rewrite Hz.
      rewrite control_sequence_default by exact Hc. cbn [bind].
      rewrite (IH1 Hr). unfold putc_all. cbn [list_ascii_of_string map].
      rewrite <- app_assoc. reflexivity.
    + rewrite (IH2 H). unfold putc_all.
      cbn [list_ascii_of_string map]. rewrite <- app_assoc. reflexivity.
Qed.

(** A format without control sequences is copied to the stream character
    by character, percent signs included: a percent sign followed by a
    character the switch has no case for is printed together with that
    character (so a doubled percent sign comes out doubled), and the line
    feed follows.  The cell is not looked at. *)
Theorem output_custom_literal (fuel : nat) (c : voronoicell_2d) (s : string)
    (i : Z) (x y r : float) (fp : list sink_event) :
  literal_format s = true ->
  output_custom fuel c s i x y r fp =
  Done (fp ++ putc_all s ++ [Fputs newline]).
Proof.
  intros H. unfold output_custom. rewrite (scan_literal fuel c s i x y r H).
  cbn [bind]. rewrite <- app_assoc. reflexivity.
Qed.

Lemma output_custom_literal_witness :
  output_custom 0 Sample.fresh "100%% of %d" 7 0 0 0 [] =
  Done ([] ++ putc_all "100%% of %d" ++ [Fputs newline]).
Proof.
  apply (output_custom_literal 0 Sample.fresh "100%% of %d" 7 0 0 0 []).
  reflexivity.
Defined.

Lemma scan_concat (fuel : nat) (c : voronoicell_2d) (s1 s2 : string)
    (i : Z) (x y r : float) :
  scans_whole s1 = true ->
  forall fp,
    output_custom_loop fuel c (s1 ++ s2) i x y r fp =
    bind (output_custom_loop fuel c s1 i x y r fp)
         (fun fp1 => output_custom_loop fuel c s2 i x y r fp1).
Proof.
  induction s1 as [| ch | ch ctl rest IH1 IH2] using string_pair_ind;
    intros H fp.
  - reflexivity.
  - simpl in *. destruct (ch =? zero)%char; [discriminate|].
    destruct (ch =? "%")%char; [discriminate|]. reflexivity.
  - change (String ch (String ctl rest) ++ s2)%string
      with (String ch (String ctl (rest ++ s2))).
    rewrite !scan_step. cbn [scans_whole] in H.
    destruct (ch =? zero)%char; [discriminate|].
    destruct (ch =? "%")%char.
    + destruct (ctl =? zero)%char; [discriminate|].
      destruct (control_sequence fuel c ctl i x y r fp); cbn [bind];
        try reflexivity.
      apply (IH1 H).
    + apply (IH2 H).
Qed.

(** Formats compose: when the first of two formats is read to its end
    between two items (no zero character in it, and its last percent sign
    has its control character), the output for the two formats joined is
    the output of the first, without its line feed, followed by the output
    for the second. *)
Theorem output_custom_concat (fuel : nat) (c : voronoicell_2d)
    (s1 s2 : string) (i : Z) (x y r : float) (fp : list sink_event) :
  scans_whole s1 = true ->
  output_custom fuel c (s1 ++ s2) i x y r fp =
  bind (output_custom_loop fuel c s1 i x y r fp)
       (fun fp1 => output_custom fuel c s2 i x y r fp1).
Proof.
  intros H. unfold output_custom.
  rewrite (scan_concat fuel c s1 s2 i x y r H).
  destruct (output_custom_loop fuel c s1 i x y r fp); reflexivity.
Qed.

Lemma output_custom_concat_witness :
  output_custom 4 Sample.square ("%i %a" ++ " %w") 7 0 0 0 [] =
  bind (output_custom_loop 4 Sample.square "%i %a" 7 0 0 0 [])
       (fun fp1 => output_custom 4 Sample.square " %w" 7 0 0 0 fp1) /\
  output_custom 4 Sample.square ("%i %a" ++ " %w") 7 0 0 0 [] =
  Done [Printf_d 7; Putc " "; Printf_g 4; Putc " "; Printf_d 4;
        Fputs newline].
Proof.
  split; [|vm_compute; reflexivity].
  apply (output_custom_concat 4 Sample.square "%i %a" " %w" 7 0 0 0 []).
  reflexivity.
Defined.

Lemma scan_particle (s : string) (i : Z) (x y r : float) :
  particle_format s = true ->
  exists body : Z -> list sink_event,
    forall (fuel : nat) (c : voronoicell_2d) (fp : list sink_event),
      output_custom_loop fuel c s i x y r fp = Done (fp ++ body (p c)).
Proof.
  induction s as [| ch | ch ctl rest IH1 IH2] using string_pair_ind;
    intros H.
  - exists (fun _ => []). intros. rewrite app_nil_r. reflexivity.
  - simpl in H. exists (fun _ => [Putc ch]). intros. simpl.
    destruct (ch =? zero)%char; [discriminate|].
    destruct (ch =? "%")%char; [discriminate|]. reflexivity.
  - cbn [particle_format] in H.
    destruct (ch =? zero)%char eqn:Ez; [discriminate|].
    destruct (ch =? "%")%char eqn:Ep.
    + apply andb_prop in H as [H Hr]. apply andb_prop in H as [Hz Hc].
      apply negb_true_iff in Hz. destruct (IH1 Hr) as [body Hb].
      apply orb_prop in Hc as [Hc|Hc].
      * destruct (control_sequence_particle ctl i x y r Hc) as [ev Hev].
        exists (fun n => ev n :: body n). intros fuel c fp.
        rewrite scan_step, Ez, Ep, Hz, Hev. cbn [bind].
        rewrite Hb, <- app_assoc. reflexivity.
      * apply negb_true_iff in Hc.
        exists (fun n => Putc "%" :: Putc ctl :: body n). intros fuel c fp.
        rewrite scan_step, Ez, Ep, Hz, control_sequence_default by exact Hc.
        cbn [bind]. rewrite Hb, <- app_assoc. reflexivity.
    + destruct (IH2 H) as [body Hb].
      exists (fun n => Putc ch :: body n). intros fuel c fp.
      rewrite scan_step, Ez, Ep, Hb, <- app_assoc. reflexivity.
Qed.

(** A format whose control sequences are among %i, %x, %y, %q, %r and %w
    never runs a query on the polygon: the call returns on every cell,
    valid or not, with no loop budget at all, and what it prints depends
    on the cell through the vertex count p only. *)
Theorem output_custom_particle_fields (s : string) (i : Z) (x y r : float) :
  particle_format s = true ->
  exists body : Z -> list sink_event,
    forall (fuel : nat) (c : voronoicell_2d) (fp : list sink_event),
      output_custom fuel c s i x y r fp =
      Done (fp ++ body (p c) ++ [Fputs newline]).
Proof.
  intros H. destruct (scan_particle s i x y r H) as [body Hb].
  exists body. intros fuel c fp. unfold output_custom. rewrite Hb.
  cbn [bind]. rewrite <- app_assoc. reflexivity.
Qed.

Lemma output_custom_particle_fields_witness :
  exists body : Z -> list sink_event,
    forall (fuel : nat) (c : voronoicell_2d) (fp : list sink_event),
      output_custom fuel c "%i: %q %w" 7 1 2 3 fp =
      Done (fp ++ body (p c) ++ [Fputs newline]).
Proof.
  apply (output_custom_particle_fields "%i: %q %w" 7 1 2 3). reflexivity.
Defined.

(** ** A single cycle seen from any of its vertices *)

Section Rooted.

Variable c : voronoicell_2d.
Hypothesis adjacent : adjacency_ok c.

Local Abbreviation S := (succ_of (ed c)).
Local Abbreviation P := (pred_of (ed c)).
Local Abbreviation np := (Z.to_nat (p c)).

Lemma S_stays (v : Z) : 0 <= v < p c -> 0 <= S v < p c.
Proof. destruct adjacent as [_ [_ Hst]]. intros Hv. apply Hst, Hv. Qed.

Lemma P_stays (v : Z) : 0 <= v < p c -> 0 <= P v < p c.
Proof. destruct adjacent as [_ [_ Hst]]. intros Hv. apply Hst, Hv. Qed.

Lemma P_after_S (v : Z) : 0 <= v < p c -> P (S v) = v.
Proof. destruct adjacent as [Hc _]. intros Hv. apply Hc, Hv. Qed.

Lemma S_after_P (v : Z) : 0 <= v < p c -> S (P v) = v.
Proof. destruct adjacent as [Hc _]. intros Hv. apply Hc, Hv. Qed.

Lemma walk_stays (k : nat) (v : Z) : 0 <= v < p c -> 0 <= walk S k v < p c.
Proof. apply walk_range. exact S_stays. Qed.

Lemma walk_injective (k : nat) (v w : Z) :
  0 <= v < p c -> 0 <= w < p c -> walk S k v = walk S k w -> v = w.
Proof.
  intros Hv Hw E.
  rewrite <- (walk_back S P (p c) S_stays P_after_S k v Hv).
  rewrite <- (walk_back S P (p c) S_stays P_after_S k w Hw).
  rewrite E. reflexivity.
Qed.

Lemma np_positive : (0 < np)%nat.
Proof. pose proof (p_positive c adjacent). lia. Qed.

Lemma walk0_mod (a : nat) : walk S a 0 = walk S (a mod np) 0.
Proof.
  apply walk_mod; [exact np_positive|]. exact (boundary_back c adjacent).
Qed.

Variable up : Z.
Hypothesis up_range : 0 <= up < p c.

Lemma rooted_first_return (d : nat) : (0 < d < np)%nat -> walk S d up <> up.
Proof.
  intros Hd E. destruct adjacent as [_ [[_ [Hreach _]] _]].
  destruct (Hreach up up_range) as [i0 [Hi0 Hup]].
  rewrite <- Hup in E. rewrite <- walk_add, Nat.add_comm, walk_add in E.
  apply walk_injective in E;
    [|apply walk_stays; pose proof (p_positive c adjacent); lia
     |pose proof (p_positive c adjacent); lia].
  destruct adjacent as [_ [Hsingle _]].
  exact (cycle_first_return c Hsingle d Hd E).
Qed.

Lemma rooted_injective (a b : nat) :
  (a < np)%nat -> (b < np)%nat -> walk S a up = walk S b up -> a = b.
Proof.
  assert (H : forall a b, (a <= b)%nat -> (b < np)%nat ->
                          walk S a up = walk S b up -> a = b).
  { clear a b. intros a b Hab Hb E.
    replace b with (a + (b - a))%nat in E by lia. rewrite walk_add in E.
    apply walk_injective in E; [|exact up_range|apply walk_stays, up_range].
    destruct (Nat.eq_dec (b - a)%nat 0%nat) as [H0|H0]; [lia|].
    exfalso. apply (rooted_first_return (b - a)%nat); [lia|]. symmetry.
    exact E. }
  intros Ha Hb E. destruct (Nat.le_ge_cases a b) as [Hab|Hab].
  - apply H; assumption.
  - symmetry. apply H; [assumption | assumption | symmetry; exact E].
Qed.

Lemma rooted_period : walk S np up = up.
Proof.
  destruct adjacent as [_ [[_ [Hreach Hback]] _]].
  destruct (Hreach up up_range) as [i0 [Hi0 Hup]].
  rewrite <- Hup. rewrite <- walk_add, Nat.add_comm, walk_add.
  unfold walk at 2. fold (walk S np 0). rewrite Hback. reflexivity.
Qed.

Lemma rooted_reach (v : Z) :
  0 <= v < p c -> exists j, (j < np)%nat /\ walk S j up = v.
Proof.
  intros Hv. destruct adjacent as [_ [[_ [Hreach _]] _]].
  destruct (Hreach up up_range) as [i0 [Hi0 Hup]].
  destruct (Hreach v Hv) as [k [Hk Hvk]].
  exists ((k + np - i0) mod np)%nat. split.
  - apply Nat.mod_upper_bound. pose proof np_positive. lia.
  - rewrite <- Hup, <- walk_add, walk0_mod.
    rewrite Nat.Div0.add_mod_idemp_l.
    replace (k + np - i0 + i0)%nat with (k + 1 * np)%nat by lia.
    rewrite Nat.Div0.mod_add, Nat.mod_small by exact Hk. exact Hvk.
Qed.

Lemma rooted_pred (j : nat) :
  (j <= np)%nat -> walk P j up = walk S (np - j) up.
Proof.
  intros Hj.
  assert (HP : forall k v, 0 <= v < p c -> 0 <= walk P k v < p c)
    by (apply walk_range; exact P_stays).
  apply (walk_injective j); [apply HP, up_range | apply walk_stays, up_range|].
  rewrite (walk_back P S (p c) P_stays S_after_P j up up_range).
  rewrite <- walk_add. replace (j + (np - j))%nat with np by lia.
  symmetry. exact rooted_period.
Qed.

End Rooted.

(** ** From a listing of the boundary to the single cycle *)

Section Listing.

Variable c : voronoicell_2d.
Variable L : list Z.
Hypothesis listed : cycle_listing c L.

Local Abbreviation nxt := (succ_of (ed c)).

Lemma listing_next (k : nat) (v : Z) :
  L !! k = Some v -> L !! ((k + 1) mod length L)%nat = Some (nxt v).
Proof.
  destruct listed as [Hnd [Hmem [Hchain Hwrap]]]. intros Hk.
  pose proof (lookup_lt_Some _ _ _ Hk) as Hlt.
  destruct (Nat.eq_dec (k + 1)%nat (length L)) as [E|E].
  - rewrite E, Nat.Div0.mod_same.
    destruct (lookup_lt_is_Some_2 L 0%nat) as [w Hw]; [lia|].
    rewrite Hw. f_equal. symmetry. apply Hwrap; [|exact Hw].
    replace (length L - 1)%nat with k by lia. exact Hk.
  - rewrite Nat.mod_small by lia.
    destruct (lookup_lt_is_Some_2 L (k + 1)%nat) as [w Hw]; [lia|].
    rewrite Hw. f_equal. symmetry. apply (Hchain k); [exact Hk|].
    replace (S k) with (k + 1)%nat by lia. exact Hw.
Qed.

Lemma listing_walk (i k : nat) (v : Z) :
  L !! k = Some v -> L !! ((k + i) mod length L)%nat = Some (walk nxt i v).
Proof.
  intros Hk. induction i as [|i IH].
  - rewrite Nat.add_0_r, Nat.mod_small by (eapply lookup_lt_Some; eassumption).
    exact Hk.
  - apply listing_next in IH. rewrite Nat.Div0.add_mod_idemp_l in IH.
    replace (k + S i)%nat with (k + i + 1)%nat by lia. exact IH.
Qed.

(** When no vertex below p is marked, the listing holds the vertices
    0 .. p-1 and the cell is a single cycle. *)
Lemma listing_single_cycle :
  (forall v, 0 <= v < p c -> succ_of (ed c) v <> -1) -> 0 < p c ->
  length L = Z.to_nat (p c) /\ single_cycle c.
Proof.
  intros Hlive Hp. pose proof listed as [Hnd [Hmem _]].
  assert (Hin : forall v, v ∈ L <-> 0 <= v < p c).
  { intros v. rewrite Hmem. split; [tauto|]. intros Hv. split; auto. }
  assert (Hlen : length L = Z.to_nat (p c)).
  { rewrite <- (length_seq (Z.to_nat (p c)) 0%nat).
    rewrite <- (length_fmap Z.of_nat). apply Permutation_length.
    apply NoDup_Permutation; [exact Hnd| |].
    - apply NoDup_fmap_2; [apply Nat2Z.inj' | apply NoDup_seq].
    - intros v. rewrite Hin, list_elem_of_fmap. split.
      + intros Hv. exists (Z.to_nat v). split; [lia|].
        apply elem_of_seq. lia.
      + intros [k [-> Hk]]. apply elem_of_seq in Hk. lia. }
  split; [exact Hlen|].
  destruct (list_elem_of_lookup_1 L 0) as [j0 Hj0]; [apply Hin; lia|].
  pose proof (lookup_lt_Some _ _ _ Hj0) as Hj0lt.
  split; [exact Hp|]. split.
  - intros v Hv. apply Hin in Hv.
    destruct (list_elem_of_lookup_1 L v Hv) as [j Hj].
    pose proof (lookup_lt_Some _ _ _ Hj) as Hjlt.
    exists ((j + length L - j0) mod length L)%nat. split.
    + rewrite <- Hlen. apply Nat.mod_upper_bound. lia.
    + pose proof (listing_walk ((j + length L - j0) mod length L)%nat j0 0 Hj0)
        as Hw.
      rewrite Nat.Div0.add_mod_idemp_r in Hw.
      replace (j0 + (j + length L - j0))%nat
        with (j + 1 * length L)%nat in Hw by lia.
      rewrite Nat.Div0.mod_add, Nat.mod_small in Hw by exact Hjlt.
      congruence.
  - pose proof (listing_walk (length L) j0 0 Hj0) as Hw.
    replace (j0 + length L)%nat with (j0 + 1 * length L)%nat in Hw by lia.
    rewrite Nat.Div0.mod_add, Nat.mod_small in Hw by exact Hj0lt.
    rewrite <- Hlen. congruence.
Qed.

Lemma rotate_nat_add_mod (b i len : nat) :
  rotate_nat_add b i len = ((b + i) mod len)%nat.
Proof.
  unfold rotate_nat_add. rewrite <- Nat2Z.inj_add, <- Nat2Z.inj_mod.
  apply Nat2Z.id.
Qed.

(** Read from vertex 0, the boundary is the listing, rotated. *)
Lemma listing_boundary :
  (forall v, 0 <= v < p c -> succ_of (ed c) v <> -1) -> 0 < p c ->
  exists r, boundary c = rotate r L.
Proof.
  intros Hlive Hp. destruct (listing_single_cycle Hlive Hp) as [Hlen _].
  pose proof listed as [_ [Hmem _]].
  destruct (list_elem_of_lookup_1 L 0) as [j0 Hj0].
  { apply Hmem. split; [lia|]. apply Hlive. lia. }
  exists j0. apply list_eq. intros i. unfold boundary.
  change (map (nth_vertex c) (seq 0 (Z.to_nat (p c))))
    with (nth_vertex c <$> seq 0 (Z.to_nat (p c))).
  rewrite list_lookup_fmap.
  destruct (Nat.lt_ge_cases i (length L)) as [Hi|Hi].
  - rewrite lookup_rotate_r by exact Hi. rewrite rotate_nat_add_mod.
    rewrite (listing_walk i j0 0 Hj0).
    assert (E : seq 0 (Z.to_nat (p c)) !! i = Some i)
      by (apply lookup_seq; split; [reflexivity | lia]).
    rewrite E. reflexivity.
  - rewrite (lookup_ge_None_2 (rotate j0 L)) by (rewrite length_rotate; lia).
    rewrite (lookup_ge_None_2 (seq 0 (Z.to_nat (p c))))
      by (rewrite length_seq; lia).
    reflexivity.
Qed.

End Listing.

(** ** The coordinates through the compaction *)

Lemma nth_insert_any {A : Type} (d : A) (a : list A) (i j : Z) (x : A) :
  0 <= i < Z.of_nat (length a) -> 0 <= j ->
  nth (Z.to_nat j) (<[Z.to_nat i := x]> a) d =
  if j =? i then x else nth (Z.to_nat j) a d.
Proof.
  intros Hi Hj. rewrite !nth_lookup.
  destruct (Z.eqb_spec j i) as [->|Hne].
  - rewrite list_lookup_insert_eq by lia. reflexivity.
  - rewrite list_lookup_insert_ne by lia. reflexivity.
Qed.

Lemma rd_nth_any {A : Type} (d : A) (a : list A) (i : Z) (v : A) :
  rd a i = Done v -> 0 <= i /\ nth (Z.to_nat i) a d = v.
Proof.
  intros H. apply rd_Done in H as [Hi Hl]. split; [exact Hi|].
  rewrite nth_lookup, Hl. reflexivity.
Qed.

(** Lines 224-225: the coordinates of the last live vertex are copied
    into the freed slot, and no other slot changes. *)
Lemma relocate_coords (c c' : voronoicell_2d) (up : Z) :
  relocate c up = Done c' -> 0 <= up ->
  forall v, 0 <= v ->
    coords c' v =
    if (up <? p c) && (v =? up) then coords c (p c) else coords c v.
Proof.
  unfold relocate. destruct (Z.ltb_spec up (p c)) as [Hlt|Hge].
  2: { intros [= <-] _ v _. reflexivity. }
  intros H Hup v Hv.
  apply bind_Done in H as [s [_ H]]. apply bind_Done in H as [e1 [_ H]].
  apply bind_Done in H as [q [_ H]]. apply bind_Done in H as [e2 [_ H]].
  apply bind_Done in H as [vx [Hvx H]]. apply bind_Done in H as [a1 [Ha1 H]].
  apply bind_Done in H as [vy [Hvy H]]. apply bind_Done in H as [a2 [Ha2 H]].
  apply bind_Done in H as [s' [_ H]]. apply bind_Done in H as [e3 [_ H]].
  apply bind_Done in H as [q' [_ H]]. apply bind_Done in H as [e4 [_ H]].
  injection H as <-.
  apply (rd_nth_any 0%float) in Hvx as [Hp0 Hvx].
  apply (rd_nth_any 0%float) in Hvy as [_ Hvy].
  apply wr_Done in Ha1 as [R1 ->]. apply wr_Done in Ha2 as [R2 ->].
  rewrite length_insert in R2.
  rewrite (nth_insert_any 0%float) in Hvy by lia.
  destruct (Z.eqb_spec (2 * p c + 1) (2 * up)); [lia|].
  unfold coords, vertex_x, vertex_y. cbn [pts set_pts set_ed andb].
  rewrite !(nth_insert_any 0%float) by (rewrite ?length_insert; lia).
  destruct (Z.eqb_spec v up) as [->|Hne].
  - destruct (Z.eqb_spec (2 * up) (2 * up + 1)); [lia|].
    rewrite !Z.eqb_refl. congruence.
  - destruct (Z.eqb_spec (2 * v) (2 * up + 1)); [lia|].
    destruct (Z.eqb_spec (2 * v) (2 * up)); [lia|].
    destruct (Z.eqb_spec (2 * v + 1) (2 * up + 1)); [lia|].
    destruct (Z.eqb_spec (2 * v + 1) (2 * up)); [lia|].
    reflexivity.
Qed.

(** ** The compaction loop keeps the listing *)

Lemma listing_step (c c2 : voronoicell_2d) (m q up : Z) (L : list Z) :
  compacting c m -> cycle_listing c L -> 0 < m ->
  0 <= q < p c -> succ_of (ed c) q <> -1 ->
  (forall v, q < v < p c -> succ_of (ed c) v = -1) ->
  ds c !! Z.to_nat (m - 1) = Some up ->
  relocate (set_p c q) up = Done c2 ->
  exists L', cycle_listing c2 L' /\ length L' = length L /\
    coords c2 <$> L' = coords c <$> L.
Proof.
  intros [Hdist [Htomb [Hall Hlive]]] [Hnd [Hmem [Hchain Hwrap]]]
         Hm Hq Hql Htail Hup Hrel.
  assert (Hup_on : on_stack c m up) by (exists (m - 1); split; [lia | exact Hup]).
  destruct (Htomb up Hup_on) as [Hup0 Hup1].
  pose proof (relocate_coords _ _ _ Hrel Hup0) as Hco.
  apply relocate_spec in Hrel as [[Hge ->]|[Hlt [Hp2 [Hd2 Heq]]]];
    cbn [p ed set_p] in *.
  - (* the popped vertex lies in the tail already *)
    exists L. split; [|split; [reflexivity|]].
    2: { apply list_fmap_ext. intros i v Hv. reflexivity. }
    split; [exact Hnd|]. split; [|split; [exact Hchain | exact Hwrap]].
    intros v. rewrite Hmem. cbn [p ed set_p]. split.
    + intros [Hv Hs]. split; [|exact Hs].
      destruct (Z.le_gt_cases v q) as [|Hgt]; [lia|].
      exfalso. apply Hs, Htail. lia.
    + intros [Hv Hs]. split; [lia | exact Hs].
  - (* the last live vertex q moves into the freed slot *)
    destruct (Hlive q) as [Ha [Hb [Hsa [Hpa [Hsb Hfix]]]]]; [lia | exact Hql|].
    assert (Hbq : pred_of (ed c) q <> q) by congruence.
    specialize (Heq Hup0 Hfix Hbq).
    set (a := succ_of (ed c) q) in *. set (b := pred_of (ed c) q) in *.
    set (ren := fun v : Z => if v =? q then up else v).
    assert (Hup_out : up ∉ L).
    { intros Hin. apply Hmem in Hin as [_ Hs]. contradiction. }
    assert (Hq_in : q ∈ L) by (apply Hmem; split; [lia | exact Hql]).
    assert (Hlow : forall v, v ∈ L -> 0 <= v <= q /\ succ_of (ed c) v <> -1).
    { intros v Hin. apply Hmem in Hin as [Hv Hs]. split; [|exact Hs].
      destruct (Z.le_gt_cases v q) as [|Hgt]; [lia|].
      exfalso. apply Hs, Htail. lia. }
    assert (Hstep : forall v, v ∈ L ->
              succ_of (ed c2) (ren v) = ren (succ_of (ed c) v)).
    { intros v Hin. destruct (Hlow v Hin) as [Hv Hs].
      destruct (Hlive v) as [Hs1 [Hp1 [Hss [Hps [Hsp Hfx]]]]];
        [lia | exact Hs|].
      unfold ren. destruct (Z.eqb_spec v q) as [->|Hvq].
      - destruct (Heq up Hup0) as [-> _]. rewrite Z.eqb_refl.
        fold a. destruct (Z.eqb_spec a q); [congruence | reflexivity].
      - destruct (Heq v ltac:(lia)) as [-> _].
        destruct (Z.eqb_spec v up) as [->|Hvu]; [contradiction|].
        destruct (Z.eqb_spec v b) as [->|Hvb].
        + rewrite Hsb, Z.eqb_refl. reflexivity.
        + destruct (Z.eqb_spec (succ_of (ed c) v) q) as [E|E];
            [|reflexivity].
          exfalso. apply Hvb. unfold b. rewrite <- E. symmetry. exact Hps. }
    exists (ren <$> L). split; [|split; [apply length_fmap|]].
    2: { rewrite <- list_fmap_compose. apply list_fmap_ext.
         intros i v Hv. apply list_elem_of_lookup_2 in Hv.
         destruct (Hlow v Hv) as [Hvr _]. cbn [compose].
         rewrite Hco by (unfold ren; destruct (v =? q); lia).
         cbn [p set_p]. unfold ren.
         destruct (Z.ltb_spec up q); [|lia]. cbn [andb].
         destruct (Z.eqb_spec v q) as [->|Hvq].
         - rewrite Z.eqb_refl. reflexivity.
         - destruct (Z.eqb_spec v up) as [->|]; [contradiction|].
           reflexivity. }
    split; [|split; [|split]].
    + apply NoDup_fmap_2_strong; [|exact Hnd].
      intros v w Hv Hw. unfold ren.
      destruct (Z.eqb_spec v q), (Z.eqb_spec w q); congruence.
    + intros v. rewrite Hp2, list_elem_of_fmap. split.
      * intros [w [-> Hw]]. destruct (Hlow w Hw) as [Hwr Hws].
        rewrite (Hstep w Hw). unfold ren.
        destruct (Z.eqb_spec w q) as [->|Hwq].
        -- split; [lia|]. fold a.
           destruct (Z.eqb_spec a q); lia.
        -- split; [lia|].
           destruct (Z.eqb_spec (succ_of (ed c) w) q); lia.
      * intros [Hv Hs]. destruct (Z.eq_dec v up) as [->|Hvu].
        -- exists q. split; [|exact Hq_in]. unfold ren.
           rewrite Z.eqb_refl. reflexivity.
        -- exists v. unfold ren.
           destruct (Z.eqb_spec v q); [lia|]. split; [reflexivity|].
           apply Hmem. split; [lia|].
           destruct (Heq v ltac:(lia)) as [E _]. rewrite E in Hs.
           destruct (Z.eqb_spec v up); [contradiction|].
           destruct (Z.eqb_spec v b) as [->|]; [|exact Hs].
           rewrite Hsb. lia.
    + intros i v' w' Hi Hj. rewrite list_lookup_fmap in Hi, Hj.
      destruct (L !! i) as [v|] eqn:Ei; [|discriminate].
      destruct (L !! S i) as [w|] eqn:Ej; [|discriminate].
      injection Hi as <-. injection Hj as <-.
      rewrite Hstep by (eapply list_elem_of_lookup_2; exact Ei).
      f_equal. apply (Hchain i); assumption.
    + intros v' w' Hi Hj. rewrite length_fmap in Hi.
      rewrite list_lookup_fmap in Hi, Hj.
      destruct (L !! (length L - 1)%nat) as [v|] eqn:Ei; [|discriminate].
      destruct (L !! 0%nat) as [w|] eqn:Ej; [|discriminate].
      injection Hi as <-. injection Hj as <-.
      rewrite Hstep by (eapply list_elem_of_lookup_2; exact Ei).
      f_equal. apply Hwrap; reflexivity.
Qed.

Lemma compact_listing :
  forall (fuel : nat) (c : voronoicell_2d) (m : Z) (c' : voronoicell_2d)
         (L : list Z),
  compacting c m -> cycle_listing c L -> compact fuel c m = Done c' ->
  exists L', cycle_listing c' L' /\ length L' = length L /\
    coords c' <$> L' = coords c <$> L.
Proof.
  induction fuel as [|fuel IH]; intros c m c' L Hc HL; simpl;
    destruct (Z.ltb_spec 0 m) as [Hm|Hm]; try discriminate;
    try (intros [= <-]; exists L; split; [exact HL | split; reflexivity]).
  intros H. apply bind_Done in H as [q [Hq H]].
  apply bind_Done in H as [up [Hup H]].
  apply bind_Done in H as [c2 [Hrel H]].
  apply skip_deleted_spec in Hq as [Hq [Hql Htail]].
  apply rd_Done in Hup as [_ Hup]. cbn in Hup.
  destruct (listing_step c c2 m q up L Hc HL Hm Hq Hql Htail Hup Hrel)
    as [L2 [HL2 [Hlen2 Hco2]]].
  destruct (IH c2 (m - 1) c' L2) as [L' [HL' [Hlen' Hco']]];
    [apply (compacting_step c c2 m q up); assumption | exact HL2 | exact H|].
  exists L'. split; [exact HL' | split; congruence].
Qed.

(** ** The vertices a cut keeps, as a list *)

Section KeptListing.

Variable c : voronoicell_2d.
Hypothesis adjacent : adjacency_ok c.

Variable up : Z.
Hypothesis up_range : 0 <= up < p c.

Local Abbreviation sc := (succ_of (ed c)).
Local Abbreviation pc := (pred_of (ed c)).
Local Abbreviation np := (Z.to_nat (p c)).

(** What the two sweeps found. *)
Variables K R : nat.
Hypothesis K_pos : (1 <= K)%nat.
Hypothesis succ_side : forall t, (0 < t <= K)%nat -> walk sc t up <> up.
Hypothesis pred_side :
  forall j, (1 <= j <= R)%nat -> walk pc j up <> walk sc K up.

Local Abbreviation up2 := (walk sc K up).
Local Abbreviation up3 := (walk pc (S R) up).
Local Abbreviation arc := (in_arc sc pc up (Z.of_nat K) (Z.of_nat R)).

(** The sweeps leave at least one vertex. *)
Lemma kept_room : (K + R < np)%nat.
Proof.
  pose proof (np_positive c adjacent) as Hn.
  assert (HK : (K < np)%nat).
  { destruct (Nat.lt_ge_cases K np) as [|Hge]; [assumption|]. exfalso.
    apply (succ_side np); [lia|]. apply rooted_period; assumption. }
  destruct (Nat.lt_ge_cases (K + R) np) as [|Hge]; [assumption|]. exfalso.
  apply (pred_side (np - K)%nat); [lia|].
  rewrite (rooted_pred c adjacent up up_range) by lia. f_equal. lia.
Qed.

Lemma arc_index (v : Z) :
  arc v <->
  exists j, ((j < K)%nat \/ (np - R <= j < np)%nat) /\ v = walk sc j up.
Proof.
  pose proof kept_room as Hroom. split.
  - intros [z [Hz ->]]. unfold arc_vertex.
    destruct (Z.leb_spec 0 z) as [H|H].
    + exists (Z.to_nat z). split; [left; lia | reflexivity].
    + exists (np - Z.to_nat (- z))%nat. split; [right; lia|].
      apply rooted_pred; [assumption | assumption | lia].
  - intros [j [[Hj|Hj] ->]].
    + exists (Z.of_nat j). split; [lia|]. unfold arc_vertex.
      destruct (Z.leb_spec 0 (Z.of_nat j)); [|lia].
      rewrite Nat2Z.id. reflexivity.
    + exists (- Z.of_nat (np - j)). split; [lia|]. unfold arc_vertex.
      destruct (Z.leb_spec 0 (- Z.of_nat (np - j))); [lia|].
      rewrite Z.opp_involutive, Nat2Z.id.
      rewrite (rooted_pred c adjacent up up_range) by lia. f_equal. lia.
Qed.

Lemma arc_below (v : Z) : arc v -> 0 <= v < p c.
Proof.
  intros Ha. apply arc_index in Ha as [j [_ ->]].
  apply walk_stays; assumption.
Qed.

Local Abbreviation kept := (kept_vertices c up K R).

Lemma kept_length : length kept = (np - K - R)%nat.
Proof. unfold kept_vertices. rewrite length_fmap, length_seq. reflexivity. Qed.

Lemma kept_lookup (i : nat) (v : Z) :
  kept !! i = Some v <-> (i < np - K - R)%nat /\ v = walk sc (K + i) up.
Proof.
  unfold kept_vertices. rewrite list_lookup_fmap. split.
  - destruct (seq K (np - K - R) !! i) as [j|] eqn:E; [|discriminate].
    apply lookup_seq in E as [-> Hi]. intros [= <-]. auto.
  - intros [Hi ->].
    assert (E : seq K (np - K - R) !! i = Some (K + i)%nat)
      by (apply lookup_seq; auto).
    rewrite E. reflexivity.
Qed.

Lemma kept_member (v : Z) : v ∈ kept <-> 0 <= v < p c /\ ~ arc v.
Proof.
  pose proof kept_room as Hroom. rewrite list_elem_of_lookup. split.
  - intros [i Hi]. apply kept_lookup in Hi as [Hi ->].
    split; [apply walk_stays; assumption|].
    intros Ha. apply arc_index in Ha as [j [Hj E]].
    apply (rooted_injective c adjacent up up_range) in E; lia.
  - intros [Hv Hn].
    destruct (rooted_reach c adjacent up up_range v Hv) as [j [Hj <-]].
    exists (j - K)%nat. apply kept_lookup.
    assert (Hk : (K <= j < np - R)%nat).
    { destruct (Nat.lt_ge_cases j K) as [H1|H1].
      - exfalso. apply Hn, arc_index. exists j. auto.
      - destruct (Nat.lt_ge_cases j (np - R)) as [H2|H2]; [lia|].
        exfalso. apply Hn, arc_index. exists j. split; [right; lia|].
        reflexivity. }
    split; [lia|]. f_equal. lia.
Qed.

Lemma kept_NoDup : NoDup kept.
Proof.
  pose proof kept_room as Hroom. apply NoDup_alt. intros i j v Hi Hj.
  apply kept_lookup in Hi as [Hi ->]. apply kept_lookup in Hj as [Hj E].
  apply (rooted_injective c adjacent up up_range) in E; lia.
Qed.

Lemma kept_first : kept !! 0%nat = Some up2.
Proof.
  pose proof kept_room. apply kept_lookup. split; [lia|].
  rewrite Nat.add_0_r. reflexivity.
Qed.

Lemma up3_index : up3 = walk sc (np - R - 1) up.
Proof.
  pose proof kept_room.
  rewrite (rooted_pred c adjacent up up_range) by lia. f_equal. lia.
Qed.

Lemma kept_last : kept !! (np - K - R - 1)%nat = Some up3.
Proof.
  pose proof kept_room. apply kept_lookup. split; [lia|].
  rewrite up3_index. f_equal. lia.
Qed.

Lemma kept_chain (i : nat) (v w : Z) :
  kept !! i = Some v -> kept !! S i = Some w -> sc v = w /\ v <> up3.
Proof.
  pose proof kept_room as Hroom.
  intros Hi Hj. apply kept_lookup in Hi as [Hi ->].
  apply kept_lookup in Hj as [Hj ->].
  split; [replace (K + S i)%nat with (S (K + i)) by lia; reflexivity|].
  rewrite up3_index. intros E.
  apply (rooted_injective c adjacent up up_range) in E; lia.
Qed.

Lemma up3_kept : 0 <= up3 < p c /\ ~ arc up3.
Proof.
  apply kept_member. eapply list_elem_of_lookup_2. exact kept_last.
Qed.

(** The cell after the marking loop: a vertex below its p is unmarked
    exactly when it is not on the arc. *)
Variable c6 : voronoicell_2d.
Hypothesis live6 : forall v, 0 <= v < p c6 ->
  (succ_of (ed c6) v <> -1 <-> ~ arc v).

Lemma listing_after_cut_on_plane :
  p c6 = p c + 1 ->
  (forall v, 0 <= v <= p c -> ~ arc v ->
     succ_of (ed c6) v =
     if v =? up3 then p c else if v =? p c then up2 else sc v) ->
  cycle_listing c6 (kept ++ [p c]) /\
  length (kept ++ [p c]) = (np - K - R + 1)%nat.
Proof.
  intros Hp6 HS. pose proof kept_room as Hroom.
  pose proof up3_kept as [Hu3 Na3].
  split; [|rewrite length_app, kept_length; reflexivity].
  split; [|split; [|split]].
  - apply NoDup_app. split; [exact kept_NoDup|].
    split; [|apply NoDup_singleton].
    intros v Hv Hin. apply kept_member in Hv as [Hv _].
    apply list_elem_of_singleton in Hin. lia.
  - intros v. rewrite elem_of_app, list_elem_of_singleton, kept_member.
    split.
    + intros [[Hv Hn]| ->].
      * split; [lia|]. apply live6; [lia | exact Hn].
      * split; [lia|]. apply live6; [lia|].
        intros Ha. apply arc_below in Ha. lia.
    + intros [Hv Hs]. apply live6 in Hs; [|exact Hv].
      destruct (Z.eq_dec v (p c)) as [->|Hne]; [right; reflexivity|].
      left. split; [lia | exact Hs].
  - intros i v w Hi Hj.
    destruct (Nat.lt_ge_cases (S i) (length kept)) as [Hlt|Hge].
    + rewrite lookup_app_l in Hi, Hj by lia.
      destruct (kept_chain i v w Hi Hj) as [<- Hne].
      assert (Hk : 0 <= v < p c /\ ~ arc v)
        by (apply kept_member; eapply list_elem_of_lookup_2; exact Hi).
      rewrite HS by (tauto || lia).
      destruct (Z.eqb_spec v up3); [contradiction|].
      destruct (Z.eqb_spec v (p c)); [lia | reflexivity].
    + rewrite lookup_app_r in Hj by lia.
      destruct (Nat.eq_dec (S i) (length kept)) as [E|E].
      * rewrite lookup_app_l in Hi by lia.
        replace i with (np - K - R - 1)%nat in Hi by (rewrite kept_length in E; lia).
        rewrite kept_last in Hi. injection Hi as <-.
        rewrite E, Nat.sub_diag in Hj. injection Hj as <-.
        rewrite HS by (tauto || lia). rewrite Z.eqb_refl. reflexivity.
      * destruct (S i - length kept)%nat as [|[|k]] eqn:Ek; try lia;
          discriminate.
  - rewrite length_app, kept_length. cbn [length].
    replace (np - K - R + 1 - 1)%nat with (length kept + 0)%nat
      by (rewrite kept_length; lia).
    intros v w Hi Hj. rewrite lookup_app_r in Hi by lia.
    replace (length kept + 0 - length kept)%nat with 0%nat in Hi by lia.
    injection Hi as <-.
    rewrite lookup_app_l in Hj by (rewrite kept_length; lia).
    rewrite kept_first in Hj. injection Hj as <-.
    rewrite HS; [|lia|intros Ha; apply arc_below in Ha; lia].
    destruct (Z.eqb_spec (p c) up3); [lia|].
    rewrite Z.eqb_refl. reflexivity.
Qed.

Lemma listing_after_cut_inside :
  p c6 = p c + 2 ->
  (forall v, 0 <= v <= p c + 1 -> ~ arc v ->
     succ_of (ed c6) v =
     if v =? up3 then p c + 1 else if v =? p c + 1 then p c
     else if v =? p c then up2 else sc v) ->
  cycle_listing c6 (kept ++ [p c + 1; p c]) /\
  length (kept ++ [p c + 1; p c]) = (np - K - R + 2)%nat.
Proof.
  intros Hp6 HS. pose proof kept_room as Hroom.
  pose proof up3_kept as [Hu3 Na3].
  split; [|rewrite length_app, kept_length; reflexivity].
  split; [|split; [|split]].
  - apply NoDup_app. split; [exact kept_NoDup|]. split.
    + intros v Hv Hin. apply kept_member in Hv as [Hv _].
      apply elem_of_cons in Hin as [->|Hin]; [lia|].
      apply list_elem_of_singleton in Hin. lia.
    + apply NoDup_cons. split; [|apply NoDup_singleton].
      intros Hin. apply list_elem_of_singleton in Hin. lia.
  - intros v.
    rewrite elem_of_app, elem_of_cons, list_elem_of_singleton, kept_member.
    split.
    + intros [[Hv Hn]|[->| ->]].
      * split; [lia|]. apply live6; [lia | exact Hn].
      * split; [lia|]. apply live6; [lia|].
        intros Ha. apply arc_below in Ha. lia.
      * split; [lia|]. apply live6; [lia|].
        intros Ha. apply arc_below in Ha. lia.
    + intros [Hv Hs]. apply live6 in Hs; [|exact Hv].
      destruct (Z.eq_dec v (p c + 1)) as [->|Hn1]; [right; left; reflexivity|].
      destruct (Z.eq_dec v (p c)) as [->|Hn0]; [right; right; reflexivity|].
      left. split; [lia | exact Hs].
  - intros i v w Hi Hj.
    destruct (Nat.lt_ge_cases (S i) (length kept)) as [Hlt|Hge].
    + rewrite lookup_app_l in Hi, Hj by lia.
      destruct (kept_chain i v w Hi Hj) as [<- Hne].
      assert (Hk : 0 <= v < p c /\ ~ arc v)
        by (apply kept_member; eapply list_elem_of_lookup_2; exact Hi).
      rewrite HS by (tauto || lia).
      destruct (Z.eqb_spec v up3); [contradiction|].
      destruct (Z.eqb_spec v (p c + 1)); [lia|].
      destruct (Z.eqb_spec v (p c)); [lia | reflexivity].
    + rewrite lookup_app_r in Hj by lia.
      destruct (Nat.eq_dec (S i) (length kept)) as [E|E].
      * rewrite lookup_app_l in Hi by lia.
        replace i with (np - K - R - 1)%nat in Hi by (rewrite kept_length in E; lia).
        rewrite kept_last in Hi. injection Hi as <-.
        rewrite E, Nat.sub_diag in Hj. injection Hj as <-.
        rewrite HS by (tauto || lia). rewrite Z.eqb_refl. reflexivity.
      * rewrite lookup_app_r in Hi by lia.
        destruct (i - length kept)%nat as [|[|k]] eqn:Ek.
        -- replace (S i - length kept)%nat with 1%nat in Hj by lia.
           injection Hi as <-. injection Hj as <-.
           rewrite HS; [|lia|intros Ha; apply arc_below in Ha; lia].
           destruct (Z.eqb_spec (p c + 1) up3); [lia|].
           rewrite Z.eqb_refl. reflexivity.
        -- replace (S i - length kept)%nat with 2%nat in Hj by lia.
           discriminate.
        -- discriminate.
  - rewrite length_app, kept_length. cbn [length].
    replace (np - K - R + 2 - 1)%nat with (length kept + 1)%nat
      by (rewrite kept_length; lia).
    intros v w Hi Hj. rewrite lookup_app_r in Hi by lia.
    replace (length kept + 1 - length kept)%nat with 1%nat in Hi by lia.
    injection Hi as <-.
    rewrite lookup_app_l in Hj by (rewrite kept_length; lia).
    rewrite kept_first in Hj. injection Hj as <-.
    rewrite HS; [|lia|intros Ha; apply arc_below in Ha; lia].
    destruct (Z.eqb_spec (p c) up3); [lia|].
    destruct (Z.eqb_spec (p c) (p c + 1)); [lia|].
    rewrite Z.eqb_refl. reflexivity.
Qed.

End KeptListing.

(** ** The coordinates through a cut *)

Lemma pts_agree_le (m m' : Z) (c c' : voronoicell_2d) :
  pts_agree m c c' -> m' <= m -> pts_agree m' c c'.
Proof. intros H Hm i Hi. apply H. lia. Qed.

Lemma pts_agree_coords (m : Z) (c c' : voronoicell_2d) (v : Z) :
  pts_agree m c c' -> 0 <= v < m -> coords c' v = coords c v.
Proof.
  intros H Hv. unfold coords, vertex_x, vertex_y.
  pose proof (H (2 * v) ltac:(lia)) as Hx.
  pose proof (H (2 * v + 1) ltac:(lia)) as Hy.
  unfold rd in Hx, Hy.
  destruct (Z.leb_spec 0 (2 * v)); [|lia].
  destruct (Z.leb_spec 0 (2 * v + 1)); [|lia].
  rewrite !nth_lookup.
  destruct (pts c' !! Z.to_nat (2 * v)), (pts c !! Z.to_nat (2 * v));
    try discriminate;
    destruct (pts c' !! Z.to_nat (2 * v + 1)),
             (pts c !! Z.to_nat (2 * v + 1));
    try discriminate; cbn; congruence.
Qed.

Lemma sweep_pred_polygon (tol : float) (mds : Z) (hi : nat -> Z) (fuel : nat) :
  forall (c c' : voronoicell_2d) (x y rsq : float) (up2 stackp up3 : Z)
         (l u3 : float) r,
  sweep_pred tol mds hi fuel c x y rsq up2 stackp up3 l u3 = Done (c', r) ->
  same_polygon c c'.
Proof.
  induction fuel as [|fuel IH]; intros c c' x y rsq up2 stackp up3 l u3 r;
    simpl; destruct (tol <? u3)%float; try discriminate;
    try (intros [= <- _]; apply same_polygon_refl).
  intros H.
  apply bind_Done in H as [[c1 sp1] [Hpush H]].
  apply bind_Done in H as [up3' [_ H]].
  apply bind_Done in H as [u3' [_ H]].
  apply push_polygon in Hpush.
  destruct (up3' =? up2).
  - injection H as <- _. exact Hpush.
  - apply IH in H. eapply same_polygon_trans; eassumption.
Qed.

(** Lines 195-212 write no coordinate of a vertex that was there. *)
Lemma cut_pred_pts (tol : float) (mv : Z) (hi : nat -> Z) (hd : nat -> float)
    (c c' : voronoicell_2d) (cp up3 : Z) (l u3 : float) :
  cut_pred tol mv hi hd c cp up3 l u3 = Done c' ->
  p c <= p c' /\ pts_agree (p c) c c'.
Proof.
  unfold cut_pred. destruct (tol <? u3)%float; intros H.
  - apply bind_Done in H as [e1 [_ H]]. apply bind_Done in H as [e2 [_ H]].
    injection H as <-. cbn. split; [lia|]. intros i _. reflexivity.
  - apply bind_Done in H as [c1 [Hg H]]. apply bind_Done in H as [lp [_ H]].
    apply bind_Done in H as [c2 [Hn H]]. apply bind_Done in H as [e1 [_ H]].
    apply bind_Done in H as [e2 [_ H]]. apply bind_Done in H as [e3 [_ H]].
    apply bind_Done in H as [e4 [_ H]]. injection H as <-. cbn.
    apply grow_if_full_frame in Hg as [Hp1 [_ [Ha1 _]]].
    apply new_vertex_frame in Hn as [Hp2 [_ [_ Ha2]]].
    rewrite Hp1 in Ha2. split; [lia|].
    eapply pts_agree_trans; [exact Ha1 | exact Ha2].
Qed.

(** Line 215 writes no coordinate. *)
Lemma mark_deleted_pts (m : Z) :
  forall (fuel : nat) (c : voronoicell_2d) (sp : Z) (c' : voronoicell_2d),
  mark_deleted fuel c sp m = Done c' -> pts c' = pts c.
Proof.
  induction fuel as [|fuel IH]; intros c sp c'; simpl;
    destruct (sp <? m); try discriminate;
    try (intros [= <-]; reflexivity).
  intros H. apply bind_Done in H as [v0 [_ H]].
  apply bind_Done in H as [e1 [_ H]].
  apply IH in H. exact H.
Qed.

(** From the end of the succ sweep to the end of the marking loop, the
    coordinates of the vertices the cell had are not written. *)
Lemma cut_leaves_pts (tol : float) (mv mds : Z) (hi : nat -> Z)
    (hd : nat -> float) (c : voronoicell_2d) (x y rsq : float)
    (fuel : nat) (c2 c3 c4 c5 c6 : voronoicell_2d)
    (up2 l2 u2 : float) (v2 cp up2' stackp up3' : Z) (l3 u3 l4 u4 : float)
    (sp4 up3 : Z) :
  same_polygon c c2 ->
  cut_succ tol mv hi hd c2 v2 l2 u2 = Done (c3, cp) ->
  sweep_pred tol mds hi fuel c3 x y rsq up2' stackp up3' l3 u3
    = Done (c4, (sp4, up3, l4, u4)) ->
  cut_pred tol mv hi hd c4 cp up3 l4 u4 = Done c5 ->
  mark_deleted fuel c5 0 sp4 = Done c6 ->
  pts_agree (p c) c c6.
Proof.
  intros Hc2 Hcs Hsp Hcp Hmk.
  pose proof Hc2 as [Hp2 _].
  assert (H3 : p c <= p c3 /\ pts_agree (p c) c c3).
  { apply cut_succ_spec in Hcs as [[_ ->]|[_ [Hp3 [_ [Ha _]]]]].
    - split; [lia|]. apply same_polygon_pts_agree, Hc2.
    - split; [lia|]. rewrite Hp2 in Ha.
      eapply pts_agree_trans; [|exact Ha].
      apply same_polygon_pts_agree, Hc2. }
  destruct H3 as [Hp3 Ha3].
  apply sweep_pred_polygon in Hsp. pose proof Hsp as [Hp4 _].
  apply cut_pred_pts in Hcp as [_ Ha5].
  apply mark_deleted_pts in Hmk.
  intros i Hi. rewrite Hmk, Ha5 by lia.
  rewrite (same_polygon_pts_agree (p c) _ _ Hsp) by lia.
  apply Ha3, Hi.
Qed.

(** ** A cut keeps the polygon a polygon *)

Section CutState.

Variable tol : float.
Variables mv mds : Z.
Variable hi : nat -> Z.
Variable hd : nat -> float.
Variable c : voronoicell_2d.
Variables x y rsq : float.

Hypothesis stale : no_stale_indices c.

Variable up : Z.
Hypothesis up_range : 0 <= up < p c.

Local Abbreviation sc := (succ_of (ed c)).
Local Abbreviation pc := (pred_of (ed c)).

(** From the end of the succ sweep to the end of the marking loop: the
    delete stack holds the arc, the arc is marked, and one or two new
    vertices close the boundary between the two stops. *)
Lemma cut_leaves_state (fuel : nat) (K : nat)
    (c2 c3 c4 c5 c6 : voronoicell_2d)
    (l2 u2 l3 u3 l4 u4 : float) (cp up3' sp4 up3 : Z) :
  same_polygon c c2 -> (1 <= K)%nat ->
  (forall i, (i < K)%nat -> ds c2 !! i = Some (walk sc i up)) ->
  (forall t, (0 < t <= K)%nat -> walk sc t up <> up) ->
  pos c2 x y rsq (walk sc K up) = Done u2 ->
  (tol <? u2)%float = false ->
  cut_succ tol mv hi hd c2 (walk sc K up) l2 u2 = Done (c3, cp) ->
  rd (ed c3) (2 * up + 1) = Done up3' ->
  pos c3 x y rsq up3' = Done u3 ->
  sweep_pred tol mds hi fuel c3 x y rsq (walk sc K up) (Z.of_nat K) up3' l3 u3
    = Done (c4, (sp4, up3, l4, u4)) ->
  cut_pred tol mv hi hd c4 cp up3 l4 u4 = Done c5 ->
  mark_deleted fuel c5 0 sp4 = Done c6 ->
  exists R : nat,
    sp4 = Z.of_nat (K + R) /\
    (forall j, (1 <= j <= R)%nat -> walk pc j up <> walk sc K up) /\
    (forall i, (i < K)%nat -> ds c6 !! i = Some (walk sc i up)) /\
    (forall j, (1 <= j <= R)%nat ->
       ds c6 !! (K + j - 1)%nat = Some (walk pc j up)) /\
    (forall v, on_stack c6 (Z.of_nat (K + R)) v ->
       0 <= v /\ succ_of (ed c6) v = -1) /\
    ((p c6 = p c + 1 /\
      (forall v, 0 <= v <= p c ->
         ~ in_arc sc pc up (Z.of_nat K) (Z.of_nat R) v ->
         succ_of (ed c6) v =
         if v =? walk pc (S R) up then p c
         else if v =? p c then walk sc K up else sc v) /\
      (forall v, 0 <= v <= p c ->
         pred_of (ed c6) v =
         if v =? p c then walk pc (S R) up
         else if v =? walk sc K up then p c else pc v)) \/
     (p c6 = p c + 2 /\
      (forall v, 0 <= v <= p c + 1 ->
         ~ in_arc sc pc up (Z.of_nat K) (Z.of_nat R) v ->
         succ_of (ed c6) v =
         if v =? walk pc (S R) up then p c + 1
         else if v =? p c + 1 then p c
         else if v =? p c then walk sc K up else sc v) /\
      (forall v, 0 <= v <= p c + 1 ->
         pred_of (ed c6) v =
         if v =? p c + 1 then walk pc (S R) up
         else if v =? p c then p c + 1
         else if v =? walk sc K up then p c else pc v))).
Proof.
  intros Hc2 HK Hds Hside Hpos2 Hlow Hcs Hrd Hpos3 Hsp Hcp Hmk.
  pose proof Hc2 as [Hp2 [_ [_ Hed2]]].
  assert (Hu2r : 0 <= walk sc K up < p c)
    by (apply walk_range; [intros v Hv; apply stale, Hv | exact up_range]).
  assert (Hupne : up <> walk sc K up)
    by (intros E; apply (Hside K); [lia | congruence]).
  assert (Hc3 : p c <= p c3 /\ ds c3 = ds c2 /\
                (forall v, 0 <= v < p c -> v <> walk sc K up ->
                           pred_of (ed c3) v = pc v) /\
                pos c3 x y rsq (walk sc K up) = Done u2).
  { apply cut_succ_spec in Hcs as [[_ ->]|[_ [Hp3 [Hd3 [Ha3 [_ HP3]]]]]].
    - rewrite Hp2, Hed2. repeat split; auto. lia.
    - rewrite Hp2 in *. split; [lia|]. split; [exact Hd3|]. split.
      + intros v Hv Hne. rewrite HP3 by exact Hv.
        destruct (Z.eqb_spec v (walk sc K up)); [contradiction|].
        rewrite Hed2. reflexivity.
      + rewrite (pts_agree_pos _ _ _ _ _ _ _ Ha3) by exact Hu2r.
        exact Hpos2. }
  destruct Hc3 as [Hp3 [Hd3 [HP3 Hpos2']]].
  apply pred_of_rd in Hrd as [Hrd _].
  rewrite HP3 in Hrd by (auto; lia). subst up3'.
  change (pc up) with (walk pc 1 up) in *.
  replace (Z.of_nat K) with (Z.of_nat (K + 0)) in Hsp by lia.
  apply (sweep_pred_arc tol mds hi c x y rsq up stale up_range c3
           (walk sc K up) u2 K HP3 Hpos2' Hlow) in Hsp;
    [| apply same_polygon_refl
     | intros i Hi; rewrite Hd3; apply Hds, Hi
     | intros i Hi; lia | intros i Hi; lia | exact Hpos3].
  destruct Hsp as [R [l' [u3' [Hr [_ [Hds4 [Hdp4 [Hpside [Hlow3 Hc4]]]]]]]]].
  injection Hr as -> -> _ Hu4.
  pose proof Hc4 as [Hp4 [_ [_ Hed4]]].
  assert (Hl4 : (tol <? u4)%float = false) by congruence.
  apply (cut_pred_spec _ _ _ _ _ _ _ _ _ _ Hl4) in Hcp
    as [Hp5 [Hd5 [HS5 HP5]]].
  apply mark_deleted_stack in Hmk as [Hp6 [Hd6 [Hmarked [HS6 HP6]]]].
  assert (Hds6 : forall i, (i < K)%nat -> ds c6 !! i = Some (walk sc i up))
    by (intros i Hi; rewrite Hd6, Hd5; apply Hds4, Hi).
  assert (Hdp6 : forall j, (1 <= j <= R)%nat ->
                   ds c6 !! (K + j - 1)%nat = Some (walk pc j up))
    by (intros j Hj; rewrite Hd6, Hd5; apply Hdp4, Hj).
  assert (Harc : forall v, ~ in_arc sc pc up (Z.of_nat K) (Z.of_nat R) v ->
                           ~ on_stack c6 (Z.of_nat (K + R)) v).
  { intros v Hn Hon. apply Hn.
    apply (on_stack_arc c up K R HK c6 Hds6 Hdp6 v). exact Hon. }
  exists R. split; [reflexivity|]. split; [exact Hpside|].
  split; [exact Hds6|]. split; [exact Hdp6|]. split; [exact Hmarked|].
  rewrite Hp4, Hed4 in *.
  apply cut_succ_spec in Hcs as [[-> ->]|[-> [Hq3 [_ [_ [HS3 HP3']]]]]].
  - (* the succ sweep stopped on the plane *)
    rewrite Hp2, Hed2 in *. left. split; [lia|]. split.
    + intros v Hv Hn. rewrite HS6 by (auto; lia). apply HS5. lia.
    + intros v Hv. rewrite HP6 by lia. apply HP5. lia.
  - (* a new vertex was made on the succ side *)
    rewrite Hp2, Hed2 in *. rewrite Hq3 in *. right. split; [lia|]. split.
    + intros v Hv Hn. rewrite HS6 by (auto; lia). rewrite HS5 by lia.
      destruct (v =? walk pc (Datatypes.S R) up); [reflexivity|].
      destruct (Z.eqb_spec v (p c + 1)); [reflexivity|].
      apply HS3. lia.
    + intros v Hv. rewrite HP6 by lia. rewrite HP5 by lia.
      destruct (Z.eqb_spec v (p c + 1)); [reflexivity|].
      destruct (Z.eqb_spec v (p c)); [reflexivity|].
      apply HP3'. lia.
Qed.

End CutState.

(** The cell the marking loop leaves is ready for the compaction: the
    stack holds distinct marked vertices, the unmarked vertices are closed
    under the adjacency and they form one cycle. *)
Lemma cut_leaves_listing (tol : float) (mv mds : Z) (hi : nat -> Z)
    (hd : nat -> float) (c : voronoicell_2d) (x y rsq : float) (up : Z)
    (fuel : nat) (K : nat) (c2 c3 c4 c5 c6 : voronoicell_2d)
    (l2 u2 l3 u3 l4 u4 : float) (cp up3' sp4 up3 : Z) :
  adjacency_ok c -> 2 <= p c -> 0 <= up < p c ->
  same_polygon c c2 -> (1 <= K)%nat ->
  (forall i, (i < K)%nat -> ds c2 !! i = Some (walk (succ_of (ed c)) i up)) ->
  (forall t, (0 < t <= K)%nat -> walk (succ_of (ed c)) t up <> up) ->
  pos c2 x y rsq (walk (succ_of (ed c)) K up) = Done u2 ->
  (tol <? u2)%float = false ->
  cut_succ tol mv hi hd c2 (walk (succ_of (ed c)) K up) l2 u2 = Done (c3, cp) ->
  rd (ed c3) (2 * up + 1) = Done up3' ->
  pos c3 x y rsq up3' = Done u3 ->
  sweep_pred tol mds hi fuel c3 x y rsq (walk (succ_of (ed c)) K up)
    (Z.of_nat K) up3' l3 u3 = Done (c4, (sp4, up3, l4, u4)) ->
  cut_pred tol mv hi hd c4 cp up3 l4 u4 = Done c5 ->
  mark_deleted fuel c5 0 sp4 = Done c6 ->
  exists R : nat,
    sp4 = Z.of_nat (K + R) /\ (K + R < Z.to_nat (p c))%nat /\
    p c6 <= p c + 2 /\
    compacting c6 (Z.of_nat (K + R)) /\
    (forall v, v ∈ kept_vertices c up K R -> 0 <= v < p c) /\
    exists news, (1 <= length news <= 2)%nat /\
      cycle_listing c6 (kept_vertices c up K R ++ news).
Proof.
  intros Hok H2 Hup Hc2 HK Hds Hside Hpos2 Hlow Hcs Hrd Hpos3 Hsp Hcp Hmk.
  pose proof Hok as [Hcyc [Hsingle Hst]].
  pose proof (single_cycle_no_fixpoint c Hsingle H2) as Hnf.
  destruct (cut_leaves_state tol mv mds hi hd c x y rsq Hst up Hup
              fuel K c2 c3 c4 c5 c6 l2 u2 l3 u3 l4 u4 cp up3' sp4 up3)
    as [R [-> [Hpside [Hds6 [Hdp6 [Hmarked Hshape]]]]]];
    try assumption.
  exists R. split; [reflexivity|].
  pose proof (kept_room c Hok up Hup K R HK Hside Hpside) as Hroom.
  split; [exact Hroom|].
  assert (Hlive : compacting c6 (Z.of_nat (K + R)) ->
            forall v, 0 <= v < p c6 ->
              succ_of (ed c6) v <> -1 <->
              ~ in_arc (succ_of (ed c)) (pred_of (ed c)) up
                  (Z.of_nat K) (Z.of_nat R) v).
  { intros [_ [_ [Hall _]]] v Hv. split.
    - apply (live_not_arc c up K R HK c6 Hds6 Hdp6 Hmarked).
    - intros Hn Hs. apply Hn.
      apply (on_stack_arc c up K R HK c6 Hds6 Hdp6 v).
      apply Hall; assumption. }
  assert (Hkept : forall v, v ∈ kept_vertices c up K R -> 0 <= v < p c).
  { intros v Hv.
    apply (kept_member c Hok up Hup K R HK Hside Hpside) in Hv. tauto. }
  destruct Hshape as [[Hp6 [HS6 HP6]]|[Hp6 [HS6 HP6]]].
  - assert (Hcomp : compacting c6 (Z.of_nat (K + R)))
      by (apply (compacting_after_cut_on_plane c Hcyc Hst Hnf up Hup K R HK
                   Hside Hpside c6 Hds6 Hdp6 Hmarked); assumption).
    split; [lia|]. split; [exact Hcomp|]. split; [exact Hkept|].
    destruct (listing_after_cut_on_plane c Hok up Hup K R HK Hside Hpside c6
                (Hlive Hcomp) Hp6 HS6) as [HL _].
    exists [p c]. split; [cbn; lia | exact HL].
  - assert (Hcomp : compacting c6 (Z.of_nat (K + R)))
      by (apply (compacting_after_cut_inside c Hcyc Hst Hnf up Hup K R HK
                   Hside Hpside c6 Hds6 Hdp6 Hmarked); assumption).
    split; [lia|]. split; [exact Hcomp|]. split; [exact Hkept|].
    destruct (listing_after_cut_inside c Hok up Hup K R HK Hside Hpside c6
                (Hlive Hcomp) Hp6 HS6) as [HL _].
    exists [p c + 1; p c]. split; [cbn; lia | exact HL].
Qed.

Lemma listing_bounds (c : voronoicell_2d) (L : list Z) :
  cycle_listing c L -> no_stale_indices c -> (1 <= length L)%nat ->
  length L = Z.to_nat (p c) /\ single_cycle c.
Proof.
  intros HL Hst Hlen.
  assert (Hp : 0 < p c).
  { destruct (lookup_lt_is_Some_2 L 0%nat) as [v Hv]; [lia|].
    apply list_elem_of_lookup_2 in Hv. destruct HL as [_ [Hmem _]].
    apply Hmem in Hv. lia. }
  apply listing_single_cycle; [exact HL| |exact Hp].
  intros v Hv. pose proof (Hst v Hv). lia.
Qed.

(** What a call of plane that returns true leaves: the cell as it was,
    or a cell whose live vertices are listed, in succ order, by the old
    vertices from the stop of the succ sweep round to the stop of the
    pred sweep, at their old coordinates, and one or two new vertices. *)
Lemma plane_cut_listing (tol : float) (mv mds : Z) (hi : nat -> Z)
    (hd : nat -> float) (fuel : nat) (c c' : voronoicell_2d)
    (x y rsq : float) :
  adjacency_ok c -> 2 <= p c ->
  plane tol mv mds hi hd fuel c x y rsq = Done (true, c') ->
  c' = c \/
  exists (up : Z) (K R : nat) (news : list (float * float)) (L' : list Z),
    0 <= up < p c /\ (1 <= K)%nat /\ (K + R < Z.to_nat (p c))%nat /\
    (1 <= length news <= 2)%nat /\
    cyclic_adjacency c' /\ no_stale_indices c' /\ cycle_listing c' L' /\
    coords c' <$> L' = (coords c <$> kept_vertices c up K R) ++ news.
Proof.
  intros Hok H2 H. pose proof Hok as [Hcyc [Hsingle Hst]].
  pose proof (single_cycle_no_fixpoint c Hsingle H2) as Hnf.
  unfold plane in H.
  apply bind_Done in H as [found [Hfind H]].
  destruct found as [[up u]|]; [|injection H as <-; left; reflexivity].
  right.
  apply find_outside_range in Hfind as Hup; [| exact Hst | lia].
  apply bind_Done in H as [d [Hd H]].
  apply bind_Done in H as [up2' [Hup2 H]].
  apply bind_Done in H as [u2 [Hu2 H]].
  apply bind_Done in H as [[c2 swept] [Hsw H]].
  destruct swept as [[[[sp2 up2] l2] u2']|]; [|discriminate].
  apply bind_Done in H as [[c3 cp] [Hcs H]].
  apply bind_Done in H as [up3' [Hup3 H]].
  apply bind_Done in H as [u3 [Hu3 H]].
  apply bind_Done in H as [[c4 [[[sp4 up3] l4] u4]] [Hsp H]].
  apply bind_Done in H as [c5 [Hcp H]].
  apply bind_Done in H as [c6 [Hmk H]].
  apply bind_Done in H as [c7 [Hcm H]].
  injection H as <-.
  apply wr_Done in Hd as [Hd0 ->].
  set (c1 := set_ds c (<[Z.to_nat 0 := up]> (ds c))) in *.
  assert (Hc1 : same_polygon c c1) by (repeat split).
  cbn [ed] in Hup2. apply succ_of_rd in Hup2 as [<- _].
  change (succ_of (ed c) up) with (walk (succ_of (ed c)) 1 up) in *.
  change (0 + 1) with (Z.of_nat 1) in Hsw.
  apply (sweep_succ_arc tol mds hi c x y rsq up) in Hsw;
    [| exact Hc1 | lia
     | intros i Hi; assert (i = 0%nat) as -> by lia;
       unfold c1; cbn; apply list_lookup_insert_eq; lia
     | intros t Ht; lia | intros Ht; lia | exact Hu2].
  destruct Hsw as [K [l' [u2'' [Hr [HK [Hds [Hne [Hne2 [Hpos2 [Hlow Hc2]]]]]]]]]].
  injection Hr as -> -> _ Hu.
  assert (Hside : forall t, (0 < t <= K)%nat ->
                            walk (succ_of (ed c)) t up <> up).
  { intros t Ht. destruct (Nat.eq_dec t K) as [->|Hne']; [|apply Hne; lia].
    destruct (Nat.eq_dec K 1%nat) as [->|HK1]; [|apply Hne2; lia].
    apply Hnf, Hup. }
  pose proof (cut_leaves_pts tol mv mds hi hd c x y rsq fuel c2 c3 c4 c5 c6
                u2 l2 u2' _ cp _ _ up3' u u3 l4 u4 sp4 up3 Hc2 Hcs Hsp Hcp Hmk)
    as Hpts.
  destruct (cut_leaves_listing tol mv mds hi hd c x y rsq up
              fuel K c2 c3 c4 c5 c6 l2 u2' u u3 l4 u4 cp up3' sp4 up3)
    as [R [-> [Hroom [Hp6 [Hcomp [Hkept [news [Hnews HL]]]]]]]];
    try assumption; try congruence.
  destruct (compact_spec fuel c6 _ c7 Hcomp Hcm) as [Hcyc7 Hst7].
  destruct (compact_listing fuel c6 _ c7 _ Hcomp HL Hcm)
    as [L7 [HL7 [_ Hco7]]].
  exists up, K, R, (coords c6 <$> news), L7.
  split; [exact Hup|]. split; [exact HK|]. split; [exact Hroom|].
  split; [rewrite length_fmap; exact Hnews|].
  split; [exact Hcyc7|]. split; [exact Hst7|]. split; [exact HL7|].
  rewrite Hco7, fmap_app. f_equal.
  apply list_fmap_ext. intros i v Hv.
  apply (pts_agree_coords (p c)); [exact Hpts|].
  apply Hkept. eapply list_elem_of_lookup_2. exact Hv.
Qed.

(** plane, returning true on a polygon of at least two vertices that
    satisfies the adjacency invariants: the cell it leaves satisfies all
    three invariants again, the single cycle through vertex 0 included,
    it has at least two vertices, and at most one vertex more than
    before. *)
Theorem plane_keeps_polygon (tol : float) (mv mds : Z) (hi : nat -> Z)
    (hd : nat -> float) (fuel : nat) (c c' : voronoicell_2d)
    (x y rsq : float) :
  adjacency_ok c -> 2 <= p c ->
  plane tol mv mds hi hd fuel c x y rsq = Done (true, c') ->
  adjacency_ok c' /\ 2 <= p c' <= p c + 1.
Proof.
  intros Hok H2 H.
  destruct (plane_cut_listing tol mv mds hi hd fuel c c' x y rsq Hok H2 H)
    as [->|[up [K [R [news [L' [Hup [HK [Hroom [Hnews
         [Hcyc' [Hst' [HL' Hco]]]]]]]]]]]]];
    [split; [exact Hok | lia]|].
  assert (Hlen : length L' =
                 (Z.to_nat (p c) - K - R + length news)%nat).
  { rewrite <- (length_fmap (coords c') L'), Hco, length_app, length_fmap.
    unfold kept_vertices. rewrite length_fmap, length_seq. reflexivity. }
  destruct (listing_bounds c' L' HL' Hst' ltac:(lia)) as [Hp' Hsingle'].
  split; [split; [exact Hcyc' | split; [exact Hsingle' | exact Hst']]|].
  lia.
Qed.

Lemma plane_keeps_polygon_witness :
  adjacency_ok Sample.square /\ 2 <= p Sample.square /\
  exists c', Sample.plane 8 Sample.square 1 1 1 = Done (true, c') /\
    p c' = 5 /\ adjacency_ok c' /\ 2 <= p c' <= p Sample.square + 1.
Proof.
  split; [exact adjacency_ok_square|]. split; [vm_compute; discriminate|].
  unfold Sample.plane.
  destruct (plane Sample.tolerance Sample.max_vertices Sample.max_delete_size
              (fun _ => 0) (fun _ => 0%float) 8 Sample.square 1 1 1)
    as [[[|] c']| | |] eqn:E;
    try (vm_compute in E; discriminate).
  exists c'. split; [reflexivity|]. split.
  - vm_compute in E.
    apply (f_equal (fun o => match o with Done (_, d) => p d | _ => 0 end)) in E.
    simpl in E. symmetry. exact E.
  - apply (plane_keeps_polygon Sample.tolerance Sample.max_vertices
             Sample.max_delete_size (fun _ => 0) (fun _ => 0%float) 8
             Sample.square c' 1 1 1 adjacency_ok_square);
      [vm_compute; discriminate | exact E].
Defined.

(** ** The storage through a cut *)

Lemma copy_prefix_length {A : Type} (src dst out : list A) (n : Z) :
  copy_prefix src n dst = Done out -> length out = length dst.
Proof.
  unfold copy_prefix. destruct (Z.leb_spec n 0); [intros [= <-]; reflexivity|].
  destruct (Z.leb_spec n (Z.of_nat (length src))); [|discriminate].
  destruct (Z.leb_spec n (Z.of_nat (length dst))); [|discriminate].
  intros [= <-]. rewrite length_app, length_take, length_drop. lia.
Qed.

Lemma wr_length {A : Type} (a a' : list A) (i : Z) (v : A) :
  wr a i v = Done a' ->
  length a' = length a /\ 0 <= i < Z.of_nat (length a).
Proof.
  intros H. apply wr_Done in H as [Hi ->]. rewrite length_insert. auto.
Qed.

Lemma add_memory_ds_storage (mds : Z) (hi : nat -> Z) (c c' : voronoicell_2d)
    (stackp : Z) :
  storage_ok c -> add_memory_ds mds hi c stackp = Done c' ->
  storage_ok c' /\ current_delete_size c' = 2 * current_delete_size c.
Proof.
  intros [Hp [Hl [He [Hd [Hse Hc]]]]]. unfold add_memory_ds.
  rewrite shiftl_one. destruct (mds <? _); [discriminate|].
  intros H. apply bind_Done in H as [dsn [Hc' H]]. injection H as <-.
  apply copy_prefix_length in Hc'. rewrite length_new_array in Hc'.
  unfold storage_ok. cbn. repeat split; lia.
Qed.

Lemma push_storage (mds : Z) (hi : nat -> Z) (c c' : voronoicell_2d)
    (stackp v stackp' : Z) :
  storage_ok c -> push mds hi c stackp v = Done (c', stackp') ->
  storage_ok c' /\ stackp' = stackp + 1 /\
  0 <= stackp < current_delete_size c'.
Proof.
  intros Hs H. unfold push in H.
  apply bind_Done in H as [c1 [H1 H]]. apply bind_Done in H as [d [Hd H]].
  injection H as <- <-.
  assert (Hs1 : storage_ok c1).
  { destruct (stackp =? stacke c).
    - eapply add_memory_ds_storage; eassumption.
    - injection H1 as <-. exact Hs. }
  apply wr_length in Hd as [Hl Hr].
  destruct Hs1 as [Hp [Hlp [He [Hds [Hse Hc]]]]].
  unfold storage_ok. cbn. rewrite Hl. repeat split; lia.
Qed.

Lemma sweep_succ_storage (tol : float) (mds : Z) (hi : nat -> Z)
    (x y rsq : float) (up : Z) :
  forall (fuel : nat) (c : voronoicell_2d) (stackp up2 : Z) (l u2 : float)
         (c' : voronoicell_2d) r,
  storage_ok c -> 0 <= stackp <= current_delete_size c ->
  sweep_succ tol mds hi fuel c x y rsq up stackp up2 l u2 = Done (c', r) ->
  storage_ok c' /\
  forall sp v l' u', r = Some (sp, v, l', u') ->
    0 <= sp <= current_delete_size c'.
Proof.
  induction fuel as [|fuel IH]; intros c stackp up2 l u2 c' r Hs Hsp; simpl;
    destruct (tol <? u2)%float; try discriminate;
    try (intros [= <- <-]; split; [exact Hs|]; intros ? ? ? ? [= <- _ _ _];
         exact Hsp).
  intros H. apply bind_Done in H as [[c1 sp1] [Hpush H]].
  apply bind_Done in H as [up2' [_ H]]. apply bind_Done in H as [u2' [_ H]].
  apply push_storage in Hpush as [Hs1 [-> Hr]]; [|exact Hs].
  destruct (up2' =? up).
  - injection H as <- <-. split; [exact Hs1 | discriminate].
  - apply IH in H; [exact H | exact Hs1 | lia].
Qed.

Lemma sweep_pred_storage (tol : float) (mds : Z) (hi : nat -> Z)
    (x y rsq : float) (up2 : Z) :
  forall (fuel : nat) (c : voronoicell_2d) (stackp up3 : Z) (l u3 : float)
         (c' : voronoicell_2d) (sp v : Z) (l' u' : float),
  storage_ok c -> 0 <= stackp <= current_delete_size c ->
  sweep_pred tol mds hi fuel c x y rsq up2 stackp up3 l u3
    = Done (c', (sp, v, l', u')) ->
  storage_ok c' /\ 0 <= sp <= current_delete_size c'.
Proof.
  induction fuel as [|fuel IH]; intros c stackp up3 l u3 c' sp v l' u' Hs Hsp;
    simpl; destruct (tol <? u3)%float; try discriminate;
    try (intros [= <- <- _ _ _]; split; [exact Hs | exact Hsp]).
  intros H. apply bind_Done in H as [[c1 sp1] [Hpush H]].
  apply bind_Done in H as [up3' [_ H]]. apply bind_Done in H as [u3' [_ H]].
  apply push_storage in Hpush as [Hs1 [-> Hr]]; [|exact Hs].
  destruct (up3' =? up2).
  - injection H as <- <- _ _ _. split; [exact Hs1 | lia].
  - apply IH in H; [exact H | exact Hs1 | lia].
Qed.

Lemma grow_if_full_storage (mv : Z) (hi : nat -> Z) (hd : nat -> float)
    (c c' : voronoicell_2d) :
  storage_ok c ->
  (if p c =? current_vertices c
   then add_memory_vertices mv hi hd c else Done c) = Done c' ->
  storage_ok c' /\ p c' = p c.
Proof.
  intros Hs. destruct (Z.eqb_spec (p c) (current_vertices c)) as [E|E].
  - destruct Hs as [Hp [Hl [He [Hd [Hse Hc]]]]]. unfold add_memory_vertices.
    rewrite shiftl_one. destruct (mv <? _); [discriminate|].
    intros H. apply bind_Done in H as [npts [Hn H]].
    apply bind_Done in H as [ned [Hn' H]]. injection H as <-.
    apply copy_prefix_length in Hn. apply copy_prefix_length in Hn'.
    rewrite length_new_array in Hn. rewrite length_new_array in Hn'.
    unfold storage_ok. cbn. repeat split; lia.
  - intros [= <-]. auto.
Qed.

Lemma new_vertex_storage (c c' : voronoicell_2d) (lp up : Z) (l u : float) :
  storage_ok c -> new_vertex c lp up l u = Done c' ->
  storage_ok c' /\ p c' < current_vertices c'.
Proof.
  intros [Hp [Hl [He [Hd [Hse Hc]]]]] H. unfold new_vertex in H.
  apply bind_Done in H as [xl [_ H]]. apply bind_Done in H as [xu [_ H]].
  apply bind_Done in H as [a [Ha H]]. cbn in H.
  apply bind_Done in H as [yl [_ H]]. apply bind_Done in H as [yu [_ H]].
  apply bind_Done in H as [a' [Ha' H]]. injection H as <-.
  apply wr_length in Ha as [La Ra]. apply wr_length in Ha' as [La' Ra'].
  unfold storage_ok. cbn. repeat split; lia.
Qed.

Lemma cut_succ_storage (tol : float) (mv : Z) (hi : nat -> Z) (hd : nat -> float)
    (c c' : voronoicell_2d) (up2 cp : Z) (l u2 : float) :
  storage_ok c -> cut_succ tol mv hi hd c up2 l u2 = Done (c', cp) ->
  storage_ok c'.
Proof.
  intros Hs. unfold cut_succ. destruct (- tol <? u2)%float.
  - intros [= <- _]. exact Hs.
  - intros H.
    apply bind_Done in H as [c1 [Hg H]]. apply bind_Done in H as [lp [_ H]].
    apply bind_Done in H as [c2 [Hn H]]. apply bind_Done in H as [e1 [He1 H]].
    apply bind_Done in H as [e2 [He2 H]]. injection H as <- _.
    apply grow_if_full_storage in Hg as [Hs1 _]; [|exact Hs].
    pose proof (new_vertex_frame _ _ _ _ _ _ Hn) as [Hp2 [_ [Hed2 _]]].
    apply new_vertex_storage in Hn as [[Hp [Hl [He [Hd [Hse Hc]]]]] Hlt];
      [|exact Hs1].
    apply wr_length in He1 as [L1 _]. apply wr_length in He2 as [L2 _].
    unfold storage_ok. cbn. repeat split; lia.
Qed.

Lemma cut_pred_storage (tol : float) (mv : Z) (hi : nat -> Z) (hd : nat -> float)
    (c c' : voronoicell_2d) (cp up3 : Z) (l u3 : float) :
  storage_ok c -> cut_pred tol mv hi hd c cp up3 l u3 = Done c' ->
  storage_ok c'.
Proof.
  intros Hs. unfold cut_pred. destruct (tol <? u3)%float.
  - intros H. apply bind_Done in H as [e1 [He1 H]].
    apply bind_Done in H as [e2 [He2 H]]. injection H as <-.
    apply wr_length in He1 as [L1 _]. apply wr_length in He2 as [L2 _].
    destruct Hs as [Hp [Hl [He [Hd [Hse Hc]]]]].
    unfold storage_ok. cbn. repeat split; lia.
  - intros H.
    apply bind_Done in H as [c1 [Hg H]]. apply bind_Done in H as [lp [_ H]].
    apply bind_Done in H as [c2 [Hn H]]. apply bind_Done in H as [e1 [He1 H]].
    apply bind_Done in H as [e2 [He2 H]]. apply bind_Done in H as [e3 [He3 H]].
    apply bind_Done in H as [e4 [He4 H]]. injection H as <-.
    apply grow_if_full_storage in Hg as [Hs1 _]; [|exact Hs].
    apply new_vertex_storage in Hn as [[Hp [Hl [He [Hd [Hse Hc]]]]] Hlt];
      [|exact Hs1].
    apply wr_length in He1 as [L1 _]. apply wr_length in He2 as [L2 _].
    apply wr_length in He3 as [L3 _]. apply wr_length in He4 as [L4 _].
    unfold storage_ok. cbn. repeat split; lia.
Qed.

Lemma mark_deleted_storage (stackp : Z) :
  forall (fuel : nat) (c : voronoicell_2d) (sp : Z) (c' : voronoicell_2d),
  storage_ok c -> mark_deleted fuel c sp stackp = Done c' -> storage_ok c'.
Proof.
  induction fuel as [|fuel IH]; intros c sp c' Hs; simpl;
    destruct (sp <? stackp); try discriminate;
    try (intros [= <-]; exact Hs).
  intros H. apply bind_Done in H as [v [_ H]].
  apply bind_Done in H as [e [He H]]. apply IH in H; [exact H|].
  apply wr_length in He as [L1 _].
  destruct Hs as [Hp [Hl [He' [Hd [Hse Hc]]]]].
  unfold storage_ok. cbn. repeat split; lia.
Qed.

Lemma relocate_storage (c c' : voronoicell_2d) (up : Z) :
  storage_ok c -> p c < current_vertices c -> relocate c up = Done c' ->
  storage_ok c' /\ p c <= p c' <= p c + 1.
Proof.
  intros [Hp [Hl [He [Hd [Hse Hc]]]]] Hlt. unfold relocate.
  destruct (up <? p c).
  - intros H.
    apply bind_Done in H as [s [_ H]]. apply bind_Done in H as [e1 [He1 H]].
    apply bind_Done in H as [q [_ H]]. apply bind_Done in H as [e2 [He2 H]].
    apply bind_Done in H as [vx [_ H]]. apply bind_Done in H as [a1 [Ha1 H]].
    apply bind_Done in H as [vy [_ H]]. apply bind_Done in H as [a2 [Ha2 H]].
    apply bind_Done in H as [s' [_ H]]. apply bind_Done in H as [e3 [He3 H]].
    apply bind_Done in H as [q' [_ H]]. apply bind_Done in H as [e4 [He4 H]].
    injection H as <-.
    apply wr_length in He1 as [L1 _]. apply wr_length in He2 as [L2 _].
    apply wr_length in He3 as [L3 _]. apply wr_length in He4 as [L4 _].
    apply wr_length in Ha1 as [M1 _]. apply wr_length in Ha2 as [M2 _].
    unfold storage_ok. cbn. repeat split; lia.
  - intros [= <-]. unfold storage_ok. cbn. repeat split; lia.
Qed.

Lemma compact_storage :
  forall (fuel : nat) (c : voronoicell_2d) (m : Z) (c' : voronoicell_2d),
  storage_ok c -> compact fuel c m = Done c' ->
  storage_ok c' /\ p c' <= p c.
Proof.
  induction fuel as [|fuel IH]; intros c m c' Hs; simpl;
    destruct (0 <? m); try discriminate;
    try (intros [= <-]; split; [exact Hs | lia]).
  intros H. apply bind_Done in H as [q [Hq H]].
  apply bind_Done in H as [up [_ H]]. apply bind_Done in H as [c2 [Hrel H]].
  apply skip_deleted_spec in Hq as [Hq _].
  apply relocate_storage in Hrel as [Hs2 Hp2];
    [| destruct Hs as [Hp [Hl [He [Hd [Hse Hc]]]]];
       unfold storage_ok; cbn; repeat split; lia
     | destruct Hs as [Hp _]; cbn; lia].
  cbn in Hp2. apply IH in H as [Hs' Hp']; [|exact Hs2].
  split; [exact Hs' | lia].
Qed.

(** plane keeps the storage in shape: on a cell whose arenas and delete
    stack have the sizes the capacities say and whose p is within the
    capacity, every call that returns, with true or with false, leaves
    such a cell, also when the arenas or the stack had to grow. *)
Theorem plane_keeps_storage (tol : float) (mv mds : Z) (hi : nat -> Z)
    (hd : nat -> float) (fuel : nat) (c c' : voronoicell_2d)
    (x y rsq : float) (b : bool) :
  storage_ok c ->
  plane tol mv mds hi hd fuel c x y rsq = Done (b, c') ->
  storage_ok c'.
Proof.
  intros Hs H. unfold plane in H.
  apply bind_Done in H as [found [Hfind H]].
  destruct found as [[up u]|]; [|injection H as <- <-; exact Hs].
  apply bind_Done in H as [d [Hd H]].
  apply bind_Done in H as [up2' [Hup2 H]].
  apply bind_Done in H as [u2 [Hu2 H]].
  apply bind_Done in H as [[c2 swept] [Hsw H]].
  apply wr_length in Hd as [Ld Rd].
  assert (Hs1 : storage_ok (set_ds c d)).
  { destruct Hs as [Hp [Hl [He [Hds [Hse Hc]]]]].
    unfold storage_ok. cbn. repeat split; lia. }
  apply sweep_succ_storage in Hsw as [Hs2 Hsp2];
    [| exact Hs1 | destruct Hs1 as [_ [_ [_ [_ [_ Hc]]]]]; cbn in *; lia].
  destruct swept as [[[[sp2 up2] l2] u2']|]; [|injection H as <- <-; exact Hs2].
  apply bind_Done in H as [[c3 cp] [Hcs H]].
  apply bind_Done in H as [up3' [Hup3 H]].
  apply bind_Done in H as [u3 [Hu3 H]].
  apply bind_Done in H as [[c4 [[[sp4 up3] l4] u4]] [Hsp H]].
  apply bind_Done in H as [c5 [Hcp H]].
  apply bind_Done in H as [c6 [Hmk H]].
  apply bind_Done in H as [c7 [Hcm H]].
  injection H as <- <-.
  pose proof (Hsp2 _ _ _ _ eq_refl) as Hsp2'.
  pose proof (cut_succ_storage _ _ _ _ _ _ _ _ _ _ Hs2 Hcs) as Hs3.
  assert (Hcds : current_delete_size c3 = current_delete_size c2).
  { unfold cut_succ in Hcs. destruct (- tol <? u2')%float.
    - injection Hcs as <- _. reflexivity.
    - apply bind_Done in Hcs as [c1' [Hg Hcs]].
      apply bind_Done in Hcs as [lp [_ Hcs]].
      apply bind_Done in Hcs as [c2' [Hn Hcs]].
      apply bind_Done in Hcs as [e1 [_ Hcs]].
      apply bind_Done in Hcs as [e2 [_ Hcs]]. injection Hcs as <- _. cbn.
      destruct Hs3 as [_ [_ [_ [Hd3 _]]]]. cbn in Hd3.
      apply grow_if_full_frame in Hg as [_ [Hd1 _]].
      apply new_vertex_frame in Hn as [_ [Hd2 _]].
      destruct Hs2 as [_ [_ [_ [Hd2' _]]]]. rewrite <- Hd3, Hd2, Hd1. lia. }
  apply sweep_pred_storage in Hsp as [Hs4 _]; [| exact Hs3 | lia].
  pose proof (cut_pred_storage _ _ _ _ _ _ _ _ _ _ Hs4 Hcp) as Hs5.
  pose proof (mark_deleted_storage _ _ _ _ _ Hs5 Hmk) as Hs6.
  apply (compact_storage _ _ _ _ Hs6 Hcm).
Qed.

Lemma plane_keeps_storage_witness :
  storage_ok Sample.square /\
  exists c', Sample.plane 8 Sample.square 1 1 1 = Done (true, c') /\
    storage_ok c'.
Proof.
  split; [exact storage_ok_square|].
  unfold Sample.plane.
  destruct (plane Sample.tolerance Sample.max_vertices Sample.max_delete_size
              (fun _ => 0) (fun _ => 0%float) 8 Sample.square 1 1 1)
    as [[[|] c']| | |] eqn:E;
    try (vm_compute in E; discriminate).
  exists c'. split; [reflexivity|].
  exact (plane_keeps_storage Sample.tolerance Sample.max_vertices
           Sample.max_delete_size (fun _ => 0) (fun _ => 0%float) 8
           Sample.square c' 1 1 1 true storage_ok_square E).
Defined.

(** ** A cut runs to its end *)

(** Reads of a vertex slot below p stay inside the arenas. *)
Lemma rd_ed_ok (c : voronoicell_2d) (v : Z) :
  storage_ok c -> 0 <= v < p c ->
  rd (ed c) (2 * v) = Done (succ_of (ed c) v) /\
  rd (ed c) (2 * v + 1) = Done (pred_of (ed c) v).
Proof.
  intros [Hp [_ [He _]]] Hv.
  destruct (rd_in_range (ed c) (2 * v)) as [s Hs]; [lia|].
  destruct (rd_in_range (ed c) (2 * v + 1)) as [q Hq]; [lia|].
  rewrite Hs, Hq. apply succ_of_rd in Hs as [-> _].
  apply pred_of_rd in Hq as [-> _]. auto.
Qed.

Lemma pos_ok (c : voronoicell_2d) (x y rsq : float) (v : Z) :
  storage_ok c -> 0 <= v < p c -> exists u, pos c x y rsq v = Done u.
Proof.
  intros [Hp [Hl _]] Hv. unfold pos.
  destruct (rd_in_range (pts c) (2 * v)) as [vx ->]; [lia|].
  destruct (rd_in_range (pts c) (2 * v + 1)) as [vy ->]; [lia|].
  cbn [bind]. eexists. reflexivity.
Qed.

(** The capacities only grow. *)
Lemma push_capacity (mds : Z) (hi : nat -> Z) (c c' : voronoicell_2d)
    (stackp v stackp' : Z) :
  storage_ok c -> push mds hi c stackp v = Done (c', stackp') ->
  current_delete_size c <= current_delete_size c'.
Proof.
  intros Hs H. unfold push in H.
  apply bind_Done in H as [c1 [H1 H]]. apply bind_Done in H as [d [Hd H]].
  injection H as <- _. cbn.
  destruct (stackp =? stacke c).
  - apply add_memory_ds_storage in H1 as [_ E]; [|exact Hs].
    destruct Hs as [_ [_ [_ [_ [_ Hc]]]]]. lia.
  - injection H1 as <-. lia.
Qed.

Lemma sweep_succ_capacity (tol : float) (mds : Z) (hi : nat -> Z)
    (x y rsq : float) (up : Z) :
  forall (fuel : nat) (c : voronoicell_2d) (stackp up2 : Z) (l u2 : float)
         (c' : voronoicell_2d) r,
  storage_ok c ->
  sweep_succ tol mds hi fuel c x y rsq up stackp up2 l u2 = Done (c', r) ->
  current_delete_size c <= current_delete_size c'.
Proof.
  induction fuel as [|fuel IH]; intros c stackp up2 l u2 c' r Hs; simpl;
    destruct (tol <? u2)%float; try discriminate;
    try (intros [= <- _]; lia).
  intros H. apply bind_Done in H as [[c1 sp1] [Hpush H]].
  apply bind_Done in H as [up2' [_ H]].
  apply bind_Done in H as [u2' [_ H]].
  pose proof (push_capacity _ _ _ _ _ _ _ Hs Hpush) as Hcap.
  apply push_storage in Hpush as [Hs1 _]; [|exact Hs].
  destruct (up2' =? up).
  - injection H as <- _. exact Hcap.
  - apply IH in H; [lia | exact Hs1].
Qed.

(** What the first half of the cut does to the vertex count and the
    vertex capacity: nothing, or one vertex more, in the room there was
    or after the arenas were doubled because they were full. *)
Lemma cut_succ_capacity (tol : float) (mv : Z) (hi : nat -> Z)
    (hd : nat -> float) (c c' : voronoicell_2d) (up2 cp : Z) (l u2 : float) :
  cut_succ tol mv hi hd c up2 l u2 = Done (c', cp) ->
  current_delete_size c' = current_delete_size c /\
  ((p c' = p c /\ current_vertices c' = current_vertices c) \/
   (p c' = p c + 1 /\ p c <> current_vertices c /\
    current_vertices c' = current_vertices c) \/
   (p c' = p c + 1 /\ p c = current_vertices c /\
    current_vertices c' = 2 * current_vertices c)).
Proof.
  unfold cut_succ. destruct (- tol <? u2)%float.
  - intros [= <- _]. auto.
  - intros H.
    apply bind_Done in H as [c1 [Hg H]]. apply bind_Done in H as [lp [_ H]].
    apply bind_Done in H as [c2 [Hn H]]. apply bind_Done in H as [e1 [_ H]].
    apply bind_Done in H as [e2 [_ H]]. injection H as <- _. cbn.
    assert (Hc2 : p c2 = p c1 /\ current_vertices c2 = current_vertices c1 /\
                  current_delete_size c2 = current_delete_size c1).
    { unfold new_vertex in Hn.
      apply bind_Done in Hn as [xl [_ Hn]].
      apply bind_Done in Hn as [xu [_ Hn]].
      apply bind_Done in Hn as [a [_ Hn]]. cbn in Hn.
      apply bind_Done in Hn as [yl [_ Hn]].
      apply bind_Done in Hn as [yu [_ Hn]].
      apply bind_Done in Hn as [a' [_ Hn]]. injection Hn as <-. cbn. auto. }
    destruct Hc2 as [-> [-> ->]].
    destruct (Z.eqb_spec (p c) (current_vertices c)) as [E|E].
    + unfold add_memory_vertices in Hg. rewrite shiftl_one in Hg.
      destruct (mv <? _); [discriminate|].
      apply bind_Done in Hg as [npts [_ Hg]].
      apply bind_Done in Hg as [ned [_ Hg]]. injection Hg as <-. cbn.
      split; [reflexivity|]. right. right. auto.
    + injection Hg as <-. split; [reflexivity|]. right. left. auto.
Qed.

Lemma ran_Done (F : Prop) {A : Type} (a : A) : ran_or F (Done a).
Proof. left. eexists. reflexivity. Qed.

Lemma ran_Fatal (F : Prop) {A : Type} (msg : string) :
  F -> ran_or F (@Fatal A msg).
Proof. intros HF. right. split; [exact HF|]. eexists. reflexivity. Qed.

Lemma ran_bind (F : Prop) {A B : Type} (m : outcome A)
    (k : A -> outcome B) :
  ran_or F m -> (forall a, m = Done a -> ran_or F (k a)) ->
  ran_or F (bind m k).
Proof.
  intros [[a ->]|[HF [msg ->]]] Hk;
    [apply Hk; reflexivity | apply ran_Fatal, HF].
Qed.

(** A push grows the stack only when it is full, and stops only when the
    doubled size is above the absolute maximum. *)
Lemma push_runs (F : Prop) (mds : Z) (hi : nat -> Z) (c : voronoicell_2d)
    (stackp v : Z) :
  storage_ok c -> 0 <= stackp <= current_delete_size c ->
  F \/ stackp < current_delete_size c \/ 2 * stackp <= mds ->
  ran_or F (push mds hi c stackp v).
Proof.
  intros [Hp [Hl [He [Hd [Hse Hc]]]]] Hsp Hroom. unfold push.
  destruct (Z.eqb_spec stackp (stacke c)) as [E|E].
  - unfold add_memory_ds. rewrite shiftl_one.
    destruct (Z.ltb_spec mds (2 * current_delete_size c)) as [Hm|Hm].
    { apply ran_Fatal. destruct Hroom as [HF|Hroom]; [exact HF | lia]. }
    unfold copy_prefix. rewrite length_new_array.
    destruct (Z.leb_spec stackp 0); [lia|].
    destruct (Z.leb_spec stackp (Z.of_nat (length (ds c)))); [|lia].
    destruct (Z.leb_spec stackp
                (Z.of_nat (Z.to_nat (2 * current_delete_size c)))); [|lia].
    cbn [andb bind ds]. rewrite wr_in_range; [apply ran_Done|].
    rewrite length_app, length_take, length_drop, length_new_array. lia.
  - cbn [bind]. rewrite wr_in_range by lia. apply ran_Done.
Qed.

Section Runs.

Variable tol : float.
Variables mv mds : Z.
Variable hi : nat -> Z.
Variable hd : nat -> float.
Variable c : voronoicell_2d.
Variables x y rsq : float.

Hypothesis adjacent : adjacency_ok c.
Hypothesis stored : storage_ok c.

Local Abbreviation sc := (succ_of (ed c)).
Local Abbreviation pc := (pred_of (ed c)).
Local Abbreviation np := (Z.to_nat (p c)).

Lemma reach_succ (v w : Z) :
  0 <= v < p c -> 0 <= w < p c ->
  exists d, (1 <= d <= np)%nat /\ walk sc d v = w.
Proof.
  intros Hv Hw. pose proof (np_positive c adjacent) as Hn.
  destruct (rooted_reach c adjacent v Hv w Hw) as [j [Hj E]].
  destruct (Nat.eq_dec j 0%nat) as [->|H0].
  - exists np. split; [lia|]. rewrite rooted_period by assumption. exact E.
  - exists j. split; [lia | exact E].
Qed.

Lemma reach_pred (v w : Z) :
  0 <= v < p c -> 0 <= w < p c ->
  exists d, (1 <= d <= np)%nat /\ walk pc d v = w.
Proof.
  intros Hv Hw. destruct (reach_succ w v Hw Hv) as [d [Hd E]].
  exists d. split; [exact Hd|]. rewrite <- E.
  apply (walk_back sc pc (p c)); [apply S_stays | apply P_after_S | exact Hw];
    assumption.
Qed.

Lemma find_succ_runs (up3 : Z) :
  forall (d fuel : nat) (up2 : Z) (u2 : float),
  (1 <= d <= fuel)%nat -> 0 <= up2 < p c -> walk sc d up2 = up3 ->
  exists r, find_succ tol fuel c x y rsq up2 u2 up3 = Done r.
Proof.
  induction d as [|d IH]; intros fuel up2 u2 Hd Hr Hw; [lia|].
  destruct fuel as [|fuel]; [lia|]. cbn [find_succ].
  destruct (u2 <? tol)%float; [|eexists; reflexivity].
  destruct (rd_ed_ok c up2 stored Hr) as [-> _]. cbn [bind].
  pose proof (S_stays c adjacent up2 Hr) as Hr'.
  destruct (pos_ok c x y rsq _ stored Hr') as [u ->]. cbn [bind].
  destruct (Z.eqb_spec (sc up2) up3) as [E|E]; [eexists; reflexivity|].
  rewrite walk_succ_r in Hw.
  apply IH; [|exact Hr'|exact Hw].
  destruct d as [|d]; [contradiction | lia].
Qed.

Lemma find_pred_runs (up2 : Z) :
  forall (d fuel : nat) (up3 : Z) (u3 : float),
  (1 <= d <= fuel)%nat -> 0 <= up3 < p c -> walk pc d up3 = up2 ->
  exists r, find_pred tol fuel c x y rsq up2 up3 u3 = Done r.
Proof.
  induction d as [|d IH]; intros fuel up3 u3 Hd Hr Hw; [lia|].
  destruct fuel as [|fuel]; [lia|]. cbn [find_pred].
  destruct (u3 <? tol)%float; [|eexists; reflexivity].
  destruct (rd_ed_ok c up3 stored Hr) as [_ ->]. cbn [bind].
  pose proof (P_stays c adjacent up3 Hr) as Hr'.
  destruct (pos_ok c x y rsq _ stored Hr') as [u ->]. cbn [bind].
  destruct (Z.eqb_spec up2 (pc up3)) as [E|E]; [eexists; reflexivity|].
  rewrite walk_succ_r in Hw.
  apply IH; [|exact Hr'|exact Hw].
  destruct d as [|d]; [exfalso; apply E; symmetry; exact Hw | lia].
Qed.

Lemma find_outside_runs (fuel : nat) :
  (np <= fuel)%nat ->
  exists r, find_outside tol fuel c x y rsq = Done r.
Proof.
  intros Hf. pose proof (p_positive c adjacent) as Hp.
  assert (H0 : 0 <= 0 < p c) by lia.
  unfold find_outside.
  destruct (pos_ok c x y rsq 0 stored H0) as [u ->]. cbn [bind].
  destruct (u <? tol)%float; [|eexists; reflexivity].
  destruct (rd_ed_ok c 0 stored H0) as [-> ->]. cbn [bind].
  pose proof (S_stays c adjacent 0 H0) as Hs.
  pose proof (P_stays c adjacent 0 H0) as Hq.
  destruct (pos_ok c x y rsq _ stored Hs) as [u2 ->].
  destruct (pos_ok c x y rsq _ stored Hq) as [u3 ->]. cbn [bind].
  destruct (u3 <? u2)%float.
  - destruct (reach_succ _ _ Hs Hq) as [d [Hd E]].
    apply (find_succ_runs _ d); [lia | exact Hs | exact E].
  - destruct (reach_pred _ _ Hq Hs) as [d [Hd E]].
    apply (find_pred_runs _ d); [lia | exact Hq | exact E].
Qed.

Variable F : Prop.
Variable up : Z.
Hypothesis up_range : 0 <= up < p c.

Lemma sweep_succ_runs :
  forall (n fuel : nat) (cc : voronoicell_2d) (k : nat) (l u2 : float),
  (k + n = np)%nat -> (1 <= k)%nat -> (1 <= n <= fuel)%nat ->
  same_polygon c cc -> storage_ok cc ->
  Z.of_nat k <= current_delete_size cc ->
  F \/ p c <= current_delete_size cc \/ 2 * (p c - 1) <= mds ->
  ran_or F (sweep_succ tol mds hi fuel cc x y rsq up (Z.of_nat k)
              (walk sc k up) l u2).
Proof.
  induction n as [|n IH]; intros fuel cc k l u2 Hk Hk1 Hn Hcc Hs Hsp Hroom;
    [lia|].
  destruct fuel as [|fuel]; [lia|]. cbn [sweep_succ].
  destruct (tol <? u2)%float; [|apply ran_Done].
  apply ran_bind.
  { apply push_runs; [exact Hs | lia|].
    destruct Hroom as [HF|Hroom]; [left; exact HF | right; lia]. }
  intros [c1 sp1] Hpush. cbn [bind].
  pose proof (push_capacity _ _ _ _ _ _ _ Hs Hpush) as Hcap.
  pose proof (push_storage _ _ _ _ _ _ _ Hs Hpush) as [Hs1 [-> Hr]].
  pose proof (push_polygon _ _ _ _ _ _ _ Hpush) as Hc1.
  assert (Hc01 : same_polygon c c1)
    by (eapply same_polygon_trans; eassumption).
  pose proof Hc01 as [_ [_ [_ Hed]]].
  assert (Hw : 0 <= walk sc k up < p c) by (apply walk_stays; assumption).
  rewrite Hed. destruct (rd_ed_ok c _ stored Hw) as [-> _]. cbn [bind].
  rewrite (pos_same_polygon c c1) by exact Hc01.
  pose proof (S_stays c adjacent _ Hw) as Hw'.
  destruct (pos_ok c x y rsq _ stored Hw') as [u' ->]. cbn [bind].
  change (sc (walk sc k up)) with (walk sc (S k) up).
  destruct (Z.eqb_spec (walk sc (S k) up) up) as [E|E]; [apply ran_Done|].
  replace (Z.of_nat k + 1) with (Z.of_nat (S k)) by lia.
  assert (Hn1 : (n <> 0)%nat).
  { intros ->. apply E. replace (S k) with np by lia.
    apply rooted_period; assumption. }
  apply IH; try lia; try assumption.
  destruct Hroom as [HF|Hroom]; [left; exact HF | right; lia].
Qed.

End Runs.

(** *** The two new vertices *)

(** A new vertex grows the arenas only when they are full, and stops
    only when the doubled size is above the absolute maximum. *)
Lemma grow_if_full_runs (F : Prop) (mv : Z) (hi : nat -> Z)
    (hd : nat -> float) (c : voronoicell_2d) :
  storage_ok c ->
  F \/ p c < current_vertices c \/ 2 * current_vertices c <= mv ->
  ran_or F (if p c =? current_vertices c
            then add_memory_vertices mv hi hd c else Done c).
Proof.
  intros [Hp [Hl [He [Hd [Hse Hc]]]]] Hroom.
  destruct (Z.eqb_spec (p c) (current_vertices c)) as [Ep|Ep];
    [|apply ran_Done].
  unfold add_memory_vertices. rewrite shiftl_one.
  destruct (Z.ltb_spec mv (2 * current_vertices c)) as [Hm|Hm].
  { apply ran_Fatal. destruct Hroom as [HF|Hroom]; [exact HF | lia]. }
  replace (2 * current_vertices c) with (Z.of_nat (length (pts c))) at 1
    by exact Hl.
  rewrite copy_prefix_whole by (rewrite length_new_array; lia).
  cbn [bind].
  replace (2 * current_vertices c) with (Z.of_nat (length (ed c))) at 1
    by exact He.
  rewrite copy_prefix_whole by (rewrite length_new_array; lia).
  apply ran_Done.
Qed.

Lemma grow_if_full_room (mv : Z) (hi : nat -> Z) (hd : nat -> float)
    (c c' : voronoicell_2d) :
  storage_ok c -> 1 <= p c ->
  (if p c =? current_vertices c
   then add_memory_vertices mv hi hd c else Done c) = Done c' ->
  p c' < current_vertices c'.
Proof.
  intros [Hp _] H1. destruct (Z.eqb_spec (p c) (current_vertices c)) as [E|E].
  - unfold add_memory_vertices. rewrite shiftl_one.
    destruct (mv <? _); [discriminate|].
    intros H. apply bind_Done in H as [npts [_ H]].
    apply bind_Done in H as [ned [_ H]]. injection H as <-. cbn. lia.
  - intros [= <-]. lia.
Qed.

Lemma new_vertex_runs (c : voronoicell_2d) (lp up : Z) (l u : float) :
  storage_ok c -> p c < current_vertices c ->
  0 <= lp < current_vertices c -> 0 <= up < current_vertices c ->
  exists c', new_vertex c lp up l u = Done c'.
Proof.
  intros [Hp [Hl _]] Hlt Hlp Hup. unfold new_vertex.
  destruct (rd_in_range (pts c) (2 * lp)) as [xl ->]; [lia|].
  destruct (rd_in_range (pts c) (2 * up)) as [xu ->]; [lia|].
  cbn [bind]. rewrite wr_in_range by lia. cbn [bind pts p set_pts].
  match goal with |- context [rd ?a (2 * lp + 1)] =>
    destruct (rd_in_range a (2 * lp + 1)) as [yl ->];
      [rewrite length_insert; lia|];
    destruct (rd_in_range a (2 * up + 1)) as [yu ->];
      [rewrite length_insert; lia|]
  end.
  cbn [bind]. rewrite wr_in_range by (rewrite length_insert; lia).
  eexists. reflexivity.
Qed.

Lemma cut_succ_runs (F : Prop) (tol : float) (mv : Z) (hi : nat -> Z)
    (hd : nat -> float) (c : voronoicell_2d) (up2 : Z) (l u2 : float) :
  storage_ok c -> 0 <= up2 < p c -> 0 <= pred_of (ed c) up2 < p c ->
  F \/ p c < current_vertices c \/ 2 * current_vertices c <= mv ->
  ran_or F (cut_succ tol mv hi hd c up2 l u2).
Proof.
  intros Hs Hu Hq Hroom. unfold cut_succ.
  destruct (- tol <? u2)%float; [apply ran_Done|].
  apply ran_bind; [apply grow_if_full_runs; [exact Hs | exact Hroom]|].
  intros c1 Hg. left.
  pose proof (grow_if_full_storage _ _ _ _ _ Hs Hg) as [Hs1 Hp1].
  pose proof (grow_if_full_room _ _ _ _ _ Hs ltac:(lia) Hg) as Hr1.
  pose proof (grow_if_full_frame _ _ _ _ _ Hg) as [_ [_ [_ Hed1]]].
  destruct (rd_ed_ok c1 up2 Hs1 ltac:(lia)) as [_ ->]. cbn [bind].
  destruct (Hed1 up2 Hu) as [_ ->].
  destruct (new_vertex_runs c1 (pred_of (ed c) up2) up2 l u2 Hs1 Hr1)
    as [c2 Hn]; [lia | lia|].
  rewrite Hn. cbn [bind].
  pose proof (new_vertex_frame _ _ _ _ _ _ Hn) as [Hp2 _].
  pose proof (new_vertex_storage _ _ _ _ _ _ Hs1 Hn)
    as [[Hp [Hl [He _]]] Hlt].
  rewrite wr_in_range by lia. cbn [bind].
  rewrite wr_in_range by (rewrite length_insert; lia).
  eexists. reflexivity.
Qed.

Lemma cut_pred_runs (F : Prop) (tol : float) (mv : Z) (hi : nat -> Z)
    (hd : nat -> float) (c : voronoicell_2d) (cp up3 : Z) (l u3 : float) :
  (tol <? u3)%float = false ->
  storage_ok c -> 0 <= up3 < p c -> 0 <= succ_of (ed c) up3 < p c ->
  0 <= cp < p c ->
  F \/ p c < current_vertices c \/ 2 * current_vertices c <= mv ->
  ran_or F (cut_pred tol mv hi hd c cp up3 l u3).
Proof.
  intros Hlow Hs Hu Hq Hcp Hroom. unfold cut_pred. rewrite Hlow.
  apply ran_bind; [apply grow_if_full_runs; [exact Hs | exact Hroom]|].
  intros c1 Hg. left.
  pose proof (grow_if_full_storage _ _ _ _ _ Hs Hg) as [Hs1 Hp1].
  pose proof (grow_if_full_room _ _ _ _ _ Hs ltac:(lia) Hg) as Hr1.
  pose proof (grow_if_full_frame _ _ _ _ _ Hg) as [_ [_ [_ Hed1]]].
  destruct (rd_ed_ok c1 up3 Hs1 ltac:(lia)) as [-> _]. cbn [bind].
  destruct (Hed1 up3 Hu) as [-> _].
  destruct (new_vertex_runs c1 (succ_of (ed c) up3) up3 l u3 Hs1 Hr1)
    as [c2 Hn]; [lia | lia|].
  rewrite Hn. cbn [bind].
  pose proof (new_vertex_frame _ _ _ _ _ _ Hn) as [Hp2 _].
  pose proof (new_vertex_storage _ _ _ _ _ _ Hs1 Hn)
    as [[Hp [Hl [He _]]] Hlt].
  rewrite wr_in_range by lia. cbn [bind].
  rewrite wr_in_range by (rewrite length_insert; lia). cbn [bind].
  rewrite wr_in_range by (rewrite !length_insert; lia). cbn [bind].
  rewrite wr_in_range by (rewrite !length_insert; lia).
  eexists. reflexivity.
Qed.

(** *** The marking loop *)

Lemma mark_deleted_runs (stackp : Z) :
  forall (n fuel : nat) (c : voronoicell_2d) (sp : Z),
  storage_ok c -> 0 <= sp -> sp + Z.of_nat n = stackp -> (n <= fuel)%nat ->
  (forall i, sp <= i < stackp ->
     exists v, ds c !! Z.to_nat i = Some v /\ 0 <= v < p c) ->
  exists c', mark_deleted fuel c sp stackp = Done c'.
Proof.
  induction n as [|n IH]; intros fuel c sp Hs Hsp Hn Hf Hds.
  - destruct fuel; simpl; destruct (Z.ltb_spec sp stackp); try lia;
      eexists; reflexivity.
  - destruct fuel as [|fuel]; [lia|]. cbn [mark_deleted].
    destruct (Z.ltb_spec sp stackp); [|lia].
    destruct (Hds sp ltac:(lia)) as [v [Hv Hr]].
    assert (E : rd (ds c) sp = Done v) by (apply rd_Done; auto).
    rewrite E. cbn [bind].
    pose proof Hs as [Hp [Hl [He [Hd [Hse Hc]]]]].
    rewrite wr_in_range by lia. cbn [bind].
    apply IH; try lia.
    + unfold storage_ok. cbn. rewrite length_insert. repeat split; lia.
    + intros i Hi. cbn. apply Hds. lia.
Qed.

(** *** The pred sweep *)

Section PredSweepRuns.

Variable tol : float.
Variable mds : Z.
Variable hi : nat -> Z.
Variable c : voronoicell_2d.
Variables x y rsq : float.
Hypothesis adjacent : adjacency_ok c.

Variable up : Z.
Hypothesis up_range : 0 <= up < p c.

Local Abbreviation pc := (pred_of (ed c)).

(** The cell the first half of the cut left. *)
Variable c3 : voronoicell_2d.
Variable up2 : Z.
Variable u2 : float.
Hypothesis c3_pred : forall v, 0 <= v < p c -> v <> up2 ->
  pred_of (ed c3) v = pc v.
Hypothesis c3_p : p c <= p c3.
Hypothesis up2_pos : pos c3 x y rsq up2 = Done u2.
Hypothesis up2_low : (tol <? u2)%float = false.

Variable d : nat.
Hypothesis up2_reached : walk pc d up = up2.

Variable F : Prop.

Lemma sweep_pred_runs :
  forall (n fuel : nat) (cc : voronoicell_2d) (j : nat) (stackp : Z)
         (l u3 : float),
  (j + n = d)%nat -> (n <= fuel)%nat ->
  same_polygon c3 cc -> storage_ok cc ->
  0 <= stackp <= current_delete_size cc ->
  pos cc x y rsq (walk pc j up) = Done u3 ->
  stackp + Z.of_nat n < p c ->
  F \/ p c <= current_delete_size cc \/ 2 * (p c - 1) <= mds ->
  ran_or F (sweep_pred tol mds hi fuel cc x y rsq up2 stackp
              (walk pc j up) l u3).
Proof.
  assert (Hstay : forall k, 0 <= walk pc k up < p c).
  { intros k. apply walk_range; [|exact up_range].
    intros v Hv. apply P_stays; assumption. }
  assert (Hstop : forall (cc : voronoicell_2d) (j : nat) (u3 : float),
            same_polygon c3 cc ->
            pos cc x y rsq (walk pc j up) = Done u3 ->
            (tol <? u3)%float = true -> walk pc j up <> up2).
  { intros cc j u3 Hcc Hpos Ht E. rewrite E in Hpos.
    rewrite (pos_same_polygon c3 cc) in Hpos by exact Hcc.
    rewrite up2_pos in Hpos. injection Hpos as <-. congruence. }
  induction n as [|n IH];
    intros fuel cc j stackp l u3 Hj Hf Hcc Hs Hsp Hpos Hbound Hroom.
  - destruct (tol <? u3)%float eqn:Ht.
    + exfalso. apply (Hstop cc j u3 Hcc Hpos Ht).
      replace j with d by lia. exact up2_reached.
    + destruct fuel; simpl; rewrite Ht; apply ran_Done.
  - destruct fuel as [|fuel]; [lia|]. cbn [sweep_pred].
    destruct (tol <? u3)%float eqn:Ht; [|apply ran_Done].
    pose proof (Hstop cc j u3 Hcc Hpos Ht) as Hne.
    apply ran_bind.
    { apply push_runs; [assumption | assumption|].
      destruct Hroom as [HF|Hroom]; [left; exact HF | right; lia]. }
    intros [c1 sp1] Hpush. cbn [bind].
    pose proof (push_capacity _ _ _ _ _ _ _ Hs Hpush) as Hcap.
    pose proof (push_storage _ _ _ _ _ _ _ Hs Hpush) as [Hs1 [-> Hr]].
    pose proof (push_polygon _ _ _ _ _ _ _ Hpush) as Hc1.
    assert (Hc31 : same_polygon c3 c1)
      by (eapply same_polygon_trans; eassumption).
    pose proof Hc31 as [Hp1 [_ [_ Hed]]].
    pose proof (Hstay j) as Hw. pose proof (Hstay (S j)) as Hw'.
    destruct (rd_ed_ok c1 (walk pc j up) Hs1 ltac:(lia)) as [_ ->].
    cbn [bind]. rewrite Hed, c3_pred by assumption.
    change (pc (walk pc j up)) with (walk pc (S j) up).
    destruct (pos_ok c1 x y rsq (walk pc (S j) up) Hs1 ltac:(lia))
      as [u' Hu'].
    rewrite Hu'. cbn [bind].
    destruct (walk pc (S j) up =? up2); [apply ran_Done|].
    apply IH; try lia; try assumption.
    destruct Hroom as [HF|Hroom]; [left; exact HF | right; lia].
Qed.

End PredSweepRuns.

(** *** The compaction loop *)

Lemma skip_deleted_runs (e : list Z) :
  forall (fuel : nat) (q : Z),
  (Z.to_nat q <= fuel)%nat -> 2 * q <= Z.of_nat (length e) ->
  (exists v, 0 <= v < q /\ succ_of e v <> -1) ->
  exists q', skip_deleted fuel e q = Done q'.
Proof.
  induction fuel as [|fuel IH]; intros q Hf Hl [v [Hv Hs]]; [lia|].
  cbn [skip_deleted].
  destruct (rd_in_range e (2 * (q - 1))) as [s Hrd]; [lia|].
  rewrite Hrd. cbn [bind]. apply succ_of_rd in Hrd as [Hrd _].
  destruct (Z.eqb_spec s (-1)) as [E|E]; [|eexists; reflexivity].
  apply IH; [lia | lia|]. exists v. split; [|exact Hs].
  destruct (Z.eq_dec v (q - 1)) as [->|]; [congruence | lia].
Qed.

Lemma relocate_ds (c c' : voronoicell_2d) (up : Z) :
  relocate c up = Done c' -> ds c' = ds c.
Proof.
  intros H. apply relocate_spec in H as [[_ ->]|[_ [_ [H _]]]];
    [reflexivity | exact H].
Qed.

Lemma relocate_runs (c : voronoicell_2d) (up : Z) :
  storage_ok c -> p c < current_vertices c -> 0 <= up ->
  0 <= succ_of (ed c) (p c) < current_vertices c ->
  0 <= pred_of (ed c) (p c) < current_vertices c ->
  exists c', relocate c up = Done c'.
Proof.
  intros [Hp [Hl [He _]]] Hlt Hup Ha Hb. unfold relocate.
  destruct (Z.ltb_spec up (p c)) as [Hu|Hu]; [|eexists; reflexivity].
  destruct (rd_in_range (ed c) (2 * p c)) as [s Hs]; [lia|].
  rewrite Hs. cbn [bind]. apply succ_of_rd in Hs as [<- _].
  destruct (wr (ed c) (2 * succ_of (ed c) (p c) + 1) up) as [e1| | |] eqn:E1;
    try (rewrite wr_in_range in E1 by lia; discriminate).
  cbn [bind]. pose proof (wr_pred _ _ _ _ E1) as W1.
  apply wr_length in E1 as [L1 _].
  destruct (rd_in_range e1 (2 * p c + 1)) as [q Hq]; [lia|].
  rewrite Hq. cbn [bind]. apply pred_of_rd in Hq as [Hq _].
  destruct (W1 (p c) ltac:(lia)) as [Hq1 _]. rewrite Hq1 in Hq.
  assert (Hqr : 0 <= q < current_vertices c).
  { destruct (p c =? succ_of (ed c) (p c)); lia. }
  rewrite wr_in_range by lia. cbn [bind].
  destruct (rd_in_range (pts c) (2 * p c)) as [vx ->]; [lia|]. cbn [bind].
  rewrite wr_in_range by lia. cbn [bind].
  match goal with |- context [rd ?a (2 * p c + 1)] =>
    destruct (rd_in_range a (2 * p c + 1)) as [vy ->];
      [rewrite length_insert; lia|]
  end.
  cbn [bind]. rewrite wr_in_range by (rewrite length_insert; lia).
  cbn [bind].
  match goal with |- context [rd ?a (2 * p c)] =>
    destruct (rd_in_range a (2 * p c)) as [s' ->];
      [rewrite length_insert; lia|]
  end.
  cbn [bind]. rewrite wr_in_range by (rewrite length_insert; lia).
  cbn [bind].
  match goal with |- context [rd ?a (2 * p c + 1)] =>
    destruct (rd_in_range a (2 * p c + 1)) as [q' ->];
      [rewrite !length_insert; lia|]
  end.
  cbn [bind]. rewrite wr_in_range by (rewrite !length_insert; lia).
  eexists. reflexivity.
Qed.

Lemma compact_runs :
  forall (n fuel : nat) (c : voronoicell_2d) (L : list Z),
  compacting c (Z.of_nat n) -> cycle_listing c L -> (1 <= length L)%nat ->
  storage_ok c -> Z.of_nat n <= Z.of_nat (length (ds c)) ->
  (n + Z.to_nat (p c) <= fuel)%nat ->
  exists c', compact fuel c (Z.of_nat n) = Done c'.
Proof.
  induction n as [|n IH]; intros fuel c L Hc HL Hlen Hs Hm Hf.
  - destruct fuel; eexists; reflexivity.
  - destruct fuel as [|fuel]; [lia|]. cbn [compact].
    destruct (Z.ltb_spec 0 (Z.of_nat (S n))); [|lia].
    pose proof Hs as [Hp [Hl [He [Hd [Hse Hcd]]]]].
    destruct (skip_deleted_runs (ed c) fuel (p c)) as [q Hq]; [lia | lia| |].
    { destruct (lookup_lt_is_Some_2 L 0%nat) as [v Hv]; [lia|].
      apply list_elem_of_lookup_2 in Hv. destruct HL as [_ [Hmem _]].
      apply Hmem in Hv. exists v. exact Hv. }
    rewrite Hq. cbn [bind].
    pose proof (skip_deleted_spec _ _ _ _ Hq) as [Hqr [Hql Htail]].
    destruct (rd_in_range (ds (set_p c q)) (Z.of_nat (S n) - 1))
      as [up Hup]; [cbn; lia|].
    rewrite Hup. cbn [bind].
    pose proof Hc as [_ [Htomb [_ Hlive]]].
    pose proof Hup as Hup'. apply rd_Done in Hup' as [_ Hup']. cbn in Hup'.
    assert (Hup0 : 0 <= up).
    { apply (Htomb up). exists (Z.of_nat (S n) - 1). split; [lia|].
      exact Hup'. }
    destruct (Hlive q ltac:(lia) Hql) as [Ha [Hb _]].
    destruct (relocate_runs (set_p c q) up) as [c2 Hrel];
      [unfold storage_ok; cbn; repeat split; lia
      | cbn; lia | exact Hup0 | cbn; lia | cbn; lia |].
    rewrite Hrel. cbn [bind].
    replace (Z.of_nat (S n) - 1) with (Z.of_nat n) by lia.
    pose proof (compacting_step c c2 _ q up Hc ltac:(lia) Hqr Hql Htail
                  Hup' Hrel) as Hc2.
    destruct (listing_step c c2 _ q up L Hc HL ltac:(lia) Hqr Hql Htail
                Hup' Hrel) as [L2 [HL2 [Hlen2 _]]].
    replace (Z.of_nat (S n) - 1) with (Z.of_nat n) in Hc2 by lia.
    pose proof (relocate_ds _ _ _ Hrel) as Hds2. cbn in Hds2.
    apply relocate_storage in Hrel as [Hs2 Hp2];
      [| unfold storage_ok; cbn; repeat split; lia | cbn; lia].
    cbn in Hp2.
    apply (IH fuel c2 L2); try assumption; try lia.
    rewrite Hds2. lia.
Qed.

(** *** The whole cut *)

Lemma cut_succ_leaves (tol : float) (mv : Z) (hi : nat -> Z) (hd : nat -> float)
    (c c2 c3 : voronoicell_2d) (x y rsq : float) (up2 cp : Z) (l2 u2 : float) :
  same_polygon c c2 -> 0 <= up2 < p c ->
  pos c2 x y rsq up2 = Done u2 ->
  cut_succ tol mv hi hd c2 up2 l2 u2 = Done (c3, cp) ->
  p c <= p c3 /\ ds c3 = ds c2 /\
  (forall v, 0 <= v < p c -> v <> up2 ->
     pred_of (ed c3) v = pred_of (ed c) v) /\
  (forall v, 0 <= v < p c -> succ_of (ed c3) v = succ_of (ed c) v) /\
  pos c3 x y rsq up2 = Done u2 /\
  0 <= cp < p c3.
Proof.
  intros [Hp2 [_ [_ Hed2]]] Hu Hpos Hcs.
  apply cut_succ_spec in Hcs as [[-> ->]|[-> [Hp3 [Hd3 [Ha3 [HS3 HP3]]]]]].
  - rewrite Hp2, Hed2. repeat split; auto; lia.
  - rewrite Hp2 in *. split; [lia|]. split; [exact Hd3|]. split; [|split].
    + intros v Hv Hne. rewrite HP3 by exact Hv.
      destruct (Z.eqb_spec v up2); [contradiction|].
      rewrite Hed2. reflexivity.
    + intros v Hv. rewrite HS3 by lia.
      destruct (Z.eqb_spec v (p c)); [lia|]. rewrite Hed2. reflexivity.
    + split; [|lia].
      rewrite (pts_agree_pos _ _ _ _ _ _ _ Ha3) by exact Hu. exact Hpos.
Qed.

(** plane on a polygon of at least two vertices that satisfies the
    adjacency invariants and whose storage is in shape: no read or write
    leaves an arena or the delete stack and every loop ends within
    2p + 2 rounds.  The fatal memory error needs a buffer that is full
    and cannot double: it is ruled out by two free vertex slots, or a
    vertex maximum of twice the capacity, and by p entries on the delete
    stack, or a stack maximum of 2(p - 1). *)
Lemma plane_ran_or (F : Prop) (tol : float) (mv mds : Z) (hi : nat -> Z)
    (hd : nat -> float) (fuel : nat) (c : voronoicell_2d) (x y rsq : float) :
  adjacency_ok c -> storage_ok c -> 2 <= p c ->
  (2 * Z.to_nat (p c) + 2 <= fuel)%nat ->
  F \/ p c + 2 <= current_vertices c \/ 2 * current_vertices c <= mv ->
  F \/ p c <= current_delete_size c \/ 2 * (p c - 1) <= mds ->
  ran_or F (plane tol mv mds hi hd fuel c x y rsq).
Proof.
  intros Hok Hs H2 Hf Hrv Hrd. pose proof Hok as [Hcyc [Hsingle Hst]].
  pose proof (single_cycle_no_fixpoint c Hsingle H2) as Hnf.
  pose proof Hs as [Hp [Hl [He [Hd [Hse Hcd]]]]].
  unfold plane.
  apply ran_bind.
  { left. apply find_outside_runs; [assumption | assumption | lia]. }
  intros found Hfind.
  destruct found as [[up u]|]; [|apply ran_Done].
  apply find_outside_range in Hfind as Hup; [| exact Hst | lia].
  rewrite wr_in_range by lia. cbn [bind].
  set (c1 := set_ds c (<[Z.to_nat 0 := up]> (ds c))).
  assert (Hc1 : same_polygon c c1) by (repeat split).
  assert (Hs1 : storage_ok c1).
  { unfold storage_ok, c1. cbn. rewrite length_insert. repeat split; lia. }
  assert (Hcd1 : current_delete_size c1 = current_delete_size c)
    by reflexivity.
  change (ed c1) with (ed c).
  destruct (rd_ed_ok c up Hs Hup) as [Hrd_s Hrd_p]. rewrite Hrd_s.
  cbn [bind].
  pose proof (S_stays c Hok up Hup) as Hsu.
  rewrite (pos_same_polygon c c1) by exact Hc1.
  destruct (pos_ok c x y rsq _ Hs Hsu) as [u2 Hu2]. rewrite Hu2. cbn [bind].
  change (succ_of (ed c) up) with (walk (succ_of (ed c)) 1 up) in *.
  change (0 + 1) with (Z.of_nat 1).
  apply ran_bind.
  { apply (sweep_succ_runs tol mds hi c x y rsq Hok Hs F up Hup
             (Z.to_nat (p c) - 1)); try lia; try assumption;
      destruct Hs1 as [_ [_ [_ [_ [_ Hc']]]]]; lia. }
  intros [c2 swept] Hsw.
  destruct swept as [[[[sp2 up2] l2] u2']|]; [|apply ran_Done].
  pose proof (sweep_succ_capacity _ _ _ _ _ _ _ _ _ _ _ _ _ _ _ Hs1 Hsw)
    as Hcap2.
  pose proof Hsw as Hsw0.
  apply sweep_succ_storage in Hsw0 as [Hs2 Hsp2];
    [| exact Hs1 | destruct Hs1 as [_ [_ [_ [_ [_ Hc']]]]]; lia].
  specialize (Hsp2 _ _ _ _ eq_refl).
  apply (sweep_succ_arc tol mds hi c x y rsq up) in Hsw;
    [| exact Hc1 | lia
     | intros i Hi; assert (i = 0%nat) as -> by lia;
       unfold c1; cbn; apply list_lookup_insert_eq; lia
     | intros t Ht; lia | intros Ht; lia
     | rewrite (pos_same_polygon c c1) by exact Hc1; exact Hu2].
  destruct Hsw as [K [l' [u2'' [Hr [HK [Hds [Hne [Hne2 [Hpos2 [Hlow Hc2]]]]]]]]]].
  injection Hr as -> -> -> ->.
  assert (Hside : forall t, (0 < t <= K)%nat ->
                            walk (succ_of (ed c)) t up <> up).
  { intros t Ht. destruct (Nat.eq_dec t K) as [->|Hne']; [|apply Hne; lia].
    destruct (Nat.eq_dec K 1%nat) as [->|HK1]; [|apply Hne2; lia].
    apply Hnf, Hup. }
  assert (HKp : (K < Z.to_nat (p c))%nat).
  { destruct (Nat.lt_ge_cases K (Z.to_nat (p c))) as [Hlt|Hge]; [exact Hlt|].
    exfalso. apply (Hside (Z.to_nat (p c))); [lia|].
    apply rooted_period; assumption. }
  set (w2 := walk (succ_of (ed c)) K up) in *.
  assert (Hw2 : 0 <= w2 < p c) by (apply walk_stays; assumption).
  assert (Hupne : up <> w2)
    by (intros E; apply (Hside K); [lia | symmetry; exact E]).
  pose proof Hc2 as [Hp2 [Hcv2 [_ Hed2]]].
  cbn [bind].
  apply ran_bind.
  { apply cut_succ_runs; [exact Hs2 | lia| |].
    - rewrite Hed2, Hp2. apply P_stays; assumption.
    - rewrite Hp2, Hcv2.
      destruct Hrv as [HF|Hrv]; [left; exact HF | right; lia]. }
  intros [c3 cp] Hcs.
  pose proof (cut_succ_capacity _ _ _ _ _ _ _ _ _ _ Hcs) as [Hcd3 Hcap3].
  pose proof (cut_succ_storage _ _ _ _ _ _ _ _ _ _ Hs2 Hcs) as Hs3.
  pose proof (cut_succ_leaves _ _ _ _ c c2 c3 x y rsq w2 cp _ _ Hc2 Hw2
                Hpos2 Hcs) as [Hp3 [Hd3 [HP3 [HS3 [Hpos2' Hcp]]]]].
  destruct (rd_ed_ok c3 up Hs3 ltac:(lia)) as [_ Hrd3]. rewrite Hrd3.
  cbn [bind].
  pose proof (P_stays c Hok up Hup) as Hpu.
  destruct (pos_ok c3 x y rsq (pred_of (ed c3) up) Hs3) as [u3 Hu3].
  { rewrite HP3 by assumption. lia. }
  rewrite Hu3. cbn [bind].
  destruct (reach_pred c Hok up w2 Hup Hw2) as [d [Hdr Hd_reach]].
  assert (HdK : (d + K = Z.to_nat (p c))%nat).
  { pose proof Hd_reach as E.
    rewrite (rooted_pred c Hok up Hup d) in E by lia.
    apply (rooted_injective c Hok up Hup) in E; lia. }
  apply ran_bind.
  { assert (E1 : pred_of (ed c3) up = walk (pred_of (ed c)) 1 up)
      by (rewrite HP3 by assumption; reflexivity).
    rewrite E1 in *.
    apply (sweep_pred_runs tol mds hi c x y rsq Hok up Hup c3 w2 u2'' HP3 Hp3
             Hpos2' Hlow d Hd_reach F (d - 1)); try lia; try assumption.
    - apply same_polygon_refl.
    - rewrite Hcd3.
      destruct Hrd as [HF|Hrd]; [left; exact HF | right; lia]. }
  intros [c4 [[[sp4 up3] l4] u4]] Hsp.
  pose proof Hsp as Hsp'.
  pose proof Hsp as Hsp0.
  apply sweep_pred_storage in Hsp0 as [Hs4 Hsp4]; [| exact Hs3 | lia].
  assert (E1 : pred_of (ed c3) up = walk (pred_of (ed c)) 1 up)
    by (rewrite HP3 by assumption; reflexivity).
  rewrite E1 in Hsp', Hu3.
  replace (Z.of_nat K) with (Z.of_nat (K + 0)) in Hsp' by lia.
  apply (sweep_pred_arc tol mds hi c x y rsq up Hst Hup c3
           w2 u2'' K HP3 Hpos2' Hlow) in Hsp';
    [| apply same_polygon_refl
     | intros i Hi; rewrite Hd3; apply Hds, Hi
     | intros i Hi; lia | intros i Hi; lia | exact Hu3].
  destruct Hsp' as [R [l'' [u3' [Hr [_ [Hds4 [Hdp4 [Hpside [Hlow3 Hc4]]]]]]]]].
  injection Hr as -> -> -> ->.
  pose proof Hc4 as [Hp4 [Hcv4 [_ Hed4]]].
  pose proof (kept_room c Hok up Hup K R HK Hside Hpside) as Hroom.
  set (w3 := walk (pred_of (ed c)) (S R) up) in *.
  assert (Hw3 : 0 <= w3 < p c).
  { apply walk_range; [|exact Hup]. intros v Hv. apply P_stays; assumption. }
  cbn [bind].
  apply ran_bind.
  { apply cut_pred_runs; [exact Hlow3 | exact Hs4 | lia | | lia|].
    - rewrite Hed4, Hp4, HS3 by exact Hw3.
      pose proof (S_stays c Hok w3 Hw3). lia.
    - rewrite Hp4, Hcv4.
      destruct Hrv as [HF|Hrv]; [left; exact HF | right; lia]. }
  intros c5 Hcp5.
  pose proof (cut_pred_storage _ _ _ _ _ _ _ _ _ _ Hs4 Hcp5) as Hs5.
  pose proof (cut_pred_spec _ _ _ _ _ _ _ _ _ _ Hlow3 Hcp5)
    as [Hp5 [Hd5 _]].
  apply ran_bind.
  { left. apply (mark_deleted_runs _ (K + R)); try lia; [exact Hs5|].
    intros i Hi. rewrite Hd5.
    assert (Hstay : forall k, 0 <= walk (pred_of (ed c)) k up < p c).
    { intros k. apply walk_range; [|exact Hup].
      intros v Hv. apply P_stays; assumption. }
    destruct (Z.ltb_spec i (Z.of_nat K)) as [Hlt|Hge].
    - eexists. split; [apply Hds4; lia|].
      pose proof (walk_stays c Hok (Z.to_nat i) up Hup). lia.
    - exists (walk (pred_of (ed c)) (Z.to_nat i - K + 1) up). split.
      + replace (Z.to_nat i) with (K + (Z.to_nat i - K + 1) - 1)%nat at 1
          by lia.
        apply Hdp4. lia.
      + pose proof (Hstay (Z.to_nat i - K + 1)%nat). lia. }
  intros c6 Hmk.
  pose proof (mark_deleted_storage _ _ _ _ _ Hs5 Hmk) as Hs6.
  rewrite E1 in Hsp, Hrd3.
  destruct (cut_leaves_listing tol mv mds hi hd c x y rsq up fuel K
              c2 c3 c4 c5 c6 l' u2'' u u3 l'' u3' cp
              (walk (pred_of (ed c)) 1 up) (Z.of_nat (K + R)) w3)
    as [R' [ER [_ [Hp6 [Hcomp [_ [news [Hnews HL]]]]]]]]; try assumption.
  assert (R' = R) as -> by lia.
  set (L := kept_vertices c up K R ++ news) in *.
  assert (Hlen : (1 <= length L)%nat)
    by (unfold L; rewrite length_app; lia).
  apply mark_deleted_stack in Hmk as [_ [Hd6 _]].
  left. destruct (compact_runs (K + R) fuel c6 L) as [c7 Hc7];
    try assumption; try lia.
  - rewrite Hd6, Hd5. destruct Hs4 as [_ [_ [_ [Hd4' _]]]]. lia.
  - rewrite Hc7. cbn [bind]. eexists. reflexivity.
Qed.



(** plane does not stop with the fatal memory error while its buffers
    have room or may grow: on a polygon of at least two vertices that
    satisfies the adjacency invariants, with storage in shape and a
    vertex capacity below 2^29, it returns (true or false) whenever the
    arenas have two free vertex slots or the vertex maximum allows twice
    the capacity, and the delete stack holds p entries or its maximum
    allows 2(p - 1).  The bound on the capacity keeps every size the
    growth computes inside an [int]: the arenas grow to at most four
    times the capacity in entries, and the delete stack grows only while
    it holds fewer than p entries, to at most 2(p - 1). *)
Theorem plane_returns_with_room (tol : float) (mv mds : Z) (hi : nat -> Z)
    (hd : nat -> float) (fuel : nat) (c : voronoicell_2d) (x y rsq : float) :
  adjacency_ok c -> storage_ok c -> 2 <= p c ->
  (2 * Z.to_nat (p c) + 2 <= fuel)%nat ->
  4 * current_vertices c <= int_max ->
  p c + 2 <= current_vertices c \/ 2 * current_vertices c <= mv ->
  p c <= current_delete_size c \/ 2 * (p c - 1) <= mds ->
  exists b c', plane tol mv mds hi hd fuel c x y rsq = Done (b, c').
Proof.
  intros Hok Hs H2 Hf _ Hrv Hrd.
  assert (H : ran_or False (plane tol mv mds hi hd fuel c x y rsq)).
  { apply plane_ran_or; try assumption; right; assumption. }
  destruct H as [[[b c'] H]|[[] _]]. exists b, c'. exact H.
Qed.

Lemma plane_returns_with_room_witness :
  exists b c', Sample.plane 10 Sample.square 1 1 1 = Done (b, c').
Proof.
  apply (plane_returns_with_room Sample.tolerance Sample.max_vertices
           Sample.max_delete_size (fun _ => 0) (fun _ => 0%float) 10
           Sample.square 1 1 1);
    [exact adjacency_ok_square | exact storage_ok_square
    | vm_compute; discriminate | vm_compute; lia
    | vm_compute; discriminate
    | left; vm_compute; discriminate | left; vm_compute; discriminate].
Defined.

(** ** The boundary after a cut *)

Lemma fmap_rotate {A B : Type} (f : A -> B) (n : nat) (l : list A) :
  f <$> rotate n l = rotate n (f <$> l).
Proof.
  unfold rotate.
  rewrite fmap_app, fmap_drop, fmap_take, length_fmap. reflexivity.
Qed.

(** The vertices a cut keeps are a run of consecutive vertices of the
    boundary. *)
Lemma kept_run (c : voronoicell_2d) (up : Z) (K R : nat) :
  adjacency_ok c -> 0 <= up < p c -> (K + R < Z.to_nat (p c))%nat ->
  exists s, kept_vertices c up K R =
            take (Z.to_nat (p c) - K - R) (rotate s (boundary c)).
Proof.
  intros Hok Hup Hroom. pose proof Hok as [_ [[Hp [Hreach Hback]] _]].
  destruct (Hreach up Hup) as [j0 [Hj0 Hw]].
  exists (K + j0)%nat. apply list_eq. intros i.
  unfold kept_vertices, boundary.
  change (map (nth_vertex c) (seq 0 (Z.to_nat (p c))))
    with (nth_vertex c <$> seq 0 (Z.to_nat (p c))).
  rewrite list_lookup_fmap.
  destruct (Nat.lt_ge_cases i (Z.to_nat (p c) - K - R)) as [Hi|Hi].
  - rewrite lookup_take_lt by exact Hi.
    rewrite lookup_rotate_r by (rewrite length_fmap, length_seq; lia).
    rewrite rotate_nat_add_mod, length_fmap, length_seq, list_lookup_fmap.
    rewrite lookup_seq_lt by exact Hi.
    rewrite lookup_seq_lt by (apply Nat.mod_upper_bound; lia).
    cbn [fmap option_fmap option_map]. f_equal. unfold nth_vertex.
    rewrite <- Hw, <- walk_add.
    replace (K + i + j0)%nat with (K + j0 + i)%nat by lia.
    apply walk_mod; [lia | exact Hback].
  - rewrite lookup_take_ge by exact Hi.
    rewrite (lookup_ge_None_2 (seq K _)) by (rewrite length_seq; lia).
    reflexivity.
Qed.

(** plane, returning true on a polygon of at least two vertices that
    satisfies the adjacency invariants, either leaves the cell as it was
    or keeps a run of consecutive vertices of the old boundary: read from
    vertex 0 along succ, the coordinates of the new boundary are, up to
    the vertex the reading starts at, those of [n] consecutive vertices
    of the old boundary, unchanged and in their old order, followed by
    one or two new points; at least one old vertex stays and at least
    one goes. *)
Theorem plane_keeps_boundary_run (tol : float) (mv mds : Z) (hi : nat -> Z)
    (hd : nat -> float) (fuel : nat) (c c' : voronoicell_2d)
    (x y rsq : float) :
  adjacency_ok c -> 2 <= p c ->
  plane tol mv mds hi hd fuel c x y rsq = Done (true, c') ->
  c' = c \/
  exists (s r n : nat) (news : list (float * float)),
    (1 <= n < Z.to_nat (p c))%nat /\ (1 <= length news <= 2)%nat /\
    coords c' <$> boundary c' =
    rotate r ((coords c <$> take n (rotate s (boundary c))) ++ news).
Proof.
  intros Hok H2 H.
  destruct (plane_cut_listing tol mv mds hi hd fuel c c' x y rsq Hok H2 H)
    as [->|[up [K [R [news [L' [Hup [HK [Hroom [Hnews
         [Hcyc' [Hst' [HL' Hco]]]]]]]]]]]]];
    [left; reflexivity | right].
  destruct (kept_run c up K R Hok Hup Hroom) as [s Hrun].
  assert (Hlen : (1 <= length L')%nat).
  { rewrite <- (length_fmap (coords c') L'), Hco, length_app. lia. }
  destruct (listing_bounds c' L' HL' Hst' Hlen) as [Hp' _].
  destruct (listing_boundary c' L' HL') as [r Hr].
  { intros v Hv. pose proof (Hst' v Hv). lia. }
  { lia. }
  exists s, r, (Z.to_nat (p c) - K - R)%nat, news.
  split; [lia|]. split; [exact Hnews|].
  rewrite Hr, fmap_rotate, Hco, Hrun. reflexivity.
Qed.

Lemma plane_keeps_boundary_run_witness :
  adjacency_ok Sample.square /\ 2 <= p Sample.square /\
  exists c', Sample.plane 8 Sample.square 1 1 1 = Done (true, c') /\
    p c' = 5 /\
    (c' = Sample.square \/
     exists (s r n : nat) (news : list (float * float)),
       (1 <= n < Z.to_nat (p Sample.square))%nat /\
       (1 <= length news <= 2)%nat /\
       coords c' <$> boundary c' =
       rotate r ((coords Sample.square <$>
                    take n (rotate s (boundary Sample.square))) ++ news)).
Proof.
  split; [exact adjacency_ok_square|]. split; [vm_compute; discriminate|].
  unfold Sample.plane.
  destruct (plane Sample.tolerance Sample.max_vertices Sample.max_delete_size
              (fun _ => 0) (fun _ => 0%float) 8 Sample.square 1 1 1)
    as [[[|] c']| | |] eqn:E;
    try (vm_compute in E; discriminate).
  exists c'. split; [reflexivity|]. split.
  - vm_compute in E.
    apply (f_equal (fun o => match o with Done (_, d) => p d | _ => 0 end)) in E.
    simpl in E. symmetry. exact E.
  - apply (plane_keeps_boundary_run Sample.tolerance Sample.max_vertices
             Sample.max_delete_size (fun _ => 0) (fun _ => 0%float) 8
             Sample.square c' 1 1 1 adjacency_ok_square);
      [vm_compute; discriminate | exact E].
Defined.

(** ** What the return value false tells *)

(** The searches of lines 133-152 hand over a vertex together with its
    [pos] value, which is not below the tolerance. *)
Lemma find_succ_pos (tol : float) (c : voronoicell_2d) (x y rsq : float)
    (up3 : Z) :
  forall (fuel : nat) (up2 : Z) (u2 : float) (up : Z) (u : float),
  pos c x y rsq up2 = Done u2 ->
  find_succ tol fuel c x y rsq up2 u2 up3 = Done (Some (up, u)) ->
  pos c x y rsq up = Done u /\ (u <? tol)%float = false.
Proof.
  induction fuel as [|fuel IH]; intros up2 u2 up u Hpos; simpl;
    destruct (u2 <? tol)%float eqn:Hu; try discriminate;
    try (intros [= <- <-]; split; [exact Hpos | exact Hu]).
  intros H. apply bind_Done in H as [up2' [_ H]].
  apply bind_Done in H as [u2' [Hpos' H]].
  destruct (up2' =? up3); [discriminate|].
  apply IH in H; [exact H | exact Hpos'].
Qed.

Lemma find_pred_pos (tol : float) (c : voronoicell_2d) (x y rsq : float)
    (up2 : Z) :
  forall (fuel : nat) (up3 : Z) (u3 : float) (up : Z) (u : float),
  pos c x y rsq up3 = Done u3 ->
  find_pred tol fuel c x y rsq up2 up3 u3 = Done (Some (up, u)) ->
  pos c x y rsq up = Done u /\ (u <? tol)%float = false.
Proof.
  induction fuel as [|fuel IH]; intros up3 u3 up u Hpos; simpl;
    destruct (u3 <? tol)%float eqn:Hu; try discriminate;
    try (intros [= <- <-]; split; [exact Hpos | exact Hu]).
  intros H. apply bind_Done in H as [up3' [_ H]].
  apply bind_Done in H as [u3' [Hpos' H]].
  destruct (up2 =? up3'); [discriminate|].
  apply IH in H; [exact H | exact Hpos'].
Qed.

Lemma find_outside_pos (tol : float) (c : voronoicell_2d) (x y rsq : float)
    (fuel : nat) (up : Z) (u : float) :
  find_outside tol fuel c x y rsq = Done (Some (up, u)) ->
  pos c x y rsq up = Done u /\ (u <? tol)%float = false.
Proof.
  unfold find_outside. intros H.
  apply bind_Done in H as [u0 [Hpos0 H]].
  destruct (u0 <? tol)%float eqn:Hu0;
    [|injection H as <- <-; split; [exact Hpos0 | exact Hu0]].
  apply bind_Done in H as [up2 [_ H]]. apply bind_Done in H as [u2 [Hpos2 H]].
  apply bind_Done in H as [up3 [_ H]]. apply bind_Done in H as [u3 [Hpos3 H]].
  destruct (u3 <? u2)%float.
  - eapply find_succ_pos; [exact Hpos2 | exact H].
  - eapply find_pred_pos; [exact Hpos3 | exact H].
Qed.

(** The succ sweep gives up only after it came back to the vertex it
    started from, over vertices that are all above the tolerance. *)
Lemma sweep_succ_round (tol : float) (mds : Z) (hi : nat -> Z)
    (c : voronoicell_2d) (x y rsq : float) (up : Z) :
  forall (fuel : nat) (cc : voronoicell_2d) (k : nat) (stackp : Z)
         (l u2 : float) (c' : voronoicell_2d),
  same_polygon c cc ->
  pos c x y rsq (walk (succ_of (ed c)) k up) = Done u2 ->
  sweep_succ tol mds hi fuel cc x y rsq up stackp
    (walk (succ_of (ed c)) k up) l u2 = Done (c', None) ->
  exists n : nat,
    walk (succ_of (ed c)) (k + n + 1) up = up /\
    forall j, (k <= j <= k + n)%nat ->
      exists u, pos c x y rsq (walk (succ_of (ed c)) j up) = Done u /\
                (tol <? u)%float = true.
Proof.
  induction fuel as [|fuel IH]; intros cc k stackp l u2 c' Hcc Hpos; simpl;
    destruct (tol <? u2)%float eqn:Hu; try discriminate.
  intros H.
  apply bind_Done in H as [[c1 sp1] [Hpush H]].
  apply bind_Done in H as [up2' [Hrd H]].
  apply bind_Done in H as [u2' [Hpos' H]].
  apply push_polygon in Hpush.
  assert (Hc01 : same_polygon c c1)
    by (eapply same_polygon_trans; eassumption).
  pose proof Hc01 as [_ [_ [_ Hed]]]. rewrite Hed in Hrd.
  apply succ_of_rd in Hrd as [<- _].
  rewrite (pos_same_polygon c c1) in Hpos' by exact Hc01.
  change (succ_of (ed c) (walk (succ_of (ed c)) k up))
    with (walk (succ_of (ed c)) (S k) up) in *.
  destruct (Z.eqb_spec (walk (succ_of (ed c)) (S k) up) up) as [E|E].
  - exists 0%nat. split.
    + replace (k + 0 + 1)%nat with (S k) by lia. exact E.
    + intros j Hj. assert (j = k) as -> by lia.
      exists u2. split; [exact Hpos | exact Hu].
  - apply IH in H; [|exact Hc01 | exact Hpos'].
    destruct H as [n [Hback Hall]]. exists (S n). split.
    + replace (k + S n + 1)%nat with (S k + n + 1)%nat by lia. exact Hback.
    + intros j Hj. destruct (Nat.eq_dec j k) as [->|Hne].
      * exists u2. split; [exact Hpos | exact Hu].
      * apply Hall. lia.
Qed.

(** plane returns false only when the whole cell is on the far side of
    the cutting line: one vertex is not below the tolerance and every
    other live vertex is above it. *)
Theorem plane_false_only_outside (tol : float) (mv mds : Z) (hi : nat -> Z)
    (hd : nat -> float) (fuel : nat) (c c' : voronoicell_2d)
    (x y rsq : float) :
  adjacency_ok c ->
  plane tol mv mds hi hd fuel c x y rsq = Done (false, c') ->
  exists up u,
    0 <= up < p c /\ pos c x y rsq up = Done u /\
    (u <? tol)%float = false /\
    forall v, 0 <= v < p c -> v <> up ->
      exists u', pos c x y rsq v = Done u' /\ (tol <? u')%float = true.
Proof.
  intros Hok H. pose proof Hok as [_ [[Hp _] Hst]].
  unfold plane in H.
  apply bind_Done in H as [found [Hfind H]].
  destruct found as [[up u]|]; [|discriminate].
  pose proof (find_outside_range _ _ _ _ _ _ _ _ Hst Hp Hfind) as Hup.
  apply find_outside_pos in Hfind as [Hpos Hu].
  apply bind_Done in H as [d [Hd H]].
  apply bind_Done in H as [up2 [Hup2 H]].
  apply bind_Done in H as [u2 [Hu2 H]].
  apply bind_Done in H as [[c2 swept] [Hsw H]].
  destruct swept as [[[[sp2 up2'] l2] u2']|].
  { apply bind_Done in H as [[c3 cp] [_ H]].
    apply bind_Done in H as [up3 [_ H]]. apply bind_Done in H as [u3 [_ H]].
    apply bind_Done in H as [[c4 [[[sp4 up3'] l4] u4]] [_ H]].
    apply bind_Done in H as [c5 [_ H]]. apply bind_Done in H as [c6 [_ H]].
    apply bind_Done in H as [c7 [_ H]]. discriminate. }
  cbn [ed] in Hup2. apply succ_of_rd in Hup2 as [<- _].
  assert (Hc1 : same_polygon c (set_ds c d)) by (repeat split).
  rewrite (pos_same_polygon c (set_ds c d)) in Hu2 by exact Hc1.
  change (succ_of (ed (set_ds c d)) up)
    with (walk (succ_of (ed c)) 1 up) in *.
  apply (sweep_succ_round tol mds hi c x y rsq up) in Hsw;
    [| exact Hc1 | exact Hu2].
  destruct Hsw as [n [Hback Hall]].
  exists up, u. split; [exact Hup|]. split; [exact Hpos|].
  split; [exact Hu|].
  intros v Hv Hne.
  destruct (rooted_reach c Hok up Hup v Hv) as [j [Hj Hw]].
  assert (Hj0 : j <> 0%nat) by (intros ->; apply Hne; symmetry; exact Hw).
  assert (Hn : (Z.to_nat (p c) <= 1 + n + 1)%nat).
  { destruct (Nat.lt_ge_cases (1 + n + 1) (Z.to_nat (p c))) as [Hlt|Hge];
      [|exact Hge].
    exfalso.
    apply (rooted_first_return c Hok up Hup (1 + n + 1)); [lia | exact Hback]. }
  rewrite <- Hw. apply Hall. lia.
Qed.

Lemma plane_false_only_outside_witness :
  adjacency_ok Sample.square /\
  exists c', Sample.plane 8 Sample.square 1 0 (-3) = Done (false, c') /\
    exists up u,
      0 <= up < p Sample.square /\
      pos Sample.square 1 0 (-3) up = Done u /\
      (u <? Sample.tolerance)%float = false /\
      forall v, 0 <= v < p Sample.square -> v <> up ->
        exists u', pos Sample.square 1 0 (-3) v = Done u' /\
                   (Sample.tolerance <? u')%float = true.
Proof.
  split; [exact adjacency_ok_square|].
  unfold Sample.plane.
  destruct (plane Sample.tolerance Sample.max_vertices Sample.max_delete_size
              (fun _ => 0) (fun _ => 0%float) 8 Sample.square 1 0 (-3))
    as [[[|] c']| | |] eqn:E;
    try (vm_compute in E; discriminate).
  exists c'. split; [reflexivity|].
  exact (plane_false_only_outside Sample.tolerance Sample.max_vertices
           Sample.max_delete_size (fun _ => 0) (fun _ => 0%float) 8
           Sample.square c' 1 0 (-3) adjacency_ok_square E).
Defined.
